(** * Ingestion core of the real-estate deal analyzer

    A shallow embedding of the two services that make up the ingestion core:

    - [DataNormalization]: the normalization and deduplication engine
      (src/services/DataNormalization.ts, class DataNormalizationService);
    - [JobQueueSystem]: the in-process priority job queue
      (src/services/HistoricalPricingService.ts, class JobQueueSystem).

    Conventions of the embedding.

    - A JavaScript number is a [jsnum]: NaN, the two infinities, or a finite
      value.  Finite doubles are idealised as exact rationals and the sign
      of zero is not tracked.  Every integer computation of the source
      (confidence scores, counts, delays, edit distances) is exact in both
      readings.
    - A string is a Rocq [string]; character classes and case mapping are
      the ASCII ones.
    - A property that may be absent from an object at run time is an
      [option]; calling a method on an absent value raises [TypeError],
      which is a [Throw] completion. *)

From Stdlib Require Import ZArith QArith Qabs Qround String Ascii List Lia Sorted.
From stdpp Require Import gmap strings list pretty.

(** ** JavaScript numbers *)

Inductive jsnum : Type :=
  | NaN
  | Inf (negative : bool)
  | Fin (q : Q).

Definition fin (q : Q) : jsnum := Fin (Qred q).

Definition ofZ (z : Z) : jsnum := Fin (inject_Z z).

Definition ofNat (n : nat) : jsnum := ofZ (Z.of_nat n).

Definition qsign (q : Q) : comparison := (q ?= 0)%Q.

Definition jneg (x : jsnum) : jsnum :=
  match x with
  | NaN => NaN
  | Inf s => Inf (negb s)
  | Fin q => fin (- q)
  end.

Definition jadd (x y : jsnum) : jsnum :=
  match x, y with
  | NaN, _ | _, NaN => NaN
  | Inf s, Inf s' => if Bool.eqb s s' then Inf s else NaN
  | Inf s, Fin _ | Fin _, Inf s => Inf s
  | Fin a, Fin b => fin (a + b)
  end.

Definition jsub (x y : jsnum) : jsnum := jadd x (jneg y).

Definition jmul (x y : jsnum) : jsnum :=
  match x, y with
  | NaN, _ | _, NaN => NaN
  | Inf s, Inf s' => Inf (xorb s s')
  | Inf s, Fin q | Fin q, Inf s =>
      match qsign q with
      | Eq => NaN
      | Gt => Inf s
      | Lt => Inf (negb s)
      end
  | Fin a, Fin b => fin (a * b)
  end.

(** Division follows IEEE 754 with an unsigned zero: 0/0 is NaN and a
    non-zero value over zero is an infinity of the sign of the dividend. *)
Definition jdiv (x y : jsnum) : jsnum :=
  match x, y with
  | NaN, _ | _, NaN => NaN
  | Inf _, Inf _ => NaN
  | Inf s, Fin q =>
      match qsign q with
      | Lt => Inf (negb s)
      | _ => Inf s
      end
  | Fin _, Inf _ => Fin 0
  | Fin a, Fin b =>
      match qsign b with
      | Eq =>
          match qsign a with
          | Eq => NaN
          | Gt => Inf false
          | Lt => Inf true
          end
      | _ => fin (a / b)
      end
  end.

(** Relational comparison; [None] when one side is NaN, which makes every
    one of [<], [<=], [>], [>=] false. *)
Definition jcompare (x y : jsnum) : option comparison :=
  match x, y with
  | NaN, _ | _, NaN => None
  | Inf s, Inf s' =>
      Some (if s then (if s' then Eq else Lt) else (if s' then Gt else Eq))
  | Inf s, Fin _ => Some (if s then Lt else Gt)
  | Fin _, Inf s => Some (if s then Gt else Lt)
  | Fin a, Fin b => Some (a ?= b)%Q
  end.

Definition jlt (x y : jsnum) : bool :=
  match jcompare x y with Some Lt => true | _ => false end.

Definition jle (x y : jsnum) : bool :=
  match jcompare x y with Some Lt | Some Eq => true | _ => false end.

Definition jgt (x y : jsnum) : bool :=
  match jcompare x y with Some Gt => true | _ => false end.

Definition jge (x y : jsnum) : bool :=
  match jcompare x y with Some Gt | Some Eq => true | _ => false end.

(** [Math.max], [Math.min], [Math.abs] and [Math.round] (round half up). *)
Definition jmax (x y : jsnum) : jsnum :=
  match jcompare x y with
  | None => NaN
  | Some Lt => y
  | Some _ => x
  end.

Definition jmin (x y : jsnum) : jsnum :=
  match jcompare x y with
  | None => NaN
  | Some Gt => y
  | Some _ => x
  end.

Definition jabs (x : jsnum) : jsnum :=
  match x with
  | NaN => NaN
  | Inf _ => Inf false
  | Fin q => fin (Qabs q)
  end.

Definition jround (x : jsnum) : jsnum :=
  match x with
  | Fin q => ofZ (Qfloor (q + (1 # 2)))
  | _ => x
  end.

(** [!x] for a number: zero and NaN are falsy. *)
Definition jfalsy (x : jsnum) : bool :=
  match x with
  | NaN => true
  | Inf _ => false
  | Fin q => Qeq_bool q 0
  end.

(** ToNumber of a possibly absent number: [undefined] becomes NaN. *)
Definition toNumber (x : option jsnum) : jsnum := default NaN x.

(** ** Completions *)

(** What a [throw] carries: an [Error] object with its message (a
    [TypeError] is one), or a value that is not an [Error]. *)
Inductive exn : Type :=
  | TypeError (message : string)
  | Error (message : string)
  | NonError.

Inductive completion (A : Type) : Type :=
  | Normal (value : A)
  | Throw (e : exn).

Arguments Normal {A} value.
Arguments Throw {A} e.

#[global] Instance completion_ret : MRet completion := @Normal.

#[global] Instance completion_bind : MBind completion :=
  fun A B (k : A -> completion B) (c : completion A) =>
    match c with
    | Normal v => k v
    | Throw e => Throw e
    end.

(** The receiver of a method call or property read: reading through an
    absent value raises. *)
Definition receiver {A : Type} (member : string) (v : option A)
  : completion A :=
  match v with
  | Some a => Normal a
  | None =>
      Throw (TypeError
        ("Cannot read properties of undefined (reading '" +:+ member +:+ "')"))
  end.

(** ** Strings *)

Definition code (c : ascii) : nat := nat_of_ascii c.

Definition between (lo hi : nat) (c : ascii) : bool :=
  (lo <=? code c)%nat && (code c <=? hi)%nat.

Definition isUpper : ascii -> bool := between 65 90.
Definition isLower : ascii -> bool := between 97 122.
Definition isDigit : ascii -> bool := between 48 57.

(** [\w] and [\s] of the regular expressions. *)
Definition isWordChar (c : ascii) : bool :=
  isUpper c || isLower c || isDigit c || (code c =? 95)%nat.

Definition isSpace (c : ascii) : bool :=
  between 9 13 c || (code c =? 32)%nat.

Definition toLowerChar (c : ascii) : ascii :=
  if isUpper c then ascii_of_nat (code c + 32) else c.

Definition toUpperChar (c : ascii) : ascii :=
  if isLower c then ascii_of_nat (code c - 32) else c.

Definition chars (s : string) : list ascii := list_ascii_of_string s.
Definition str (l : list ascii) : string := string_of_list_ascii l.

Definition toLowerCase (s : string) : string := str (map toLowerChar (chars s)).
Definition toUpperCase (s : string) : string := str (map toUpperChar (chars s)).

Fixpoint trimStartChars (l : list ascii) : list ascii :=
  match l with
  | c :: l' => if isSpace c then trimStartChars l' else l
  | [] => []
  end.

Definition trimChars (l : list ascii) : list ascii :=
  rev (trimStartChars (rev (trimStartChars l))).

Definition trim (s : string) : string := str (trimChars (chars s)).

(** [.replace(/\s+/g, ' ')]: every maximal run of white space becomes one
    blank. *)
Fixpoint collapseSpaces (inRun : bool) (l : list ascii) : list ascii :=
  match l with
  | [] => []
  | c :: l' =>
      if isSpace c
      then (if inRun then collapseSpaces true l'
            else " "%char :: collapseSpaces true l')
      else c :: collapseSpaces false l'
  end.

(** [.replace(/\b(w1|w2)\b/g, repl)]: the alternatives consist of word
    characters only, so a match is exactly a maximal run of word characters
    that equals one of them.  [cur] holds the current run, reversed. *)
Definition substWord (alts : list string) (repl : string) (w : list ascii)
  : list ascii :=
  if bool_decide (str w ∈ alts) then chars repl else w.

Fixpoint replaceWordsFrom (alts : list string) (repl : string)
    (cur : list ascii) (l : list ascii) : list ascii :=
  match l with
  | [] => substWord alts repl (rev cur)
  | c :: l' =>
      if isWordChar c then replaceWordsFrom alts repl (c :: cur) l'
      else substWord alts repl (rev cur) ++ c :: replaceWordsFrom alts repl [] l'
  end.

Definition replaceWords (alts : list string) (repl : string)
    (l : list ascii) : list ascii :=
  replaceWordsFrom alts repl [] l.

(** [.replace(/[^\w\s]/g, '')] and [.replace(/\D/g, '')]. *)
Definition stripPunctuation (l : list ascii) : list ascii :=
  List.filter (fun c => isWordChar c || isSpace c) l.

Definition stripNonDigits (l : list ascii) : list ascii :=
  List.filter isDigit l.

(** [.padStart(n, '0')]. *)
Definition padStartZero (n : nat) (l : list ascii) : list ascii :=
  repeat "0"%char (n - length l) ++ l.

(** A value read out of an object literal used as a lookup table: one of
    the table's own strings, or what the prototype chain answers for the
    key.  After lower-casing, the only inherited keys that can be asked for
    are [constructor] and [__proto__]; both answer a truthy object. *)
Inductive jsval : Type :=
  | VStr (s : string)
  | VInherited (key : string).

Definition inheritedKeys : list string := ["constructor"; "__proto__"].

Fixpoint ownProperty (table : list (string * string)) (key : string)
  : option string :=
  match table with
  | [] => None
  | (k, v) :: table' => if String.eqb k key then Some v else ownProperty table' key
  end.

(** [table[key] || fallback]. *)
Definition lookupOr (table : list (string * string)) (key : string)
    (fallback : string) : jsval :=
  match ownProperty table key with
  | Some v => if String.eqb v "" then VStr fallback else VStr v
  | None =>
      if bool_decide (key ∈ inheritedKeys) then VInherited key
      else VStr fallback
  end.

#[global] Instance Q_eq_dec : EqDecision Q.
Proof. solve_decision. Defined.

#[global] Instance jsnum_eq_dec : EqDecision jsnum.
Proof. solve_decision. Defined.

#[global] Instance jsval_eq_dec : EqDecision jsval.
Proof. solve_decision. Defined.

(** ** The normalization and deduplication engine *)

Module RawProperty.

(** interface RawProperty.  The interface declares every member except
    [zipCode] as required; the record keeps an [option] for each member the
    service reads through, so that objects that lack one at run time are
    part of the model. *)
Record t : Type := mk {
  id : string;
  source : string;
  address : option string;
  city : option string;
  state : option string;
  zipCode : option string;
  propertyType : option string;
  listingPrice : option jsnum;
  sqft : option jsnum
}.

End RawProperty.

Module NormalizedProperty.

(** interface NormalizedProperty.  [confidence] is the integer computed by
    [calculateConfidence]; [listingPrice] and [sqft] hold the raw values
    after ToNumber, which is how every later use reads them. *)
Record t : Type := mk {
  id : string;
  source : string;
  normalizedAddress : string;
  city : string;
  state : jsval;
  zipCode : string;
  propertyType : jsval;
  listingPrice : jsnum;
  sqft : jsnum;
  pricePerSqft : jsnum;
  confidence : Z;
  duplicateGroup : option string
}.

(** [prop.duplicateGroup = groupId]. *)
Definition setDuplicateGroup (groupId : string) (p : t) : t :=
  mk (id p) (source p) (normalizedAddress p) (city p) (state p) (zipCode p)
     (propertyType p) (listingPrice p) (sqft p) (pricePerSqft p)
     (confidence p) (Some groupId).

End NormalizedProperty.

#[global] Instance NormalizedProperty_eq_dec : EqDecision NormalizedProperty.t.
Proof. solve_decision. Defined.

Module DedupResult.

(** The object returned by [deduplicateProperties], and [propertiesAfter]:
    the objects of the input array as the call leaves them (the call tags
    them in place). *)
Record t : Type := mk {
  deduplicatedProperties : list NormalizedProperty.t;
  duplicateGroups : list (list NormalizedProperty.t);
  removedCount : Z;
  propertiesAfter : list NormalizedProperty.t
}.

End DedupResult.

Module Statistics.

Record t : Type := mk {
  totalInput : nat;
  normalizedCount : nat;
  duplicatesFound : nat;
  finalCount : nat;
  averageConfidence : jsnum
}.

End Statistics.

Module BatchResult.

Record t : Type := mk {
  normalizedProperties : list NormalizedProperty.t;
  deduplicatedProperties : list NormalizedProperty.t;
  statistics : Statistics.t
}.

End BatchResult.

Module DataNormalization.

Definition normalizeAddress (address : string) : string :=
  let s := chars (trim (toLowerCase address)) in
  let s := collapseSpaces false s in
  let s := replaceWords ["street"; "st"] "st" s in
  let s := replaceWords ["avenue"; "ave"] "ave" s in
  let s := replaceWords ["road"; "rd"] "rd" s in
  let s := replaceWords ["boulevard"; "blvd"] "blvd" s in
  let s := replaceWords ["drive"; "dr"] "dr" s in
  let s := replaceWords ["lane"; "ln"] "ln" s in
  let s := replaceWords ["court"; "ct"] "ct" s in
  let s := replaceWords ["place"; "pl"] "pl" s in
  let s := replaceWords ["parkway"; "pkwy"] "pkwy" s in
  let s := replaceWords ["circle"; "cir"] "cir" s in
  str (stripPunctuation s).

Definition typeMap : list (string * string) :=
  [ ("multi-family", "apartment");
    ("multifamily", "apartment");
    ("apartment complex", "apartment");
    ("apartments", "apartment");
    ("office building", "office");
    ("office space", "office");
    ("retail space", "retail");
    ("shopping center", "retail");
    ("strip mall", "retail");
    ("warehouse", "industrial");
    ("distribution", "industrial");
    ("manufacturing", "industrial");
    ("flex space", "industrial");
    ("mixed use", "mixed-use");
    ("mixed-use", "mixed-use") ].

Definition normalizePropertyType (type : string) : jsval :=
  let normalized := trim (toLowerCase type) in
  lookupOr typeMap normalized normalized.

Definition stateMap : list (string * string) :=
  [ ("georgia", "GA");
    ("florida", "FL");
    ("alabama", "AL");
    ("tennessee", "TN");
    ("north carolina", "NC");
    ("south carolina", "SC") ].

Definition normalizeState (state : string) : jsval :=
  let normalized := trim (toLowerCase state) in
  lookupOr stateMap normalized (toUpperCase state).

Definition normalizeZipCode (zipCode : string) : string :=
  str (padStartZero 5 (take 5 (stripNonDigits (chars zipCode)))).

(** Truthiness of a possibly absent string and of a possibly absent
    number. *)
Definition truthyString (s : option string) : bool :=
  match s with
  | Some s => negb (String.eqb s "")
  | None => false
  end.

Definition truthyNumber (x : option jsnum) : bool :=
  match x with
  | Some x => negb (jfalsy x)
  | None => false
  end.

Definition lengthOf (s : option string) : nat :=
  from_option String.length 0%nat s.

(** [s.match(/\d+/)] is non-null exactly when [s] holds a digit. *)
Definition matchesDigits (s : string) : bool := existsb isDigit (chars s).

Definition calculateConfidence (property : RawProperty.t) : completion Z :=
  let confidence := 100%Z in
  (* Address quality *)
  let confidence :=
    if negb (truthyString (RawProperty.address property))
       || (lengthOf (RawProperty.address property) <? 10)%nat
    then (confidence - 20)%Z else confidence in
  address ← receiver "match" (RawProperty.address property);
  let confidence :=
    if negb (matchesDigits address) then (confidence - 15)%Z else confidence in
  (* Location data *)
  let confidence :=
    if negb (truthyString (RawProperty.zipCode property))
    then (confidence - 15)%Z else confidence in
  let confidence :=
    if negb (truthyString (RawProperty.city property))
    then (confidence - 10)%Z else confidence in
  let confidence :=
    if negb (truthyString (RawProperty.state property))
    then (confidence - 10)%Z else confidence in
  (* Financial data *)
  let confidence :=
    if negb (truthyNumber (RawProperty.listingPrice property))
       || jle (toNumber (RawProperty.listingPrice property)) (ofZ 0)
    then (confidence - 20)%Z else confidence in
  let confidence :=
    if negb (truthyNumber (RawProperty.sqft property))
       || jle (toNumber (RawProperty.sqft property)) (ofZ 0)
    then (confidence - 15)%Z else confidence in
  (* Source reliability *)
  let confidence :=
    if String.eqb (RawProperty.source property) "LoopNet"
    then (confidence + 10)%Z
    else if String.eqb (RawProperty.source property) "Crexi"
    then (confidence + 5)%Z else confidence in
  mret (Z.max 0 (Z.min 100 confidence)).

Definition normalizeProperty (rawProperty : RawProperty.t)
  : completion NormalizedProperty.t :=
  address ← receiver "toLowerCase" (RawProperty.address rawProperty);
  let normalizedAddress := normalizeAddress address in
  rawState ← receiver "toLowerCase" (RawProperty.state rawProperty);
  let state := normalizeState rawState in
  let zipCode :=
    match RawProperty.zipCode rawProperty with
    | Some z => if String.eqb z "" then "00000" else normalizeZipCode z
    | None => "00000"
    end in
  rawType ← receiver "toLowerCase" (RawProperty.propertyType rawProperty);
  let propertyType := normalizePropertyType rawType in
  let pricePerSqft :=
    jdiv (toNumber (RawProperty.listingPrice rawProperty))
         (toNumber (RawProperty.sqft rawProperty)) in
  confidence ← calculateConfidence rawProperty;
  city ← receiver "trim" (RawProperty.city rawProperty);
  mret (NormalizedProperty.mk
    (RawProperty.id rawProperty)
    (RawProperty.source rawProperty)
    normalizedAddress
    (trim city)
    state
    zipCode
    propertyType
    (toNumber (RawProperty.listingPrice rawProperty))
    (toNumber (RawProperty.sqft rawProperty))
    (jdiv (jround (jmul pricePerSqft (ofZ 100))) (ofZ 100))
    confidence
    None).

(** [arr[j] = v] on an array: overwrite in range, extend at the end (the
    source never writes beyond the current length). *)
Definition setIndex {A : Type} (j : nat) (v : A) (arr : list A) : list A :=
  if decide (j < length arr)%nat then <[j := v]> arr else arr ++ [v].

Definition cell (matrix : list (list nat)) (i j : nat) : nat :=
  default 0%nat (matrix !! i ≫= (.!! j)).

Definition setCell (matrix : list (list nat)) (i j v : nat)
  : list (list nat) :=
  alter (setIndex j v) i matrix.

(** One assignment of the double loop. *)
Definition levenshteinCell (s1 s2 : list ascii) (i j : nat)
    (matrix : list (list nat)) : list (list nat) :=
  if decide (s2 !! (i - 1)%nat = s1 !! (j - 1)%nat)
  then setCell matrix i j (cell matrix (i - 1) (j - 1))
  else setCell matrix i j
         (Nat.min (Nat.min (cell matrix (i - 1) (j - 1) + 1)
                           (cell matrix i (j - 1) + 1))
                  (cell matrix (i - 1) j + 1)).

Definition levenshteinDistance (str1 str2 : string) : nat :=
  let s1 := chars str1 in
  let s2 := chars str2 in
  let matrix :=
    foldl (fun m i => setIndex i [i] m) [] (seq 0 (S (length s2))) in
  let matrix :=
    foldl (fun m j => setCell m 0 j j) matrix (seq 0 (S (length s1))) in
  let matrix :=
    foldl (fun m i =>
             foldl (fun m j => levenshteinCell s1 s2 i j m) m
                   (seq 1 (length s1)))
          matrix (seq 1 (length s2)) in
  cell matrix (length s2) (length s1).

Definition stringSimilarity (str1 str2 : string) : jsnum :=
  let longer :=
    if (String.length str2 <? String.length str1)%nat then str1 else str2 in
  let shorter :=
    if (String.length str2 <? String.length str1)%nat then str2 else str1 in
  if (String.length longer =? 0)%nat then ofZ 1
  else
    let distance := levenshteinDistance longer shorter in
    jdiv (jsub (ofNat (String.length longer)) (ofNat distance))
         (ofNat (String.length longer)).

Definition calculateSimilarity (prop1 prop2 : NormalizedProperty.t) : jsnum :=
  let similarity := ofZ 0 in
  (* Address similarity (40% weight) *)
  let addressSim :=
    stringSimilarity (NormalizedProperty.normalizedAddress prop1)
                     (NormalizedProperty.normalizedAddress prop2) in
  let similarity := jadd similarity (jmul addressSim (fin (4 # 10))) in
  (* Location similarity (30% weight) *)
  let similarity :=
    if String.eqb (toLowerCase (NormalizedProperty.city prop1))
                  (toLowerCase (NormalizedProperty.city prop2))
    then jadd similarity (fin (15 # 100)) else similarity in
  let similarity :=
    if bool_decide (NormalizedProperty.state prop1 = NormalizedProperty.state prop2)
    then jadd similarity (fin (1 # 10)) else similarity in
  let similarity :=
    if String.eqb (NormalizedProperty.zipCode prop1)
                  (NormalizedProperty.zipCode prop2)
    then jadd similarity (fin (5 # 100)) else similarity in
  (* Property characteristics (30% weight) *)
  let similarity :=
    if bool_decide (NormalizedProperty.propertyType prop1
                    = NormalizedProperty.propertyType prop2)
    then jadd similarity (fin (1 # 10)) else similarity in
  let sqftDiff :=
    jdiv (jabs (jsub (NormalizedProperty.sqft prop1)
                     (NormalizedProperty.sqft prop2)))
         (jmax (NormalizedProperty.sqft prop1)
               (NormalizedProperty.sqft prop2)) in
  let similarity :=
    jadd similarity (jmul (jsub (ofZ 1) sqftDiff) (fin (1 # 10))) in
  let priceDiff :=
    jdiv (jabs (jsub (NormalizedProperty.listingPrice prop1)
                     (NormalizedProperty.listingPrice prop2)))
         (jmax (NormalizedProperty.listingPrice prop1)
               (NormalizedProperty.listingPrice prop2)) in
  let similarity :=
    jadd similarity (jmul (jsub (ofZ 1) priceDiff) (fin (1 # 10))) in
  jmin (ofZ 1) similarity.

(** The default value of the [threshold] parameter. *)
Definition defaultThreshold : jsnum := fin (85 # 100).

(** An object of the [properties] array is referred to by its index; a
    group is an array of such references. *)

(** Body of the inner [for (j ...)] loop. *)
Definition scanStep (properties : list NormalizedProperty.t)
    (threshold : jsnum) (i : nat)
    (acc : list nat * gset string) (j : nat) : list nat * gset string :=
  let '(currentGroup, processed) := acc in
  match properties !! i, properties !! j with
  | Some pi, Some pj =>
      if bool_decide (NormalizedProperty.id pj ∈ processed) then acc
      else
        let similarity := calculateSimilarity pi pj in
        if jge similarity threshold
        then (currentGroup ++ [j], {[ NormalizedProperty.id pj ]} ∪ processed)
        else acc
  | _, _ => acc
  end.

(** Body of the outer [for (i ...)] loop. *)
Definition seedStep (properties : list NormalizedProperty.t)
    (threshold : jsnum)
    (acc : list (list nat) * gset string) (i : nat)
  : list (list nat) * gset string :=
  let '(duplicateGroups, processed) := acc in
  match properties !! i with
  | Some pi =>
      if bool_decide (NormalizedProperty.id pi ∈ processed) then acc
      else
        let '(currentGroup, processed) :=
          foldl (scanStep properties threshold i)
                ([i], {[ NormalizedProperty.id pi ]} ∪ processed)
                (seq (i + 1) (length properties - (i + 1))) in
        if (1 <? length currentGroup)%nat
        then (duplicateGroups ++ [currentGroup], processed)
        else (duplicateGroups, processed)
  | None => acc
  end.

(** [findDuplicates], with the groups as arrays of references. *)
Definition findDuplicateRefs (properties : list NormalizedProperty.t)
    (threshold : option jsnum) : list (list nat) :=
  let threshold := default defaultThreshold threshold in
  fst (foldl (seedStep properties threshold) ([], ∅)
             (seq 0 (length properties))).

(** The objects behind a list of references. *)
Definition deref (store : list NormalizedProperty.t) (refs : list nat)
  : list NormalizedProperty.t :=
  omap (fun i => store !! i) refs.

Definition findDuplicates (properties : list NormalizedProperty.t)
    (threshold : option jsnum) : list (list NormalizedProperty.t) :=
  map (deref properties) (findDuplicateRefs properties threshold).

(** [group.reduce((best, current) =>
       current.confidence > best.confidence ? current : best)];
    [reduce] without an initial value raises on an empty array. *)
Definition better (store : list NormalizedProperty.t) (best current : nat)
  : nat :=
  match store !! current, store !! best with
  | Some c, Some b =>
      if (NormalizedProperty.confidence b <? NormalizedProperty.confidence c)%Z
      then current else best
  | _, _ => best
  end.

Definition reduceBest (store : list NormalizedProperty.t) (group : list nat)
  : completion nat :=
  match group with
  | [] => Throw (TypeError "Reduce of empty array with no initial value")
  | first :: rest => mret (foldl (better store) first rest)
  end.

Definition tagAt (groupId : string) (store : list NormalizedProperty.t)
    (i : nat) : list NormalizedProperty.t :=
  alter (NormalizedProperty.setDuplicateGroup groupId) i store.

(** The loop over the duplicate groups.  [genId k] is the string the
    group-id template (clock and random digits) evaluates to the [k]-th
    time.  [store] holds the objects, [deduplicated] the references pushed
    to [deduplicatedProperties]. *)
Fixpoint resolveGroups (genId : nat -> string) (k : nat)
    (groups : list (list nat)) (store : list NormalizedProperty.t)
    (deduplicated : list nat)
  : completion (list NormalizedProperty.t * list nat) :=
  match groups with
  | [] => mret (store, deduplicated)
  | group :: groups' =>
      bestProperty ← reduceBest store group;
      let groupId := genId k in
      let store := foldl (tagAt groupId) store group in
      let store := tagAt groupId store bestProperty in
      resolveGroups genId (S k) groups' store (deduplicated ++ [bestProperty])
  end.

Definition deduplicateProperties (genId : nat -> string)
    (properties : list NormalizedProperty.t) : completion DedupResult.t :=
  let duplicateGroups := findDuplicateRefs properties None in
  (* Keep track of which properties are duplicates *)
  let duplicateIds : gset string :=
    foldl (fun ids group =>
             foldl (fun ids prop =>
                      match properties !! prop with
                      | Some p => {[ NormalizedProperty.id p ]} ∪ ids
                      | None => ids
                      end) ids group)
          ∅ duplicateGroups in
  (* Add non-duplicates *)
  let nonDuplicates :=
    List.filter
      (fun i => match properties !! i with
                | Some p => negb (bool_decide (NormalizedProperty.id p ∈ duplicateIds))
                | None => false
                end)
      (seq 0 (length properties)) in
  (* For each duplicate group, keep the one with highest confidence *)
  '(store, deduplicated) ←
    resolveGroups genId 0 duplicateGroups properties nonDuplicates;
  mret (DedupResult.mk
    (deref store deduplicated)
    (map (deref store) duplicateGroups)
    (Z.of_nat (length properties) - Z.of_nat (length deduplicated))
    store).

Definition processDataBatch (genId : nat -> string)
    (rawProperties : list RawProperty.t) : completion BatchResult.t :=
  (* Step 1: Normalize all properties *)
  normalizedProperties ← mapM normalizeProperty rawProperties;
  (* Step 2: Deduplicate *)
  r ← deduplicateProperties genId normalizedProperties;
  let deduplicatedProperties := DedupResult.deduplicatedProperties r in
  let duplicateGroups := DedupResult.duplicateGroups r in
  (* Step 3: Calculate statistics *)
  let averageConfidence :=
    jdiv (ofZ (foldl (fun sum prop => (sum + NormalizedProperty.confidence prop)%Z)
                     0%Z deduplicatedProperties))
         (ofNat (length deduplicatedProperties)) in
  mret (BatchResult.mk
    (DedupResult.propertiesAfter r)
    deduplicatedProperties
    (Statistics.mk
      (length rawProperties)
      (length normalizedProperties)
      (length duplicateGroups)
      (length deduplicatedProperties)
      (jdiv (jround (jmul averageConfidence (ofZ 100))) (ofZ 100)))).

End DataNormalization.

(** ** The priority job queue *)

(** A value of type [any]: opaque to the queue. *)
Definition any : Type := string.

Module Job.

Inductive JobType : Type :=
  | scraping
  | data_processing
  | market_analysis
  | tax_lookup.

Inductive Status : Type :=
  | pending
  | running
  | completed
  | failed
  | retrying.

(** interface Job.  Dates are milliseconds since the epoch. *)
Record t : Type := mk {
  id : string;
  type : JobType;
  priority : Z;
  payload : any;
  status : Status;
  createdAt : Z;
  startedAt : option Z;
  completedAt : option Z;
  attempts : Z;
  maxAttempts : Z;
  errorMessage : option string;
  result : option any
}.

Definition setStatus (v : Status) (j : t) : t :=
  mk (id j) (type j) (priority j) (payload j) v (createdAt j) (startedAt j)
     (completedAt j) (attempts j) (maxAttempts j) (errorMessage j) (result j).

Definition setStartedAt (v : Z) (j : t) : t :=
  mk (id j) (type j) (priority j) (payload j) (status j) (createdAt j) (Some v)
     (completedAt j) (attempts j) (maxAttempts j) (errorMessage j) (result j).

Definition setCompletedAt (v : Z) (j : t) : t :=
  mk (id j) (type j) (priority j) (payload j) (status j) (createdAt j)
     (startedAt j) (Some v) (attempts j) (maxAttempts j) (errorMessage j)
     (result j).

Definition setAttempts (v : Z) (j : t) : t :=
  mk (id j) (type j) (priority j) (payload j) (status j) (createdAt j)
     (startedAt j) (completedAt j) v (maxAttempts j) (errorMessage j)
     (result j).

Definition setErrorMessage (v : string) (j : t) : t :=
  mk (id j) (type j) (priority j) (payload j) (status j) (createdAt j)
     (startedAt j) (completedAt j) (attempts j) (maxAttempts j) (Some v)
     (result j).

Definition setResult (v : any) (j : t) : t :=
  mk (id j) (type j) (priority j) (payload j) (status j) (createdAt j)
     (startedAt j) (completedAt j) (attempts j) (maxAttempts j)
     (errorMessage j) (Some v).

End Job.

#[global] Instance Job_Status_eq_dec : EqDecision Job.Status.
Proof. solve_decision. Defined.

#[global] Instance Job_inhabited : Inhabited Job.t :=
  populate (Job.mk "" Job.scraping 0 "" Job.pending 0 None None 0 0 None None).

Module JobProgress.

(** interface JobProgress ([currentStep] is never set by the queue). *)
Record t : Type := mk {
  jobId : string;
  progress : Z;
  message : string
}.

End JobProgress.

Module JobQueueSystem.

(** How the awaited executor settles: it returns a result, or it throws.
    The milestones an executor reports on its way are not recorded. *)
Definition Outcome : Type := completion any.

(** A callback handed to [setTimeout]. *)
Inductive TimerAction : Type :=
  | Reschedule
  | Requeue (job : nat).

Record Timer : Type := mkTimer {
  delay : Z;
  action : TimerAction
}.

(** The instance.  Job objects live in [heap] and are referred to by their
    index there. [jobs], [queue], [runningJobs] and [isProcessing] are the
    private members of the class.  [timers] are the pending [setTimeout]
    callbacks, [executing] the [executeJob] activations that wait for their
    executor, and [progressUpdates] the calls made to [updateProgress], in
    order (a subscribed callback is handed those of its job; callbacks are
    taken to return normally). *)
Record state : Type := mkState {
  heap : list Job.t;
  jobs : gmap string nat;
  queue : list nat;
  runningJobs : gset string;
  isProcessing : bool;
  timers : list Timer;
  executing : list nat;
  progressUpdates : list JobProgress.t
}.

Definition maxConcurrentJobs : nat := 3.

Definition initial : state :=
  mkState [] ∅ [] ∅ false [] [] [].

Definition setHeap (v : list Job.t) (s : state) : state :=
  mkState v (jobs s) (queue s) (runningJobs s) (isProcessing s) (timers s)
          (executing s) (progressUpdates s).

Definition setJobs (v : gmap string nat) (s : state) : state :=
  mkState (heap s) v (queue s) (runningJobs s) (isProcessing s) (timers s)
          (executing s) (progressUpdates s).

Definition setQueue (v : list nat) (s : state) : state :=
  mkState (heap s) (jobs s) v (runningJobs s) (isProcessing s) (timers s)
          (executing s) (progressUpdates s).

Definition setRunningJobs (v : gset string) (s : state) : state :=
  mkState (heap s) (jobs s) (queue s) v (isProcessing s) (timers s)
          (executing s) (progressUpdates s).

Definition setIsProcessing (v : bool) (s : state) : state :=
  mkState (heap s) (jobs s) (queue s) (runningJobs s) v (timers s)
          (executing s) (progressUpdates s).

Definition setTimers (v : list Timer) (s : state) : state :=
  mkState (heap s) (jobs s) (queue s) (runningJobs s) (isProcessing s) v
          (executing s) (progressUpdates s).

Definition setExecuting (v : list nat) (s : state) : state :=
  mkState (heap s) (jobs s) (queue s) (runningJobs s) (isProcessing s)
          (timers s) v (progressUpdates s).

Definition setProgressUpdates (v : list JobProgress.t) (s : state) : state :=
  mkState (heap s) (jobs s) (queue s) (runningJobs s) (isProcessing s)
          (timers s) (executing s) v.

(** The job object behind a reference, and an in-place update of it. *)
Definition jobAt (s : state) (a : nat) : Job.t := heap s !!! a.

Definition updateJob (f : Job.t -> Job.t) (a : nat) (s : state) : state :=
  setHeap (alter f a (heap s)) s.

Definition setTimeout (action : TimerAction) (delay : Z) (s : state) : state :=
  setTimers (timers s ++ [mkTimer delay action]) s.

Definition updateProgress (jobId : string) (progress : Z) (message : string)
    (s : state) : state :=
  setProgressUpdates
    (progressUpdates s ++ [JobProgress.mk jobId progress message]) s.

(** The comparison function given to [sort]. *)
Definition compareJobs (a b : Job.t) : Z :=
  if decide (Job.priority a ≠ Job.priority b)
  then (Job.priority a - Job.priority b)%Z
  else (Job.createdAt a - Job.createdAt b)%Z.

(** [Array.prototype.sort] is a stable sort; with a comparison function
    that is a total preorder, as [compareJobs] is, its result is the one
    of any stable sort.  Here: insertion from the right. *)
Fixpoint insertJob (h : list Job.t) (x : nat) (l : list nat) : list nat :=
  match l with
  | [] => [x]
  | y :: l' =>
      if (compareJobs (h !!! x) (h !!! y) <=? 0)%Z then x :: y :: l'
      else y :: insertJob h x l'
  end.

Definition sortRefs (h : list Job.t) (l : list nat) : list nat :=
  foldr (insertJob h) [] l.

Definition sortQueue (s : state) : state :=
  setQueue (sortRefs (heap s) (queue s)) s.

(** [executeJob] up to the point where it waits for its executor. *)
Definition executeJobStart (now : Z) (a : nat) (s : state) : state :=
  let s := updateJob (Job.setStatus Job.running) a s in
  let s := updateJob (Job.setStartedAt now) a s in
  let s := updateJob (fun j => Job.setAttempts (Job.attempts j + 1) j) a s in
  let s := updateProgress (Job.id (jobAt s a)) 0 "Starting job..." s in
  setExecuting (executing s ++ [a]) s.

(** The [finally] callback registered by [processQueue]. *)
Definition releaseSlot (a : nat) (s : state) : state :=
  setRunningJobs (runningJobs s ∖ {[ Job.id (jobAt s a) ]}) s.

(** The activation of [executeJob] for the job [a] is over. *)
Definition endActivation (a : nat) (s : state) : state :=
  setExecuting (List.filter (fun b => negb (a =? b)%nat) (executing s)) s.

(** [error instanceof Error ? error.message : 'Unknown error']. *)
Definition errorMessageOf (error : exn) : string :=
  match error with
  | TypeError message | Error message => message
  | NonError => "Unknown error"
  end.

(** The [try] block of [executeJob] from the point where the awaited
    executor settles; what the executor threw leaves the block. *)
Definition tryBlock (now : Z) (a : nat) (outcome : Outcome) (s : state)
  : completion unit * state :=
  match outcome with
  | Normal result =>
      let s := updateJob (Job.setStatus Job.completed) a s in
      let s := updateJob (Job.setCompletedAt now) a s in
      let s := updateJob (Job.setResult result) a s in
      (Normal (),
       updateProgress (Job.id (jobAt s a)) 100 "Job completed successfully" s)
  | Throw error => (Throw error, s)
  end.

(** The [catch] block. *)
Definition catchBlock (now : Z) (a : nat) (error : exn) (s : state)
  : completion unit * state :=
  let errorMessage := errorMessageOf error in
  if (Job.attempts (jobAt s a) <? Job.maxAttempts (jobAt s a))%Z
  then
    let s := updateJob (Job.setStatus Job.retrying) a s in
    let s := updateJob (Job.setErrorMessage errorMessage) a s in
    (* Re-add to queue for retry *)
    (Normal (), setTimeout (Requeue a) (5000 * Job.attempts (jobAt s a)) s)
  else
    let s := updateJob (Job.setStatus Job.failed) a s in
    let s := updateJob (Job.setCompletedAt now) a s in
    let s := updateJob (Job.setErrorMessage errorMessage) a s in
    (Normal (),
     updateProgress (Job.id (jobAt s a)) 0
       ("Job failed: " +:+ errorMessage) s).

(** [executeJob] from the point where its executor settles, followed by
    the [finally] callback, which runs however [executeJob] completed and
    hands that completion on: the completion is the one with which the
    promise of [executeJob] settles. *)
Definition executeJobSettle (now : Z) (a : nat) (outcome : Outcome)
    (s : state) : completion unit * state :=
  let '(completed, s) :=
    match tryBlock now a outcome s with
    | (Throw error, s) => catchBlock now a error s
    | normal => normal
    end in
  (completed, releaseSlot a (endActivation a s)).

(** The [while] loop of [processQueue]; [q] is the queue, which each turn
    shifts.  The queue holds job objects only, so the shifted value is
    never undefined; a job whose id is in [runningJobs] is dropped. *)
Fixpoint dispatchLoop (now : Z) (q : list nat) (s : state) : state :=
  match q with
  | [] => setQueue [] s
  | job :: q' =>
      if decide (size (runningJobs s) < maxConcurrentJobs)%nat
      then
        if bool_decide (Job.id (jobAt s job) ∈ runningJobs s)
        then dispatchLoop now q' s
        else
          let s := setRunningJobs ({[ Job.id (jobAt s job) ]} ∪ runningJobs s) s in
          dispatchLoop now q' (executeJobStart now job s)
      else setQueue q s
  end.

Definition processQueue (now : Z) (s : state) : state :=
  if isProcessing s then s
  else
    let s := setIsProcessing true s in
    let s := dispatchLoop now (queue s) s in
    (* Schedule next queue processing *)
    setTimeout Reschedule 1000 s.

(** [addJob]: [newId] is what [generateJobId] returns and [now] the clock;
    an omitted [priority] or [maxAttempts] takes its default, 3. *)
Definition addJob (type : Job.JobType) (payload : any)
    (priority : option Z) (maxAttempts : option Z)
    (newId : string) (now : Z) (s : state) : string * state :=
  let job :=
    Job.mk newId type (default 3%Z priority) payload Job.pending now
           None None 0 (default 3%Z maxAttempts) None None in
  let a := length (heap s) in
  let s := setHeap (heap s ++ [job]) s in
  let s := setJobs (<[ Job.id job := a ]> (jobs s)) s in
  let s := setQueue (queue s ++ [a]) s in
  let s := sortQueue s in
  let s := if isProcessing s then s else processQueue now s in
  (Job.id job, s).

(** A pending timer fires. *)
Definition runTimer (now : Z) (t : Timer) (s : state) : state :=
  match action t with
  | Reschedule =>
      let s := setIsProcessing false s in
      if (0 <? length (queue s))%nat then processQueue now s else s
  | Requeue job =>
      let s := setQueue (job :: queue s) s in
      sortQueue s
  end.

Definition fireTimer (k : nat) (now : Z) (s : state) : state :=
  match timers s !! k with
  | Some t => runTimer now t (setTimers (delete k (timers s)) s)
  | None => s
  end.

(** [this.queue.findIndex(j => j.id === jobId)]. *)
Definition findIndex (jobId : string) (s : state) : option nat :=
  fst <$> list_find (fun a => Job.id (jobAt s a) = jobId) (queue s).

Definition cancelJob (jobId : string) (now : Z) (s : state) : bool * state :=
  match jobs s !! jobId with
  | None => (false, s)
  | Some a =>
      if bool_decide (Job.status (jobAt s a) = Job.running
                      ∨ Job.status (jobAt s a) = Job.completed)
      then (false, s)
      else
        (* Remove from queue *)
        let s :=
          match findIndex jobId s with
          | Some queueIndex => setQueue (delete queueIndex (queue s)) s
          | None => s
          end in
        let s := updateJob (Job.setStatus Job.failed) a s in
        let s := updateJob (Job.setErrorMessage "Job cancelled by user") a s in
        let s := updateJob (Job.setCompletedAt now) a s in
        (true, s)
  end.

Definition getJobStatus (jobId : string) (s : state) : option Job.Status :=
  (fun a => Job.status (jobAt s a)) <$> jobs s !! jobId.

(** What can happen to the instance: a call of one of its public methods
    that change it, a timer that fires, or the executor of a running job
    that settles.  Time is not measured: a pending timer may fire at any
    moment, whatever its delay, and an executor may settle at any moment
    with any outcome, so the reachable states include those of every real
    schedule.  [scheduleRecurringJob] and the [schedule...] helpers only
    call [addJob]; the getters and the progress subscriptions change
    nothing that is modelled. *)
Inductive Event : Type :=
  | AddJob (type : Job.JobType) (payload : any) (priority : option Z)
           (maxAttempts : option Z) (newId : string) (now : Z)
  | CancelJob (jobId : string) (now : Z)
  | TimerFires (k : nat) (now : Z)
  | Settles (job : nat) (outcome : Outcome) (now : Z).

Definition step (s : state) (e : Event) : state :=
  match e with
  | AddJob type payload priority maxAttempts newId now =>
      snd (addJob type payload priority maxAttempts newId now s)
  | CancelJob jobId now => snd (cancelJob jobId now s)
  | TimerFires k now => fireTimer k now s
  | Settles job outcome now =>
      if bool_decide (job ∈ executing s)
      then snd (executeJobSettle now job outcome s)
      else s
  end.

Definition run (s : state) (events : list Event) : state :=
  foldl step s events.

Inductive reachable : state -> Prop :=
  | reachable_initial : reachable initial
  | reachable_step s e : reachable s -> reachable (step s e).

(** The ids of the jobs in the order in which [executeJob] was entered. *)
Definition dispatchOrder (s : state) : list string :=
  JobProgress.jobId <$>
    List.filter (fun p => String.eqb (JobProgress.message p) "Starting job...")
                (progressUpdates s).

(** The number of job objects whose status is [running]. *)
Definition runningCount (s : state) : nat :=
  length (List.filter (fun j => bool_decide (Job.status j = Job.running)) (heap s)).

End JobQueueSystem.

(** ** The specification's vocabulary

    The definitions below follow the words of the specification; the
    theorems compare them with the embedding of the source above. *)

(** A string member is missing when it is absent or empty. *)
Definition missing (s : option string) : bool :=
  match s with
  | None => true
  | Some s => bool_decide (s = "")
  end.

(** A numeric member is positive; when it is not, it is missing (absent,
    not a number) or non-positive. *)
Definition positive (x : option jsnum) : bool :=
  match x with
  | None => false
  | Some x => jgt x (ofZ 0)
  end.

Definition shorterThan (n : nat) (s : option string) : bool :=
  match s with
  | None => false
  | Some s => bool_decide (String.length s < n)%nat
  end.

Definition containsDigit (s : option string) : bool :=
  match s with
  | None => false
  | Some s => bool_decide (Exists (fun c => isDigit c = true) (chars s))
  end.

Definition penalty (applies : bool) (amount : Z) : Z :=
  if applies then amount else 0%Z.

(** +10 for the high-trust source, +5 for the medium-trust one. *)
Definition sourceBonus (source : string) : Z :=
  if bool_decide (source = "LoopNet") then 10%Z
  else if bool_decide (source = "Crexi") then 5%Z
  else 0%Z.

Definition clamp (lo hi x : Z) : Z := Z.max lo (Z.min hi x).

(** The confidence score as the specification words it. *)
Definition confidenceScore (p : RawProperty.t) : Z :=
  clamp 0 100
    (100
     - penalty (missing (RawProperty.address p)
                || shorterThan 10 (RawProperty.address p)) 20
     - penalty (negb (containsDigit (RawProperty.address p))) 15
     - penalty (missing (RawProperty.zipCode p)) 15
     - penalty (missing (RawProperty.city p)) 10
     - penalty (missing (RawProperty.state p)) 10
     - penalty (negb (positive (RawProperty.listingPrice p))) 20
     - penalty (negb (positive (RawProperty.sqft p))) 15
     + sourceBonus (RawProperty.source p))%Z.

(** No penalty applies: every required member is present and usable. *)
Definition complete (p : RawProperty.t) : Prop :=
  missing (RawProperty.address p) = false
  ∧ shorterThan 10 (RawProperty.address p) = false
  ∧ containsDigit (RawProperty.address p) = true
  ∧ missing (RawProperty.zipCode p) = false
  ∧ missing (RawProperty.city p) = false
  ∧ missing (RawProperty.state p) = false
  ∧ positive (RawProperty.listingPrice p) = true
  ∧ positive (RawProperty.sqft p) = true.

Section GreedyPass.

(** The forward pass of the specification, over any kind of entry [A] that
    stands for a record ([record] reads it): plain records, or records
    paired with their position. *)
Context {A : Type} (record : A -> NormalizedProperty.t) (threshold : jsnum).

(** The later records that join the group of [seed]: those not yet
    processed whose similarity with the seed reaches the threshold.  Each
    one that joins is marked processed. *)
Fixpoint absorb (seed : A) (later : list A) (processed : gset string)
  : list A * gset string :=
  match later with
  | [] => ([], processed)
  | r :: later' =>
      if bool_decide (NormalizedProperty.id (record r) ∈ processed)
      then absorb seed later' processed
      else if jge (DataNormalization.calculateSimilarity (record seed) (record r))
                  threshold
      then
        let '(joined, processed') :=
          absorb seed later'
                 ({[ NormalizedProperty.id (record r) ]} ∪ processed) in
        (r :: joined, processed')
      else absorb seed later' processed
  end.

(** Every record not yet processed seeds a group; a group that ends with
    its seed alone is discarded. *)
Fixpoint greedyGroups (records : list A) (processed : gset string)
  : list (list A) :=
  match records with
  | [] => []
  | seed :: later =>
      if bool_decide (NormalizedProperty.id (record seed) ∈ processed)
      then greedyGroups later processed
      else
        let '(joined, processed') :=
          absorb seed later
                 ({[ NormalizedProperty.id (record seed) ]} ∪ processed) in
        match joined with
        | [] => greedyGroups later processed'
        | _ :: _ => (seed :: joined) :: greedyGroups later processed'
        end
  end.

End GreedyPass.

(** The records of a list paired with their positions, counted from [k]. *)
Definition indexedFrom (k : nat) (l : list NormalizedProperty.t)
  : list (nat * NormalizedProperty.t) :=
  zip (seq k (length l)) l.

(** The record a [reduce] for the highest confidence keeps. *)
Definition pick (best current : NormalizedProperty.t) : NormalizedProperty.t :=
  if (NormalizedProperty.confidence best <? NormalizedProperty.confidence current)%Z
  then current else best.

(** [s] is the member of [g] with the highest confidence, the first such
    member when several share it. *)
Definition firstHighest (s : NormalizedProperty.t)
    (g : list NormalizedProperty.t) : Prop :=
  ∃ before after,
    g = before ++ s :: after
    ∧ Forall (fun x => (NormalizedProperty.confidence x
                        < NormalizedProperty.confidence s)%Z) before
    ∧ Forall (fun x => (NormalizedProperty.confidence x
                        <= NormalizedProperty.confidence s)%Z) after.

(** The ids of a list of records. *)
Definition idsOf (l : list NormalizedProperty.t) : list string :=
  NormalizedProperty.id <$> l.

(** The groups of the forward pass over the records paired with their
    positions. *)
Definition indexedGroups (properties : list NormalizedProperty.t)
    (threshold : option jsnum) : list (list (nat * NormalizedProperty.t)) :=
  greedyGroups snd (default DataNormalization.defaultThreshold threshold)
               (indexedFrom 0 properties) ∅.

Module QueueSpec.

Import JobQueueSystem.

(** The order of the pending pool: priority ascending, ties broken by
    creation time ascending. *)
Definition before (a b : Job.t) : Prop :=
  (Job.priority a < Job.priority b)%Z
  ∨ (Job.priority a = Job.priority b ∧ (Job.createdAt a <= Job.createdAt b)%Z).

Definition sortedRefs (h : list Job.t) (q : list nat) : Prop :=
  StronglySorted (fun x y => before (h !!! x) (h !!! y)) q.

Definition queueSorted (s : state) : Prop := sortedRefs (heap s) (queue s).

(** Consistency of an instance.  References point into the heap; the map
    [jobs] files each job under its own id; the jobs being executed hold
    distinct ids, all of them in [runningJobs], which has at most
    [maxConcurrentJobs] members; and a job whose status is [running] is
    being executed ([except] exempts one job, in the middle of a
    transition). *)
Definition idOf (s : state) (a : nat) : string := Job.id (jobAt s a).

Definition validRef (s : state) (a : nat) : Prop := (a < length (heap s))%nat.

Definition refsValid (s : state) : Prop :=
  Forall (validRef s) (executing s)
  ∧ (∀ t a, t ∈ timers s -> action t = Requeue a -> validRef s a)
  ∧ (∀ i a, jobs s !! i = Some a -> validRef s a ∧ idOf s a = i).

Definition slotsHeld (s : state) : Prop :=
  NoDup (map (idOf s) (executing s))
  ∧ (∀ a, a ∈ executing s -> idOf s a ∈ runningJobs s)
  ∧ (size (runningJobs s) <= maxConcurrentJobs)%nat.

Definition runningTracked (except : option nat) (s : state) : Prop :=
  ∀ b, validRef s b -> Some b ≠ except ->
       Job.status (jobAt s b) = Job.running -> b ∈ executing s.

Definition consistentExcept (except : option nat) (s : state) : Prop :=
  refsValid s ∧ slotsHeld s ∧ runningTracked except s.

Definition queueOk (s : state) (q : list nat) : Prop :=
  Forall (validRef s) q ∧ sortedRefs (heap s) q.

Definition consistent (s : state) : Prop :=
  consistentExcept None s ∧ queueOk s (queue s).

(** [s'] has the job objects of [s], with their id, priority and creation
    time, and possibly more. *)
Definition extends (s s' : state) : Prop :=
  (length (heap s) <= length (heap s'))%nat
  ∧ ∀ b, validRef s b ->
         Job.id (jobAt s' b) = Job.id (jobAt s b)
         ∧ Job.priority (jobAt s' b) = Job.priority (jobAt s b)
         ∧ Job.createdAt (jobAt s' b) = Job.createdAt (jobAt s b).

(** An update of a job object that leaves its id, priority and creation
    time alone. *)
Definition keepsStatic (f : Job.t -> Job.t) : Prop :=
  ∀ j, Job.id (f j) = Job.id j
       ∧ Job.priority (f j) = Job.priority j
       ∧ Job.createdAt (f j) = Job.createdAt j.

End QueueSpec.

From Stdlib Require Import Lqa.

(** ** Vocabulary of the further properties *)

(** The characters a normalized address is made of: lower-case letters,
    digits, the underscore and the blank. *)
Definition addressChar (c : ascii) : bool :=
  isLower c || isDigit c || (code c =? 95)%nat || (code c =? 32)%nat.

(** A string of ASCII characters.  On these the case mapping, the white
    space and the word characters of the embedding are those of
    JavaScript. *)
Definition asciiString (s : string) : Prop :=
  Forall (fun c => (code c < 128)%nat) (chars s).

(** A string of white space only. *)
Definition blankString (s : string) : Prop :=
  Forall (fun c => isSpace c = true) (chars s).

(** A string of decimal digits only. *)
Definition digitString (s : string) : Prop :=
  Forall (fun c => isDigit c = true) (chars s).

(** A list of characters that does not start with white space. *)
Definition headOk (l : list ascii) : Prop :=
  match l with
  | [] => True
  | c :: _ => isSpace c = false
  end.

(** ** Edit distance *)

(** [edits s t n]: [s] becomes [t] by [n] insertions, deletions and
    substitutions of one character; a character that is kept costs
    nothing. *)
Inductive edits : list ascii -> list ascii -> nat -> Prop :=
  | edits_nil : edits [] [] 0
  | edits_keep a s t n : edits s t n -> edits (a :: s) (a :: t) n
  | edits_substitute a b s t n : edits s t n -> edits (a :: s) (b :: t) (S n)
  | edits_insert b s t n : edits s t n -> edits s (b :: t) (S n)
  | edits_delete a s t n : edits s t n -> edits (a :: s) t (S n).

(** The recurrence the matrix of [levenshteinDistance] is filled by, as a
    function of the two words read from their last characters. *)
Fixpoint lev (s : list ascii) : list ascii -> nat :=
  match s with
  | [] => fun t => length t
  | a :: s' =>
      fix inner (t : list ascii) : nat :=
        match t with
        | [] => S (length s')
        | b :: t' =>
            if decide (a = b) then lev s' t'
            else Nat.min (Nat.min (lev s' t' + 1) (inner t' + 1))
                         (lev s' t + 1)
        end
  end.

(** The entry of the matrix in row [i] and column [j]: the recurrence on
    the first [i] characters of [s2] and the first [j] of [s1]. *)
Definition prefixDistance (s1 s2 : list ascii) (i j : nat) : nat :=
  lev (rev (take i s2)) (rev (take j s1)).

(** The matrix while row [i] is being filled, columns below [j] done: the
    rows above [i] are complete, row [i] holds its first [j] entries, and
    the rows below hold their first entry. *)
Definition matrixFilled (s1 s2 : list ascii) (i j : nat)
    (matrix : list (list nat)) : Prop :=
  length matrix = S (length s2)
  ∧ (∀ r, (r < i)%nat -> (r <= length s2)%nat ->
          matrix !! r = Some (map (prefixDistance s1 s2 r)
                                  (seq 0 (S (length s1)))))
  ∧ ((i <= length s2)%nat ->
     matrix !! i = Some (map (prefixDistance s1 s2 i) (seq 0 j)))
  ∧ (∀ r, (i < r)%nat -> (r <= length s2)%nat -> matrix !! r = Some [r]).

(** The members [normalizeProperty] reads through are all present. *)
Definition membersPresent (p : RawProperty.t) : Prop :=
  is_Some (RawProperty.address p) ∧ is_Some (RawProperty.city p)
  ∧ is_Some (RawProperty.state p) ∧ is_Some (RawProperty.propertyType p).

#[global] Instance membersPresent_dec (p : RawProperty.t) :
  Decision (membersPresent p).
Proof. unfold membersPresent. apply _. Defined.

(** ** The ingestion pipeline (class PropertyIngestionPipeline)

    The pipeline hands the records [processDataBatch] answers to
    [validateProperties], and counts the scraped records by source. *)

Module Candidate.

(** The members [validateProperties] reads from an element of its
    argument; a member the object does not have is [None]. *)
Record t : Type := mk {
  address : option string;
  listingPrice : option jsnum;
  sqft : option jsnum;
  city : option string;
  state : option jsval
}.

End Candidate.

(** Truthiness of a possibly absent value of a lookup table. *)
Definition truthyValue (v : option jsval) : bool :=
  match v with
  | Some (VStr s) => negb (String.eqb s "")
  | Some (VInherited _) => true
  | None => false
  end.

(** The names every object inherits from [Object.prototype]. *)
Definition objectPrototypeMembers : list string :=
  [ "constructor"; "__defineGetter__"; "__defineSetter__"; "hasOwnProperty";
    "__lookupGetter__"; "__lookupSetter__"; "isPrototypeOf";
    "propertyIsEnumerable"; "toString"; "valueOf"; "__proto__";
    "toLocaleString" ].

(** What a counter object holds under a key: a count, or the text that
    comes of adding 1 to an inherited function or to such a text. *)
Inductive Tally : Type :=
  | Count (n : nat)
  | Garbled.

Module PropertyIngestionPipeline.

Import DataNormalization.

(** The callback of the [filter] in [validateProperties]. *)
Definition passesValidation (property : Candidate.t) : bool :=
  (* Basic validation rules *)
  if negb (truthyString (Candidate.address property))
     || (lengthOf (Candidate.address property) <? 5)%nat
  then false
  else if negb (truthyNumber (Candidate.listingPrice property))
          || jle (toNumber (Candidate.listingPrice property)) (ofZ 0)
  then false
  else if negb (truthyNumber (Candidate.sqft property))
          || jle (toNumber (Candidate.sqft property)) (ofZ 0)
  then false
  else if negb (truthyString (Candidate.city property))
          || negb (truthyValue (Candidate.state property))
  then false
  else
    (* Price reasonableness check *)
    let pricePerSqft :=
      jdiv (toNumber (Candidate.listingPrice property))
           (toNumber (Candidate.sqft property)) in
    if jlt pricePerSqft (ofZ 10) || jgt pricePerSqft (ofZ 2000) then false
    else true.

(** An object built by [normalizeProperty] as [validateProperties] reads
    it: the literal holds [normalizedAddress], [listingPrice], [sqft],
    [city] and [state], and no member named [address]. *)
Definition candidateOf (p : NormalizedProperty.t) : Candidate.t :=
  Candidate.mk None
    (Some (NormalizedProperty.listingPrice p))
    (Some (NormalizedProperty.sqft p))
    (Some (NormalizedProperty.city p))
    (Some (NormalizedProperty.state p)).

(** [validateProperties], which both of its callers give the
    [deduplicatedProperties] of [processDataBatch]. *)
Definition validateProperties (properties : list NormalizedProperty.t)
  : list NormalizedProperty.t :=
  List.filter (fun property => passesValidation (candidateOf property))
              properties.

(** [stats[key] = (stats[key] || 0) + 1] on an object that starts empty.
    A key that names an inherited member reads as that member, which is
    truthy: adding 1 gives a text, stored under the key (except under
    [__proto__], whose setter ignores it). *)
Definition countKey (stats : gmap string Tally) (key : string)
  : gmap string Tally :=
  match stats !! key with
  | Some (Count n) => <[ key := Count (if (n =? 0)%nat then 1 else n + 1) ]> stats
  | Some Garbled => <[ key := Garbled ]> stats
  | None =>
      if bool_decide (key ∈ objectPrototypeMembers)
      then (if String.eqb key "__proto__" then stats
            else <[ key := Garbled ]> stats)
      else <[ key := Count 1 ]> stats
  end.

Definition calculateSourceStats (properties : list RawProperty.t)
  : gmap string Tally :=
  foldl (fun stats property => countKey stats (RawProperty.source property))
        ∅ properties.

End PropertyIngestionPipeline.

(** The number of records of a source. *)
Definition recordsFrom (source : string) (properties : list RawProperty.t)
  : nat :=
  length (List.filter (fun p => String.eqb (RawProperty.source p) source)
                      properties).

(** ** The read-only methods of the job queue *)

Module QueueStats.

(** The object [getQueueStats] answers. *)
Record t : Type := mk {
  totalJobs : nat;
  pending : nat;
  running : nat;
  completed : nat;
  failed : nat;
  queueLength : nat
}.

End QueueStats.

Module JobQueueQueries.

Import JobQueueSystem.

(** The keys of a [Map] in the order in which it iterates: the order in
    which they were first set.  Every job object is filed in [jobs] when
    it is created and never again, so this is the order of the first
    appearance of each id among the job objects. *)
Fixpoint firstAppearances (seen : gset string) (ids : list string)
  : list string :=
  match ids with
  | [] => []
  | i :: ids' =>
      if bool_decide (i ∈ seen) then firstAppearances seen ids'
      else i :: firstAppearances ({[ i ]} ∪ seen) ids'
  end.

Definition keys (s : state) : list string :=
  firstAppearances ∅ (Job.id <$> heap s).

Definition getJob (jobId : string) (s : state) : option Job.t :=
  jobAt s <$> jobs s !! jobId.

(** [Array.from(this.jobs.values())]. *)
Definition getAllJobs (s : state) : list Job.t :=
  omap (fun jobId => getJob jobId s) (keys s).

Definition getJobsByStatus (status : Job.Status) (s : state) : list Job.t :=
  List.filter (fun job => bool_decide (Job.status job = status)) (getAllJobs s).

Definition getQueueStats (s : state) : QueueStats.t :=
  let allJobs := getAllJobs s in
  QueueStats.mk
    (length allJobs)
    (length (List.filter (fun j => bool_decide (Job.status j = Job.pending)) allJobs))
    (length (List.filter (fun j => bool_decide (Job.status j = Job.running)) allJobs))
    (length (List.filter (fun j => bool_decide (Job.status j = Job.completed)) allJobs))
    (length (List.filter (fun j => bool_decide (Job.status j = Job.failed)) allJobs))
    (length (queue s)).

End JobQueueQueries.

(** ** Where a job object is *)

Module QueueOrder.

Import JobQueueSystem.

(** The job a timer will put back into the pending pool. *)
Definition requeued (t : Timer) : option nat :=
  match action t with
  | Requeue job => Some job
  | Reschedule => None
  end.

Definition requeues (s : state) : list nat := omap requeued (timers s).

(** A job that waits for the scheduler, in the pool or behind a retry
    timer: it is not running and has not completed, and it has an attempt
    left. *)
Definition waitingJob (j : Job.t) : Prop :=
  (Job.status j = Job.pending ∨ Job.status j = Job.retrying
   ∨ Job.status j = Job.failed)
  ∧ (Job.attempts j = 0 ∨ Job.attempts j < Job.maxAttempts j)%Z.

Definition attemptsOk (j : Job.t) : Prop :=
  (0 <= Job.attempts j <= Z.max 1 (Job.maxAttempts j))%Z.

(** The job objects [h], those that wait and those being executed: no
    object is referred to twice, the ones being executed are running, the
    ones that wait are waiting, and no object was started too often. *)
Definition orderlyParts (h : list Job.t) (waiting executed : list nat)
  : Prop :=
  NoDup (waiting ++ executed)
  ∧ (∀ a, a ∈ waiting ++ executed -> (a < length h)%nat)
  ∧ (∀ a, a ∈ executed -> Job.status (h !!! a) = Job.running)
  ∧ (∀ a, a ∈ waiting -> waitingJob (h !!! a))
  ∧ (∀ a, (a < length h)%nat -> attemptsOk (h !!! a)).

Definition orderly (s : state) : Prop :=
  orderlyParts (heap s) (queue s ++ requeues s) (executing s).

(** What [executeJob] and [cancelJob] make of a job object. *)
Definition startedJob (now : Z) (j : Job.t) : Job.t :=
  Job.setAttempts (Job.attempts j + 1)
    (Job.setStartedAt now (Job.setStatus Job.running j)).

Definition completedJob (now : Z) (result : any) (j : Job.t) : Job.t :=
  Job.setResult result (Job.setCompletedAt now (Job.setStatus Job.completed j)).

Definition retryingJob (errorMessage : string) (j : Job.t) : Job.t :=
  Job.setErrorMessage errorMessage (Job.setStatus Job.retrying j).

Definition failedJob (now : Z) (errorMessage : string) (j : Job.t) : Job.t :=
  Job.setErrorMessage errorMessage
    (Job.setCompletedAt now (Job.setStatus Job.failed j)).

Definition cancelledJob (now : Z) (j : Job.t) : Job.t :=
  Job.setCompletedAt now
    (Job.setErrorMessage "Job cancelled by user" (Job.setStatus Job.failed j)).

(** Every job object is filed in the map under its id, or was replaced
    there by a later object of the same id. *)
Definition allFiled (s : state) : Prop :=
  ∀ a, (a < length (heap s))%nat -> is_Some (jobs s !! Job.id (jobAt s a)).

(** No unfinished job is lost: a pending job is in the pool, and a job
    that is to be retried is in the pool or behind its retry timer. *)
Definition unfinishedPlaced (s : state) : Prop :=
  ∀ a, (a < length (heap s))%nat ->
       (Job.status (jobAt s a) = Job.pending -> a ∈ queue s)
       ∧ (Job.status (jobAt s a) = Job.retrying -> a ∈ queue s ++ requeues s).

(** Every id in [runningJobs] is the id of a job being executed. *)
Definition slotsOwned (s : state) : Prop :=
  ∀ i, i ∈ runningJobs s -> ∃ b, b ∈ executing s ∧ Job.id (jobAt s b) = i.

End QueueOrder.

Module QueueIdle.

Import JobQueueSystem.

(** The scheduler is idle: no pass is under way and none is scheduled. *)
Definition idle (s : state) : Prop :=
  isProcessing s = false
  ∧ Forall (fun t => action t ≠ Reschedule) (timers s).

(** An event that is not a call of [addJob]. *)
Definition notAddJob (e : Event) : Prop :=
  match e with
  | AddJob _ _ _ _ _ _ => False
  | _ => True
  end.

End QueueIdle.

(** ** Comparative pricing

    [getComparativePricing] of the class [HistoricalPricingService]
    (src/services/HistoricalPricingService.ts).  The two database queries
    are the arguments: the row found for [propertyId], if any, and the
    comparable rows the second query answers.  Of a row the method reads
    the price and the area, both nullable columns. *)

Module ListedProperty.

Record t : Type := mk {
  id : string;
  listing_price : option jsnum;
  sqft : option jsnum
}.

End ListedProperty.

Module HistoricalPricingService.

Inductive PricePosition : Type :=
  | above
  | below
  | average.

Record ComparativePricing : Type := mkComparativePricing {
  targetProperty : ListedProperty.t;
  comparables : list ListedProperty.t;
  pricePosition : PricePosition;
  percentileSummary : string
}.

(** [x || d] for a nullable number: null, zero and NaN give [d]. *)
Definition orElse (x : option jsnum) (d : jsnum) : jsnum :=
  match x with
  | Some v => if jfalsy v then d else v
  | None => d
  end.

(** [(p.listing_price || 0) / (p.sqft || 1)]. *)
Definition pricePerSqftOf (p : ListedProperty.t) : jsnum :=
  jdiv (orElse (ListedProperty.listing_price p) (ofZ 0))
       (orElse (ListedProperty.sqft p) (ofZ 1)).

(** [sort((a, b) => a - b)]: a stable sort, which on numbers that the
    comparison function orders totally is insertion from the right. *)
Fixpoint insertNumber (x : jsnum) (l : list jsnum) : list jsnum :=
  match l with
  | [] => [x]
  | y :: l' =>
      if jle (jsub x y) (ofZ 0) then x :: y :: l'
      else y :: insertNumber x l'
  end.

Definition sortNumbers (l : list jsnum) : list jsnum :=
  foldr insertNumber [] l.

(** [comparablePrices.findIndex(price => price > targetPricePerSqft)];
    [None] is the answer -1. *)
Definition findIndexAbove (targetPricePerSqft : jsnum) (prices : list jsnum)
  : option nat :=
  fst <$> list_find (fun price => jgt price targetPricePerSqft = true) prices.

(** The percentile of the target price among the comparable prices
    ([prices] is the mapped array, before it is sorted). *)
Definition percentileAmong (targetPricePerSqft : jsnum) (prices : list jsnum)
  : jsnum :=
  let comparablePrices := sortNumbers prices in
  match findIndexAbove targetPricePerSqft comparablePrices with
  | None => ofZ 100
  | Some position =>
      jmul (jdiv (ofNat position) (ofNat (length comparablePrices))) (ofZ 100)
  end.

Definition percentileOf (target : ListedProperty.t)
    (comparables : list ListedProperty.t) : jsnum :=
  percentileAmong (pricePerSqftOf target) (pricePerSqftOf <$> comparables).

Definition positionFor (percentile : jsnum) : PricePosition :=
  if jgt percentile (ofZ 75) then above
  else if jlt percentile (ofZ 25) then below
  else average.

(** A number with an integer value in a template literal.  The percentile
    is between 0 and 100, where this is the decimal numeral. *)
Definition integerText (x : jsnum) : string :=
  match x with
  | NaN => "NaN"
  | Inf false => "Infinity"
  | Inf true => "-Infinity"
  | Fin q => pretty (Qfloor q)
  end.

Definition summaryFor (percentile : jsnum) : string :=
  integerText (jround percentile) +:+ "th percentile of comparable properties".

(** The method from its two query results on; the second query asks for
    at most 20 rows. *)
Definition getComparativePricing (targetProperty : option ListedProperty.t)
    (comparables : list ListedProperty.t) : option ComparativePricing :=
  match targetProperty with
  | None => None
  | Some targetProperty =>
      if decide (length comparables = 0%nat)
      then Some (mkComparativePricing targetProperty [] average
                   "Insufficient comparable data")
      else
        (* Calculate price position *)
        let percentile := percentileOf targetProperty comparables in
        let pricePosition := positionFor percentile in
        let percentileSummary := summaryFor percentile in
        Some (mkComparativePricing targetProperty comparables pricePosition
                percentileSummary)
  end.

(** A row whose price and area are finite numbers or null. *)
Definition finiteRow (p : ListedProperty.t) : Prop :=
  (∀ x, ListedProperty.listing_price p = Some x -> ∃ q, x = Fin q)
  ∧ (∀ x, ListedProperty.sqft p = Some x -> ∃ q, x = Fin q).

End HistoricalPricingService.

(** ** The job queue with its progress subscribers

    [JobQueueSystem] above leaves the subscribers out: [updateProgress]
    only records the call.  Here the instance has its
    [progressCallbacks], and [updateProgress] calls the callback of the
    job, which returns or throws.  A callback is taken not to call the
    methods of the queue. *)

Module SubscribedQueue.

Import JobQueueSystem.

Definition ProgressCallback : Type := JobProgress.t -> completion unit.

(** [members] are the members of the class modelled above, with the
    activations in flight and the pending timers; [rejected] are the jobs
    whose [executeJob] promise was rejected before the executor was
    called, and whose [finally] callback has not run yet. *)
Record instance : Type := mkInstance {
  members : state;
  progressCallbacks : gmap string ProgressCallback;
  rejected : list nat
}.

Definition initial : instance := mkInstance JobQueueSystem.initial ∅ [].

Definition onMembers (f : state -> state) (x : instance) : instance :=
  mkInstance (f (members x)) (progressCallbacks x) (rejected x).

(** [updateProgress]: the callback subscribed for the job, if any, is
    called with the progress; what it throws leaves [updateProgress]. *)
Definition updateProgress (jobId : string) (progress : Z) (message : string)
    (x : instance) : completion unit * instance :=
  let x := onMembers (JobQueueSystem.updateProgress jobId progress message) x in
  match progressCallbacks x !! jobId with
  | Some callback => (callback (JobProgress.mk jobId progress message), x)
  | None => (Normal (), x)
  end.

Definition subscribeToProgress (jobId : string) (callback : ProgressCallback)
    (x : instance) : instance :=
  mkInstance (members x) (<[ jobId := callback ]> (progressCallbacks x))
             (rejected x).

Definition unsubscribeFromProgress (jobId : string) (x : instance) : instance :=
  mkInstance (members x) (delete jobId (progressCallbacks x)) (rejected x).

(** [executeJob] up to the point where it waits for its executor.  The
    first call of [updateProgress] comes before the [try] block: when it
    throws, the promise of [executeJob] is rejected and no executor is
    called. *)
Definition executeJobStart (now : Z) (a : nat) (x : instance) : instance :=
  let x := onMembers (updateJob (Job.setStatus Job.running) a) x in
  let x := onMembers (updateJob (Job.setStartedAt now) a) x in
  let x :=
    onMembers (updateJob (fun j => Job.setAttempts (Job.attempts j + 1) j) a) x in
  match
    updateProgress (Job.id (jobAt (members x) a)) 0 "Starting job..." x
  with
  | (Normal _, x) => onMembers (fun s => setExecuting (executing s ++ [a]) s) x
  | (Throw _, x) =>
      mkInstance (members x) (progressCallbacks x) (rejected x ++ [a])
  end.

(** The [try] block from the point where the awaited executor settles. *)
Definition tryBlock (now : Z) (a : nat) (outcome : Outcome) (x : instance)
  : completion unit * instance :=
  match outcome with
  | Normal result =>
      let x := onMembers (updateJob (Job.setStatus Job.completed) a) x in
      let x := onMembers (updateJob (Job.setCompletedAt now) a) x in
      let x := onMembers (updateJob (Job.setResult result) a) x in
      updateProgress (Job.id (jobAt (members x) a)) 100
        "Job completed successfully" x
  | Throw error => (Throw error, x)
  end.

(** The [catch] block. *)
Definition catchBlock (now : Z) (a : nat) (error : exn) (x : instance)
  : completion unit * instance :=
  let errorMessage := errorMessageOf error in
  if (Job.attempts (jobAt (members x) a)
      <? Job.maxAttempts (jobAt (members x) a))%Z
  then
    let x := onMembers (updateJob (Job.setStatus Job.retrying) a) x in
    let x := onMembers (updateJob (Job.setErrorMessage errorMessage) a) x in
    (* Re-add to queue for retry *)
    (Normal (),
     onMembers
       (fun s => setTimeout (Requeue a) (5000 * Job.attempts (jobAt s a)) s) x)
  else
    let x := onMembers (updateJob (Job.setStatus Job.failed) a) x in
    let x := onMembers (updateJob (Job.setCompletedAt now) a) x in
    let x := onMembers (updateJob (Job.setErrorMessage errorMessage) a) x in
    updateProgress (Job.id (jobAt (members x) a)) 0
      ("Job failed: " +:+ errorMessage) x.

(** [executeJob] from the point where its executor settles, followed by
    the [finally] callback. *)
Definition executeJobSettle (now : Z) (a : nat) (outcome : Outcome)
    (x : instance) : completion unit * instance :=
  let '(completed, x) :=
    match tryBlock now a outcome x with
    | (Throw error, x) => catchBlock now a error x
    | normal => normal
    end in
  (completed, onMembers (fun s => releaseSlot a (endActivation a s)) x).

(** The [while] loop of [processQueue]. *)
Fixpoint dispatchLoop (now : Z) (q : list nat) (x : instance) : instance :=
  match q with
  | [] => onMembers (setQueue []) x
  | job :: q' =>
      if decide (size (runningJobs (members x)) < maxConcurrentJobs)%nat
      then
        if bool_decide (Job.id (jobAt (members x) job) ∈ runningJobs (members x))
        then dispatchLoop now q' x
        else
          let x :=
            onMembers
              (fun s =>
                 setRunningJobs ({[ Job.id (jobAt s job) ]} ∪ runningJobs s) s)
              x in
          dispatchLoop now q' (executeJobStart now job x)
      else onMembers (setQueue q) x
  end.

Definition processQueue (now : Z) (x : instance) : instance :=
  if isProcessing (members x) then x
  else
    let x := onMembers (setIsProcessing true) x in
    let x := dispatchLoop now (queue (members x)) x in
    (* Schedule next queue processing *)
    onMembers (setTimeout Reschedule 1000) x.

Definition addJob (type : Job.JobType) (payload : any)
    (priority : option Z) (maxAttempts : option Z)
    (newId : string) (now : Z) (x : instance) : string * instance :=
  let job :=
    Job.mk newId type (default 3%Z priority) payload Job.pending now
           None None 0 (default 3%Z maxAttempts) None None in
  let a := length (heap (members x)) in
  let x := onMembers (fun s => setHeap (heap s ++ [job]) s) x in
  let x := onMembers (fun s => setJobs (<[ Job.id job := a ]> (jobs s)) s) x in
  let x := onMembers (fun s => setQueue (queue s ++ [a]) s) x in
  let x := onMembers sortQueue x in
  let x := if isProcessing (members x) then x else processQueue now x in
  (Job.id job, x).

Definition runTimer (now : Z) (t : Timer) (x : instance) : instance :=
  match action t with
  | Reschedule =>
      let x := onMembers (setIsProcessing false) x in
      if (0 <? length (queue (members x)))%nat then processQueue now x else x
  | Requeue job =>
      let x := onMembers (fun s => setQueue (job :: queue s) s) x in
      onMembers sortQueue x
  end.

Definition fireTimer (k : nat) (now : Z) (x : instance) : instance :=
  match timers (members x) !! k with
  | Some t =>
      runTimer now t (onMembers (fun s => setTimers (delete k (timers s)) s) x)
  | None => x
  end.

(** [cancelJob] calls no callback. *)
Definition cancelJob (jobId : string) (now : Z) (x : instance)
  : bool * instance :=
  (fst (JobQueueSystem.cancelJob jobId now (members x)),
   onMembers (fun s => snd (JobQueueSystem.cancelJob jobId now s)) x).

(** The [finally] callbacks of the rejected promises run: each frees the
    slot of its job. *)
Definition runFinally (x : instance) : instance :=
  mkInstance (foldl (fun s a => releaseSlot a s) (members x) (rejected x))
             (progressCallbacks x) [].

(** What can happen to the instance: what can happen to the queue of
    [JobQueueSystem], a subscription or its end, and the run of the
    pending [finally] callbacks, which comes when the code that called
    [processQueue] has returned. *)
Inductive Call : Type :=
  | Queue (e : Event)
  | SubscribeToProgress (jobId : string) (callback : ProgressCallback)
  | UnsubscribeFromProgress (jobId : string)
  | FinallyCallbacks.

Definition step (x : instance) (c : Call) : instance :=
  match c with
  | Queue (AddJob type payload priority maxAttempts newId now) =>
      snd (addJob type payload priority maxAttempts newId now x)
  | Queue (CancelJob jobId now) => snd (cancelJob jobId now x)
  | Queue (TimerFires k now) => fireTimer k now x
  | Queue (Settles job outcome now) =>
      if bool_decide (job ∈ executing (members x))
      then snd (executeJobSettle now job outcome x)
      else x
  | SubscribeToProgress jobId callback => subscribeToProgress jobId callback x
  | UnsubscribeFromProgress jobId => unsubscribeFromProgress jobId x
  | FinallyCallbacks => runFinally x
  end.

Definition run (x : instance) (calls : list Call) : instance :=
  foldl step x calls.

(** A callback that returns normally whatever it is given, and a call
    that subscribes no other. *)
Definition quiet (callback : ProgressCallback) : Prop :=
  ∀ p, callback p = Normal ().

Definition quietCall (c : Call) : Prop :=
  match c with
  | SubscribeToProgress _ callback => quiet callback
  | _ => True
  end.

(** The part of a call the queue of [JobQueueSystem] sees. *)
Definition queueEvent (c : Call) : option Event :=
  match c with
  | Queue e => Some e
  | _ => None
  end.

End SubscribedQueue.

(** What holds of the queue whatever its subscribers do. *)
Module SubscribedSpec.

Import JobQueueSystem QueueSpec QueueOrder.

(** The map [jobs] has the id of every job object as a key, and each of
    its entries refers to a job object of that id. *)
Definition registered (s : state) : Prop :=
  (∀ i, i ∈ Job.id <$> heap s -> is_Some (jobs s !! i))
  ∧ (∀ i a, jobs s !! i = Some a -> validRef s a ∧ idOf s a = i).

Definition sound (x : SubscribedQueue.instance) : Prop :=
  orderly (SubscribedQueue.members x) ∧ registered (SubscribedQueue.members x).

End SubscribedSpec.

(** ** Sample data *)

Module Samples.

(** A complete listing from the high-trust source. *)
Definition listing : RawProperty.t :=
  RawProperty.mk "loopnet_001" "LoopNet" (Some "10 Oak Avenue")
    (Some "Atlanta") (Some "Georgia") (Some "30309") (Some "Office Space")
    (Some (ofZ 1000000)) (Some (ofZ 5000)).

(** The same listing without a price. *)
Definition listingNoPrice : RawProperty.t :=
  RawProperty.mk "loopnet_001" "LoopNet" (Some "10 Oak Avenue")
    (Some "Atlanta") (Some "Georgia") (Some "30309") (Some "Office Space")
    None (Some (ofZ 5000)).

(** Objects that lack the [address], respectively the [city], member. *)
Definition noAddress : RawProperty.t :=
  RawProperty.mk "x_001" "Other" None
    (Some "Atlanta") (Some "Georgia") (Some "30309") (Some "Office Space")
    (Some (ofZ 1000000)) (Some (ofZ 5000)).

Definition noCity : RawProperty.t :=
  RawProperty.mk "x_002" "Other" (Some "10 Oak Avenue")
    None (Some "Georgia") (Some "30309") (Some "Office Space")
    (Some (ofZ 1000000)) (Some (ofZ 5000)).

(** Every string empty, every optional member absent. *)
Definition blank : RawProperty.t :=
  RawProperty.mk "x_003" "Other" (Some "") (Some "") (Some "") None (Some "")
    None None.

(** Three office listings on the same block.  The second differs from the
    first in three characters of the address, the third from the second in
    one, and the third from the first in four. *)
Definition office (id address : string) (confidence : Z)
  : NormalizedProperty.t :=
  NormalizedProperty.mk id "LoopNet" address "Atlanta" (VStr "GA") "30309"
    (VStr "office") (ofZ 1000000) (ofZ 5000) (ofZ 200) confidence None.

Definition oak10 : NormalizedProperty.t := office "a" "10 oak ave" 90.
Definition elm10 : NormalizedProperty.t := office "b" "10 elm ave" 95.
Definition elm12 : NormalizedProperty.t := office "c" "12 elm ave" 80.

(** A record that carries the id of [oak10] and resembles no other. *)
Definition pine99 : NormalizedProperty.t := office "a" "99 pine rd" 70.

(** The threshold 0.85. *)
Definition threshold85 : jsnum := Fin (17 # 20).

(** The group ids handed out: [group_0], [group_1], ... *)
Definition groupIds (k : nat) : string := "group_" +:+ pretty k.

(** Four jobs enqueued with the priorities 3, 1, 2, 1 on a fresh
    instance, one millisecond apart. *)
Definition enqueueFour : list JobQueueSystem.Event :=
  [ JobQueueSystem.AddJob Job.scraping "{}" (Some 3%Z) None "job_a" 1000;
    JobQueueSystem.AddJob Job.scraping "{}" (Some 1%Z) None "job_b" 1001;
    JobQueueSystem.AddJob Job.scraping "{}" (Some 2%Z) None "job_c" 1002;
    JobQueueSystem.AddJob Job.scraping "{}" (Some 1%Z) None "job_d" 1003 ].

(** Then the scheduler's timer fires every second; the first job completes
    after five seconds, and the timer fires again. *)
Definition drainFour : list JobQueueSystem.Event :=
  enqueueFour
  ++ [ JobQueueSystem.TimerFires 0 2000;
       JobQueueSystem.TimerFires 0 3000;
       JobQueueSystem.TimerFires 0 4000;
       JobQueueSystem.TimerFires 0 5000;
       JobQueueSystem.Settles 0 (Normal "done") 6000;
       JobQueueSystem.TimerFires 0 6000 ].

(** The same four jobs enqueued while the scheduler is busy and nothing
    runs: an earlier job with a single attempt was added and its executor
    threw at once, and the timer of that pass has not fired yet. *)
Definition drainFourBusy : list JobQueueSystem.Event :=
  [ JobQueueSystem.AddJob Job.scraping "null" None (Some 1%Z) "job_0" 500;
    JobQueueSystem.Settles 0 (Throw (Error "bad payload")) 500;
    JobQueueSystem.AddJob Job.scraping "{}" (Some 3%Z) None "job_a" 1000;
    JobQueueSystem.AddJob Job.scraping "{}" (Some 1%Z) None "job_b" 1001;
    JobQueueSystem.AddJob Job.scraping "{}" (Some 2%Z) None "job_c" 1002;
    JobQueueSystem.AddJob Job.scraping "{}" (Some 1%Z) None "job_d" 1003;
    JobQueueSystem.TimerFires 0 1500;
    JobQueueSystem.TimerFires 0 2500;
    JobQueueSystem.TimerFires 0 3500;
    JobQueueSystem.TimerFires 0 4500;
    JobQueueSystem.TimerFires 0 5500;
    JobQueueSystem.Settles 2 (Normal "done") 6500;
    JobQueueSystem.TimerFires 0 6500 ].

(** One job that may be attempted twice: the scheduler's timer fires, the
    executor throws, and five seconds later the retry timer fires. *)
Definition failOnce : list JobQueueSystem.Event :=
  [ JobQueueSystem.AddJob Job.tax_lookup "{}" None (Some 2%Z) "job_r" 1000;
    JobQueueSystem.TimerFires 0 2000;
    JobQueueSystem.Settles 0 (Throw (Error "timeout")) 4500 ].

Definition failOnceRequeued : list JobQueueSystem.Event :=
  failOnce ++ [ JobQueueSystem.TimerFires 0 9500 ].

(** One job that may be attempted once: its executor throws. *)
Definition failForGood : list JobQueueSystem.Event :=
  [ JobQueueSystem.AddJob Job.tax_lookup "{}" None (Some 1%Z) "job_f" 1000;
    JobQueueSystem.TimerFires 0 2000;
    JobQueueSystem.Settles 0 (Throw (Error "timeout")) 4500 ].

End Samples.

(** ** Further sample runs of the job queue *)

Module MoreSamples.

(** The job of [Samples.failOnce] is cancelled while it waits for its
    retry; the retry timer fires all the same, a second job is added, and
    the executor of the first job returns. *)
Definition cancelledRetry : list JobQueueSystem.Event :=
  Samples.failOnce ++ [ JobQueueSystem.CancelJob "job_r" 5000 ].

Definition cancelledRetryRuns : list JobQueueSystem.Event :=
  cancelledRetry
  ++ [ JobQueueSystem.TimerFires 0 9500;
       JobQueueSystem.AddJob Job.scraping "{}" None None "job_n" 12000;
       JobQueueSystem.Settles 0 (Normal "done") 16000 ].

(** A job runs to completion; later its id is cancelled, timers fire and
    another job is added. *)
Definition completedThenMore : list JobQueueSystem.Event :=
  [ JobQueueSystem.AddJob Job.scraping "{}" None None "job_c" 1000;
    JobQueueSystem.TimerFires 0 2000;
    JobQueueSystem.Settles 0 (Normal "done") 6000 ].

Definition afterCompletion : list JobQueueSystem.Event :=
  [ JobQueueSystem.CancelJob "job_c" 7000;
    JobQueueSystem.AddJob Job.scraping "{}" None None "job_c" 8000;
    JobQueueSystem.TimerFires 0 9000;
    JobQueueSystem.Settles 1 (Throw NonError) 9500 ].

(** Five jobs: three are being executed, then the executor of the first
    one throws, so that it waits for its retry while two jobs are pending
    and two are running. *)
Definition crowded : list JobQueueSystem.Event :=
  [ JobQueueSystem.AddJob Job.scraping "{}" None None "job_1" 1000;
    JobQueueSystem.AddJob Job.scraping "{}" None None "job_2" 1001;
    JobQueueSystem.AddJob Job.scraping "{}" None None "job_3" 1002;
    JobQueueSystem.AddJob Job.scraping "{}" None None "job_4" 1003;
    JobQueueSystem.AddJob Job.scraping "{}" None None "job_5" 1004;
    JobQueueSystem.TimerFires 0 2000;
    JobQueueSystem.Settles 0 (Throw (Error "timeout")) 2500 ].

(** Two jobs that are given the same id: the second one is added while
    the first one is running and the scheduler is idle. *)
Definition sameIdTwice : list JobQueueSystem.Event :=
  [ JobQueueSystem.AddJob Job.scraping "{}" None None "job_s" 1000;
    JobQueueSystem.TimerFires 0 2000;
    JobQueueSystem.AddJob Job.scraping "{}" None None "job_s" 2500 ].

(** Five jobs are added within a second; the first one is started at
    once, the others wait.  A subscriber of the second job throws when it
    is told anything.  One second later the scheduler starts the second
    and the third job; the [finally] callback of the second runs; and
    another second later the scheduler starts the fourth job. *)
Definition throwingSubscriber : SubscribedQueue.ProgressCallback :=
  fun _ => Throw (Error "subscriber failed").

Definition strandedJob : list SubscribedQueue.Call :=
  [ SubscribedQueue.Queue
      (JobQueueSystem.AddJob Job.scraping "{}" None None "job_1" 1000);
    SubscribedQueue.Queue
      (JobQueueSystem.AddJob Job.scraping "{}" None None "job_2" 1001);
    SubscribedQueue.Queue
      (JobQueueSystem.AddJob Job.scraping "{}" None None "job_3" 1002);
    SubscribedQueue.Queue
      (JobQueueSystem.AddJob Job.scraping "{}" None None "job_4" 1003);
    SubscribedQueue.Queue
      (JobQueueSystem.AddJob Job.scraping "{}" None None "job_5" 1004);
    SubscribedQueue.SubscribeToProgress "job_2" throwingSubscriber;
    SubscribedQueue.Queue (JobQueueSystem.TimerFires 0 2000);
    SubscribedQueue.FinallyCallbacks;
    SubscribedQueue.Queue (JobQueueSystem.TimerFires 0 3000) ].

End MoreSamples.

(** ** Sample rows for the comparative pricing *)

Module PricingSamples.

Definition row (id : string) (price area : Z) : ListedProperty.t :=
  ListedProperty.mk id (Some (ofZ price)) (Some (ofZ area)).

(** 100, 150 and 200 dollars per square foot. *)
Definition comparables : list ListedProperty.t :=
  [ row "c1" 2000000 10000; row "c2" 1000000 10000; row "c3" 1500000 10000 ].

(** 150 dollars per square foot. *)
Definition target : ListedProperty.t := row "t" 3000000 20000.

(** A row without area: its price per square foot is its price. *)
Definition noArea : ListedProperty.t :=
  ListedProperty.mk "n" (Some (ofZ 120)) None.

End PricingSamples.

(** * Properties of the normalization engine *)

Section ConfidenceFacts.

Import DataNormalization.

Lemma truthyString_missing (s : option string) :
  truthyString s = negb (missing s).
Proof.
  destruct s as [s|]; simpl; [|reflexivity].
  f_equal. destruct (String.eqb_spec s ""); [by rewrite bool_decide_eq_true_2|].
  by rewrite bool_decide_eq_false_2.
Qed.

Lemma shortAddress_agrees (s : string) :
  negb (truthyString (Some s)) || (lengthOf (Some s) <? 10)%nat
  = missing (Some s) || shorterThan 10 (Some s).
Proof.
  rewrite truthyString_missing, negb_involutive. simpl. f_equal.
  destruct (Nat.ltb_spec (String.length s) 10).
  - by rewrite bool_decide_eq_true_2.
  - rewrite bool_decide_eq_false_2; [done|lia].
Qed.

Lemma matchesDigits_containsDigit (s : string) :
  matchesDigits s = containsDigit (Some s).
Proof.
  unfold matchesDigits, containsDigit.
  destruct (existsb isDigit (chars s)) eqn:E.
  - symmetry. apply bool_decide_eq_true_2.
    apply existsb_exists in E as (c & Hin & Hc). apply List.Exists_exists. eauto.
  - symmetry. apply bool_decide_eq_false_2. intros H.
    apply List.Exists_exists in H as (c & Hin & Hc).
    assert (existsb isDigit (chars s) = true) by (apply existsb_exists; eauto).
    congruence.
Qed.

(** [!x || x <= 0] holds exactly when [x] is not a positive number. *)
Lemma unusable_not_positive (x : option jsnum) :
  negb (truthyNumber x) || jle (toNumber x) (ofZ 0) = negb (positive x).
Proof.
  destruct x as [[|[]|q]|]; try reflexivity.
  unfold truthyNumber, toNumber, positive, jle, jgt, jfalsy, jcompare, ofZ. simpl.
  rewrite negb_involutive.
  destruct (q ?= inject_Z 0)%Q eqn:E; try (by rewrite orb_true_r).
  destruct (Qeq_bool q 0) eqn:F; [|reflexivity].
  apply Qeq_bool_iff, Qeq_alt in F. unfold inject_Z in E. congruence.
Qed.

Lemma sourceBonus_agrees (source : string) (c : Z) :
  (if String.eqb source "LoopNet" then (c + 10)%Z
   else if String.eqb source "Crexi" then (c + 5)%Z else c)
  = (c + sourceBonus source)%Z.
Proof.
  unfold sourceBonus.
  destruct (String.eqb_spec source "LoopNet").
  - by rewrite bool_decide_eq_true_2.
  - rewrite bool_decide_eq_false_2 by done.
    destruct (String.eqb_spec source "Crexi").
    + by rewrite bool_decide_eq_true_2.
    + rewrite bool_decide_eq_false_2 by done. lia.
Qed.

(** The score computed by the source is the score of the specification
    whenever the object has an [address]. *)
Lemma calculateConfidence_score (p : RawProperty.t) (a : string) :
  RawProperty.address p = Some a ->
  calculateConfidence p = Normal (confidenceScore p).
Proof.
  intros Ha. unfold calculateConfidence, confidenceScore, clamp.
  rewrite Ha. cbn [receiver mbind completion_bind mret completion_ret].
  rewrite shortAddress_agrees, matchesDigits_containsDigit.
  rewrite !truthyString_missing, !negb_involutive, !unusable_not_positive.
  rewrite sourceBonus_agrees. f_equal. f_equal. f_equal.
  unfold penalty.
  destruct (missing (Some a) || shorterThan 10 (Some a)),
    (containsDigit (Some a)), (missing (RawProperty.zipCode p)),
    (missing (RawProperty.city p)), (missing (RawProperty.state p)),
    (positive (RawProperty.listingPrice p)), (positive (RawProperty.sqft p));
    simpl; lia.
Qed.

Lemma confidenceScore_range (p : RawProperty.t) :
  (0 <= confidenceScore p <= 100)%Z.
Proof. unfold confidenceScore, clamp. lia. Qed.

(** Without an [address] the digit test dereferences [undefined]. *)
Lemma calculateConfidence_absent_address (p : RawProperty.t) :
  RawProperty.address p = None ->
  calculateConfidence p
  = Throw (TypeError "Cannot read properties of undefined (reading 'match')").
Proof. intros Ha. unfold calculateConfidence. by rewrite Ha. Qed.

End ConfidenceFacts.

(** For every raw record whose [address] member is present (a string,
    possibly empty), [calculateConfidence] returns the
    integer obtained from 100 by subtracting 20 for a missing or short
    address, 15 for an address without a digit, 15, 10 and 10 for a missing
    zip code, city and state, 20 and 15 for a price and an area that is
    missing or non-positive, by adding 10 for the source LoopNet and 5 for
    Crexi, and by clamping to [0,100].  A record to which no penalty
    applies and that comes from LoopNet scores 100; the same record
    without its price scores 80 plus the source bonus. *)
Lemma calculateConfidence_formula (p : RawProperty.t) (a : string) :
  RawProperty.address p = Some a ->
  DataNormalization.calculateConfidence p = Normal (confidenceScore p)
  ∧ (0 <= confidenceScore p <= 100)%Z
  ∧ (complete p -> RawProperty.source p = "LoopNet" -> confidenceScore p = 100%Z)
  ∧ (missing (RawProperty.address p) || shorterThan 10 (RawProperty.address p) = false ->
     containsDigit (RawProperty.address p) = true ->
     missing (RawProperty.zipCode p) = false ->
     missing (RawProperty.city p) = false ->
     missing (RawProperty.state p) = false ->
     positive (RawProperty.listingPrice p) = false ->
     positive (RawProperty.sqft p) = true ->
     confidenceScore p = Z.min 100 (80 + sourceBonus (RawProperty.source p))).
Proof.
  intros Ha. split; [by eapply calculateConfidence_score|].
  split; [apply confidenceScore_range|]. split.
  - intros (H1 & H2 & H3 & H4 & H5 & H6 & H7 & H8) Hs.
    unfold confidenceScore. rewrite H1, H2, H3, H4, H5, H6, H7, H8, Hs.
    reflexivity.
  - intros H1 H2 H3 H4 H5 H6 H7. unfold confidenceScore.
    rewrite H1, H2, H3, H4, H5, H6, H7. unfold penalty, clamp, sourceBonus. simpl.
    repeat case_bool_decide; lia.
Qed.

Lemma calculateConfidence_formula_witness :
  DataNormalization.calculateConfidence Samples.listing = Normal 100%Z
  ∧ DataNormalization.calculateConfidence Samples.listingNoPrice = Normal 90%Z
  ∧ DataNormalization.calculateConfidence Samples.blank = Normal 0%Z.
Proof.
  split; [|split].
  - exact (proj1 (calculateConfidence_formula Samples.listing "10 Oak Avenue" eq_refl)).
  - exact (proj1 (calculateConfidence_formula Samples.listingNoPrice "10 Oak Avenue" eq_refl)).
  - exact (proj1 (calculateConfidence_formula Samples.blank "" eq_refl)).
Defined.

(** C1.  The formula of the claim subtracts 20 for a missing address and
    15 for an address without a digit, and goes on.  The source tests
    [!property.address] on line 102, which only an absent or empty address
    satisfies, subtracts 20, and on line 103 calls [match] on the address
    without that test: for a record that has no address, to which the
    claim gives 100 - 20 - 15 = 65, it raises a TypeError. *)
Theorem calculateConfidence_missing_address_throws :
  missing (RawProperty.address Samples.noAddress) = true
  ∧ confidenceScore Samples.noAddress = 65%Z
  ∧ DataNormalization.calculateConfidence Samples.noAddress
    = Throw (TypeError "Cannot read properties of undefined (reading 'match')")
  ∧ DataNormalization.calculateConfidence Samples.noAddress
    ≠ Normal (confidenceScore Samples.noAddress).
Proof. repeat split; try reflexivity. discriminate. Qed.

Section TotalityFacts.

Import DataNormalization.

Lemma length_str (l : list ascii) : String.length (str l) = length l.
Proof. induction l as [|c l IH]; simpl; [done|]. by rewrite IH. Qed.

(** A normalized zip code always has five characters. *)
Lemma normalizeZipCode_length (z : string) :
  String.length (normalizeZipCode z) = 5%nat.
Proof.
  unfold normalizeZipCode, padStartZero. rewrite length_str, length_app, repeat_length.
  rewrite length_take. lia.
Qed.

(** [normalizeProperty] on an object that has the four members it reads
    through. *)
Lemma normalizeProperty_present (p : RawProperty.t) (a c s t : string) :
  RawProperty.address p = Some a ->
  RawProperty.city p = Some c ->
  RawProperty.state p = Some s ->
  RawProperty.propertyType p = Some t ->
  normalizeProperty p
  = Normal (NormalizedProperty.mk
      (RawProperty.id p) (RawProperty.source p) (normalizeAddress a) (trim c)
      (normalizeState s)
      (if missing (RawProperty.zipCode p) then "00000"
       else normalizeZipCode (default "" (RawProperty.zipCode p)))
      (normalizePropertyType t)
      (toNumber (RawProperty.listingPrice p)) (toNumber (RawProperty.sqft p))
      (jdiv (jround (jmul (jdiv (toNumber (RawProperty.listingPrice p))
                                (toNumber (RawProperty.sqft p))) (ofZ 100)))
            (ofZ 100))
      (confidenceScore p) None).
Proof.
  intros Ha Hc Hs Ht. unfold normalizeProperty.
  rewrite (calculateConfidence_score p a Ha), Ha, Hc, Hs, Ht.
  cbn [receiver mbind completion_bind mret completion_ret].
  do 2 f_equal. destruct (RawProperty.zipCode p) as [z|]; simpl; [|done].
  destruct (String.eqb_spec z "").
  - by rewrite bool_decide_eq_true_2.
  - by rewrite bool_decide_eq_false_2.
Qed.

End TotalityFacts.

(** C9 (as amended).  The string operations [normalizeAddress],
    [normalizePropertyType], [normalizeState] and [normalizeZipCode] return
    a value for every string.  [calculateConfidence] and
    [normalizeProperty] return a value for every raw record that has its
    [address], [city], [state] and [propertyType] members, empty or not,
    whether or not [zipCode], [listingPrice] and [sqft] are there: the
    record gets the canonical forms of its members, a five-character zip
    code, and a confidence within [0,100] that the missing members have
    lowered. *)
Theorem normalization_total (p : RawProperty.t) (a c s t : string) :
  RawProperty.address p = Some a ->
  RawProperty.city p = Some c ->
  RawProperty.state p = Some s ->
  RawProperty.propertyType p = Some t ->
  ∃ n : NormalizedProperty.t,
    DataNormalization.normalizeProperty p = Normal n
    ∧ DataNormalization.calculateConfidence p
      = Normal (NormalizedProperty.confidence n)
    ∧ NormalizedProperty.confidence n = confidenceScore p
    ∧ (0 <= NormalizedProperty.confidence n <= 100)%Z
    ∧ NormalizedProperty.normalizedAddress n = DataNormalization.normalizeAddress a
    ∧ NormalizedProperty.state n = DataNormalization.normalizeState s
    ∧ NormalizedProperty.propertyType n = DataNormalization.normalizePropertyType t
    ∧ String.length (NormalizedProperty.zipCode n) = 5%nat.
Proof.
  intros Ha Hc Hs Ht. eexists. split.
  - by eapply normalizeProperty_present.
  - simpl. split; [by eapply calculateConfidence_score|].
    split; [done|]. split; [apply confidenceScore_range|].
    do 3 (split; [done|]).
    destruct (missing (RawProperty.zipCode p)); [done|].
    apply normalizeZipCode_length.
Qed.

Lemma normalization_total_witness :
  ∃ n : NormalizedProperty.t,
    DataNormalization.normalizeProperty Samples.blank = Normal n
    ∧ NormalizedProperty.confidence n = 0%Z
    ∧ NormalizedProperty.zipCode n = "00000".
Proof.
  destruct (normalization_total Samples.blank "" "" "" ""
              eq_refl eq_refl eq_refl eq_refl) as (n & Hn & _).
  exists n. split; [exact Hn|].
  vm_compute in Hn. injection Hn as <-. split; reflexivity.
Defined.

(** The claim as first stated covers records whose address or city is
    missing altogether; there the source raises. *)
Lemma normalizeProperty_missing_member_throws :
  DataNormalization.normalizeProperty Samples.noAddress
  = Throw (TypeError "Cannot read properties of undefined (reading 'toLowerCase')")
  ∧ DataNormalization.calculateConfidence Samples.noAddress
    = Throw (TypeError "Cannot read properties of undefined (reading 'match')")
  ∧ DataNormalization.calculateConfidence Samples.noCity = Normal 90%Z
  ∧ DataNormalization.normalizeProperty Samples.noCity
    = Throw (TypeError "Cannot read properties of undefined (reading 'trim')")
  ∧ ¬ (∃ n, DataNormalization.normalizeProperty Samples.noCity = Normal n).
Proof.
  repeat split; try reflexivity. intros [n Hn]. vm_compute in Hn. discriminate.
Qed.

(** C10.  On the empty list [processDataBatch] returns empty lists and
    the counts 0, and its [averageConfidence] is the quotient 0/0: NaN,
    not a number between 0 and 100. *)
Theorem processDataBatch_empty (genId : nat -> string) :
  DataNormalization.processDataBatch genId []
  = Normal (BatchResult.mk [] []
      (Statistics.mk 0 0 0 0 (jdiv (ofZ 0) (ofNat 0))))
  ∧ jdiv (ofZ 0) (ofNat 0) = NaN
  ∧ jle (ofZ 0) NaN = false
  ∧ jle NaN (ofZ 100) = false
  ∧ NaN ≠ ofZ 0.
Proof. repeat split; try reflexivity. discriminate. Qed.

(** * Properties of duplicate detection *)

Section ForwardPass.

Import DataNormalization.

Context (properties : list NormalizedProperty.t) (threshold : jsnum).

Lemma drop_cons_inv {A : Type} (l : list A) (k : nat) (x : A) (l' : list A) :
  drop k l = x :: l' -> l !! k = Some x ∧ drop (S k) l = l'.
Proof.
  intros H. split.
  - rewrite <- (Nat.add_0_r k), <- lookup_drop, H. reflexivity.
  - replace (S k) with (k + 1)%nat by lia. rewrite <- drop_drop, H. reflexivity.
Qed.

Lemma indexedFrom_cons (k : nat) (x : NormalizedProperty.t)
    (l : list NormalizedProperty.t) :
  indexedFrom k (x :: l) = (k, x) :: indexedFrom (S k) l.
Proof. reflexivity. Qed.

(** The inner loop, started at index [k], is [absorb] over the records
    from [k] on. *)
Lemma scan_absorb (i : nat) (pi : NormalizedProperty.t)
    (later : list NormalizedProperty.t) :
  properties !! i = Some pi ->
  ∀ (k : nat) (g : list nat) (processed : gset string),
    drop k properties = later ->
    foldl (scanStep properties threshold i) (g, processed)
          (seq k (length later))
    = (g ++ map fst (fst (absorb snd threshold (i, pi)
                                 (indexedFrom k later) processed)),
       snd (absorb snd threshold (i, pi) (indexedFrom k later) processed)).
Proof.
  intros Hi. induction later as [|x later IH]; intros k g processed Hk.
  - simpl. by rewrite app_nil_r.
  - apply drop_cons_inv in Hk as [Hx Hk].
    rewrite indexedFrom_cons. cbn [length seq foldl absorb snd].
    unfold scanStep at 2. rewrite Hi, Hx.
    case_bool_decide; [by apply IH|].
    destruct (jge _ _).
    + rewrite (IH (S k) _ _ Hk).
      destruct (absorb snd threshold (i, pi) (indexedFrom (S k) later) _)
        as [joined processed'].
      simpl. by rewrite <- app_assoc.
    + by apply IH.
Qed.

(** The outer loop, started at index [k], is [greedyGroups] over the
    records from [k] on. *)
Lemma seed_greedy (recs : list NormalizedProperty.t) :
  ∀ (k : nat) (groups : list (list nat)) (processed : gset string),
    drop k properties = recs ->
    fst (foldl (seedStep properties threshold) (groups, processed)
               (seq k (length recs)))
    = groups ++ map (map fst)
                    (greedyGroups snd threshold (indexedFrom k recs) processed).
Proof.
  induction recs as [|x recs IH]; intros k groups processed Hk.
  - simpl. by rewrite app_nil_r.
  - pose proof (f_equal length Hk) as Hlen. rewrite length_drop in Hlen.
    simpl in Hlen.
    apply drop_cons_inv in Hk as [Hx Hk].
    rewrite indexedFrom_cons. cbn [length seq foldl greedyGroups snd].
    unfold seedStep at 2. rewrite Hx.
    case_bool_decide; [by apply IH|].
    replace (length properties - (k + 1))%nat with (length recs) by lia.
    rewrite Nat.add_1_r, (scan_absorb k x recs Hx (S k) _ _ Hk).
    destruct (absorb snd threshold (k, x) (indexedFrom (S k) recs) _)
      as [joined processed'].
    cbn [fst snd]. destruct joined as [|e joined].
    + simpl. by apply IH.
    + cbn [map length app Nat.ltb Nat.leb]. rewrite (IH (S k) _ _ Hk).
      by rewrite <- app_assoc.
Qed.

End ForwardPass.

Section Naturality.

(** The forward pass looks at an entry only through the record it stands
    for. *)
Context {A B : Type} (f : A -> B) (record : B -> NormalizedProperty.t)
        (threshold : jsnum).

Lemma absorb_map (seed : A) (later : list A) (processed : gset string) :
  absorb record threshold (f seed) (map f later) processed
  = (map f (fst (absorb (fun a => record (f a)) threshold seed later processed)),
     snd (absorb (fun a => record (f a)) threshold seed later processed)).
Proof.
  revert processed. induction later as [|r later IH]; intros processed; [done|].
  cbn [map absorb]. case_bool_decide; [apply IH|].
  destruct (jge _ _); [|apply IH].
  rewrite IH. by destruct (absorb (fun a => record (f a)) _ _ _ _).
Qed.

Lemma greedyGroups_map (records : list A) (processed : gset string) :
  greedyGroups record threshold (map f records) processed
  = map (map f) (greedyGroups (fun a => record (f a)) threshold records processed).
Proof.
  revert processed. induction records as [|s later IH]; intros processed; [done|].
  cbn [map greedyGroups]. case_bool_decide; [apply IH|].
  rewrite absorb_map.
  destruct (absorb (fun a => record (f a)) _ _ _ _) as [joined processed'].
  cbn [fst snd]. destruct joined; cbn [map]; by rewrite IH.
Qed.

End Naturality.

Section GroupShape.

Context {A : Type} (record : A -> NormalizedProperty.t) (threshold : jsnum).

Abbreviation idOf := (fun a : A => NormalizedProperty.id (record a)).

(** What [absorb] returns: a sublist of the later records, each similar to
    the seed and none processed before, with distinct ids, all of which
    are marked. *)
Lemma absorb_spec (seed : A) (later : list A) (processed : gset string) :
  let joined := fst (absorb record threshold seed later processed) in
  let processed' := snd (absorb record threshold seed later processed) in
  joined `sublist_of` later
  ∧ Forall (fun r => jge (DataNormalization.calculateSimilarity
                            (record seed) (record r)) threshold = true) joined
  ∧ NoDup (map idOf joined)
  ∧ (∀ r, r ∈ joined -> idOf r ∉ processed)
  ∧ processed' = list_to_set (map idOf joined) ∪ processed.
Proof.
  revert processed. induction later as [|r later IH]; intros processed.
  - simpl. repeat split; try constructor; [|set_solver].
    intros r Hr. by apply elem_of_nil in Hr.
  - cbn [absorb]. case_bool_decide as Hin.
    + destruct (IH processed) as (H1 & H2 & H3 & H4 & H5).
      repeat split; try done. by apply sublist_cons.
    + destruct (jge _ _) eqn:Hsim.
      * destruct (IH ({[ idOf r ]} ∪ processed)) as (H1 & H2 & H3 & H4 & H5).
        destruct (absorb record threshold seed later _) as [joined processed'].
        cbn [fst snd map] in *. repeat split.
        -- by apply sublist_skip.
        -- by constructor.
        -- apply NoDup_cons. split; [|done].
           intros Hr. apply list_elem_of_fmap in Hr as (r' & Heq & Hr').
           apply H4 in Hr'. set_solver.
        -- intros r' Hr'. apply elem_of_cons in Hr' as [->|Hr']; [done|].
           apply H4 in Hr'. set_solver.
        -- rewrite H5. set_solver.
      * destruct (IH processed) as (H1 & H2 & H3 & H4 & H5).
        repeat split; try done. by apply sublist_cons.
Qed.

(** What [greedyGroups] returns: every group is a seed followed by at
    least one record that joined it, a sublist of the input. *)
Lemma greedyGroups_shape (records : list A) (processed : gset string) :
  Forall (fun g => ∃ seed joined,
            g = seed :: joined ∧ joined ≠ []
            ∧ g `sublist_of` records
            ∧ Forall (fun r => jge (DataNormalization.calculateSimilarity
                                      (record seed) (record r)) threshold = true)
                     joined)
         (greedyGroups record threshold records processed).
Proof.
  revert processed. induction records as [|s later IH]; intros processed.
  - constructor.
  - cbn [greedyGroups]. case_bool_decide.
    + eapply Forall_impl; [apply IH|]. intros g (seed & joined & ? & ? & ? & ?).
      exists seed, joined. repeat split; try done. by apply sublist_cons.
    + pose proof (absorb_spec s later ({[ idOf s ]} ∪ processed))
        as (H1 & H2 & _).
      destruct (absorb record threshold s later _) as [joined processed'].
      cbn [fst snd] in *.
      assert (Forall (fun g => ∃ seed joined0,
                g = seed :: joined0 ∧ joined0 ≠ []
                ∧ g `sublist_of` s :: later
                ∧ Forall (fun r => jge (DataNormalization.calculateSimilarity
                                          (record seed) (record r)) threshold = true)
                         joined0)
              (greedyGroups record threshold later processed')) as Hrest.
      { eapply Forall_impl; [apply IH|]. intros g (seed & j & ? & ? & ? & ?).
        exists seed, j. repeat split; try done. by apply sublist_cons. }
      destruct joined as [|e joined]; [done|].
      constructor; [|done].
      exists s, (e :: joined). repeat split; try done. by apply sublist_skip.
Qed.

(** The ids of the grouped records are pairwise distinct, and none was
    processed before. *)
Lemma greedyGroups_ids (records : list A) (processed : gset string) :
  NoDup (map idOf (concat (greedyGroups record threshold records processed)))
  ∧ (∀ r, r ∈ concat (greedyGroups record threshold records processed) ->
          idOf r ∉ processed).
Proof.
  revert processed. induction records as [|s later IH]; intros processed.
  - simpl. split; [constructor|]. intros r Hr. by apply elem_of_nil in Hr.
  - cbn [greedyGroups]. case_bool_decide as Hs; [apply IH|].
    pose proof (absorb_spec s later ({[ idOf s ]} ∪ processed))
      as (_ & _ & H3 & H4 & H5).
    destruct (absorb record threshold s later _) as [joined processed'].
    cbn [fst snd] in *.
    destruct (IH processed') as [IH1 IH2].
    destruct joined as [|e joined].
    + split; [done|]. intros r Hr. apply IH2 in Hr. set_solver.
    + remember (e :: joined) as j eqn:Hj. clear Hj e joined.
      cbn [concat]. rewrite map_app. split.
      * apply NoDup_app. split; [|split; [|done]].
        -- cbn [map]. apply NoDup_cons. split; [|done].
           intros Hin. apply list_elem_of_fmap in Hin as (r' & Heq & Hr').
           apply H4 in Hr'. set_solver.
        -- intros x Hx Hx'.
           apply list_elem_of_fmap in Hx' as (r' & -> & Hr').
           apply IH2 in Hr'. apply Hr'. rewrite H5.
           apply elem_of_union. cbn [map] in Hx.
           apply elem_of_cons in Hx as [->|Hx]; [right; set_solver|].
           left. by apply elem_of_list_to_set.
      * intros r Hr. apply elem_of_app in Hr as [Hr|Hr].
        -- apply elem_of_cons in Hr as [->|Hr]; [done|].
           apply H4 in Hr. set_solver.
        -- apply IH2 in Hr. set_solver.
Qed.

End GroupShape.

Section Bridge.

Import DataNormalization.

Lemma indexedFrom_lookup (properties : list NormalizedProperty.t)
    (l : list NormalizedProperty.t) :
  ∀ k, drop k properties = l ->
       ∀ e, e ∈ indexedFrom k l -> properties !! fst e = Some (snd e).
Proof.
  induction l as [|x l IH]; intros k Hk e He.
  - by apply elem_of_nil in He.
  - apply drop_cons_inv in Hk as [Hx Hk]. rewrite indexedFrom_cons in He.
    apply elem_of_cons in He as [->|He]; [done|]. by eapply IH.
Qed.

Lemma indexedFrom_records (l : list NormalizedProperty.t) :
  ∀ k, map snd (indexedFrom k l) = l.
Proof.
  induction l as [|x l IH]; intros k; [done|].
  rewrite indexedFrom_cons. cbn [map snd]. by rewrite IH.
Qed.

Lemma indexedFrom_refs (l : list NormalizedProperty.t) :
  ∀ k, map fst (indexedFrom k l) = seq k (length l).
Proof.
  induction l as [|x l IH]; intros k; [done|].
  rewrite indexedFrom_cons. cbn [map fst length seq]. by rewrite IH.
Qed.

(** Reading the objects behind the references of valid entries gives the
    records of the entries. *)
Lemma deref_entries (store : list NormalizedProperty.t)
    (g : list (nat * NormalizedProperty.t)) :
  (∀ e, e ∈ g -> store !! fst e = Some (snd e)) ->
  deref store (map fst g) = map snd g.
Proof.
  induction g as [|e g IH]; intros Hg; [done|].
  unfold deref in *. cbn [map omap list_omap].
  rewrite (Hg e) by left. rewrite IH; [done|].
  intros e' He'. apply Hg. by right.
Qed.

Lemma findDuplicateRefs_indexed (properties : list NormalizedProperty.t)
    (threshold : option jsnum) :
  findDuplicateRefs properties threshold
  = map (map fst) (indexedGroups properties threshold).
Proof.
  unfold findDuplicateRefs, indexedGroups.
  by rewrite (seed_greedy properties _ properties 0 [] ∅ eq_refl).
Qed.

Lemma indexedGroups_valid (properties : list NormalizedProperty.t)
    (threshold : option jsnum) :
  ∀ g e, g ∈ indexedGroups properties threshold -> e ∈ g ->
         properties !! fst e = Some (snd e).
Proof.
  intros g e Hg He.
  pose proof (greedyGroups_shape snd (default defaultThreshold threshold)
                (indexedFrom 0 properties) ∅) as Hshape.
  rewrite Forall_forall in Hshape.
  destruct (Hshape g Hg) as (seed & joined & _ & _ & Hsub & _).
  eapply (indexedFrom_lookup properties properties 0 eq_refl).
  by eapply elem_of_sublist.
Qed.

Lemma findDuplicates_indexed (properties : list NormalizedProperty.t)
    (threshold : option jsnum) :
  findDuplicates properties threshold
  = map (map snd) (indexedGroups properties threshold).
Proof.
  unfold findDuplicates. rewrite findDuplicateRefs_indexed, map_map.
  apply map_ext_in. intros g Hg. apply deref_entries.
  intros e He. eapply indexedGroups_valid; [|done].
  by apply list_elem_of_In.
Qed.

Lemma findDuplicates_greedy (properties : list NormalizedProperty.t)
    (threshold : option jsnum) :
  findDuplicates properties threshold
  = greedyGroups (fun p => p) (default defaultThreshold threshold) properties ∅.
Proof.
  rewrite findDuplicates_indexed. unfold indexedGroups.
  rewrite <- (indexedFrom_records properties 0) at 2.
  by rewrite greedyGroups_map.
Qed.

End Bridge.

(** C5.  For every list of normalized records and every threshold (0.85
    when none is given), [findDuplicates] is the forward pass: each record
    not yet marked processed seeds a group and is marked; each later
    unmarked record whose similarity with that seed reaches the threshold
    joins the group and is marked; a group left with its seed alone is
    discarded.  Every returned group has at least two members. *)
Theorem findDuplicates_forward_pass (properties : list NormalizedProperty.t)
    (threshold : option jsnum) :
  DataNormalization.findDuplicates properties threshold
  = greedyGroups (fun p => p)
                 (default DataNormalization.defaultThreshold threshold)
                 properties ∅
  ∧ Forall (fun g => (2 <= length g)%nat)
           (DataNormalization.findDuplicates properties threshold)
  ∧ DataNormalization.defaultThreshold = Fin (17 # 20).
Proof.
  split; [apply findDuplicates_greedy|]. split; [|reflexivity].
  rewrite findDuplicates_greedy.
  eapply Forall_impl; [apply greedyGroups_shape|].
  intros g (seed & joined & -> & Hne & _). destruct joined; [done|]. simpl. lia.
Qed.

Section ThreeRecords.

Import DataNormalization.

Lemma jlt_not_jge (x y : jsnum) : jlt x y = true -> jge x y = false.
Proof. unfold jlt, jge. by destruct (jcompare x y) as [[]|]. Qed.

(** On three records with distinct ids, the third joins the group of the
    first only through its own similarity with the first. *)
Lemma three_records (a b c : NormalizedProperty.t) (t : jsnum) :
  NormalizedProperty.id a ≠ NormalizedProperty.id b ->
  NormalizedProperty.id a ≠ NormalizedProperty.id c ->
  NormalizedProperty.id b ≠ NormalizedProperty.id c ->
  jge (calculateSimilarity a b) t = true ->
  jge (calculateSimilarity a c) t = false ->
  findDuplicates [a; b; c] (Some t) = [[a; b]].
Proof.
  intros Hab Hac Hbc Hsab Hsac. rewrite findDuplicates_greedy.
  change (default defaultThreshold (Some t)) with t.
  cbn [greedyGroups absorb].
  rewrite bool_decide_eq_false_2 by set_solver.
  rewrite bool_decide_eq_false_2 by set_solver.
  rewrite Hsab.
  rewrite bool_decide_eq_false_2 by set_solver.
  rewrite Hsac.
  rewrite bool_decide_eq_true_2 by set_solver.
  rewrite bool_decide_eq_false_2 by set_solver.
  reflexivity.
Qed.

End ThreeRecords.

(** C6 (as amended).  For all records A, B, C with pairwise distinct ids,
    given in that order, with similarity(A,B) and similarity(B,C) at or
    above the threshold and similarity(A,C) below it, [findDuplicates]
    returns the single group [A, B]: C is compared with the seed A only
    and is grouped with no one. *)
Theorem findDuplicates_compares_with_seed (a b c : NormalizedProperty.t)
    (t : jsnum) :
  NormalizedProperty.id a ≠ NormalizedProperty.id b ->
  NormalizedProperty.id a ≠ NormalizedProperty.id c ->
  NormalizedProperty.id b ≠ NormalizedProperty.id c ->
  jge (DataNormalization.calculateSimilarity a b) t = true ->
  jge (DataNormalization.calculateSimilarity b c) t = true ->
  jlt (DataNormalization.calculateSimilarity a c) t = true ->
  DataNormalization.findDuplicates [a; b; c] (Some t) = [[a; b]]
  ∧ ∀ g, g ∈ DataNormalization.findDuplicates [a; b; c] (Some t) -> c ∉ g.
Proof.
  intros Hab Hac Hbc Hsab _ Hsac.
  rewrite (three_records a b c t Hab Hac Hbc Hsab (jlt_not_jge _ _ Hsac)).
  split; [done|]. intros g Hg Hc.
  apply list_elem_of_singleton in Hg as ->.
  apply elem_of_cons in Hc as [->|Hc]; [done|].
  apply list_elem_of_singleton in Hc as ->. done.
Qed.

Lemma findDuplicates_compares_with_seed_witness :
  DataNormalization.findDuplicates
    [Samples.oak10; Samples.elm10; Samples.elm12] (Some Samples.threshold85)
  = [[Samples.oak10; Samples.elm10]].
Proof.
  apply (findDuplicates_compares_with_seed
           Samples.oak10 Samples.elm10 Samples.elm12 Samples.threshold85);
    first [discriminate | vm_compute; reflexivity].
Defined.

(** The claim as first stated has C grouped with A through B.  On the
    three sample listings the similarities are 0.88, 0.96 and 0.84, and
    the third listing is in no group, with the threshold 0.85 given or
    defaulted; and no three records with distinct ids behave as the claim
    says. *)
Lemma findDuplicates_not_chained :
  DataNormalization.calculateSimilarity Samples.oak10 Samples.elm10 = Fin (22 # 25)
  ∧ DataNormalization.calculateSimilarity Samples.elm10 Samples.elm12 = Fin (24 # 25)
  ∧ DataNormalization.calculateSimilarity Samples.oak10 Samples.elm12 = Fin (21 # 25)
  ∧ DataNormalization.findDuplicates
      [Samples.oak10; Samples.elm10; Samples.elm12] (Some Samples.threshold85)
    = [[Samples.oak10; Samples.elm10]]
  ∧ DataNormalization.findDuplicates
      [Samples.oak10; Samples.elm10; Samples.elm12] None
    = [[Samples.oak10; Samples.elm10]]
  ∧ ¬ (∃ (a b c : NormalizedProperty.t) (t : jsnum) (g : list NormalizedProperty.t),
         NormalizedProperty.id a ≠ NormalizedProperty.id b
         ∧ NormalizedProperty.id a ≠ NormalizedProperty.id c
         ∧ NormalizedProperty.id b ≠ NormalizedProperty.id c
         ∧ jge (DataNormalization.calculateSimilarity a b) t = true
         ∧ jge (DataNormalization.calculateSimilarity b c) t = true
         ∧ jlt (DataNormalization.calculateSimilarity a c) t = true
         ∧ g ∈ DataNormalization.findDuplicates [a; b; c] (Some t)
         ∧ a ∈ g ∧ c ∈ g).
Proof.
  do 5 (split; [vm_compute; reflexivity|]).
  intros (a & b & c & t & g & Hab & Hac & Hbc & Hsab & _ & Hsac & Hg & _ & Hc).
  rewrite (three_records a b c t Hab Hac Hbc Hsab (jlt_not_jge _ _ Hsac)) in Hg.
  apply list_elem_of_singleton in Hg as ->.
  apply elem_of_cons in Hc as [->|Hc]; [done|].
  apply list_elem_of_singleton in Hc as ->. done.
Qed.

(** * Properties of deduplication *)

Section Resolution.

Import DataNormalization.

Abbreviation tag := NormalizedProperty.setDuplicateGroup.
Abbreviation entry := (nat * NormalizedProperty.t)%type.

Lemma elem_of_concat {A : Type} (x : A) (ls : list (list A)) :
  x ∈ concat ls ↔ ∃ l, l ∈ ls ∧ x ∈ l.
Proof.
  rewrite list_elem_of_In, in_concat. split.
  - intros (l & Hl & Hx). exists l. by rewrite !list_elem_of_In.
  - intros (l & Hl & Hx). exists l. by rewrite <- !list_elem_of_In.
Qed.

(** Reading through references whose objects are known. *)
Lemma deref_known {A : Type} (store : list NormalizedProperty.t)
    (h : A -> NormalizedProperty.t) (ref : A -> nat) (g : list A) :
  (∀ e, e ∈ g -> store !! ref e = Some (h e)) ->
  deref store (map ref g) = map h g.
Proof.
  induction g as [|e g IH]; intros Hg; [done|].
  unfold deref in *. cbn [map omap list_omap].
  rewrite (Hg e) by left. rewrite IH; [done|].
  intros e' He'. apply Hg. by right.
Qed.

Lemma deref_ext (s1 s2 : list NormalizedProperty.t) (refs : list nat) :
  (∀ i, i ∈ refs -> s1 !! i = s2 !! i) -> deref s1 refs = deref s2 refs.
Proof.
  induction refs as [|r refs IH]; intros H; [done|].
  unfold deref in *. cbn [omap list_omap].
  rewrite (H r) by left. rewrite IH; [done|].
  intros i Hi. apply H. by right.
Qed.

Lemma deref_app (store : list NormalizedProperty.t) (r1 r2 : list nat) :
  deref store (r1 ++ r2) = deref store r1 ++ deref store r2.
Proof. apply omap_app. Qed.

(** Tagging every object of a group. *)
Lemma tagAll_lookup (gid : string) (refs : list nat) :
  ∀ (store : list NormalizedProperty.t) (j : nat),
    foldl (tagAt gid) store refs !! j
    = if decide (j ∈ refs) then tag gid <$> store !! j else store !! j.
Proof.
  induction refs as [|r refs IH]; intros store j; cbn [foldl].
  - rewrite decide_False; [done|]. apply not_elem_of_nil.
  - rewrite IH. unfold tagAt. rewrite list_lookup_alter.
    destruct (decide (r = j)) as [->|Hne].
    + rewrite (decide_True (P := j ∈ j :: refs)) by left.
      destruct (decide (j ∈ refs)); [|done]. by destruct (store !! j).
    + destruct (decide (j ∈ refs)) as [Hin|Hin].
      * rewrite decide_True; [done|]. by right.
      * rewrite decide_False; [done|].
        intros [->|?]%elem_of_cons; done.
Qed.

Lemma tagAll_length (gid : string) (refs : list nat) :
  ∀ store, length (foldl (tagAt gid) store refs) = length store.
Proof.
  induction refs as [|r refs IH]; intros store; cbn [foldl]; [done|].
  rewrite IH. apply length_alter.
Qed.

(** The reference kept by [reduce] is the one of the record kept by
    [pick]. *)
Lemma better_entries (store : list NormalizedProperty.t) (rest : list entry) :
  ∀ first : entry,
    store !! fst first = Some (snd first) ->
    (∀ e, e ∈ rest -> store !! fst e = Some (snd e)) ->
    ∃ b : entry,
      b ∈ first :: rest
      ∧ foldl (better store) (fst first) (map fst rest) = fst b
      ∧ snd b = foldl pick (snd first) (map snd rest).
Proof.
  induction rest as [|e rest IH]; intros first Hf Hr.
  - exists first. repeat split. by left.
  - cbn [map foldl]. unfold better at 2, pick at 2.
    rewrite (Hr e) by left. rewrite Hf.
    destruct (NormalizedProperty.confidence (snd first)
              <? NormalizedProperty.confidence (snd e))%Z.
    + destruct (IH e) as (b & Hb & H1 & H2).
      * apply Hr. by left.
      * intros e' He'. apply Hr. by right.
      * exists b. split; [by right|done].
    + destruct (IH first Hf) as (b & Hb & H1 & H2).
      * intros e' He'. apply Hr. by right.
      * exists b. split; [|done].
        apply elem_of_cons in Hb as [->|Hb]; [by left|by do 2 right].
Qed.

(** [pick], folded from the left, keeps the first record of highest
    confidence. *)
Lemma pick_invariant (rest : list NormalizedProperty.t) :
  ∀ (before : list NormalizedProperty.t) (cur : NormalizedProperty.t)
    (mid : list NormalizedProperty.t),
    Forall (fun x => (NormalizedProperty.confidence x
                      < NormalizedProperty.confidence cur)%Z) before ->
    Forall (fun x => (NormalizedProperty.confidence x
                      <= NormalizedProperty.confidence cur)%Z) mid ->
    firstHighest (foldl pick cur rest) (before ++ cur :: mid ++ rest).
Proof.
  induction rest as [|x rest IH]; intros before cur mid Hb Hm.
  - exists before, mid. by rewrite app_nil_r.
  - cbn [foldl]. unfold pick at 2.
    destruct (Z.ltb_spec (NormalizedProperty.confidence cur)
                         (NormalizedProperty.confidence x)) as [Hlt|Hge].
    + replace (before ++ cur :: mid ++ x :: rest)
        with ((before ++ cur :: mid) ++ x :: [] ++ rest)
        by (by rewrite <- app_assoc).
      apply IH; [|constructor].
      apply Forall_app. split; [|constructor].
      * eapply Forall_impl; [exact Hb|]. simpl. lia.
      * lia.
      * eapply Forall_impl; [exact Hm|]. simpl. lia.
    + replace (before ++ cur :: mid ++ x :: rest)
        with (before ++ cur :: (mid ++ [x]) ++ rest)
        by (by rewrite <- app_assoc).
      apply IH; [done|]. apply Forall_app. split; [done|]. by constructor.
Qed.

Lemma pick_firstHighest (first : NormalizedProperty.t)
    (rest : list NormalizedProperty.t) :
  firstHighest (foldl pick first rest) (first :: rest).
Proof. apply (pick_invariant rest [] first []); constructor. Qed.

(** The loop over the groups: every object of the [n]-th group ends up
    tagged with the [n]-th id, nothing else changes, and one reference per
    group is pushed, to the first record of highest confidence. *)
Lemma resolveGroups_spec (genId : nat -> string) (GG : list (list entry)) :
  ∀ (k : nat) (store : list NormalizedProperty.t) (dedup : list nat),
    (∀ e, e ∈ concat GG -> store !! fst e = Some (snd e)) ->
    NoDup (map fst (concat GG)) ->
    Forall (fun g => g ≠ []) GG ->
    ∃ (store' : list NormalizedProperty.t) (bests : list entry),
      resolveGroups genId k (map (map fst) GG) store dedup
      = Normal (store', dedup ++ map fst bests)
      ∧ length store' = length store
      ∧ (∀ j, j ∉ map fst (concat GG) -> store' !! j = store !! j)
      ∧ length bests = length GG
      ∧ (∀ n g, GG !! n = Some g ->
           (∀ e, e ∈ g ->
                 store' !! fst e = Some (tag (genId (k + n)%nat) (snd e)))
           ∧ ∃ b, bests !! n = Some b ∧ b ∈ g
                  ∧ firstHighest (snd b) (map snd g)).
Proof.
  induction GG as [|g GG IH]; intros k store dedup Hvalid Hnd Hne.
  - exists store, []. cbn. rewrite app_nil_r. repeat split; try done.
  - apply Forall_cons in Hne as [Hg Hne].
    destruct g as [|first rest]; [done|]. clear Hg.
    cbn [concat] in Hvalid, Hnd. rewrite map_app in Hnd.
    apply NoDup_app in Hnd as (Hnd1 & Hdisj & Hnd2).
    destruct (better_entries store rest first) as (b & Hb & Hbest & Hpick).
    { apply Hvalid. apply elem_of_app. left. by left. }
    { intros e He. apply Hvalid. apply elem_of_app. left. by right. }
    cbn [map resolveGroups reduceBest mbind completion_bind mret completion_ret].
    change (fst first :: map fst rest) with (map fst (first :: rest)).
    rewrite Hbest.
    set (gid := genId k).
    set (g := first :: rest) in *.
    assert (Hstore2 : ∀ j,
      tagAt gid (foldl (tagAt gid) store (map fst g)) (fst b) !! j
      = if decide (j ∈ map fst g) then tag gid <$> store !! j else store !! j).
    { intros j.
      change (tagAt gid (foldl (tagAt gid) store (map fst g)) (fst b))
        with (foldl (tagAt gid) (foldl (tagAt gid) store (map fst g)) [fst b]).
      rewrite <- foldl_app, tagAll_lookup.
      assert (fst b ∈ map fst g) as Hbin.
      { apply list_elem_of_fmap. by exists b. }
      destruct (decide (j ∈ map fst g)) as [Hj|Hj].
      - rewrite decide_True; [done|]. apply elem_of_app. by left.
      - rewrite decide_False; [done|].
        intros [?|Hs]%elem_of_app; [done|].
        apply list_elem_of_singleton in Hs as ->. done. }
    set (store2 := tagAt gid (foldl (tagAt gid) store (map fst g)) (fst b)) in *.
    destruct (IH (S k) store2 (dedup ++ [fst b])) as
      (store' & bests & Hres & Hlen & Hother & Hlenb & Hgroups); [|done|done|].
    { intros e He. rewrite Hstore2, decide_False.
      - apply Hvalid. apply elem_of_app. by right.
      - intros Hin. apply (Hdisj (fst e) Hin).
        apply list_elem_of_fmap. by exists e. }
    exists store', (b :: bests). split; [|split; [|split; [|split]]].
    + rewrite Hres. by rewrite <- app_assoc.
    + rewrite Hlen. unfold store2. unfold tagAt at 1.
      rewrite length_alter. apply tagAll_length.
    + intros j Hj. cbn [concat] in Hj. rewrite map_app in Hj.
      rewrite Hother, Hstore2, decide_False; [done| |].
      * intros Hin. apply Hj. apply elem_of_app. by left.
      * intros Hin. apply Hj. apply elem_of_app. by right.
    + simpl. by rewrite Hlenb.
    + intros [|n] g' Hg'.
      * injection Hg' as <-. split.
        -- intros e He. rewrite Nat.add_0_r.
           rewrite Hother, Hstore2, decide_True.
           ++ rewrite (Hvalid e); [done|]. apply elem_of_app. by left.
           ++ apply list_elem_of_fmap. by exists e.
           ++ intros Hin. apply (Hdisj (fst e)); [|done].
              apply list_elem_of_fmap. by exists e.
        -- exists b. split; [done|]. split; [done|].
           rewrite Hpick. apply pick_firstHighest.
      * replace (k + S n)%nat with (S k + n)%nat by lia. by apply Hgroups.
Qed.

End Resolution.

Section Assembly.

Import DataNormalization.

Abbreviation idOfEntry :=
  (fun e : nat * NormalizedProperty.t => NormalizedProperty.id (snd e)).

Lemma lookup_map {A B : Type} (f : A -> B) (l : list A) (i : nat) :
  map f l !! i = f <$> l !! i.
Proof. exact (list_lookup_fmap f l i). Qed.

(** The set [duplicateIds]. *)
Lemma collectIds_group (properties : list NormalizedProperty.t)
    (g : list (nat * NormalizedProperty.t)) :
  ∀ ids : gset string,
    (∀ e, e ∈ g -> properties !! fst e = Some (snd e)) ->
    foldl (fun ids prop =>
             match properties !! prop with
             | Some p => {[ NormalizedProperty.id p ]} ∪ ids
             | None => ids
             end) ids (map fst g)
    = list_to_set (map idOfEntry g) ∪ ids.
Proof.
  induction g as [|e g IH]; intros ids Hg; cbn [map foldl].
  - set_solver.
  - rewrite (Hg e) by left. rewrite IH.
    + cbn [list_to_set]. set_solver.
    + intros e' He'. apply Hg. by right.
Qed.

Lemma collectIds_groups (properties : list NormalizedProperty.t)
    (GG : list (list (nat * NormalizedProperty.t))) :
  ∀ ids : gset string,
    (∀ e, e ∈ concat GG -> properties !! fst e = Some (snd e)) ->
    foldl (fun ids group =>
             foldl (fun ids prop =>
                      match properties !! prop with
                      | Some p => {[ NormalizedProperty.id p ]} ∪ ids
                      | None => ids
                      end) ids group)
          ids (map (map fst) GG)
    = list_to_set (map idOfEntry (concat GG)) ∪ ids.
Proof.
  induction GG as [|g GG IH]; intros ids HG; cbn [map foldl concat].
  - set_solver.
  - rewrite collectIds_group, IH.
    + rewrite map_app, list_to_set_app_L. set_solver.
    + intros e He. apply HG. apply elem_of_app. by right.
    + intros e He. apply HG. apply elem_of_app. by left.
Qed.

(** Filtering the positions of a list and reading them back is filtering
    the list. *)
Lemma deref_filter_seq (P : NormalizedProperty.t -> bool)
    (l : list NormalizedProperty.t) :
  ∀ pre : list NormalizedProperty.t,
    deref (pre ++ l)
      (List.filter (fun i => match (pre ++ l) !! i with
                             | Some p => P p
                             | None => false
                             end)
                   (seq (length pre) (length l)))
    = List.filter P l.
Proof.
  induction l as [|x l IH]; intros pre; [done|].
  cbn [length seq List.filter].
  rewrite (list_lookup_middle pre l x (length pre) eq_refl).
  specialize (IH (pre ++ [x])).
  rewrite <- app_assoc, length_app, Nat.add_1_r in IH. cbn [app] in IH.
  destruct (P x).
  - unfold deref in *. cbn [omap list_omap].
    rewrite (list_lookup_middle pre l x (length pre) eq_refl).
    by rewrite IH.
  - exact IH.
Qed.

Lemma filter_agree {A : Type} (f : A -> bool) (P : A -> Prop)
    `{∀ x, Decision (P x)} (l : list A) :
  (∀ x, x ∈ l -> f x = true ↔ P x) -> List.filter f l = filter P l.
Proof.
  induction l as [|x l IH]; intros Hl; [done|].
  cbn [List.filter]. rewrite filter_cons.
  pose proof (Hl x (list_elem_of_here x l)) as Hx.
  rewrite IH by (intros y Hy; apply Hl; by right).
  destruct (f x), (decide (P x)); try done.
  - exfalso. tauto.
  - exfalso. assert (false = true) by tauto. done.
Qed.

Lemma deref_length (store : list NormalizedProperty.t) (refs : list nat) :
  (∀ i, i ∈ refs -> is_Some (store !! i)) ->
  length (deref store refs) = length refs.
Proof.
  induction refs as [|r refs IH]; intros H; [done|].
  unfold deref in *. cbn [omap list_omap].
  destruct (H r) as [x Hx]; [by left|]. rewrite Hx. cbn [length].
  rewrite IH; [done|]. intros i Hi. apply H. by right.
Qed.

Lemma deref_imap (store : list NormalizedProperty.t)
    (bests : list (nat * NormalizedProperty.t)) :
  ∀ F : nat -> nat * NormalizedProperty.t -> NormalizedProperty.t,
    (∀ n b, bests !! n = Some b -> store !! fst b = Some (F n b)) ->
    deref store (map fst bests) = imap F bests.
Proof.
  induction bests as [|b bests IH]; intros F HF; [done|].
  unfold deref in *. cbn [map omap list_omap imap].
  rewrite (HF 0%nat b eq_refl). f_equal.
  apply IH. intros n b' Hb'. by apply (HF (S n)).
Qed.

(** With distinct ids, a record is determined by its id. *)
Lemma ids_injective (l : list NormalizedProperty.t)
    (p q : NormalizedProperty.t) :
  NoDup (idsOf l) -> p ∈ l -> q ∈ l ->
  NormalizedProperty.id p = NormalizedProperty.id q -> p = q.
Proof.
  unfold idsOf. induction l as [|x l IH]; intros Hnd Hp Hq Heq.
  - by apply elem_of_nil in Hp.
  - rewrite fmap_cons in Hnd. apply NoDup_cons in Hnd as [Hx Hnd].
    apply elem_of_cons in Hp as [->|Hp]; apply elem_of_cons in Hq as [->|Hq].
    + done.
    + exfalso. apply Hx. rewrite Heq. apply list_elem_of_fmap. by exists q.
    + exfalso. apply Hx. rewrite <- Heq. apply list_elem_of_fmap. by exists p.
    + by apply IH.
Qed.

End Assembly.

(** C7 (as amended).  For every input list whose records have pairwise
    distinct ids, [deduplicateProperties] returns, unchanged and in input
    order, every record that belongs to no duplicate group, followed by
    one survivor per duplicate group: the member of highest confidence,
    the first such member on a tie.  Every member of the [k]-th group,
    the survivor included, carries the [k]-th generated group id as its
    [duplicateGroup], and [removedCount] is the input length minus the
    output length. *)
Theorem deduplicateProperties_spec (genId : nat -> string)
    (properties : list NormalizedProperty.t) :
  NoDup (idsOf properties) ->
  ∃ (r : DedupResult.t) (survivors : list NormalizedProperty.t),
    DataNormalization.deduplicateProperties genId properties = Normal r
    ∧ DedupResult.deduplicatedProperties r
      = filter (fun p => p ∉ concat (DataNormalization.findDuplicates properties None))
               properties
        ++ survivors
    ∧ length survivors
      = length (DataNormalization.findDuplicates properties None)
    ∧ length (DedupResult.duplicateGroups r)
      = length (DataNormalization.findDuplicates properties None)
    ∧ (∀ k g, DataNormalization.findDuplicates properties None !! k = Some g ->
         DedupResult.duplicateGroups r !! k
         = Some (map (NormalizedProperty.setDuplicateGroup (genId k)) g)
         ∧ ∃ m, firstHighest m g
                ∧ survivors !! k
                  = Some (NormalizedProperty.setDuplicateGroup (genId k) m))
    ∧ DedupResult.removedCount r
      = (Z.of_nat (length properties)
         - Z.of_nat (length (DedupResult.deduplicatedProperties r)))%Z.
Proof.
  intros Hids.
  set (GG := indexedGroups properties None).
  assert (Hvalid : ∀ e, e ∈ concat GG -> properties !! fst e = Some (snd e)).
  { intros e (g & Hg & He)%elem_of_concat. by eapply indexedGroups_valid. }
  assert (HndRefs : NoDup (map fst (concat GG))).
  { apply (NoDup_fmap_1 (fun j => from_option NormalizedProperty.id ""
                                              (properties !! j))).
    pose proof (proj1 (greedyGroups_ids snd
      (default DataNormalization.defaultThreshold None)
      (indexedFrom 0 properties) ∅)) as Hnd.
    fold (indexedGroups properties None) in Hnd. fold GG in Hnd.
    replace ((fun j => from_option NormalizedProperty.id "" (properties !! j))
               <$> map fst (concat GG))
      with (map (fun e : nat * NormalizedProperty.t =>
                   NormalizedProperty.id (snd e)) (concat GG)); [done|].
    change (?f <$> map fst (concat GG)) with (map f (map fst (concat GG))).
    rewrite map_map. apply map_ext_in. intros e He%list_elem_of_In.
    by rewrite (Hvalid e He). }
  assert (Hne : Forall (fun g => g ≠ []) GG).
  { eapply Forall_impl; [apply greedyGroups_shape|].
    by intros g (seed & joined & -> & _). }
  unfold DataNormalization.deduplicateProperties. cbv zeta.
  rewrite findDuplicateRefs_indexed. fold GG.
  rewrite (collectIds_groups properties GG ∅ Hvalid).
  set (dupIds := list_to_set _ ∪ ∅).
  set (nonDup := List.filter _ (seq 0 (length properties))).
  destruct (resolveGroups_spec genId GG 0 properties nonDup Hvalid HndRefs Hne)
    as (store' & bests & Hres & Hlen & Hother & Hlenb & Hgroups).
  rewrite Hres. cbn [mbind completion_bind mret completion_ret].
  assert (Hgroups' : DataNormalization.findDuplicates properties None
                     = map (map snd) GG) by apply findDuplicates_indexed.
  assert (HnonDupValid : ∀ i, i ∈ nonDup -> store' !! i = properties !! i).
  { intros i Hi. apply Hother. intros (e & -> & He)%list_elem_of_fmap.
    apply list_elem_of_In, filter_In in Hi as [_ Hi].
    rewrite (Hvalid e He) in Hi. apply negb_true_iff, bool_decide_eq_false in Hi.
    apply Hi. unfold dupIds. apply elem_of_union. left.
    apply elem_of_list_to_set, list_elem_of_fmap. by exists e. }
  assert (Hbests : ∀ n b, bests !! n = Some b ->
            store' !! fst b
            = Some (NormalizedProperty.setDuplicateGroup (genId n) (snd b))
            ∧ ∃ g, GG !! n = Some g ∧ b ∈ g
                   ∧ firstHighest (snd b) (map snd g)).
  { intros n b Hb.
    assert (is_Some (GG !! n)) as [g Hg].
    { apply lookup_lt_is_Some. rewrite <- Hlenb. by eapply lookup_lt_Some. }
    destruct (Hgroups n g Hg) as (Htag & b' & Hb' & Hin & Hfh).
    rewrite Hb in Hb'. injection Hb' as <-.
    split; [by apply Htag|]. by exists g. }
  eexists _, (DataNormalization.deref store' (map fst bests)). split; [reflexivity|].
  cbn [DedupResult.deduplicatedProperties DedupResult.duplicateGroups
       DedupResult.removedCount].
  rewrite (deref_imap store' bests
             (fun n b => NormalizedProperty.setDuplicateGroup (genId n) (snd b)))
    by (intros n b Hb; by apply Hbests).
  split; [|split; [|split; [|split]]].
  - rewrite deref_app. f_equal.
    + rewrite (deref_ext store' properties nonDup HnonDupValid).
      unfold nonDup.
      rewrite (deref_filter_seq
                 (fun p => negb (bool_decide (NormalizedProperty.id p ∈ dupIds)))
                 properties []).
      apply filter_agree. intros p Hp.
      rewrite negb_true_iff, bool_decide_eq_false, Hgroups', <- concat_map.
      unfold dupIds. rewrite elem_of_union, elem_of_list_to_set.
      split.
      * intros Hn (e & -> & He)%list_elem_of_fmap. apply Hn. left.
        apply list_elem_of_fmap. by exists e.
      * intros Hn [(e & Heq & He)%list_elem_of_fmap|Hemp]; [|set_solver].
        apply Hn. apply list_elem_of_fmap. exists e. split; [|done].
        apply (ids_injective properties); try done.
        eapply list_elem_of_lookup_2. by apply Hvalid.
    + apply (deref_imap store' bests).
      intros n b Hb. by apply Hbests.
  - rewrite length_imap, Hgroups', length_map. done.
  - rewrite Hgroups', !length_map. done.
  - intros k g Hg. rewrite Hgroups', lookup_map in Hg.
    apply fmap_Some in Hg as (ge & Hge & ->).
    destruct (Hgroups k ge Hge) as (Htag & b & Hb & Hin & Hfh).
    split.
    + rewrite !lookup_map, Hge. cbn [fmap option_fmap option_map]. f_equal.
      rewrite map_map. apply deref_known. intros e He. by apply Htag.
    + exists (snd b). split; [done|]. by rewrite list_lookup_imap, Hb.
  - f_equal. f_equal. symmetry. apply deref_length.
    intros i [Hi|Hi]%elem_of_app.
    + apply lookup_lt_is_Some. rewrite Hlen.
      apply list_elem_of_In, filter_In in Hi as [Hi%list_elem_of_In _].
      apply elem_of_seq in Hi. lia.
    + apply list_elem_of_fmap in Hi as (b & -> & Hb).
      apply list_elem_of_lookup_1 in Hb as [n Hb].
      destruct (Hbests n b Hb) as [-> _]. by eexists.
Qed.

Lemma deduplicateProperties_spec_witness :
  ∃ r : DedupResult.t,
    DataNormalization.deduplicateProperties Samples.groupIds
      [Samples.oak10; Samples.elm10; Samples.elm12] = Normal r
    ∧ DedupResult.deduplicatedProperties r
      = [Samples.elm12;
         NormalizedProperty.setDuplicateGroup "group_0" Samples.elm10]
    ∧ DedupResult.removedCount r = 1%Z.
Proof.
  assert (NoDup (idsOf [Samples.oak10; Samples.elm10; Samples.elm12])) as Hnd.
  { apply (bool_decide_unpack _). vm_compute. exact I. }
  destruct (deduplicateProperties_spec Samples.groupIds
              [Samples.oak10; Samples.elm10; Samples.elm12] Hnd)
    as (r & survivors & Hr & _).
  exists r. split; [exact Hr|].
  vm_compute in Hr. injection Hr as <-. split; reflexivity.
Defined.

(** The claim as first stated covers lists in which two records carry the
    same id.  Here the third record has the id of the first, is similar to
    no one and belongs to no duplicate group, and yet is absent from the
    output. *)
Lemma deduplicateProperties_drops_same_id :
  DataNormalization.findDuplicates
    [Samples.oak10; Samples.elm10; Samples.pine99] None
  = [[Samples.oak10; Samples.elm10]]
  ∧ (Samples.pine99 ∉ [Samples.oak10; Samples.elm10])
  ∧ jlt (DataNormalization.calculateSimilarity Samples.oak10 Samples.pine99)
        DataNormalization.defaultThreshold = true
  ∧ jlt (DataNormalization.calculateSimilarity Samples.elm10 Samples.pine99)
        DataNormalization.defaultThreshold = true
  ∧ ∃ r : DedupResult.t,
      DataNormalization.deduplicateProperties Samples.groupIds
        [Samples.oak10; Samples.elm10; Samples.pine99] = Normal r
      ∧ DedupResult.deduplicatedProperties r
        = [NormalizedProperty.setDuplicateGroup "group_0" Samples.elm10]
      ∧ (Samples.pine99 ∉ DedupResult.deduplicatedProperties r)
      ∧ DedupResult.removedCount r = 2%Z.
Proof.
  split; [vm_compute; reflexivity|].
  split; [apply (bool_decide_unpack _); vm_compute; exact I|].
  split; [vm_compute; reflexivity|].
  split; [vm_compute; reflexivity|].
  eexists. split; [vm_compute; reflexivity|].
  split; [reflexivity|]. split; [|reflexivity].
  apply (bool_decide_unpack _). vm_compute. exact I.
Qed.

(** * Properties of the job queue *)

(** Reduce the fields read out of an explicit state. *)
Ltac fields :=
  cbn [JobQueueSystem.heap JobQueueSystem.jobs JobQueueSystem.queue
       JobQueueSystem.runningJobs JobQueueSystem.isProcessing
       JobQueueSystem.timers JobQueueSystem.executing
       JobQueueSystem.progressUpdates] in *.

Ltac settle_cases outcome s a :=
  unfold JobQueueSystem.executeJobSettle, JobQueueSystem.tryBlock,
    JobQueueSystem.catchBlock;
  destruct outcome as [result|error]; cbv beta iota zeta;
  [|destruct (Job.attempts (JobQueueSystem.jobAt s a)
              <? Job.maxAttempts (JobQueueSystem.jobAt s a))%Z];
  cbv beta iota zeta delta [snd].

Ltac open_inv :=
  unfold QueueSpec.consistentExcept, QueueSpec.refsValid, QueueSpec.slotsHeld,
    QueueSpec.runningTracked, QueueSpec.queueOk, QueueSpec.queueSorted,
    QueueSpec.validRef, QueueSpec.idOf, JobQueueSystem.jobAt in *.

Section PendingOrder.

Import JobQueueSystem QueueSpec.

(** The comparison function orders by priority, then by creation time. *)
Lemma compareJobs_before (a b : Job.t) :
  (compareJobs a b <=? 0)%Z = true ↔ before a b.
Proof.
  unfold compareJobs, before. rewrite Z.leb_le. case_decide; lia.
Qed.

Lemma before_total (a b : Job.t) : before a b ∨ before b a.
Proof. unfold before. lia. Qed.

Lemma before_trans (a b c : Job.t) : before a b -> before b c -> before a c.
Proof. unfold before. lia. Qed.

Lemma insertJob_Forall (P : nat -> Prop) (h : list Job.t) (x : nat)
    (l : list nat) :
  Forall P (insertJob h x l) ↔ P x ∧ Forall P l.
Proof.
  induction l as [|y l IH]; cbn [insertJob].
  - rewrite Forall_singleton. split; [|tauto]. intros; split; [done|constructor].
  - destruct (compareJobs (h !!! x) (h !!! y) <=? 0)%Z.
    + by rewrite Forall_cons.
    + rewrite !Forall_cons, IH. tauto.
Qed.

Lemma insertJob_sorted (h : list Job.t) (x : nat) (l : list nat) :
  sortedRefs h l -> sortedRefs h (insertJob h x l).
Proof.
  unfold sortedRefs. induction l as [|y l IH]; intros Hl; cbn [insertJob].
  - repeat constructor.
  - apply StronglySorted_inv in Hl as [Hl Hy].
    destruct (compareJobs (h !!! x) (h !!! y) <=? 0)%Z eqn:E.
    + apply compareJobs_before in E.
      apply SSorted_cons; [by apply SSorted_cons|].
      constructor; [done|].
      eapply Forall_impl; [exact Hy|]. intros z Hz. by eapply before_trans.
    + apply SSorted_cons; [by apply IH|].
      apply insertJob_Forall. split; [|done].
      destruct (before_total (h !!! x) (h !!! y)) as [Hxy|Hyx]; [|done].
      apply compareJobs_before in Hxy. congruence.
Qed.

(** Whatever the pool holds, [sortQueue] leaves it in order, with the
    same members. *)
Lemma sortRefs_sorted (h : list Job.t) (l : list nat) :
  sortedRefs h (sortRefs h l).
Proof.
  induction l as [|x l IH]; cbn [sortRefs foldr].
  - constructor.
  - by apply insertJob_sorted.
Qed.

Lemma sortRefs_Forall (P : nat -> Prop) (h : list Job.t) (l : list nat) :
  Forall P (sortRefs h l) ↔ Forall P l.
Proof.
  induction l as [|x l IH]; cbn [sortRefs foldr]; [done|].
  rewrite insertJob_Forall, Forall_cons. unfold sortRefs in IH. by rewrite IH.
Qed.

Lemma Forall_sublist {A : Type} (P : A -> Prop) (l l' : list A) :
  l' `sublist_of` l -> Forall P l -> Forall P l'.
Proof.
  rewrite !Forall_forall. intros Hsub H x Hx. apply H.
  by eapply elem_of_sublist.
Qed.

Lemma sortedRefs_sublist (h : list Job.t) (l l' : list nat) :
  l' `sublist_of` l -> sortedRefs h l -> sortedRefs h l'.
Proof.
  unfold sortedRefs. induction 1 as [|x l1 l2 Hsub IH|x l1 l2 Hsub IH]; intros Hl.
  - constructor.
  - apply StronglySorted_inv in Hl as [Hl Hx].
    apply SSorted_cons; [by apply IH|]. by eapply Forall_sublist.
  - apply StronglySorted_inv in Hl as [Hl _]. by apply IH.
Qed.

(** The order of the pool depends on the priority and the creation time
    of its members only. *)
Lemma sortedRefs_same_keys (h h' : list Job.t) (l : list nat) :
  (∀ a, a ∈ l -> Job.priority (h' !!! a) = Job.priority (h !!! a)
                 ∧ Job.createdAt (h' !!! a) = Job.createdAt (h !!! a)) ->
  sortedRefs h l -> sortedRefs h' l.
Proof.
  unfold sortedRefs. induction l as [|x l IH]; intros Hk Hl; [constructor|].
  apply StronglySorted_inv in Hl as [Hl Hx].
  apply SSorted_cons.
  - apply IH; [|done]. intros a Ha. apply Hk. by right.
  - rewrite Forall_forall in Hx. apply Forall_forall. intros y Hy.
    destruct (Hk x) as [Hp Hc]; [by left|].
    destruct (Hk y) as [Hp' Hc']; [by right|].
    specialize (Hx y Hy). unfold before in *. rewrite Hp, Hc, Hp', Hc'. done.
Qed.

End PendingOrder.

Section Consistency.

Import JobQueueSystem QueueSpec.

Lemma alter_static {T : Type} (Q : Job.t -> T) (f : Job.t -> Job.t)
    (h : list Job.t) (a b : nat) :
  (∀ j, Q (f j) = Q j) -> Q (alter f a h !!! b) = Q (h !!! b).
Proof.
  intros HQ. rewrite list_lookup_total_alter.
  case_decide as Hd; [|done]. destruct Hd as [-> _]. apply HQ.
Qed.

Lemma keepsStatic_setStatus v : keepsStatic (Job.setStatus v).
Proof. by intros j. Qed.
Lemma keepsStatic_setStartedAt v : keepsStatic (Job.setStartedAt v).
Proof. by intros j. Qed.
Lemma keepsStatic_setCompletedAt v : keepsStatic (Job.setCompletedAt v).
Proof. by intros j. Qed.
Lemma keepsStatic_setErrorMessage v : keepsStatic (Job.setErrorMessage v).
Proof. by intros j. Qed.
Lemma keepsStatic_setResult v : keepsStatic (Job.setResult v).
Proof. by intros j. Qed.
Lemma keepsStatic_bumpAttempts :
  keepsStatic (fun j => Job.setAttempts (Job.attempts j + 1) j).
Proof. by intros j. Qed.

Lemma extends_refl (s : state) : extends s s.
Proof. split; [lia|]. by intros b _. Qed.

Lemma extends_trans (s1 s2 s3 : state) :
  extends s1 s2 -> extends s2 s3 -> extends s1 s3.
Proof.
  intros [H1 H1'] [H2 H2']. split; [lia|]. intros b Hb.
  destruct (H1' b Hb) as (? & ? & ?).
  destruct (H2' b) as (? & ? & ?); [unfold validRef in *; lia|].
  repeat split; congruence.
Qed.

Lemma extends_frame (s s' : state) :
  heap s' = heap s -> extends s s'.
Proof.
  intros H. unfold extends, validRef, jobAt. rewrite H. split; [lia|]. done.
Qed.

Lemma extends_updateJob (f : Job.t -> Job.t) (a : nat) (s : state) :
  keepsStatic f -> extends s (updateJob f a s).
Proof.
  intros Hf. unfold extends, validRef, jobAt, updateJob, setHeap. fields.
  rewrite length_alter. split; [lia|]. intros b _.
  repeat split; apply alter_static; intros j; apply Hf.
Qed.

Lemma queueOk_extends (s s' : state) (q : list nat) :
  extends s s' -> queueOk s q -> queueOk s' q.
Proof.
  intros [Hlen Hst] [Hv Hs]. split.
  - eapply Forall_impl; [exact Hv|]. unfold validRef. intros; lia.
  - eapply sortedRefs_same_keys; [|exact Hs].
    rewrite Forall_forall in Hv. intros a Ha.
    destruct (Hst a (Hv a Ha)) as (_ & ? & ?). done.
Qed.

Lemma queueOk_sublist (s : state) (q q' : list nat) :
  q' `sublist_of` q -> queueOk s q -> queueOk s q'.
Proof.
  intros Hsub [Hv Hs]. split.
  - by eapply Forall_sublist.
  - by eapply sortedRefs_sublist.
Qed.

(** Consistency does not look at the pool, the flag or the progress
    log. *)
Lemma consistentExcept_frame (x : option nat) (s s' : state) :
  heap s' = heap s -> jobs s' = jobs s -> runningJobs s' = runningJobs s ->
  timers s' = timers s -> executing s' = executing s ->
  consistentExcept x s -> consistentExcept x s'.
Proof.
  intros H1 H2 H3 H4 H5. open_inv. rewrite H1, H2, H3, H4, H5. done.
Qed.

Lemma consistentExcept_weaken (a : nat) (s : state) :
  consistentExcept None s -> consistentExcept (Some a) s.
Proof.
  intros (Hv & Hs & Hr). split; [exact Hv|]. split; [exact Hs|].
  intros b Hb _ Hst. by apply Hr.
Qed.

(** An update of one job object. *)
Lemma updateJob_consistent (x : option nat) (f : Job.t -> Job.t) (a : nat)
    (s : state) :
  keepsStatic f ->
  (Some a = x
   ∨ ∀ j, Job.status (f j) = Job.running -> Job.status j = Job.running) ->
  consistentExcept x s -> consistentExcept x (updateJob f a s).
Proof.
  intros Hf Hx ((Hve & Hvt & Hvj) & (Hnd & Hin & Hsz) & Hr).
  assert (Hid : ∀ b, Job.id (alter f a (heap s) !!! b) = Job.id (heap s !!! b)).
  { intros b. apply alter_static. intros j. apply Hf. }
  open_inv. unfold updateJob, setHeap. fields. rewrite length_alter.
  split; [|split].
  - split; [done|]. split; [done|].
    intros i b Hb. rewrite Hid. by apply Hvj.
  - split; [|split; [|done]].
    + erewrite map_ext; [exact Hnd|]. intros b. apply Hid.
    + intros b Hb. rewrite Hid. by apply Hin.
  - intros b Hb Hne Hst. apply Hr; try done.
    rewrite list_lookup_total_alter in Hst.
    case_decide as Hd; [|done]. destruct Hd as [-> _].
    destruct Hx as [Hx|Hx]; [done|]. by apply Hx.
Qed.

Lemma setTimeout_consistent (x : option nat) (act : TimerAction) (d : Z)
    (s : state) :
  (∀ a, act = Requeue a -> validRef s a) ->
  consistentExcept x s -> consistentExcept x (setTimeout act d s).
Proof.
  intros Hact ((Hve & Hvt & Hvj) & Hs & Hr).
  split; [|split; [exact Hs|exact Hr]].
  split; [exact Hve|]. split; [|exact Hvj].
  unfold setTimeout, setTimers. fields.
  intros t a [Ht|Ht]%elem_of_app Ha.
  - by eapply Hvt.
  - apply list_elem_of_singleton in Ht as ->. by apply Hact.
Qed.

Lemma updateProgress_consistent (x : option nat) (i : string) (p : Z)
    (m : string) (s : state) :
  consistentExcept x s -> consistentExcept x (updateProgress i p m s).
Proof. by apply consistentExcept_frame. Qed.

Lemma validRef_updateJob (f : Job.t -> Job.t) (a b : nat) (s : state) :
  validRef s b -> validRef (updateJob f a s) b.
Proof. unfold validRef, updateJob, setHeap. fields. by rewrite length_alter. Qed.

Lemma jobAt_updateJob_same (f : Job.t -> Job.t) (a : nat) (s : state) :
  validRef s a -> jobAt (updateJob f a s) a = f (jobAt s a).
Proof.
  intros Ha. unfold jobAt, updateJob, setHeap. fields.
  by apply list_lookup_total_alter_eq.
Qed.

Lemma jobAt_updateJob_other (f : Job.t -> Job.t) (a b : nat) (s : state) :
  a ≠ b -> jobAt (updateJob f a s) b = jobAt s b.
Proof.
  intros Hab. unfold jobAt, updateJob, setHeap. fields.
  by apply list_lookup_total_alter_ne.
Qed.

Lemma idOf_updateJob (f : Job.t -> Job.t) (a b : nat) (s : state) :
  keepsStatic f -> idOf (updateJob f a s) b = idOf s b.
Proof.
  intros Hf. unfold idOf, jobAt, updateJob, setHeap. fields.
  apply alter_static. intros j. apply Hf.
Qed.

Lemma NoDup_map_injective {A B : Type} (f : A -> B) (l : list A) (x y : A) :
  NoDup (map f l) -> x ∈ l -> y ∈ l -> f x = f y -> x = y.
Proof.
  induction l as [|z l IH]; intros Hnd Hx Hy Heq.
  - by apply elem_of_nil in Hx.
  - cbn [map] in Hnd. apply NoDup_cons in Hnd as [Hz Hnd].
    apply elem_of_cons in Hx as [->|Hx]; apply elem_of_cons in Hy as [->|Hy].
    + done.
    + exfalso. apply Hz. rewrite Heq. apply list_elem_of_fmap. by exists y.
    + exfalso. apply Hz. rewrite <- Heq. apply list_elem_of_fmap. by exists x.
    + by apply IH.
Qed.

Lemma NoDup_map_filter {A B : Type} (f : A -> B) (p : A -> bool) (l : list A) :
  NoDup (map f l) -> NoDup (map f (List.filter p l)).
Proof.
  induction l as [|z l IH]; intros Hnd; [done|].
  cbn [map] in Hnd. apply NoDup_cons in Hnd as [Hz Hnd].
  cbn [List.filter]. destruct (p z); [|by apply IH].
  cbn [map]. apply NoDup_cons. split; [|by apply IH].
  intros (y & Heq & Hy%list_elem_of_In%filter_In)%list_elem_of_fmap.
  apply Hz. apply list_elem_of_fmap. exists y. split; [done|].
  apply list_elem_of_In. tauto.
Qed.

(** A job takes a slot: its id enters [runningJobs]. *)
Lemma reserve_consistent (a : nat) (s : state) :
  consistentExcept None s ->
  idOf s a ∉ runningJobs s ->
  (size (runningJobs s) < maxConcurrentJobs)%nat ->
  consistentExcept None (setRunningJobs ({[ idOf s a ]} ∪ runningJobs s) s).
Proof.
  intros (Hv & (Hnd & Hin & Hsz) & Hr) Hid Hlt.
  split; [exact Hv|]. split; [|exact Hr].
  split; [exact Hnd|]. unfold setRunningJobs. fields. split.
  - intros b Hb. apply elem_of_union. right. by apply Hin.
  - rewrite size_union by set_solver. rewrite size_singleton. lia.
Qed.

(** The job whose status was just set joins the jobs being executed. *)
Lemma acquire_consistent (a : nat) (s : state) :
  consistentExcept (Some a) s ->
  validRef s a ->
  idOf s a ∉ map (idOf s) (executing s) ->
  idOf s a ∈ runningJobs s ->
  consistentExcept None (setExecuting (executing s ++ [a]) s).
Proof.
  intros ((Hve & Hvt & Hvj) & (Hnd & Hin & Hsz) & Hr) Ha Hfresh Hheld.
  split; [|split].
  - split; [|split; [exact Hvt|exact Hvj]].
    unfold setExecuting. fields. apply Forall_app. split; [exact Hve|].
    by apply Forall_singleton.
  - unfold slotsHeld, setExecuting, idOf, jobAt in *. fields.
    split; [|split; [|exact Hsz]].
    + rewrite map_app. apply NoDup_app. split; [exact Hnd|]. split.
      * intros i Hi Hi'. cbn [map] in Hi'.
        apply list_elem_of_singleton in Hi' as ->. done.
      * cbn [map]. apply NoDup_singleton.
    + intros b [Hb|Hb]%elem_of_app; [by apply Hin|].
      apply list_elem_of_singleton in Hb as ->. done.
  - intros b Hb _ Hst. unfold setExecuting. fields.
    apply elem_of_app. destruct (decide (b = a)) as [->|Hne].
    + right. by apply list_elem_of_singleton.
    + left. apply Hr; try done. congruence.
Qed.

Lemma start_consistent (now : Z) (a : nat) (s : state) :
  consistentExcept None s ->
  validRef s a ->
  idOf s a ∉ runningJobs s ->
  (size (runningJobs s) < maxConcurrentJobs)%nat ->
  consistentExcept None
    (executeJobStart now a
       (setRunningJobs ({[ idOf s a ]} ∪ runningJobs s) s)).
Proof.
  intros Hc Ha Hid Hlt.
  assert (Hfresh : idOf s a ∉ map (idOf s) (executing s)).
  { destruct Hc as (_ & (_ & Hin & _) & _).
    intros (b & Heq & Hb)%list_elem_of_fmap. apply Hid. rewrite Heq. by apply Hin. }
  pose proof (reserve_consistent a s Hc Hid Hlt) as H1.
  apply (consistentExcept_weaken a) in H1.
  set (s1 := setRunningJobs _ s) in *.
  unfold executeJobStart. cbv zeta.
  apply acquire_consistent.
  - apply updateProgress_consistent.
    repeat (apply updateJob_consistent;
            [first [apply keepsStatic_setStatus | apply keepsStatic_setStartedAt
                   | apply keepsStatic_bumpAttempts]
            |by left|]).
    exact H1.
  - unfold validRef, updateProgress, setProgressUpdates, updateJob, setHeap. fields.
    by rewrite !length_alter.
  - unfold idOf, jobAt, updateProgress, setProgressUpdates, updateJob, setHeap
      in *. fields.
    rewrite !(alter_static Job.id) by done.
    erewrite map_ext; [exact Hfresh|].
    intros b. cbn beta. by rewrite !(alter_static Job.id).
  - unfold idOf, jobAt, updateProgress, setProgressUpdates, updateJob, setHeap
      in *. fields.
    rewrite !(alter_static Job.id) by done. set_solver.
Qed.

(** The job that left the status [running] gives its slot back. *)
Lemma release_consistent (a : nat) (s : state) :
  consistentExcept (Some a) s ->
  a ∈ executing s ->
  Job.status (jobAt s a) ≠ Job.running ->
  consistentExcept None (releaseSlot a (endActivation a s)).
Proof.
  intros ((Hve & Hvt & Hvj) & (Hnd & Hin & Hsz) & Hr) Ha Hst.
  unfold releaseSlot, endActivation.
  split; [|split].
  - split; [|split; [exact Hvt|exact Hvj]].
    unfold setRunningJobs, setExecuting. fields.
    rewrite Forall_forall in Hve. apply Forall_forall.
    intros b Hb%list_elem_of_In%filter_In. apply Hve. apply list_elem_of_In. tauto.
  - unfold slotsHeld, setRunningJobs, setExecuting, idOf, jobAt in *. fields.
    split; [by apply NoDup_map_filter|]. split.
    + intros b Hb%list_elem_of_In%filter_In. destruct Hb as [Hb%list_elem_of_In Hne].
      apply elem_of_difference. split; [by apply Hin|].
      intros Heq%elem_of_singleton.
      assert (b = a) as -> by (by eapply (NoDup_map_injective _ _ _ _ Hnd)).
      by rewrite Nat.eqb_refl in Hne.
    + etrans; [|exact Hsz]. apply subseteq_size. set_solver.
  - intros b Hb _ Hrun. unfold setRunningJobs, setExecuting. fields.
    assert (b ≠ a) as Hne by (intros ->; done).
    apply list_elem_of_In, filter_In. split.
    + apply list_elem_of_In, Hr; try done. congruence.
    + apply negb_true_iff, Nat.eqb_neq. done.
Qed.

Local Ltac chain H :=
  repeat first
    [ apply updateProgress_consistent
    | apply setTimeout_consistent; [intros ? [= <-]; repeat apply validRef_updateJob; assumption|]
    | apply updateJob_consistent;
      [first [apply keepsStatic_setStatus | apply keepsStatic_setStartedAt
             | apply keepsStatic_setCompletedAt | apply keepsStatic_setErrorMessage
             | apply keepsStatic_setResult | apply keepsStatic_bumpAttempts]
      |by left|] ];
  exact H.

Lemma jobAt_updateProgress (i : string) (p : Z) (m : string) (s : state)
    (a : nat) :
  jobAt (updateProgress i p m s) a = jobAt s a.
Proof. reflexivity. Qed.

Lemma jobAt_setTimeout (act : TimerAction) (d : Z) (s : state) (a : nat) :
  jobAt (setTimeout act d s) a = jobAt s a.
Proof. reflexivity. Qed.

Lemma settle_consistent (now : Z) (a : nat) (outcome : Outcome) (s : state) :
  consistentExcept None s ->
  a ∈ executing s ->
  consistentExcept None (snd (executeJobSettle now a outcome s)).
Proof.
  intros Hc Ha.
  assert (validRef s a) as Hva.
  { destruct Hc as ((Hve & _) & _). rewrite Forall_forall in Hve. by apply Hve. }
  apply (consistentExcept_weaken a) in Hc.
  settle_cases outcome s a;
    (apply release_consistent;
     [ chain Hc
     | exact Ha
     | rewrite ?jobAt_updateProgress, ?jobAt_setTimeout;
       rewrite !jobAt_updateJob_same
         by (repeat apply validRef_updateJob; exact Hva);
       cbn; discriminate ]).
Qed.

Lemma extends_executeJobStart (now : Z) (a : nat) (R : gset string)
    (s : state) :
  extends s (executeJobStart now a (setRunningJobs R s))
  ∧ length (heap (executeJobStart now a (setRunningJobs R s))) = length (heap s).
Proof.
  unfold executeJobStart. cbv zeta. split.
  - eapply extends_trans; [|apply extends_frame; reflexivity].
    eapply extends_trans; [|apply extends_updateJob, keepsStatic_bumpAttempts].
    eapply extends_trans; [|apply extends_updateJob, keepsStatic_setStartedAt].
    eapply extends_trans; [|apply extends_updateJob, keepsStatic_setStatus].
    by apply extends_frame.
  - unfold setExecuting, updateProgress, setProgressUpdates, updateJob, setHeap,
      setRunningJobs. fields. by rewrite !length_alter.
Qed.

(** The scheduler loop: it takes the pool from its head, starts the jobs
    it takes in that order, and leaves the rest of the pool. *)
Lemma dispatchLoop_spec (now : Z) (q : list nat) :
  ∀ s : state,
    consistentExcept None s ->
    Forall (validRef s) q ->
    consistentExcept None (dispatchLoop now q s)
    ∧ extends s (dispatchLoop now q s)
    ∧ timers (dispatchLoop now q s) = timers s
    ∧ isProcessing (dispatchLoop now q s) = isProcessing s
    ∧ ∃ (n : nat) (started : list nat),
        queue (dispatchLoop now q s) = drop n q
        ∧ executing (dispatchLoop now q s) = executing s ++ started
        ∧ started `sublist_of` take n q.
Proof.
  induction q as [|job q IH]; intros s Hc Hq.
  - cbn [dispatchLoop]. split; [by eapply consistentExcept_frame|].
    split; [by apply extends_frame|]. do 2 (split; [done|]).
    exists 0%nat, []. by rewrite app_nil_r.
  - cbn [dispatchLoop]. apply Forall_cons in Hq as [Hjob Hq].
    case_decide as Hsz.
    + case_bool_decide as Hin.
      * destruct (IH s Hc Hq) as (H1 & H2 & H3 & H4 & n & started & Hn & He & Hs).
        split; [done|]. split; [done|]. do 2 (split; [done|]).
        exists (S n), started. split; [done|]. split; [done|].
        cbn [take]. by apply sublist_cons.
      * pose proof (start_consistent now job s Hc Hjob Hin Hsz) as Hc1.
        destruct (extends_executeJobStart now job
                    ({[ idOf s job ]} ∪ runningJobs s) s) as [Hext Hlen].
        unfold idOf in *.
        set (s1 := executeJobStart now job _) in *.
        destruct (IH s1 Hc1) as (H1 & H2 & H3 & H4 & n & started & Hn & He & Hs).
        { eapply Forall_impl; [exact Hq|]. unfold validRef. intros b Hb. by rewrite Hlen. }
        split; [done|]. split; [by eapply extends_trans|].
        split; [by rewrite H3|]. split; [by rewrite H4|].
        exists (S n), (job :: started). split; [done|]. split.
        -- rewrite He. unfold s1, executeJobStart. cbv zeta.
           unfold setExecuting. fields. by rewrite <- app_assoc.
        -- cbn [take]. by apply sublist_skip.
    + split; [by eapply consistentExcept_frame|].
      split; [by apply extends_frame|]. do 2 (split; [done|]).
      exists 0%nat, []. by rewrite app_nil_r.
Qed.

Lemma processQueue_consistent (now : Z) (s : state) :
  consistent s -> consistent (processQueue now s).
Proof.
  intros [Hc Hq]. unfold processQueue. destruct (isProcessing s) eqn:Hp; [done|].
  assert (consistentExcept None (setIsProcessing true s)) as Hc1
    by (by eapply consistentExcept_frame).
  destruct (dispatchLoop_spec now (queue (setIsProcessing true s))
              (setIsProcessing true s) Hc1)
    as (H1 & H2 & _ & _ & n & started & Hn & _ & _); [apply Hq|].
  split.
  - by apply setTimeout_consistent.
  - unfold setTimeout, setTimers. fields.
    apply (queueOk_extends (setIsProcessing true s)); [apply H2|].
    rewrite Hn. apply (queueOk_sublist _ (queue s)); [apply sublist_drop|].
    apply Hq.
Qed.

(** A fresh job object at the end of the heap. *)
Lemma allocate_consistent (job : Job.t) (s : state) :
  consistentExcept None s ->
  Job.status job ≠ Job.running ->
  consistentExcept None (setHeap (heap s ++ [job]) s)
  ∧ extends s (setHeap (heap s ++ [job]) s)
  ∧ jobAt (setHeap (heap s ++ [job]) s) (length (heap s)) = job.
Proof.
  intros ((Hve & Hvt & Hvj) & (Hnd & Hin & Hsz) & Hr) Hst.
  assert (Hsame : ∀ b, validRef s b ->
            jobAt (setHeap (heap s ++ [job]) s) b = jobAt s b).
  { intros b Hb. unfold jobAt, setHeap. fields. by apply lookup_total_app_l. }
  assert (Hnew : jobAt (setHeap (heap s ++ [job]) s) (length (heap s)) = job).
  { unfold jobAt, setHeap. fields. by apply list_lookup_total_middle. }
  rewrite Forall_forall in Hve.
  split; [|split; [|exact Hnew]].
  - split; [|split].
    + split; [|split].
      * apply Forall_forall. intros b Hb. unfold validRef, setHeap. fields.
        rewrite length_app. specialize (Hve b Hb). unfold validRef in Hve. lia.
      * intros t a Ht Hact. unfold validRef, setHeap. fields.
        rewrite length_app. specialize (Hvt t a Ht Hact). unfold validRef in Hvt. lia.
      * intros i a Hia. destruct (Hvj i a Hia) as [Ha Hid]. split.
        -- unfold validRef, setHeap in *. fields. rewrite length_app. lia.
        -- unfold idOf. by rewrite Hsame.
    + split; [|split; [|exact Hsz]].
      * erewrite map_ext_in; [exact Hnd|]. intros b Hb%list_elem_of_In.
        unfold idOf. by rewrite Hsame by (by apply Hve).
      * intros b Hb. unfold idOf. rewrite Hsame by (by apply Hve). by apply Hin.
    + intros b Hb _ Hrun. unfold validRef, setHeap in Hb. fields.
      rewrite length_app in Hb. cbn [length] in Hb.
      destruct (decide (b = length (heap s))) as [->|Hne].
      * rewrite Hnew in Hrun. done.
      * assert (validRef s b) as Hb' by (unfold validRef; lia).
        rewrite Hsame in Hrun by done. by apply Hr.
  - split.
    + unfold setHeap. fields. rewrite length_app. lia.
    + intros b Hb. by rewrite Hsame.
Qed.

Lemma register_consistent (i : string) (a : nat) (s : state) :
  consistentExcept None s ->
  validRef s a -> idOf s a = i ->
  consistentExcept None (setJobs (<[ i := a ]> (jobs s)) s).
Proof.
  intros ((Hve & Hvt & Hvj) & Hs & Hr) Ha Hi.
  split; [|split; [exact Hs|exact Hr]].
  split; [exact Hve|]. split; [exact Hvt|].
  unfold setJobs. fields. intros j b Hjb.
  apply lookup_insert_Some in Hjb as [[<- <-]|[_ Hjb]]; [done|].
  by apply Hvj.
Qed.

Lemma sortQueue_queueOk (s : state) :
  Forall (validRef s) (queue s) -> queueOk (sortQueue s) (queue (sortQueue s)).
Proof.
  intros Hq. unfold sortQueue, setQueue, queueOk. fields. split.
  - by apply sortRefs_Forall.
  - apply sortRefs_sorted.
Qed.

Lemma addJob_consistent (type : Job.JobType) (payload : any)
    (priority maxAttempts : option Z) (newId : string) (now : Z) (s : state) :
  consistent s ->
  consistent (snd (addJob type payload priority maxAttempts newId now s)).
Proof.
  intros [Hc Hq]. unfold addJob. cbv zeta. cbn [snd].
  set (job := Job.mk newId type _ payload Job.pending now None None 0 _ None None).
  destruct (allocate_consistent job s Hc) as (Hc1 & Hext & Hnew); [done|].
  set (s1 := setHeap (heap s ++ [job]) s) in *.
  assert (validRef s1 (length (heap s))) as Hva.
  { unfold validRef, s1, setHeap. fields. rewrite length_app. cbn. lia. }
  pose proof (register_consistent (Job.id job) (length (heap s)) s1 Hc1 Hva)
    as Hc2.
  unfold idOf in Hc2. rewrite Hnew in Hc2. specialize (Hc2 eq_refl).
  set (s2 := setJobs _ s1) in *.
  set (s3 := setQueue (queue s2 ++ [length (heap s)]) s2).
  assert (consistent (sortQueue s3)) as Hc4.
  { split.
    - by eapply consistentExcept_frame.
    - apply sortQueue_queueOk. unfold s3, setQueue. fields.
      apply Forall_app. split; [|by apply Forall_singleton].
      apply (queueOk_extends s s1 (queue s) Hext Hq). }
  destruct (isProcessing (sortQueue s3)); [done|].
  by apply processQueue_consistent.
Qed.

Lemma cancelJob_consistent (jobId : string) (now : Z) (s : state) :
  consistent s -> consistent (snd (cancelJob jobId now s)).
Proof.
  intros [Hc Hq]. unfold cancelJob.
  destruct (jobs s !! jobId) as [a|]; [|done].
  case_bool_decide; [done|]. cbn [snd].
  set (s1 := match findIndex jobId s with
             | Some queueIndex => setQueue (delete queueIndex (queue s)) s
             | None => s
             end).
  assert (consistent s1) as [Hc1 Hq1].
  { unfold s1. destruct (findIndex jobId s) as [i|]; [|done]. split.
    - by eapply consistentExcept_frame.
    - unfold setQueue. fields.
      apply (queueOk_sublist s (queue s)); [apply sublist_delete|done]. }
  split.
  - repeat (apply updateJob_consistent;
            [first [apply keepsStatic_setStatus | apply keepsStatic_setCompletedAt
                   | apply keepsStatic_setErrorMessage]
            |right; by intros j|]).
    exact Hc1.
  - apply (queueOk_extends s1); [|exact Hq1].
    eapply extends_trans; [|apply extends_updateJob, keepsStatic_setCompletedAt].
    eapply extends_trans; [|apply extends_updateJob, keepsStatic_setErrorMessage].
    apply extends_updateJob, keepsStatic_setStatus.
Qed.

Lemma fireTimer_consistent (k : nat) (now : Z) (s : state) :
  consistent s -> consistent (fireTimer k now s).
Proof.
  intros [Hc Hq]. unfold fireTimer.
  destruct (timers s !! k) as [t|] eqn:Ht; [|done].
  assert (consistentExcept None (setTimers (delete k (timers s)) s)) as Hc1.
  { destruct Hc as ((Hve & Hvt & Hvj) & Hs & Hr).
    split; [|split; [exact Hs|exact Hr]].
    split; [exact Hve|]. split; [|exact Hvj].
    unfold setTimers. fields. intros t' a Ht' Hact.
    apply (Hvt t' a); [|done].
    eapply elem_of_sublist; [exact Ht'|apply sublist_delete]. }
  unfold runTimer. destruct (action t) as [|job] eqn:Hact.
  - assert (consistent (setIsProcessing false (setTimers (delete k (timers s)) s)))
      as Hc2 by (split; [by eapply consistentExcept_frame|done]).
    destruct (0 <? length _)%nat; [|done]. by apply processQueue_consistent.
  - assert (validRef s job) as Hjob.
    { destruct Hc as ((_ & Hvt & _) & _). apply (Hvt t); [|done].
      by eapply list_elem_of_lookup_2. }
    split.
    + by eapply consistentExcept_frame.
    + apply sortQueue_queueOk. unfold setQueue, setTimers. fields.
      constructor; [done|]. apply Hq.
Qed.

Lemma initial_consistent : consistent initial.
Proof.
  split; [split; [|split]|].
  - split; [constructor|]. split.
    + intros t a Ht. by apply elem_of_nil in Ht.
    + intros i a Hi. cbn in Hi. by rewrite lookup_empty in Hi.
  - split; [constructor|]. split.
    + intros a Ha. by apply elem_of_nil in Ha.
    + cbn. rewrite size_empty. unfold maxConcurrentJobs. lia.
  - intros b Hb. unfold validRef in Hb. cbn in Hb. lia.
  - split; constructor.
Qed.

Lemma step_consistent (s : state) (e : Event) :
  consistent s -> consistent (step s e).
Proof.
  intros Hc. destruct e as [type payload priority maxAttempts newId now
                           |jobId now|k now|job outcome now]; cbn [step].
  - by apply addJob_consistent.
  - by apply cancelJob_consistent.
  - by apply fireTimer_consistent.
  - case_bool_decide as Hin; [|done]. destruct Hc as [Hc Hq]. split.
    + by apply settle_consistent.
    + assert (extends s (snd (executeJobSettle now job outcome s))) as Hext.
      { settle_cases outcome s job; unfold releaseSlot, endActivation;
          (eapply extends_trans; [|apply extends_frame; reflexivity]);
          repeat (eapply extends_trans;
                  [|first [apply extends_updateJob;
                           first [apply keepsStatic_setStatus
                                 | apply keepsStatic_setCompletedAt
                                 | apply keepsStatic_setErrorMessage
                                 | apply keepsStatic_setResult]
                          | apply extends_frame; reflexivity]]);
          apply extends_refl. }
      eapply queueOk_extends; [exact Hext|].
      replace (queue (snd (executeJobSettle now job outcome s))) with (queue s);
        [done|].
      settle_cases outcome s job; reflexivity.
Qed.

(** Every reachable instance is consistent. *)
Lemma reachable_consistent (s : state) : reachable s -> consistent s.
Proof.
  induction 1 as [|s e _ IH]; [apply initial_consistent|by apply step_consistent].
Qed.

End Consistency.

Section QueueClaims.

Import JobQueueSystem QueueSpec.

Lemma reachable_run (s : state) (events : list Event) :
  reachable s -> reachable (run s events).
Proof.
  revert s. induction events as [|e events IH]; intros s Hs; [done|].
  cbn [run foldl]. apply IH. by constructor.
Qed.

(** The positions of the members of a list that pass a test. *)
Lemma filter_positions {A : Type} `{Inhabited A} (p : A -> bool) (l : list A) :
  ∃ idxs : list nat,
    NoDup idxs
    ∧ length idxs = length (List.filter p l)
    ∧ ∀ i, i ∈ idxs -> (i < length l)%nat ∧ p (l !!! i) = true.
Proof.
  induction l as [|x l IH] using rev_ind.
  - exists []. split; [constructor|]. split; [done|].
    intros i Hi. by apply elem_of_nil in Hi.
  - destruct IH as (idxs & Hnd & Hlen & Hp).
    rewrite List.filter_app. cbn [List.filter]. destruct (p x) eqn:Hx.
    + exists (idxs ++ [length l]). split; [|split].
      * apply NoDup_app. split; [done|]. split; [|apply NoDup_singleton].
        intros i Hi Hi'. apply list_elem_of_singleton in Hi' as ->.
        apply Hp in Hi. lia.
      * rewrite !length_app, Hlen. done.
      * intros i [Hi|Hi]%elem_of_app.
        -- destruct (Hp i Hi) as [Hlt Hpi]. rewrite length_app. split; [lia|].
           by rewrite lookup_total_app_l.
        -- apply list_elem_of_singleton in Hi as ->. rewrite length_app.
           split; [cbn; lia|]. by rewrite list_lookup_total_middle.
    + exists idxs. split; [done|]. split; [by rewrite app_nil_r|].
      intros i Hi. destruct (Hp i Hi) as [Hlt Hpi]. rewrite length_app.
      split; [lia|]. by rewrite lookup_total_app_l.
Qed.

Lemma NoDup_included_length {A : Type} (l k : list A) :
  NoDup l -> (∀ x, x ∈ l -> x ∈ k) -> (length l <= length k)%nat.
Proof.
  intros Hnd Hin. apply NoDup_incl_length; [by apply NoDup_ListNoDup|].
  intros x Hx. apply list_elem_of_In, Hin, list_elem_of_In, Hx.
Qed.

(** In a consistent instance the jobs whose status is [running] are among
    those being executed, which are no more than the held slots. *)
Lemma consistent_running_bound (s : state) :
  consistent s ->
  (runningCount s <= length (executing s))%nat
  ∧ (length (executing s) <= size (runningJobs s))%nat
  ∧ (size (runningJobs s) <= maxConcurrentJobs)%nat.
Proof.
  intros [(Hv & (Hnd & Hin & Hsz) & Hr) _]. split; [|split; [|exact Hsz]].
  - unfold runningCount.
    destruct (filter_positions
                (fun j => bool_decide (Job.status j = Job.running)) (heap s))
      as (idxs & Hnd' & <- & Hp).
    apply NoDup_included_length; [done|]. intros i Hi.
    destruct (Hp i Hi) as [Hlt Hrun]. apply Hr; try done.
    by apply bool_decide_eq_true in Hrun.
  - rewrite <- (length_map (idOf s)). unfold size, set_size. cbn.
    apply NoDup_included_length; [done|]. intros i Hi.
    apply list_elem_of_fmap in Hi as (a & -> & Ha).
    apply elem_of_elements. by apply Hin.
Qed.

Lemma dispatchLoop_full (now : Z) (q : list nat) (s : state) :
  ¬ (size (runningJobs s) < maxConcurrentJobs)%nat ->
  dispatchLoop now q s = setQueue q s.
Proof.
  intros Hfull. destruct q as [|job q]; [done|].
  cbn [dispatchLoop]. by rewrite decide_False.
Qed.

(** While no subscriber throws: in every reachable state of
    [JobQueueSystem], whose [updateProgress] calls no callback, at most
    [maxConcurrentJobs] = 3 jobs have the status [running]; the scheduler
    loop checks the size of the running set before each dispatch, and
    while three jobs are running it dispatches no pending job and leaves
    the pool as it is.  [SubscribedQueue] has the subscribers. *)
Lemma running_jobs_bounded (s : JobQueueSystem.state) :
  JobQueueSystem.reachable s ->
  (JobQueueSystem.runningCount s <= JobQueueSystem.maxConcurrentJobs)%nat
  ∧ JobQueueSystem.maxConcurrentJobs = 3%nat
  ∧ (size (JobQueueSystem.runningJobs s) <= JobQueueSystem.maxConcurrentJobs)%nat
  ∧ (JobQueueSystem.runningCount s = JobQueueSystem.maxConcurrentJobs ->
     ∀ now q,
       JobQueueSystem.dispatchLoop now q s = JobQueueSystem.setQueue q s
       ∧ JobQueueSystem.executing (JobQueueSystem.dispatchLoop now q s)
         = JobQueueSystem.executing s
       ∧ JobQueueSystem.heap (JobQueueSystem.dispatchLoop now q s)
         = JobQueueSystem.heap s).
Proof.
  intros Hs. apply reachable_consistent in Hs.
  destruct (consistent_running_bound s Hs) as (H1 & H2 & H3).
  split; [lia|]. split; [done|]. split; [done|].
  intros Hfull now q. rewrite dispatchLoop_full by lia. done.
Qed.

Lemma elem_of_insertJob (h : list Job.t) (x y : nat) (l : list nat) :
  y ∈ insertJob h x l ↔ y = x ∨ y ∈ l.
Proof.
  induction l as [|z l IH]; cbn [insertJob].
  - rewrite list_elem_of_singleton. split; [by left|].
    intros [?|Hn]; [done|]. by apply elem_of_nil in Hn.
  - destruct (compareJobs (h !!! x) (h !!! z) <=? 0)%Z.
    + by rewrite elem_of_cons.
    + rewrite !elem_of_cons, IH. tauto.
Qed.

Lemma elem_of_sortRefs (h : list Job.t) (y : nat) (l : list nat) :
  y ∈ sortRefs h l ↔ y ∈ l.
Proof.
  induction l as [|x l IH]; cbn [sortRefs foldr]; [done|].
  rewrite elem_of_insertJob, elem_of_cons. unfold sortRefs in IH. by rewrite IH.
Qed.

Lemma jobAt_releaseSlot (a b : nat) (s : state) :
  jobAt (releaseSlot a s) b = jobAt s b.
Proof. reflexivity. Qed.

Lemma jobAt_endActivation (a b : nat) (s : state) :
  jobAt (endActivation a s) b = jobAt s b.
Proof. reflexivity. Qed.

Lemma heap_updateJob_length (f : Job.t -> Job.t) (a : nat) (s : state) :
  length (heap (updateJob f a s)) = length (heap s).
Proof. unfold updateJob, setHeap. fields. apply length_alter. Qed.

(** What [executeJob] does when the executor of the job [a] throws. *)
Lemma settle_failure (now : Z) (a : nat) (error : exn) (s : state) :
  validRef s a ->
  ∃ s' : state,
    executeJobSettle now a (Throw error) s = (Normal (), s')
    ∧ queue s' = queue s
    ∧ jobs s' = jobs s
    ∧ executing s' = List.filter (fun b => negb (a =? b)%nat) (executing s)
    ∧ runningJobs s' = runningJobs s ∖ {[ Job.id (jobAt s a) ]}
    ∧ (∀ b, b ≠ a -> jobAt s' b = jobAt s b)
    ∧ length (heap s') = length (heap s)
    ∧ ((Job.attempts (jobAt s a) < Job.maxAttempts (jobAt s a))%Z ->
       jobAt s' a
       = Job.setErrorMessage (errorMessageOf error)
           (Job.setStatus Job.retrying (jobAt s a))
       ∧ timers s'
         = timers s ++ [mkTimer (5000 * Job.attempts (jobAt s a)) (Requeue a)])
    ∧ (¬ (Job.attempts (jobAt s a) < Job.maxAttempts (jobAt s a))%Z ->
       jobAt s' a
       = Job.setErrorMessage (errorMessageOf error)
           (Job.setCompletedAt now (Job.setStatus Job.failed (jobAt s a)))
       ∧ timers s' = timers s).
Proof.
  intros Ha.
  unfold executeJobSettle, tryBlock, catchBlock. cbv beta iota zeta.
  destruct (Z.ltb_spec (Job.attempts (jobAt s a)) (Job.maxAttempts (jobAt s a)))
    as [Hlt|Hge];
    (eexists; split; [reflexivity|]);
     (split; [reflexivity|]); (split; [reflexivity|]); (split; [reflexivity|]);
     (split;
      [ change (runningJobs (releaseSlot a (endActivation a ?t)))
          with (runningJobs t ∖ {[ Job.id (jobAt t a) ]});
        rewrite ?jobAt_updateProgress, ?jobAt_setTimeout;
        rewrite !jobAt_updateJob_same
          by (repeat apply validRef_updateJob; exact Ha);
        reflexivity|]);
     (split;
      [ intros b Hb;
        rewrite jobAt_releaseSlot, jobAt_endActivation,
          ?jobAt_updateProgress, ?jobAt_setTimeout;
        rewrite !jobAt_updateJob_other by done; reflexivity|]);
     (split;
      [ change (heap (releaseSlot a (endActivation a ?t))) with (heap t);
        change (heap (updateProgress ?i ?p ?m ?t)) with (heap t);
        change (heap (setTimeout ?c ?d ?t)) with (heap t);
        rewrite !heap_updateJob_length; reflexivity|]);
     (split; [intros Hlt'; try lia|intros Hge'; try lia]);
     (split;
      [ rewrite jobAt_releaseSlot, jobAt_endActivation,
          ?jobAt_updateProgress, ?jobAt_setTimeout;
        rewrite !jobAt_updateJob_same
          by (repeat apply validRef_updateJob; exact Ha);
        reflexivity
      | change (timers (releaseSlot a (endActivation a ?t))) with (timers t);
        try change (timers (updateProgress ?i ?p ?m ?t)) with (timers t);
        try (change (timers (setTimeout ?c ?d ?t))
               with (timers t ++ [mkTimer d c]);
             rewrite !jobAt_updateJob_same
               by (repeat apply validRef_updateJob; exact Ha));
        reflexivity ]).
Qed.

Lemma fireTimer_requeue (k : nat) (now d : Z) (a : nat) (s : state) :
  timers s !! k = Some (mkTimer d (Requeue a)) ->
  fireTimer k now s
  = sortQueue (setQueue (a :: queue s) (setTimers (delete k (timers s)) s)).
Proof. intros Hk. unfold fireTimer. by rewrite Hk. Qed.

(** C2 (as amended).  For every job whose executor throws, the exception
    is caught inside [executeJob]: the promise of [executeJob] completes
    normally, whatever was thrown, the job gives back its slot and no
    other job is touched.  If the incremented attempts count is below
    [maxAttempts], the status becomes [retrying], the error message is
    stored, and one timer is set with the delay 5000 ms times attempts;
    when it fires, the job is back in the pending pool, which is in
    order, and its status is still [retrying]: it is never set back to
    [pending].  Otherwise the status becomes [failed], [completedAt] is
    stamped, the error message is stored, and no timer is set. *)
Theorem executor_failure_transitions (s : state) (a : nat)
    (error : exn) (now : Z) :
  reachable s -> a ∈ executing s ->
  ∃ s' : state,
    executeJobSettle now a (Throw error) s = (Normal (), s')
    ∧ step s (Settles a (Throw error) now) = s'
    ∧ reachable s'
    ∧ (a ∉ executing s')
    ∧ (Job.id (jobAt s a) ∉ runningJobs s')
    ∧ queue s' = queue s
    ∧ (∀ b, b ≠ a -> jobAt s' b = jobAt s b)
    ∧ ((Job.attempts (jobAt s a) < Job.maxAttempts (jobAt s a))%Z ->
       Job.status (jobAt s' a) = Job.retrying
       ∧ Job.errorMessage (jobAt s' a) = Some (errorMessageOf error)
       ∧ timers s'
         = timers s ++ [mkTimer (5000 * Job.attempts (jobAt s a)) (Requeue a)]
       ∧ ∀ now' : Z,
           ∃ s'' : state,
             step s' (TimerFires (length (timers s)) now') = s''
             ∧ a ∈ queue s''
             ∧ queueSorted s''
             ∧ timers s'' = timers s
             ∧ Job.status (jobAt s'' a) = Job.retrying)
    ∧ (¬ (Job.attempts (jobAt s a) < Job.maxAttempts (jobAt s a))%Z ->
       Job.status (jobAt s' a) = Job.failed
       ∧ Job.completedAt (jobAt s' a) = Some now
       ∧ Job.errorMessage (jobAt s' a) = Some (errorMessageOf error)
       ∧ timers s' = timers s).
Proof.
  intros Hs Ha.
  assert (validRef s a) as Hva.
  { destruct (reachable_consistent s Hs) as [((Hve & _) & _) _].
    rewrite Forall_forall in Hve. by apply Hve. }
  destruct (settle_failure now a error s Hva)
    as (s' & Hrun & Hq & Hj & He & Hr & Ho & Hl & Hretry & Hfail).
  assert (step s (Settles a (Throw error) now) = s') as Hstep
    by (cbn [step]; by rewrite bool_decide_eq_true_2, Hrun).
  exists s'. split; [exact Hrun|]. split; [exact Hstep|].
  split; [rewrite <- Hstep; by constructor|].
  split.
  { rewrite He. intros [_ Hne]%list_elem_of_In%filter_In.
    by rewrite Nat.eqb_refl in Hne. }
  split; [rewrite Hr; set_solver|]. split; [exact Hq|]. split; [exact Ho|].
  split.
  - intros Hlt. destruct (Hretry Hlt) as [Hjob Htimers].
    rewrite Hjob. split; [done|]. split; [done|]. split; [exact Htimers|].
    intros now'. eexists. split; [reflexivity|]. cbn [step].
    rewrite (fireTimer_requeue _ _ (5000 * Job.attempts (jobAt s a)) a)
      by (rewrite Htimers; by apply list_lookup_middle).
    rewrite Htimers, delete_middle, app_nil_r.
    unfold sortQueue, setQueue, setTimers, queueSorted. fields.
    split; [apply elem_of_sortRefs; by left|].
    split; [apply sortRefs_sorted|]. split; [done|].
    change (Job.status (jobAt s' a) = Job.retrying).
    by rewrite Hjob.
  - intros Hge. destruct (Hfail Hge) as [Hjob Htimers].
    rewrite Hjob. done.
Qed.

Lemma executor_failure_transitions_witness :
  ∃ s' : state,
    step (run initial [ AddJob Job.tax_lookup "{}" None (Some 2%Z) "job_r" 1000;
                        TimerFires 0 2000 ])
         (Settles 0 (Throw (Error "timeout")) 4500) = s'
    ∧ timers s' = [mkTimer 5000 (Requeue 0)]
    ∧ getJobStatus "job_r" s' = Some Job.retrying.
Proof.
  destruct (executor_failure_transitions
              (run initial [ AddJob Job.tax_lookup "{}" None (Some 2%Z) "job_r" 1000;
                             TimerFires 0 2000 ])
              0 (Error "timeout") 4500)
    as (s' & _ & Hstep & _).
  - apply reachable_run, reachable_initial.
  - vm_compute. left.
  - exists s'. split; [exact Hstep|].
    vm_compute in Hstep. subst s'. split; reflexivity.
Defined.

(** The claim as first stated has the retried job re-enter the status
    [pending].  After the retry timer of the sample job has fired, the
    job is in the pending pool with the status [retrying], the statistics
    would count no pending job, and its next dispatch takes it from
    [retrying] to [running]. *)
Lemma retried_job_never_pending :
  queue (run initial Samples.failOnceRequeued) = [0%nat]
  ∧ getJobStatus "job_r" (run initial Samples.failOnceRequeued)
    = Some Job.retrying
  ∧ getJobStatus "job_r" (run initial Samples.failOnceRequeued)
    ≠ Some Job.pending
  ∧ Forall (fun j => Job.status j ≠ Job.pending)
           (heap (run initial Samples.failOnceRequeued))
  ∧ getJobStatus "job_r"
      (processQueue 9600 (run initial Samples.failOnceRequeued))
    = Some Job.running.
Proof.
  split; [vm_compute; reflexivity|].
  split; [vm_compute; reflexivity|].
  split; [vm_compute; discriminate|].
  split; [|vm_compute; reflexivity].
  vm_compute. repeat constructor. discriminate.
Qed.

(** C8 (as amended).  [cancelJob] returns false and changes nothing when
    the job is absent, running or completed.  For every other status,
    that is pending, retrying or failed, it removes from the pending pool
    the first entry that carries the id, if there is one, sets the status
    to [failed] with the cancellation message and a [completedAt] stamp,
    and returns true.  So it returns false for a completed job, and true
    for a job that has already failed. *)
Theorem cancelJob_outcomes (s : state) (jobId : string) (now : Z) :
  reachable s ->
  (jobs s !! jobId = None -> cancelJob jobId now s = (false, s))
  ∧ (∀ a, jobs s !! jobId = Some a ->
       Job.status (jobAt s a) = Job.running
       ∨ Job.status (jobAt s a) = Job.completed ->
       cancelJob jobId now s = (false, s))
  ∧ (∀ a, jobs s !! jobId = Some a ->
       Job.status (jobAt s a) = Job.pending
       ∨ Job.status (jobAt s a) = Job.retrying
       ∨ Job.status (jobAt s a) = Job.failed ->
       ∃ s' : state,
         cancelJob jobId now s = (true, s')
         ∧ Job.id (jobAt s a) = jobId
         ∧ jobAt s' a
           = Job.setCompletedAt now
               (Job.setErrorMessage "Job cancelled by user"
                  (Job.setStatus Job.failed (jobAt s a)))
         ∧ Job.status (jobAt s' a) = Job.failed
         ∧ (∀ b, b ≠ a -> jobAt s' b = jobAt s b)
         ∧ (∀ i, findIndex jobId s = Some i ->
              queue s' = delete i (queue s)
              ∧ ∃ b, queue s !! i = Some b ∧ Job.id (jobAt s b) = jobId)
         ∧ (findIndex jobId s = None ->
              queue s' = queue s
              ∧ ∀ b, b ∈ queue s -> Job.id (jobAt s b) ≠ jobId)).
Proof.
  intros Hs. split; [|split].
  - intros Hnone. unfold cancelJob. by rewrite Hnone.
  - intros a Ha Hst. unfold cancelJob. rewrite Ha.
    by rewrite bool_decide_eq_true_2.
  - intros a Ha Hst.
    destruct (reachable_consistent s Hs) as [((_ & _ & Hvj) & _) _].
    destruct (Hvj jobId a Ha) as [Hva Hid].
    unfold cancelJob. rewrite Ha.
    rewrite bool_decide_eq_false_2 by (intros [Hr|Hr]; rewrite Hr in Hst; naive_solver).
    eexists. split; [reflexivity|]. split; [exact Hid|].
    assert (∀ t : state, heap t = heap s ->
              jobAt (updateJob (Job.setCompletedAt now) a
                       (updateJob (Job.setErrorMessage "Job cancelled by user") a
                          (updateJob (Job.setStatus Job.failed) a t))) a
              = Job.setCompletedAt now
                  (Job.setErrorMessage "Job cancelled by user"
                     (Job.setStatus Job.failed (jobAt s a)))) as Hjob.
    { intros t Ht.
      assert (validRef t a) as Hvt by (unfold validRef; by rewrite Ht).
      rewrite !jobAt_updateJob_same by (repeat apply validRef_updateJob; exact Hvt).
      unfold jobAt. by rewrite Ht. }
    assert (∀ (t : state) b, heap t = heap s -> b ≠ a ->
              jobAt (updateJob (Job.setCompletedAt now) a
                       (updateJob (Job.setErrorMessage "Job cancelled by user") a
                          (updateJob (Job.setStatus Job.failed) a t))) b
              = jobAt s b) as Hother.
    { intros t b Ht Hb. rewrite !jobAt_updateJob_other by done.
      unfold jobAt. by rewrite Ht. }
    unfold findIndex.
    destruct (list_find (fun b => Job.id (jobAt s b) = jobId) (queue s))
      as [[i b]|] eqn:Hfind; cbn [fmap option_fmap option_map fst].
    + split; [by apply Hjob|]. split; [by rewrite Hjob|].
      split; [intros b' Hb'; by apply Hother|]. split; [|done].
      intros i' [= <-]. split; [reflexivity|].
      apply list_find_Some in Hfind as (Hb & Hidb & _). by exists b.
    + split; [by apply Hjob|]. split; [by rewrite Hjob|].
      split; [intros b' Hb'; by apply Hother|]. split; [done|].
      intros _. split; [reflexivity|].
      apply list_find_None in Hfind. rewrite Forall_forall in Hfind. exact Hfind.
Qed.

Lemma cancelJob_outcomes_witness :
  fst (cancelJob "job_b" 1500 (run initial Samples.enqueueFour)) = true
  ∧ queue (snd (cancelJob "job_b" 1500 (run initial Samples.enqueueFour)))
    = [3%nat; 2%nat]
  ∧ fst (cancelJob "job_a" 1500 (run initial Samples.enqueueFour)) = false.
Proof.
  destruct (cancelJob_outcomes (run initial Samples.enqueueFour) "job_b" 1500)
    as (_ & _ & Hcancel); [apply reachable_run, reachable_initial|].
  destruct (cancelJob_outcomes (run initial Samples.enqueueFour) "job_a" 1500)
    as (_ & Hrunning & _); [apply reachable_run, reachable_initial|].
  destruct (Hcancel 1%nat) as (s' & Hs' & _);
    [vm_compute; reflexivity|left; vm_compute; reflexivity|].
  rewrite Hs', (Hrunning 0%nat);
    [|vm_compute; reflexivity|left; vm_compute; reflexivity].
  cbn [fst snd]. split; [reflexivity|]. split; [|reflexivity].
  vm_compute in Hs'. injection Hs' as <-. reflexivity.
Defined.

(** The claim as first stated has [cancelJob] return false for every job
    in a terminal state.  The sample job has failed for good, with its
    message and completion time stored; cancelling it returns true and
    overwrites both. *)
Lemma cancelJob_accepts_failed_job :
  getJobStatus "job_f" (run initial Samples.failForGood) = Some Job.failed
  ∧ Job.errorMessage (jobAt (run initial Samples.failForGood) 0)
    = Some "timeout"
  ∧ Job.completedAt (jobAt (run initial Samples.failForGood) 0) = Some 4500%Z
  ∧ fst (cancelJob "job_f" 5000 (run initial Samples.failForGood)) = true
  ∧ Job.errorMessage
      (jobAt (snd (cancelJob "job_f" 5000 (run initial Samples.failForGood))) 0)
    = Some "Job cancelled by user"
  ∧ Job.completedAt
      (jobAt (snd (cancelJob "job_f" 5000 (run initial Samples.failForGood))) 0)
    = Some 5000%Z.
Proof. repeat split; vm_compute; reflexivity. Qed.

(** C3 (as amended).  In every reachable state the pending pool is in
    order of priority ascending, ties broken by creation time ascending;
    it is so after every [addJob] call; and the scheduler takes the pool
    from its head, starting the jobs it takes in that order.  For four
    jobs enqueued with the priorities 3, 1, 2, 1 on an idle queue, the
    first job is dispatched by its own [addJob] call, before the others
    exist, and the order of dispatch is: the priority-3 job, the first
    priority-1 job, the second priority-1 job, the priority-2 job.  When
    the scheduler is busy and nothing runs while the four are enqueued,
    the order is: first priority-1 job, second priority-1 job, priority-2
    job, priority-3 job. *)
Theorem pending_pool_order (s : state) :
  reachable s ->
  queueSorted s
  ∧ (∀ type payload priority maxAttempts newId now,
       queueSorted
         (snd (addJob type payload priority maxAttempts newId now s)))
  ∧ (∀ now, ∃ (n : nat) (started : list nat),
       queue (processQueue now s) = drop n (queue s)
       ∧ executing (processQueue now s) = executing s ++ started
       ∧ started `sublist_of` take n (queue s))
  ∧ dispatchOrder (run initial Samples.drainFour)
    = ["job_a"; "job_b"; "job_d"; "job_c"]
  ∧ dispatchOrder (run initial Samples.drainFourBusy)
    = ["job_0"; "job_b"; "job_d"; "job_c"; "job_a"].
Proof.
  intros Hs. pose proof (reachable_consistent s Hs) as Hc.
  split; [apply Hc|]. split; [|split].
  - intros type payload priority maxAttempts newId now.
    by apply (addJob_consistent type payload priority maxAttempts newId now s).
  - intros now. unfold processQueue. destruct (isProcessing s).
    + exists 0%nat, []. by rewrite app_nil_r.
    + destruct Hc as [Hc Hq].
      destruct (dispatchLoop_spec now (queue (setIsProcessing true s))
                  (setIsProcessing true s))
        as (_ & _ & _ & _ & n & started & Hn & He & Hsub);
        [by eapply consistentExcept_frame|apply Hq|].
      exists n, started. done.
  - split; vm_compute; reflexivity.
Qed.

Lemma pending_pool_order_witness :
  queueSorted (run initial Samples.enqueueFour)
  ∧ queue (run initial Samples.enqueueFour) = [1%nat; 3%nat; 2%nat].
Proof.
  split; [|vm_compute; reflexivity].
  exact (proj1 (pending_pool_order _
                  (reachable_run _ Samples.enqueueFour reachable_initial))).
Defined.

(** The claim as first stated has the priority-3 job dispatched last.
    On a fresh queue it is dispatched first, by its own [addJob] call. *)
Lemma first_job_dispatched_at_once :
  dispatchOrder (run initial (take 1 Samples.enqueueFour)) = ["job_a"]
  ∧ getJobStatus "job_a" (run initial (take 1 Samples.enqueueFour))
    = Some Job.running
  ∧ dispatchOrder (run initial Samples.drainFour)
    = ["job_a"; "job_b"; "job_d"; "job_c"]
  ∧ dispatchOrder (run initial Samples.drainFour)
    ≠ ["job_b"; "job_d"; "job_c"; "job_a"].
Proof.
  split; [vm_compute; reflexivity|]. split; [vm_compute; reflexivity|].
  split; [vm_compute; reflexivity|]. vm_compute. discriminate.
Qed.

End QueueClaims.

(** * Further properties of the normalizers *)

Section Characters.

Local Ltac by_cases c :=
  destruct c as [[] [] [] [] [] [] [] []]; vm_compute; reflexivity.

Lemma toLowerChar_idem (c : ascii) : toLowerChar (toLowerChar c) = toLowerChar c.
Proof. by_cases c. Qed.

Lemma toUpperChar_idem (c : ascii) : toUpperChar (toUpperChar c) = toUpperChar c.
Proof. by_cases c. Qed.

Lemma toLowerChar_upper (c : ascii) : toLowerChar (toUpperChar c) = toLowerChar c.
Proof. by_cases c. Qed.

Lemma toUpperChar_lower (c : ascii) : toUpperChar (toLowerChar c) = toUpperChar c.
Proof. by_cases c. Qed.

Lemma isSpace_toLowerChar (c : ascii) : isSpace (toLowerChar c) = isSpace c.
Proof. by_cases c. Qed.

Lemma isUpper_toLowerChar (c : ascii) : isUpper (toLowerChar c) = false.
Proof. by_cases c. Qed.

Lemma isLower_toUpperChar (c : ascii) : isLower (toUpperChar c) = false.
Proof. by_cases c. Qed.

Lemma isDigit_isSpace (c : ascii) : isDigit c = true -> isSpace c = false.
Proof. destruct c as [[] [] [] [] [] [] [] []]; vm_compute; congruence. Qed.

Lemma addressChar_intro (c : ascii) :
  isUpper c = false -> (isSpace c = true -> c = " "%char) ->
  isWordChar c || isSpace c = true -> addressChar c = true.
Proof.
  destruct c as [[] [] [] [] [] [] [] []]; vm_compute; intros Hu Hs Hw;
    try reflexivity; try discriminate; by specialize (Hs eq_refl).
Qed.

End Characters.

Section Strings.

Lemma chars_str (l : list ascii) : chars (str l) = l.
Proof. apply list_ascii_of_string_of_list_ascii. Qed.

Lemma str_chars (s : string) : str (chars s) = s.
Proof. apply string_of_list_ascii_of_string. Qed.

Lemma chars_app (s t : string) : chars (s +:+ t) = chars s ++ chars t.
Proof.
  unfold chars. induction s as [|c s IH]; [done|].
  change (String c s +:+ t) with (String c (s +:+ t)). cbn. by rewrite IH.
Qed.

Lemma toLowerCase_idem (s : string) : toLowerCase (toLowerCase s) = toLowerCase s.
Proof.
  unfold toLowerCase. rewrite chars_str, map_map. f_equal.
  apply map_ext. intros c. apply toLowerChar_idem.
Qed.

Lemma toUpperCase_idem (s : string) : toUpperCase (toUpperCase s) = toUpperCase s.
Proof.
  unfold toUpperCase. rewrite chars_str, map_map. f_equal.
  apply map_ext. intros c. apply toUpperChar_idem.
Qed.

Lemma toLowerCase_upper (s : string) : toLowerCase (toUpperCase s) = toLowerCase s.
Proof.
  unfold toLowerCase, toUpperCase. rewrite chars_str, map_map. f_equal.
  apply map_ext. intros c. apply toLowerChar_upper.
Qed.

Lemma toUpperCase_lower (s : string) : toUpperCase (toLowerCase s) = toUpperCase s.
Proof.
  unfold toLowerCase, toUpperCase. rewrite chars_str, map_map. f_equal.
  apply map_ext. intros c. apply toUpperChar_lower.
Qed.

Lemma trimStartChars_spaces (w l : list ascii) :
  Forall (fun c => isSpace c = true) w ->
  trimStartChars (w ++ l) = trimStartChars l.
Proof. induction 1 as [|c w Hc _ IH]; [done|]. cbn. by rewrite Hc. Qed.

Lemma trimStartChars_blank (w : list ascii) :
  Forall (fun c => isSpace c = true) w -> trimStartChars w = [].
Proof. induction 1 as [|c w Hc _ IH]; [done|]. cbn. by rewrite Hc. Qed.

Lemma trimStartChars_headOk (l : list ascii) :
  headOk l -> trimStartChars l = l.
Proof. destruct l as [|c l]; [done|]. cbn. by intros ->. Qed.

Lemma trimStartChars_split (l : list ascii) :
  ∃ w, l = w ++ trimStartChars l
       ∧ Forall (fun c => isSpace c = true) w
       ∧ headOk (trimStartChars l).
Proof.
  induction l as [|c l (w & Hl & Hw & Hh)].
  - by exists [].
  - cbn. destruct (isSpace c) eqn:Hc.
    + exists (c :: w). split; [cbn; by rewrite <- Hl|]. split; [by constructor|done].
    + exists []. split; [done|]. split; [constructor|]. exact Hc.
Qed.

(** What [trim] keeps is fixed by the white space around it. *)
Lemma trimChars_unique (pre m post : list ascii) :
  Forall (fun c => isSpace c = true) pre ->
  Forall (fun c => isSpace c = true) post ->
  headOk m -> headOk (rev m) ->
  trimChars (pre ++ m ++ post) = m.
Proof.
  intros Hpre Hpost Hm Hr. unfold trimChars.
  rewrite trimStartChars_spaces by done.
  destruct m as [|c m].
  - cbn [app]. by rewrite (trimStartChars_blank post).
  - rewrite (trimStartChars_headOk ((c :: m) ++ post)) by exact Hm.
    rewrite rev_app_distr, trimStartChars_spaces
      by (by apply Forall_rev).
    rewrite trimStartChars_headOk by exact Hr. apply rev_involutive.
Qed.

Lemma trimChars_split (l : list ascii) :
  ∃ pre post,
    l = pre ++ trimChars l ++ post
    ∧ Forall (fun c => isSpace c = true) pre
    ∧ Forall (fun c => isSpace c = true) post
    ∧ headOk (trimChars l) ∧ headOk (rev (trimChars l)).
Proof.
  destruct (trimStartChars_split l) as (pre & Hl & Hpre & Hh).
  destruct (trimStartChars_split (rev (trimStartChars l))) as (w & Hr & Hw & Hh').
  exists pre, (rev w). unfold trimChars.
  set (t1 := trimStartChars l) in *.
  set (t2 := trimStartChars (rev t1)) in *.
  assert (t1 = rev t2 ++ rev w) as Ht1.
  { rewrite <- rev_app_distr, <- Hr. by rewrite rev_involutive. }
  split; [by rewrite <- Ht1|]. split; [done|].
  split.
  { by apply Forall_rev. }
  split; [|by rewrite rev_involutive].
  rewrite Ht1 in Hh. destruct (rev t2); [done|exact Hh].
Qed.

Lemma trimChars_idem (l : list ascii) : trimChars (trimChars l) = trimChars l.
Proof.
  destruct (trimChars_split l) as (pre & post & _ & _ & _ & Hh & Hr).
  rewrite <- (app_nil_r (trimChars l)) at 1.
  by apply (trimChars_unique [] (trimChars l) []).
Qed.

Lemma trimChars_surrounded (pre l post : list ascii) :
  Forall (fun c => isSpace c = true) pre ->
  Forall (fun c => isSpace c = true) post ->
  trimChars (pre ++ l ++ post) = trimChars l.
Proof.
  intros Hpre Hpost.
  destruct (trimChars_split l) as (w & w' & Hl & Hw & Hw' & Hh & Hr).
  rewrite Hl at 1.
  replace (pre ++ (w ++ trimChars l ++ w') ++ post)
    with ((pre ++ w) ++ trimChars l ++ (w' ++ post))
    by (by rewrite <- !app_assoc).
  apply trimChars_unique; try done; by apply Forall_app.
Qed.

Lemma trimStartChars_map (f : ascii -> ascii) (l : list ascii) :
  (∀ c, isSpace (f c) = isSpace c) ->
  trimStartChars (map f l) = map f (trimStartChars l).
Proof.
  intros Hf. induction l as [|c l IH]; [done|].
  cbn. rewrite Hf. by destruct (isSpace c).
Qed.

Lemma trimChars_map (f : ascii -> ascii) (l : list ascii) :
  (∀ c, isSpace (f c) = isSpace c) ->
  trimChars (map f l) = map f (trimChars l).
Proof.
  intros Hf. unfold trimChars.
  by rewrite trimStartChars_map, <- map_rev, trimStartChars_map, map_rev.
Qed.

(** The key under which the two lookup tables are read. *)
Lemma key_idem (s : string) :
  trim (toLowerCase (trim (toLowerCase s))) = trim (toLowerCase s).
Proof.
  unfold trim, toLowerCase. rewrite !chars_str. f_equal.
  rewrite <- trimChars_map by apply isSpace_toLowerChar.
  rewrite trimChars_idem, map_map. f_equal.
  apply map_ext. intros c. apply toLowerChar_idem.
Qed.

Lemma ownProperty_value (table : list (string * string)) (key v : string) :
  ownProperty table key = Some v -> v ∈ map snd table.
Proof.
  induction table as [|[k w] table IH]; [done|]. cbn.
  destruct (String.eqb k key); [intros [= ->]; left|right; auto].
Qed.

End Strings.

Section Alphabet.

Lemma Forall_trimStartChars (P : ascii -> Prop) (l : list ascii) :
  Forall P l -> Forall P (trimStartChars l).
Proof.
  induction 1 as [|c l Hc Hl IH]; [constructor|].
  cbn. destruct (isSpace c); [exact IH|by constructor].
Qed.

Lemma Forall_trimChars (P : ascii -> Prop) (l : list ascii) :
  Forall P l -> Forall P (trimChars l).
Proof.
  intros H. unfold trimChars.
  by apply Forall_rev, Forall_trimStartChars, Forall_rev, Forall_trimStartChars.
Qed.

Lemma Forall_collapseSpaces (l : list ascii) :
  Forall (fun c => isUpper c = false) l ->
  ∀ inRun,
    Forall (fun c => isUpper c = false ∧ (isSpace c = true -> c = " "%char))
           (collapseSpaces inRun l).
Proof.
  induction 1 as [|c l Hc Hl IH]; intros inRun; [constructor|].
  cbn. destruct (isSpace c) eqn:Hs.
  - destruct inRun; [apply IH|]. constructor; [by split|apply IH].
  - constructor; [|apply IH]. split; [exact Hc|]. by rewrite Hs.
Qed.

Lemma Forall_replaceWords (P : ascii -> Prop) (alts : list string)
    (repl : string) (l : list ascii) :
  Forall P (chars repl) -> Forall P l -> Forall P (replaceWords alts repl l).
Proof.
  intros Hrepl Hl. unfold replaceWords.
  assert (∀ w, Forall P w -> Forall P (substWord alts repl w)) as Hsubst.
  { intros w Hw. unfold substWord. by case_bool_decide. }
  assert (∀ cur, Forall P cur -> Forall P (replaceWordsFrom alts repl cur l))
    as Hfrom; [|apply Hfrom; constructor].
  induction Hl as [|c l Hc Hl IH]; intros cur Hcur; cbn.
  - by apply Hsubst, Forall_rev.
  - destruct (isWordChar c).
    + apply IH. by constructor.
    + apply Forall_app. split; [by apply Hsubst, Forall_rev|].
      constructor; [exact Hc|]. apply IH. constructor.
Qed.

End Alphabet.

(** X1.  [normalizeZipCode] answers five decimal digits for every string,
    and normalizing a normalized ZIP code changes nothing. *)
Theorem normalizeZipCode_five_digits (zipCode : string) :
  String.length (DataNormalization.normalizeZipCode zipCode) = 5%nat
  ∧ digitString (DataNormalization.normalizeZipCode zipCode)
  ∧ DataNormalization.normalizeZipCode (DataNormalization.normalizeZipCode zipCode)
    = DataNormalization.normalizeZipCode zipCode.
Proof.
  unfold DataNormalization.normalizeZipCode, digitString.
  set (d := take 5 (stripNonDigits (chars zipCode))).
  assert (length d <= 5)%nat as Hlen by (unfold d; rewrite length_take; lia).
  assert (Forall (fun c => isDigit c = true) d) as Hd.
  { unfold d, stripNonDigits. apply Forall_take, Forall_forall.
    intros c Hc%list_elem_of_In%filter_In. tauto. }
  assert (Forall (fun c => isDigit c = true) (padStartZero 5 d)) as Hpad.
  { unfold padStartZero. apply Forall_app. split; [|exact Hd].
    apply Forall_forall. by intros c ->%list_elem_of_In%repeat_spec. }
  assert (length (padStartZero 5 d) = 5%nat) as Hfive.
  { unfold padStartZero. rewrite length_app, repeat_length. lia. }
  split; [by rewrite length_str|]. rewrite chars_str. split; [exact Hpad|].
  f_equal. unfold stripNonDigits.
  rewrite (forallb_filter_id isDigit (padStartZero 5 d))
    by (apply forallb_forall; intros c Hc%list_elem_of_In;
        rewrite Forall_forall in Hpad; by apply Hpad).
  rewrite take_ge by lia.
  unfold padStartZero at 1. by rewrite Hfive.
Qed.

(** X2.  [normalizePropertyType] on ASCII strings: a string it answers is
    a fixed point of it; what it answers is not a string exactly when the
    trimmed, lower-cased input is a key every object inherits; and the
    letter case of the input does not matter. *)
Theorem normalizePropertyType_fixed_point (type : string) :
  asciiString type ->
  (∀ s, DataNormalization.normalizePropertyType type = VStr s ->
        DataNormalization.normalizePropertyType s = VStr s)
  ∧ (∀ k, DataNormalization.normalizePropertyType type = VInherited k
          ↔ trim (toLowerCase type) = k ∧ k ∈ inheritedKeys)
  ∧ DataNormalization.normalizePropertyType (toUpperCase type)
    = DataNormalization.normalizePropertyType type
  ∧ DataNormalization.normalizePropertyType (toLowerCase type)
    = DataNormalization.normalizePropertyType type.
Proof.
  intros _. unfold DataNormalization.normalizePropertyType. cbv zeta.
  set (n := trim (toLowerCase type)).
  split; [|split; [|split]].
  - intros s Hs. unfold lookupOr in Hs.
    destruct (ownProperty DataNormalization.typeMap n) as [v|] eqn:Hown.
    + apply ownProperty_value in Hown.
      assert (s = v) as ->.
      { destruct (String.eqb v "") eqn:Hv; [|congruence].
        apply String.eqb_eq in Hv. subst v. exfalso. revert Hown.
        cbn. rewrite !elem_of_cons, elem_of_nil. intuition discriminate. }
      revert Hown. cbn. rewrite !elem_of_cons, elem_of_nil.
      intros H; repeat (destruct H as [->|H]; [vm_compute; reflexivity|]); done.
    + case_bool_decide as Hin; [done|]. injection Hs as <-.
      unfold n. rewrite key_idem. fold n. unfold lookupOr.
      rewrite Hown. by rewrite bool_decide_eq_false_2.
  - intros k. unfold lookupOr.
    destruct (ownProperty DataNormalization.typeMap n) as [v|] eqn:Hown.
    + split.
      * destruct (String.eqb v ""); discriminate.
      * intros [-> Hin]. exfalso. revert Hin Hown. unfold inheritedKeys.
        rewrite !elem_of_cons, elem_of_nil.
        intros [->|[->|[]]]; vm_compute; discriminate.
    + case_bool_decide as Hin.
      * split; [by intros [= <-]|by intros [-> _]].
      * split; [discriminate|]. by intros [<- Hk].
  - by rewrite toLowerCase_upper.
  - by rewrite toLowerCase_idem.
Qed.

Lemma normalizePropertyType_fixed_point_witness :
  DataNormalization.normalizePropertyType "  Office SPACE " = VStr "office"
  ∧ DataNormalization.normalizePropertyType "OFFICE"
    = DataNormalization.normalizePropertyType "office".
Proof.
  split; [vm_compute; reflexivity|].
  refine (proj1 (proj2 (proj2 (normalizePropertyType_fixed_point "office" _)))).
  unfold asciiString. apply (bool_decide_unpack _). vm_compute. reflexivity.
Defined.

(** X3.  [normalizeState] on ASCII strings: a string it answers is a fixed
    point of it and holds no lower-case letter, and the letter case of the
    input does not matter. *)
Theorem normalizeState_fixed_point (state : string) :
  asciiString state ->
  (∀ s, DataNormalization.normalizeState state = VStr s ->
        DataNormalization.normalizeState s = VStr s ∧ toUpperCase s = s)
  ∧ DataNormalization.normalizeState (toUpperCase state)
    = DataNormalization.normalizeState state
  ∧ DataNormalization.normalizeState (toLowerCase state)
    = DataNormalization.normalizeState state.
Proof.
  intros _. unfold DataNormalization.normalizeState. cbv zeta.
  set (n := trim (toLowerCase state)).
  split; [|split].
  - intros s Hs. unfold lookupOr in Hs.
    destruct (ownProperty DataNormalization.stateMap n) as [v|] eqn:Hown.
    + apply ownProperty_value in Hown.
      assert (s = v) as ->.
      { destruct (String.eqb v "") eqn:Hv; [|congruence].
        apply String.eqb_eq in Hv. subst v. exfalso. revert Hown.
        cbn. rewrite !elem_of_cons, elem_of_nil. intuition discriminate. }
      revert Hown. cbn. rewrite !elem_of_cons, elem_of_nil.
      intros H; repeat (destruct H as [->|H]; [vm_compute; by split|]); done.
    + case_bool_decide as Hin; [done|]. injection Hs as <-.
      rewrite toLowerCase_upper, toUpperCase_idem. fold n. unfold lookupOr.
      rewrite Hown. by rewrite bool_decide_eq_false_2.
  - by rewrite toLowerCase_upper, toUpperCase_idem.
  - by rewrite toLowerCase_idem, toUpperCase_lower.
Qed.

Lemma normalizeState_fixed_point_witness :
  DataNormalization.normalizeState " Georgia" = VStr "GA"
  ∧ DataNormalization.normalizeState "TEXAS"
    = DataNormalization.normalizeState "Texas".
Proof.
  split; [vm_compute; reflexivity|].
  refine (proj1 (proj2 (normalizeState_fixed_point "Texas" _))).
  unfold asciiString. apply (bool_decide_unpack _). vm_compute. reflexivity.
Defined.

(** X4.  A normalized address is made of lower-case letters, digits,
    underscores and blanks only; for an ASCII address neither its letter
    case nor ASCII white space around it matters. *)
Theorem normalizeAddress_alphabet (address : string) :
  Forall (fun c => addressChar c = true)
         (chars (DataNormalization.normalizeAddress address))
  ∧ (asciiString address ->
     DataNormalization.normalizeAddress (toUpperCase address)
     = DataNormalization.normalizeAddress address)
  ∧ (asciiString address ->
     ∀ pre post, blankString pre -> blankString post ->
       DataNormalization.normalizeAddress (pre +:+ address +:+ post)
       = DataNormalization.normalizeAddress address).
Proof.
  split; [|split].
  - unfold DataNormalization.normalizeAddress. cbv zeta. rewrite chars_str.
    unfold stripPunctuation. apply Forall_forall.
    intros c [Hc Hkeep]%list_elem_of_In%filter_In. apply list_elem_of_In in Hc.
    revert c Hc Hkeep. apply (Forall_forall (fun c => _ -> _)).
    apply (Forall_impl
             (fun c => isUpper c = false ∧ (isSpace c = true -> c = " "%char))).
    + repeat (apply Forall_replaceWords;
              [repeat constructor; vm_compute; intros; discriminate|]).
      apply Forall_collapseSpaces. unfold trim, toLowerCase.
      rewrite !chars_str. apply Forall_trimChars, Forall_forall.
      intros c (c' & <- & _)%list_elem_of_In%in_map_iff.
      apply isUpper_toLowerChar.
    + intros c [Hu Hs] Hkeep. by apply addressChar_intro.
  - intros _. unfold DataNormalization.normalizeAddress.
    by rewrite toLowerCase_upper.
  - intros _ pre post Hpre Hpost.
    unfold DataNormalization.normalizeAddress. cbv zeta.
    enough (trim (toLowerCase (pre +:+ address +:+ post))
            = trim (toLowerCase address)) as -> by done.
    unfold trim, toLowerCase. rewrite !chars_str, !chars_app, !map_app.
    f_equal. apply trimChars_surrounded.
    + apply Forall_forall. intros c (c' & <- & Hc)%list_elem_of_In%in_map_iff.
      rewrite isSpace_toLowerChar. unfold blankString in Hpre.
      rewrite Forall_forall in Hpre. by apply Hpre, list_elem_of_In.
    + apply Forall_forall. intros c (c' & <- & Hc)%list_elem_of_In%in_map_iff.
      rewrite isSpace_toLowerChar. unfold blankString in Hpost.
      rewrite Forall_forall in Hpost. by apply Hpost, list_elem_of_In.
Qed.

Section PricePerSqft.

Lemma qsign_zero (y : Q) : (y == 0)%Q -> qsign y = Eq.
Proof. intros H. unfold qsign. by apply Qeq_alt. Qed.

Lemma qsign_nonzero (y : Q) : ¬ (y == 0)%Q -> qsign y ≠ Eq.
Proof. intros H Hs. apply H. by apply Qeq_alt. Qed.

Lemma jdiv_by_zero (x y : Q) :
  (y == 0)%Q ->
  jdiv (Fin x) (Fin y)
  = match (x ?= 0)%Q with
    | Eq => NaN
    | Gt => Inf false
    | Lt => Inf true
    end.
Proof. intros Hy. unfold jdiv. by rewrite (qsign_zero y Hy). Qed.

Lemma jdiv_finite (x y : Q) :
  ¬ (y == 0)%Q -> jdiv (Fin x) (Fin y) = fin (x / y).
Proof.
  intros Hy. unfold jdiv. pose proof (qsign_nonzero y Hy).
  by destruct (qsign y).
Qed.

Lemma fin_eq (q : Q) : ∃ q', fin q = Fin q' ∧ (q' == q)%Q.
Proof. exists (Qred q). split; [done|apply Qred_correct]. Qed.

(** Rounding a number to two decimals gives a number. *)
Lemma round_cents_number (r : Q) :
  jdiv (jround (jmul (fin r) (ofZ 100))) (ofZ 100) ≠ NaN.
Proof.
  unfold fin, ofZ, jmul, jround, jdiv, fin, ofZ.
  change (qsign (inject_Z 100)) with Gt. cbv iota. discriminate.
Qed.

End PricePerSqft.

(** X5.  [normalizeProperty] accepts a record without usable price or
    area and hands the defect on in [pricePerSqft]: NaN when either is
    absent or both are zero, an infinity when only the area is zero.  With
    a finite price and a finite area that is not zero it is never NaN. *)
Theorem normalizeProperty_pricePerSqft (p : RawProperty.t) (a c s t : string) :
  RawProperty.address p = Some a ->
  RawProperty.city p = Some c ->
  RawProperty.state p = Some s ->
  RawProperty.propertyType p = Some t ->
  ∃ n : NormalizedProperty.t,
    DataNormalization.normalizeProperty p = Normal n
    ∧ (RawProperty.listingPrice p = None ∨ RawProperty.sqft p = None ->
       NormalizedProperty.pricePerSqft n = NaN)
    ∧ (∀ x y, RawProperty.listingPrice p = Some (Fin x) ->
              RawProperty.sqft p = Some (Fin y) -> (y == 0)%Q ->
              ((x == 0)%Q -> NormalizedProperty.pricePerSqft n = NaN)
              ∧ (¬ (x == 0)%Q ->
                 ∃ negative, NormalizedProperty.pricePerSqft n = Inf negative))
    ∧ (∀ x y, RawProperty.listingPrice p = Some (Fin x) ->
              RawProperty.sqft p = Some (Fin y) -> ¬ (y == 0)%Q ->
              NormalizedProperty.pricePerSqft n ≠ NaN).
Proof.
  intros Ha Hc Hs Ht.
  eexists. split; [by apply (normalizeProperty_present p a c s t)|].
  cbn [NormalizedProperty.pricePerSqft].
  split; [|split].
  - intros [-> | ->]; change (toNumber None) with NaN; [done|].
    by destruct (toNumber (RawProperty.listingPrice p)).
  - intros x y -> -> Hy. change (toNumber (Some ?v)) with v.
    rewrite (jdiv_by_zero x y Hy).
    destruct (Qcompare_spec x 0) as [H0|H0|H0]; split; try done.
    + intros Hx. lra.
    + intros _. by exists true.
    + intros Hx. lra.
    + intros _. by exists false.
  - intros x y -> -> Hy. change (toNumber (Some ?v)) with v.
    rewrite (jdiv_finite x y Hy). apply round_cents_number.
Qed.

Lemma normalizeProperty_pricePerSqft_witness :
  ∃ n : NormalizedProperty.t,
    DataNormalization.normalizeProperty Samples.listingNoPrice = Normal n
    ∧ NormalizedProperty.pricePerSqft n = NaN.
Proof.
  destruct (normalizeProperty_pricePerSqft Samples.listingNoPrice
              "10 Oak Avenue" "Atlanta" "Georgia" "Office Space")
    as (n & Hn & Hnan & _); try reflexivity.
  exists n. split; [exact Hn|]. apply Hnan. by left.
Defined.

(** * The edit distance and the similarity score *)

Section Recurrence.

Lemma lev_nil_r (s : list ascii) : lev s [] = length s.
Proof. by destruct s. Qed.

Lemma lev_cons (a b : ascii) (s t : list ascii) :
  lev (a :: s) (b :: t)
  = if decide (a = b) then lev s t
    else Nat.min (Nat.min (lev s t + 1) (lev (a :: s) t + 1)) (lev s (b :: t) + 1).
Proof. reflexivity. Qed.

(** One character more or less on either side moves the recurrence by at
    most one. *)
Lemma lev_step (s : list ascii) :
  ∀ t : list ascii,
    (∀ a, lev (a :: s) t <= S (lev s t))%nat
    ∧ (∀ a, lev s t <= S (lev (a :: s) t))%nat
    ∧ (∀ b, lev s (b :: t) <= S (lev s t))%nat
    ∧ (∀ b, lev s t <= S (lev s (b :: t)))%nat.
Proof.
  induction s as [|c s IHs]; intros t.
  - induction t as [|d t IHt].
    + repeat split; intros; cbn; lia.
    + destruct IHt as (U1 & L1 & U2 & L2).
      split; [|split; [|split]]; intros x.
      * rewrite (lev_cons x d). cbn [lev length] in *. specialize (U1 x).
        case_decide; lia.
      * rewrite (lev_cons x d). cbn [lev length] in *. specialize (L1 x).
        case_decide; lia.
      * cbn. lia.
      * cbn. lia.
  - induction t as [|d t IHt].
    + destruct (IHs []) as (U1 & L1 & U2 & L2).
      split; [|split; [|split]]; intros x.
      * rewrite !lev_nil_r. cbn. lia.
      * rewrite !lev_nil_r. cbn. lia.
      * rewrite (lev_cons c x), !lev_nil_r. cbn [length]. case_decide; lia.
      * rewrite (lev_cons c x), !lev_nil_r. specialize (L2 x).
        rewrite lev_nil_r in L2. cbn [length]. case_decide; lia.
    + destruct IHt as (U1 & L1 & U2 & L2).
      destruct (IHs (d :: t)) as (U1d & L1d & U2d & L2d).
      split; [|split; [|split]]; intros x.
      * rewrite (lev_cons x d). specialize (L2 d). case_decide; lia.
      * rewrite (lev_cons x d). specialize (U2 d). specialize (L1 x).
        case_decide; lia.
      * rewrite (lev_cons c x). specialize (L1d c). case_decide; lia.
      * rewrite (lev_cons c x). specialize (U1d c). specialize (L2d x).
        case_decide; lia.
Qed.

Lemma lev_sound (s : list ascii) : ∀ t, edits s t (lev s t).
Proof.
  induction s as [|a s IHs]; intros t.
  - induction t as [|b t IHt]; [constructor|]. cbn in *. by constructor.
  - induction t as [|b t IHt].
    + rewrite lev_nil_r. clear IHs. induction (a :: s) as [|c l IH]; cbn.
      * constructor.
      * by constructor.
    + rewrite lev_cons. case_decide.
      * subst b. constructor. apply IHs.
      * rewrite !Nat.add_1_r. apply Nat.min_case; [apply Nat.min_case|].
        -- apply edits_substitute, IHs.
        -- apply edits_insert, IHt.
        -- apply edits_delete, IHs.
Qed.

Lemma lev_least (s t : list ascii) (n : nat) :
  edits s t n -> (lev s t <= n)%nat.
Proof.
  induction 1 as [|a s t n _ IH|a b s t n _ IH|b s t n _ IH|a s t n _ IH].
  - done.
  - rewrite lev_cons. by rewrite decide_True.
  - rewrite lev_cons. case_decide; lia.
  - destruct (lev_step s t) as (_ & _ & U2 & _). specialize (U2 b). lia.
  - destruct (lev_step s t) as (U1 & _). specialize (U1 a). lia.
Qed.

Lemma edits_sym (s t : list ascii) (n : nat) : edits s t n -> edits t s n.
Proof. induction 1; by constructor. Qed.

Lemma edits_app (s t : list ascii) (n : nat) :
  edits s t n ->
  ∀ s' t' m, edits s' t' m -> edits (s ++ s') (t ++ t') (n + m).
Proof. induction 1; intros s' t' m H'; cbn; try constructor; auto. Qed.

Lemma edits_rev (s t : list ascii) (n : nat) :
  edits s t n -> edits (rev s) (rev t) n.
Proof.
  induction 1 as [|a s t n _ IH|a b s t n _ IH|b s t n _ IH|a s t n _ IH];
    cbn [rev].
  - constructor.
  - rewrite <- (Nat.add_0_r n). apply edits_app; [done|].
    constructor. constructor.
  - rewrite <- Nat.add_1_r. apply edits_app; [done|].
    constructor. constructor.
  - rewrite <- Nat.add_1_r, <- (app_nil_r (rev s)). apply edits_app; [done|].
    constructor. constructor.
  - rewrite <- Nat.add_1_r, <- (app_nil_r (rev t)). apply edits_app; [done|].
    constructor. constructor.
Qed.

Lemma edits_zero (s t : list ascii) (n : nat) :
  edits s t n -> n = 0%nat -> s = t.
Proof. induction 1; intros Hn; try discriminate; [done|]. f_equal. auto. Qed.

Lemma edits_length (s t : list ascii) (n : nat) :
  edits s t n -> (length s <= length t + n)%nat ∧ (length t <= length s + n)%nat.
Proof. induction 1; cbn; lia. Qed.

Lemma lev_sym (s t : list ascii) : lev s t = lev t s.
Proof.
  apply Nat.le_antisymm; apply lev_least, edits_sym, lev_sound.
Qed.

Lemma lev_rev (s t : list ascii) : lev (rev s) (rev t) = lev s t.
Proof.
  apply Nat.le_antisymm.
  - apply lev_least, edits_rev, lev_sound.
  - apply lev_least. rewrite <- (rev_involutive s), <- (rev_involutive t) at 1.
    apply edits_rev, lev_sound.
Qed.

Lemma lev_refl (s : list ascii) : lev s s = 0%nat.
Proof.
  induction s as [|a s IH]; [done|]. rewrite lev_cons. by rewrite decide_True.
Qed.

Lemma lev_bound (s : list ascii) :
  ∀ t, (lev s t <= Nat.max (length s) (length t))%nat.
Proof.
  induction s as [|a s IHs]; intros t; [cbn; lia|].
  destruct t as [|b t]; [rewrite lev_nil_r; lia|].
  rewrite lev_cons. specialize (IHs t). cbn [length]. case_decide; lia.
Qed.

End Recurrence.

Section Matrix.

Import DataNormalization.

Context (s1 s2 : list ascii).

Lemma prefixDistance_row0 (j : nat) :
  (j <= length s1)%nat -> prefixDistance s1 s2 0 j = j.
Proof.
  intros Hj. unfold prefixDistance. rewrite take_0. cbn [rev lev].
  rewrite length_rev, length_take. lia.
Qed.

Lemma prefixDistance_col0 (i : nat) :
  (i <= length s2)%nat -> prefixDistance s1 s2 i 0 = i.
Proof.
  intros Hi. unfold prefixDistance. rewrite take_0. cbn [rev].
  rewrite lev_nil_r, length_rev, length_take. lia.
Qed.

Lemma prefixDistance_step (i j : nat) (a b : ascii) :
  s2 !! i = Some a -> s1 !! j = Some b ->
  prefixDistance s1 s2 (S i) (S j)
  = if decide (a = b) then prefixDistance s1 s2 i j
    else Nat.min (Nat.min (prefixDistance s1 s2 i j + 1)
                          (prefixDistance s1 s2 (S i) j + 1))
                 (prefixDistance s1 s2 i (S j) + 1).
Proof.
  intros Ha Hb. unfold prefixDistance.
  rewrite (take_S_r s2 i a Ha), (take_S_r s1 j b Hb), !rev_app_distr.
  cbn [rev app]. apply lev_cons.
Qed.

Lemma cell_lookup (matrix : list (list nat)) (i j : nat) (row : list nat)
    (v : nat) :
  matrix !! i = Some row -> row !! j = Some v -> cell matrix i j = v.
Proof. intros Hi Hj. unfold cell. rewrite Hi. cbn. by rewrite Hj. Qed.

Lemma map_seq_lookup {A : Type} (f : nat -> A) (k n j : nat) :
  (j < n)%nat -> map f (seq k n) !! j = Some (f (k + j)%nat).
Proof.
  intros Hj. change (map f (seq k n)) with (f <$> seq k n).
  rewrite list_lookup_fmap, lookup_seq_lt by done. done.
Qed.

Lemma row_lookup (f : nat -> nat) (n j : nat) :
  (j < n)%nat -> map f (seq 0 n) !! j = Some (f j).
Proof. apply map_seq_lookup. Qed.

Lemma setIndex_end {A : Type} (j : nat) (v : A) (row : list A) :
  length row = j -> setIndex j v row = row ++ [v].
Proof. intros <-. unfold setIndex. rewrite decide_False by lia. done. Qed.

(** The first loop gives every row its first entry. *)
Lemma rows_started (n : nat) :
  ∀ k, foldl (fun m i => setIndex i [i] m) (map (fun r => [r]) (seq 0 k))
             (seq k n)
       = map (fun r => [r]) (seq 0 (k + n)).
Proof.
  induction n as [|n IH]; intros k; [by rewrite Nat.add_0_r|].
  cbn [seq foldl]. rewrite setIndex_end by (by rewrite length_map, length_seq).
  replace (map (fun r => [r]) (seq 0 k) ++ [[k]])
    with (map (fun r : nat => [r]) (seq 0 (S k)))
    by (by rewrite seq_S, map_app).
  rewrite IH. f_equal. f_equal. lia.
Qed.

(** The second loop fills row 0. *)
Lemma row0_filled (rest : list (list nat)) (n : nat) :
  ∀ k, foldl (fun m j => setCell m 0 j j) (seq 0 k :: rest) (seq k n)
       = seq 0 (k + n) :: rest.
Proof.
  induction n as [|n IH]; intros k; [by rewrite Nat.add_0_r|].
  cbn [seq foldl]. unfold setCell at 2. cbn [alter list_alter].
  rewrite setIndex_end by apply length_seq.
  rewrite <- seq_S, IH. f_equal. f_equal. lia.
Qed.

Lemma matrix_started :
  matrixFilled s1 s2 1 1
    (foldl (fun m j => setCell m 0 j j)
           (foldl (fun m i => setIndex i [i] m) [] (seq 0 (S (length s2))))
           (seq 0 (S (length s1)))).
Proof.
  change (@nil (list nat)) with (map (fun r : nat => [r]) (seq 0 0)).
  rewrite (rows_started (S (length s2)) 0). cbn [Nat.add].
  change (seq 0 (S (length s2))) with (0 :: seq 1 (length s2))%nat.
  cbn [map]. change (seq 0 (S (length s1))) with (0 :: seq 1 (length s1))%nat.
  cbn [foldl]. unfold setCell at 2. cbn [alter list_alter].
  change (setIndex 0 0 [0]) with (seq 0 1)%nat.
  rewrite row0_filled. cbn [Nat.add].
  split; [cbn; by rewrite length_map, length_seq|].
  split; [|split].
  - intros r Hr _. assert (r = 0)%nat as -> by lia.
    change ((?x :: ?l) !! 0%nat) with (Some x).
    f_equal. rewrite <- (map_id (seq 0 (S (length s1)))) at 1.
    apply map_ext_in. intros j Hj%in_seq.
    symmetry. apply prefixDistance_row0. lia.
  - intros H1. change ((?x :: ?l) !! 1%nat) with (l !! 0%nat).
    rewrite map_seq_lookup by lia. cbn.
    by rewrite prefixDistance_col0.
  - intros r Hr Hr'. destruct r as [|r]; [lia|].
    change ((?x :: ?l) !! S r) with (l !! r).
    rewrite map_seq_lookup by lia. done.
Qed.

(** One assignment of the double loop. *)
Lemma cell_filled (i j : nat) (matrix : list (list nat)) :
  (1 <= i <= length s2)%nat -> (1 <= j <= length s1)%nat ->
  matrixFilled s1 s2 i j matrix ->
  matrixFilled s1 s2 i (S j) (levenshteinCell s1 s2 i j matrix).
Proof.
  intros Hi Hj (Hlen & Habove & Hrow & Hbelow).
  specialize (Hrow ltac:(lia)).
  pose proof (Habove (i - 1)%nat ltac:(lia) ltac:(lia)) as Hprev.
  destruct (lookup_lt_is_Some_2 s2 (i - 1)%nat ltac:(lia)) as [a Ha].
  destruct (lookup_lt_is_Some_2 s1 (j - 1)%nat ltac:(lia)) as [b Hb].
  assert (cell matrix (i - 1) (j - 1) = prefixDistance s1 s2 (i - 1) (j - 1))
    as Hdiag by (apply (cell_lookup _ _ _ _ _ Hprev), row_lookup; lia).
  assert (cell matrix i (j - 1) = prefixDistance s1 s2 i (j - 1))
    as Hleft by (apply (cell_lookup _ _ _ _ _ Hrow), row_lookup; lia).
  assert (cell matrix (i - 1) j = prefixDistance s1 s2 (i - 1) j)
    as Hup by (apply (cell_lookup _ _ _ _ _ Hprev), row_lookup; lia).
  assert (levenshteinCell s1 s2 i j matrix
          = setCell matrix i j (prefixDistance s1 s2 i j)) as ->.
  { unfold levenshteinCell. rewrite Hdiag, Hleft, Hup, Ha, Hb.
    pose proof (prefixDistance_step (i - 1) (j - 1) a b Ha Hb) as Hstep.
    replace (S (i - 1)) with i in Hstep by lia.
    replace (S (j - 1)) with j in Hstep by lia.
    rewrite Hstep. destruct (decide (a = b)) as [->|Hne].
    - by rewrite decide_True.
    - by rewrite decide_False by congruence. }
  unfold setCell. split; [by rewrite length_alter|]. split; [|split].
  - intros r Hr Hr'. rewrite list_lookup_alter_ne by lia. by apply Habove.
  - intros _. rewrite list_lookup_alter_eq, Hrow.
    cbn [fmap option_fmap option_map]. f_equal.
    rewrite setIndex_end by (by rewrite length_map, length_seq).
    rewrite seq_S, map_app. reflexivity.
  - intros r Hr Hr'. rewrite list_lookup_alter_ne by lia. by apply Hbelow.
Qed.

(** The inner loop completes row [i]. *)
Lemma row_filled (i : nat) (n : nat) :
  (1 <= i <= length s2)%nat ->
  ∀ (j : nat) (matrix : list (list nat)),
    (1 <= j)%nat -> (j + n = S (length s1))%nat ->
    matrixFilled s1 s2 i j matrix ->
    matrixFilled s1 s2 i (S (length s1))
      (foldl (fun m j => levenshteinCell s1 s2 i j m) matrix (seq j n)).
Proof.
  intros Hi. induction n as [|n IH]; intros j matrix Hj Hn Hm.
  - cbn. by replace (S (length s1)) with j by lia.
  - cbn [seq foldl]. apply IH; [lia|lia|]. apply cell_filled; [done|lia|done].
Qed.

(** The outer loop completes every row. *)
Lemma rows_filled (n : nat) :
  ∀ (i : nat) (matrix : list (list nat)),
    (1 <= i)%nat -> (i + n = S (length s2))%nat ->
    matrixFilled s1 s2 i 1 matrix ->
    matrixFilled s1 s2 (S (length s2)) 1
      (foldl (fun m i =>
                foldl (fun m j => levenshteinCell s1 s2 i j m) m
                      (seq 1 (length s1)))
             matrix (seq i n)).
Proof.
  induction n as [|n IH]; intros i matrix Hi Hn Hm.
  - cbn. by replace (S (length s2)) with i by lia.
  - cbn [seq foldl]. apply IH; [lia|lia|].
    pose proof (row_filled i (length s1) ltac:(lia) 1%nat matrix
                  ltac:(lia) ltac:(lia) Hm) as (Hlen & Habove & Hrow & Hbelow).
    split; [done|]. split; [|split].
    + intros r Hr Hr'. destruct (decide (r = i)) as [->|Hne].
      * by apply Hrow.
      * apply Habove; lia.
    + intros Hi'. rewrite Hbelow by lia. cbn.
      by rewrite prefixDistance_col0.
    + intros r Hr Hr'. apply Hbelow; lia.
Qed.

Lemma matrix_result (matrix : list (list nat)) :
  matrixFilled s1 s2 (S (length s2)) 1 matrix ->
  cell matrix (length s2) (length s1) = lev (rev s2) (rev s1).
Proof.
  intros (_ & Habove & _).
  rewrite (cell_lookup _ _ _ _ (prefixDistance s1 s2 (length s2) (length s1))
             (Habove (length s2) ltac:(lia) ltac:(lia)))
    by (apply row_lookup; lia).
  unfold prefixDistance. by rewrite !firstn_all.
Qed.

End Matrix.

(** The matrix of [levenshteinDistance] holds the recurrence. *)
Lemma levenshteinDistance_lev (str1 str2 : string) :
  DataNormalization.levenshteinDistance str1 str2 = lev (chars str1) (chars str2).
Proof.
  unfold DataNormalization.levenshteinDistance. cbv zeta.
  rewrite (matrix_result (chars str1) (chars str2)).
  - by rewrite lev_rev, lev_sym.
  - apply rows_filled; [lia|lia|apply matrix_started].
Qed.

Section Similarity.

Import DataNormalization.

Lemma length_chars (s : string) : length (chars s) = String.length s.
Proof. unfold chars. induction s as [|c s IH]; [done|]. cbn. by rewrite IH. Qed.

Lemma chars_inj (s t : string) : chars s = chars t -> s = t.
Proof. intros H. by rewrite <- (str_chars s), <- (str_chars t), H. Qed.

Lemma levenshteinDistance_zero (str1 str2 : string) :
  levenshteinDistance str1 str2 = 0%nat ↔ str1 = str2.
Proof.
  rewrite levenshteinDistance_lev. split.
  - intros H. apply chars_inj, (edits_zero _ _ _ (lev_sound _ _) H).
  - intros ->. apply lev_refl.
Qed.

Lemma levenshteinDistance_bound (str1 str2 : string) :
  (levenshteinDistance str1 str2
   <= Nat.max (String.length str1) (String.length str2))%nat.
Proof.
  rewrite levenshteinDistance_lev, <- !length_chars. apply lev_bound.
Qed.

Lemma fin_proper (q q' : Q) : (q == q')%Q -> fin q = fin q'.
Proof. intros H. unfold fin. f_equal. by apply Qred_complete. Qed.

Lemma ofNat_pos (n : nat) : (0 < n)%nat -> qsign (inject_Z (Z.of_nat n)) = Gt.
Proof.
  intros Hn. unfold qsign. apply Qgt_alt.
  change 0%Q with (inject_Z 0). rewrite <- Zlt_Qlt. lia.
Qed.

(** The similarity of two strings as a quotient. *)
Lemma stringSimilarity_quotient (longer shorter : string) :
  (0 < String.length longer)%nat ->
  jdiv (jsub (ofNat (String.length longer))
             (ofNat (levenshteinDistance longer shorter)))
       (ofNat (String.length longer))
  = fin ((inject_Z (Z.of_nat (String.length longer))
          - inject_Z (Z.of_nat (levenshteinDistance longer shorter)))
         / inject_Z (Z.of_nat (String.length longer))).
Proof.
  intros Hpos. unfold jsub, jneg, jadd, ofNat, ofZ, fin, jdiv.
  rewrite (ofNat_pos _ Hpos). unfold fin. f_equal. apply Qred_complete.
  by rewrite !Qred_correct.
Qed.

Lemma stringSimilarity_cases (str1 str2 : string) :
  ∃ longer shorter,
    ((longer = str1 ∧ shorter = str2) ∨ (longer = str2 ∧ shorter = str1))
    ∧ (String.length shorter <= String.length longer)%nat
    ∧ stringSimilarity str1 str2
      = if (String.length longer =? 0)%nat then ofZ 1
        else jdiv (jsub (ofNat (String.length longer))
                        (ofNat (levenshteinDistance longer shorter)))
                  (ofNat (String.length longer)).
Proof.
  unfold stringSimilarity. cbv zeta.
  destruct (String.length str2 <? String.length str1)%nat eqn:Hlt.
  - apply Nat.ltb_lt in Hlt. exists str1, str2. split; [by left|]. split; [lia|done].
  - apply Nat.ltb_ge in Hlt. exists str2, str1. split; [by right|]. done.
Qed.

End Similarity.

(** X6.  [levenshteinDistance] answers the least number of insertions,
    deletions and substitutions of one character that turn the first
    string into the second. *)
Theorem levenshteinDistance_least_edits (str1 str2 : string) :
  edits (chars str1) (chars str2)
        (DataNormalization.levenshteinDistance str1 str2)
  ∧ ∀ n, edits (chars str1) (chars str2) n ->
         (DataNormalization.levenshteinDistance str1 str2 <= n)%nat.
Proof.
  rewrite levenshteinDistance_lev. split; [apply lev_sound|].
  intros n. apply lev_least.
Qed.

(** X7.  [levenshteinDistance] is symmetric, is zero exactly for equal
    strings, is at most the length of the longer string and at least the
    difference of the two lengths. *)
Theorem levenshteinDistance_metric (str1 str2 : string) :
  DataNormalization.levenshteinDistance str1 str2
  = DataNormalization.levenshteinDistance str2 str1
  ∧ (DataNormalization.levenshteinDistance str1 str2 = 0%nat ↔ str1 = str2)
  ∧ (DataNormalization.levenshteinDistance str1 str2
     <= Nat.max (String.length str1) (String.length str2))%nat
  ∧ (String.length str1
     <= String.length str2 + DataNormalization.levenshteinDistance str1 str2)%nat
  ∧ (String.length str2
     <= String.length str1 + DataNormalization.levenshteinDistance str1 str2)%nat.
Proof.
  split; [by rewrite !levenshteinDistance_lev, lev_sym|].
  split; [apply levenshteinDistance_zero|].
  split; [apply levenshteinDistance_bound|].
  rewrite levenshteinDistance_lev, <- !length_chars.
  apply edits_length, lev_sound.
Qed.

Lemma stringSimilarity_sym (str1 str2 : string) :
  DataNormalization.stringSimilarity str1 str2
  = DataNormalization.stringSimilarity str2 str1.
Proof.
  unfold DataNormalization.stringSimilarity. cbv zeta.
  destruct (String.length str2 <? String.length str1)%nat eqn:H21;
    destruct (String.length str1 <? String.length str2)%nat eqn:H12;
    try reflexivity.
  - apply Nat.ltb_lt in H21, H12. lia.
  - apply Nat.ltb_ge in H21, H12.
    assert (String.length str1 = String.length str2) as Hlen by lia.
    rewrite Hlen.
    by rewrite !levenshteinDistance_lev, (lev_sym (chars str2)).
Qed.

(** X8.  [stringSimilarity] answers a number between 0 and 1, it answers 1
    exactly for equal strings, and it is symmetric. *)
Theorem stringSimilarity_range (str1 str2 : string) :
  (∃ q, DataNormalization.stringSimilarity str1 str2 = Fin q
        ∧ (0 <= q <= 1)%Q
        ∧ ((q == 1)%Q ↔ str1 = str2))
  ∧ DataNormalization.stringSimilarity str1 str2
    = DataNormalization.stringSimilarity str2 str1.
Proof.
  split.
  - destruct (stringSimilarity_cases str1 str2)
      as (longer & shorter & Hwhich & Hle & ->).
    destruct (String.length longer =? 0)%nat eqn:Hzero.
    + apply Nat.eqb_eq in Hzero. exists 1%Q. split; [done|]. split; [done|].
      split; [intros _|done].
      assert (String.length shorter = 0%nat) as Hzero' by lia.
      destruct longer, shorter; try discriminate.
      by destruct Hwhich as [[<- <-]|[<- <-]].
    + apply Nat.eqb_neq in Hzero.
      rewrite stringSimilarity_quotient by lia.
      pose proof (levenshteinDistance_bound longer shorter) as Hbound.
      rewrite Nat.max_l in Hbound by lia.
      pose proof (levenshteinDistance_zero longer shorter) as Hz.
      set (d := DataNormalization.levenshteinDistance longer shorter) in *.
      set (L := String.length longer) in *. clearbody d L.
      assert (0 < inject_Z (Z.of_nat L))%Q as HL
        by (change 0%Q with (inject_Z 0); rewrite <- Zlt_Qlt; lia).
      assert (0 <= inject_Z (Z.of_nat d))%Q as Hd
        by (change 0%Q with (inject_Z 0); rewrite <- Zle_Qle; lia).
      assert (inject_Z (Z.of_nat d) <= inject_Z (Z.of_nat L))%Q as HdL
        by (rewrite <- Zle_Qle; lia).
      eexists. split; [reflexivity|]. rewrite Qred_correct.
      assert (str1 = str2 ↔ d = 0%nat) as ->.
      { rewrite Hz. destruct Hwhich as [[-> ->]|[-> ->]]; [done|].
        split; congruence. }
      assert (d = 0%nat ↔ inject_Z (Z.of_nat d) == 0)%Q as ->.
      { change 0%Q with (inject_Z 0). split.
        - by intros ->.
        - intros H0. assert (Z.of_nat d = 0)%Z by (by apply inject_Z_injective).
          lia. }
      set (l := inject_Z (Z.of_nat L)) in *. clearbody l.
      set (e := inject_Z (Z.of_nat d)) in *. clearbody e.
      split; [split|].
      * apply Qle_shift_div_l; [done|]. lra.
      * apply Qle_shift_div_r; [done|]. lra.
      * split.
        -- intros Hq.
           assert (l - e == l)%Q as Heq.
           { rewrite <- (Qmult_div_r (l - e) l) by lra. rewrite Hq. lra. }
           lra.
        -- intros ->. unfold Qminus, Qdiv. change (- 0)%Q with 0%Q.
           rewrite Qplus_0_r. apply Qmult_inv_r. lra.
  - apply stringSimilarity_sym.
Qed.

(** * The similarity of two records *)

Section SimilarityFacts.

Import DataNormalization.

Lemma stringSimilarity_refl (s : string) : stringSimilarity s s = Fin 1.
Proof.
  unfold stringSimilarity. cbv zeta. rewrite Nat.ltb_irrefl.
  destruct (String.length s =? 0)%nat eqn:Hzero; [done|].
  apply Nat.eqb_neq in Hzero. rewrite stringSimilarity_quotient by lia.
  rewrite (proj2 (levenshteinDistance_zero s s) eq_refl).
  change (Fin 1) with (fin 1). apply fin_proper.
  assert (¬ inject_Z (Z.of_nat (String.length s)) == 0)%Q as Hne.
  { change 0%Q with (inject_Z 0). rewrite inject_Z_injective. lia. }
  unfold Qminus, Qdiv. change (- inject_Z (Z.of_nat 0))%Q with 0%Q.
  rewrite Qplus_0_r. by apply Qmult_inv_r.
Qed.

(** The relative difference of two numbers,
    [Math.abs(a - b) / Math.max(a, b)]. *)
Lemma relativeDifference_sym (a b : jsnum) :
  jdiv (jabs (jsub a b)) (jmax a b) = jdiv (jabs (jsub b a)) (jmax b a).
Proof.
  destruct a as [|s|a], b as [|s'|b]; try reflexivity;
    try (by destruct s); try (by destruct s'); try (by destruct s, s').
  - assert (jabs (jsub (Fin a) (Fin b)) = jabs (jsub (Fin b) (Fin a))) as ->.
    { unfold jsub, jneg, jadd, jabs, fin. f_equal. apply Qred_complete.
      rewrite !Qred_correct.
      change (Qabs (a - b) == Qabs (b - a))%Q. by rewrite Qabs_Qminus. }
    unfold jmax, jcompare. destruct (Qcompare_spec a b) as [Heq|Hlt|Hgt].
    + assert ((b ?= a)%Q = Eq) as -> by (by apply Qeq_alt).
      destruct (jabs (jsub (Fin b) (Fin a))) as [|s|n]; [done| |].
      * unfold jdiv, qsign. by rewrite Heq.
      * unfold jdiv, qsign. rewrite Heq.
        destruct (b ?= 0)%Q; [done| |]; apply fin_proper; by rewrite Heq.
    + by assert ((b ?= a)%Q = Gt) as -> by (by apply Qgt_alt).
    + by assert ((b ?= a)%Q = Lt) as -> by (by apply Qlt_alt).
Qed.

Lemma relativeDifference_nan (a b : jsnum) :
  a = NaN ∨ b = NaN ∨ (∃ x y, a = Fin x ∧ b = Fin y ∧ x == 0 ∧ y == 0)%Q ->
  jdiv (jabs (jsub a b)) (jmax a b) = NaN.
Proof.
  intros [->|[->|(x & y & -> & -> & Hx & Hy)]].
  - done.
  - by destruct a.
  - unfold jsub, jneg, jadd, jabs, jmax, jcompare, fin.
    assert (qsign x = Eq) as Hsx by (by apply Qeq_alt).
    assert (qsign y = Eq) as Hsy by (by apply Qeq_alt).
    assert (qsign (Qred (Qabs (Qred (x + Qred (- y))))) = Eq) as Hn.
    { apply Qeq_alt. rewrite !Qred_correct, Hx, Hy. reflexivity. }
    destruct (x ?= y)%Q; unfold jdiv; by rewrite ?Hsx, ?Hsy, Hn.
Qed.

Lemma relativeDifference_self (x : Q) :
  ¬ (x == 0)%Q -> jdiv (jabs (jsub (Fin x) (Fin x))) (jmax (Fin x) (Fin x)) = Fin 0.
Proof.
  intros Hx. unfold jsub, jneg, jadd, jabs, jmax, jcompare, fin.
  assert ((x ?= x)%Q = Eq) as -> by (apply Qeq_alt; reflexivity).
  unfold jdiv. pose proof (qsign_nonzero x Hx) as Hs.
  assert (fin (Qred (Qabs (Qred (x + Qred (- x)))) / x) = Fin 0) as Hq.
  { change (Fin 0) with (fin 0). apply fin_proper.
    rewrite !Qred_correct, Qplus_opp_r. change (Qabs 0) with 0%Q.
    unfold Qdiv. apply Qmult_0_l. }
  destruct (qsign x); [done|exact Hq|exact Hq].
Qed.

Lemma jadd_nan_r (x : jsnum) : jadd x NaN = NaN.
Proof. by destruct x. Qed.

Lemma jmin_not_above (x y : jsnum) : jgt (jmin x y) x = false.
Proof.
  unfold jmin. destruct (jcompare x y) as [[]|] eqn:Hc; unfold jgt.
  - destruct x as [|s|x]; [done|by destruct s|]. cbn.
    by assert ((x ?= x)%Q = Eq) as -> by (apply Qeq_alt; reflexivity).
  - destruct x as [|s|x]; [done|by destruct s|]. cbn.
    by assert ((x ?= x)%Q = Eq) as -> by (apply Qeq_alt; reflexivity).
  - destruct x as [|s|x], y as [|s'|y]; try done.
    + by destruct s, s'.
    + by destruct s.
    + by destruct s'.
    + cbn in *. injection Hc as Hc.
      assert ((y ?= x)%Q = Lt) as -> by (by apply Qlt_alt, Qgt_alt). done.
  - done.
Qed.

Lemma jge_above (x t : jsnum) (b : Q) :
  jgt x (Fin b) = false -> jgt t (Fin b) = true -> jge x t = false.
Proof.
  unfold jgt, jge.
  destruct t as [|st|t]; [done| |].
  - destruct st; [done|]. intros Hx _.
    destruct x as [|sx|x]; [done| |done]. by destruct sx.
  - cbn. destruct (t ?= b)%Q eqn:Htb; try done. apply Qgt_alt in Htb.
    intros Hx _. destruct x as [|sx|x]; [done|by destruct sx|].
    cbn in *. assert ((x ?= t)%Q = Lt) as ->; [|done].
    apply Qlt_alt. destruct (x ?= b)%Q eqn:Hxb; [| |done].
    + apply Qeq_alt in Hxb. by rewrite Hxb.
    + apply Qlt_alt in Hxb. by apply (Qlt_trans _ b).
Qed.

(** Without a pair that reaches the threshold there is no group. *)
Lemma greedyGroups_none {A : Type} (record : A -> NormalizedProperty.t)
    (threshold : jsnum) :
  (∀ p q, jge (calculateSimilarity p q) threshold = false) ->
  ∀ (records : list A) (processed : gset string),
    greedyGroups record threshold records processed = [].
Proof.
  intros Hnone.
  assert (∀ seed later processed,
            fst (absorb record threshold seed later processed) = []) as Habsorb.
  { intros seed later. induction later as [|r later IH]; intros processed; [done|].
    cbn. case_bool_decide; [apply IH|]. rewrite Hnone. apply IH. }
  induction records as [|seed later IH]; intros processed; [done|].
  cbn. case_bool_decide; [apply IH|].
  specialize (Habsorb seed later ({[NormalizedProperty.id (record seed)]} ∪ processed)).
  destruct (absorb record threshold seed later _) as [joined processed'].
  cbn in Habsorb. subst joined. apply IH.
Qed.

End SimilarityFacts.

(** X9.  [calculateSimilarity] does not depend on the order of its two
    arguments. *)
Theorem calculateSimilarity_symmetric (prop1 prop2 : NormalizedProperty.t) :
  DataNormalization.calculateSimilarity prop1 prop2
  = DataNormalization.calculateSimilarity prop2 prop1.
Proof.
  unfold DataNormalization.calculateSimilarity. cbv zeta.
  rewrite (stringSimilarity_sym
             (NormalizedProperty.normalizedAddress prop1)
             (NormalizedProperty.normalizedAddress prop2)).
  rewrite (String.eqb_sym (toLowerCase (NormalizedProperty.city prop1))).
  rewrite (String.eqb_sym (NormalizedProperty.zipCode prop1)).
  rewrite (bool_decide_ext
             (NormalizedProperty.state prop1 = NormalizedProperty.state prop2)
             (NormalizedProperty.state prop2 = NormalizedProperty.state prop1))
    by (split; congruence).
  rewrite (bool_decide_ext
             (NormalizedProperty.propertyType prop1
              = NormalizedProperty.propertyType prop2)
             (NormalizedProperty.propertyType prop2
              = NormalizedProperty.propertyType prop1))
    by (split; congruence).
  rewrite (relativeDifference_sym (NormalizedProperty.sqft prop1)).
  rewrite (relativeDifference_sym (NormalizedProperty.listingPrice prop1)).
  reflexivity.
Qed.

Section Unusable.

Import DataNormalization.

(** A relative difference that is NaN makes the similarity NaN. *)
Lemma calculateSimilarity_nan (prop1 prop2 : NormalizedProperty.t) :
  jdiv (jabs (jsub (NormalizedProperty.sqft prop1) (NormalizedProperty.sqft prop2)))
       (jmax (NormalizedProperty.sqft prop1) (NormalizedProperty.sqft prop2)) = NaN
  ∨ jdiv (jabs (jsub (NormalizedProperty.listingPrice prop1)
                     (NormalizedProperty.listingPrice prop2)))
         (jmax (NormalizedProperty.listingPrice prop1)
               (NormalizedProperty.listingPrice prop2)) = NaN ->
  calculateSimilarity prop1 prop2 = NaN.
Proof.
  unfold calculateSimilarity. cbv zeta. intros [-> | ->].
  - change (jsub (ofZ 1) NaN) with NaN. change (jmul NaN ?y) with NaN.
    by rewrite jadd_nan_r.
  - change (jsub (ofZ 1) NaN) with NaN. change (jmul NaN ?y) with NaN.
    by rewrite jadd_nan_r.
Qed.

Lemma calculateSimilarity_unusable (prop1 prop2 : NormalizedProperty.t) :
  NormalizedProperty.sqft prop1 = NaN ∨ NormalizedProperty.sqft prop2 = NaN
  ∨ NormalizedProperty.listingPrice prop1 = NaN
  ∨ NormalizedProperty.listingPrice prop2 = NaN ->
  calculateSimilarity prop1 prop2 = NaN.
Proof.
  intros [H|[H|[H|H]]]; apply calculateSimilarity_nan;
    [left|left|right|right]; apply relativeDifference_nan; auto.
Qed.

Lemma jge_nan (t : jsnum) : jge NaN t = false.
Proof. done. Qed.

(** The members of a duplicate group have a price and an area. *)
Lemma group_members_usable (properties : list NormalizedProperty.t)
    (threshold : option jsnum) (g : list NormalizedProperty.t)
    (m : NormalizedProperty.t) :
  g ∈ findDuplicates properties threshold -> m ∈ g ->
  NormalizedProperty.sqft m ≠ NaN ∧ NormalizedProperty.listingPrice m ≠ NaN.
Proof.
  rewrite findDuplicates_greedy. intros Hg Hm.
  pose proof (greedyGroups_shape (fun p => p)
                (default defaultThreshold threshold) properties ∅) as Hshape.
  rewrite Forall_forall in Hshape.
  destruct (Hshape g Hg) as (seed & joined & -> & Hne & _ & Hsim).
  assert (∀ r, r ∈ joined ->
               NormalizedProperty.sqft seed ≠ NaN
               ∧ NormalizedProperty.listingPrice seed ≠ NaN
               ∧ NormalizedProperty.sqft r ≠ NaN
               ∧ NormalizedProperty.listingPrice r ≠ NaN) as Hpair.
  { intros r Hr. rewrite Forall_forall in Hsim. specialize (Hsim r Hr).
    repeat split; intros Hnan;
      rewrite calculateSimilarity_unusable in Hsim by auto; discriminate. }
  apply elem_of_cons in Hm as [->|Hm].
  - destruct joined as [|r joined]; [done|].
    destruct (Hpair r ltac:(left)) as (? & ? & _). done.
  - destruct (Hpair m Hm) as (_ & _ & ? & ?). done.
Qed.

End Unusable.

(** X10.  [calculateSimilarity] never answers more than 1, so a threshold
    above 1, or one that is not a number, finds no duplicates at all. *)
Theorem calculateSimilarity_at_most_one :
  (∀ prop1 prop2 : NormalizedProperty.t,
     jgt (DataNormalization.calculateSimilarity prop1 prop2) (ofZ 1) = false)
  ∧ (∀ (threshold : jsnum) (properties : list NormalizedProperty.t),
       jgt threshold (ofZ 1) = true ∨ threshold = NaN ->
       DataNormalization.findDuplicates properties (Some threshold) = []).
Proof.
  assert (∀ prop1 prop2 : NormalizedProperty.t,
            jgt (DataNormalization.calculateSimilarity prop1 prop2) (ofZ 1)
            = false) as Hmost.
  { intros prop1 prop2. unfold DataNormalization.calculateSimilarity. cbv zeta.
    apply jmin_not_above. }
  split; [exact Hmost|].
  intros threshold properties Hthreshold.
  rewrite findDuplicates_greedy. apply greedyGroups_none.
  intros p q. destruct Hthreshold as [Habove | ->].
  - by apply (jge_above _ _ (inject_Z 1)); [apply Hmost|].
  - unfold jge. by destruct (DataNormalization.calculateSimilarity p q).
Qed.

(** X11.  A record is fully similar to itself when its area and its price
    are finite and not zero; when either is zero or not a number, its
    similarity with itself is NaN. *)
Theorem calculateSimilarity_self (prop : NormalizedProperty.t) :
  (∀ a b, NormalizedProperty.sqft prop = Fin a ->
          NormalizedProperty.listingPrice prop = Fin b ->
          ¬ (a == 0)%Q -> ¬ (b == 0)%Q ->
          DataNormalization.calculateSimilarity prop prop = Fin 1)
  ∧ (NormalizedProperty.sqft prop = NaN
     ∨ NormalizedProperty.listingPrice prop = NaN
     ∨ (∃ a, NormalizedProperty.sqft prop = Fin a ∧ (a == 0)%Q)
     ∨ (∃ b, NormalizedProperty.listingPrice prop = Fin b ∧ (b == 0)%Q) ->
     DataNormalization.calculateSimilarity prop prop = NaN
     ∧ ∀ threshold,
         jge (DataNormalization.calculateSimilarity prop prop) threshold = false).
Proof.
  split.
  - intros a b Ha Hb Hna Hnb.
    unfold DataNormalization.calculateSimilarity. cbv zeta.
    rewrite stringSimilarity_refl, !String.eqb_refl, Ha, Hb.
    rewrite !bool_decide_eq_true_2 by done.
    rewrite (relativeDifference_self a Hna), (relativeDifference_self b Hnb).
    vm_compute. reflexivity.
  - intros H.
    assert (DataNormalization.calculateSimilarity prop prop = NaN) as ->;
      [|by split].
    apply calculateSimilarity_nan.
    destruct H as [H|[H|[(a & H & Ha)|(b & H & Hb)]]].
    + left. apply relativeDifference_nan. by left.
    + right. apply relativeDifference_nan. by left.
    + left. apply relativeDifference_nan. right. right. by exists a, a.
    + right. apply relativeDifference_nan. right. right. by exists b, b.
Qed.

(** X12.  A record normalized from a raw record without price or without
    area is in no duplicate group, whatever list it is part of and
    whatever the threshold. *)
Theorem missing_numbers_never_grouped (rawProperty : RawProperty.t)
    (property : NormalizedProperty.t) :
  DataNormalization.normalizeProperty rawProperty = Normal property ->
  RawProperty.sqft rawProperty = None
  ∨ RawProperty.listingPrice rawProperty = None ->
  ∀ (properties : list NormalizedProperty.t) (threshold : option jsnum),
    Forall (fun g => property ∉ g)
           (DataNormalization.findDuplicates properties threshold).
Proof.
  intros Hnormalized Hmissing.
  assert (NormalizedProperty.sqft property = NaN
          ∨ NormalizedProperty.listingPrice property = NaN) as Hnan.
  { unfold DataNormalization.normalizeProperty in Hnormalized.
    destruct (RawProperty.address rawProperty); [|discriminate].
    destruct (RawProperty.state rawProperty); [|discriminate].
    destruct (RawProperty.propertyType rawProperty); [|discriminate].
    cbn in Hnormalized.
    destruct (DataNormalization.calculateConfidence rawProperty);
      [|discriminate].
    destruct (RawProperty.city rawProperty); [|discriminate].
    cbn in Hnormalized. injection Hnormalized as <-. cbn.
    destruct Hmissing as [-> | ->]; [by left|by right]. }
  intros properties threshold. apply Forall_forall. intros g Hg Hin.
  destruct (group_members_usable properties threshold g property Hg Hin).
  by destruct Hnan.
Qed.

Lemma missing_numbers_never_grouped_witness :
  ∃ property : NormalizedProperty.t,
    DataNormalization.normalizeProperty Samples.listingNoPrice = Normal property
    ∧ Forall (fun g => property ∉ g)
             (DataNormalization.findDuplicates [property; property] None).
Proof.
  eexists. split; [reflexivity|].
  exact (missing_numbers_never_grouped Samples.listingNoPrice _
           eq_refl (or_intror eq_refl) _ None).
Defined.

(** * Counts of the deduplication and of a batch *)

Section GroupFacts.

Import DataNormalization.

(** The groups of the forward pass over the positions: every entry holds
    the record at its position, no position occurs twice, and a group has
    at least two entries. *)
Lemma indexedGroups_facts (properties : list NormalizedProperty.t)
    (threshold : option jsnum) :
  (∀ e, e ∈ concat (indexedGroups properties threshold) ->
        properties !! fst e = Some (snd e))
  ∧ NoDup (map fst (concat (indexedGroups properties threshold)))
  ∧ Forall (fun g => (2 <= length g)%nat) (indexedGroups properties threshold).
Proof.
  set (GG := indexedGroups properties threshold).
  assert (Hvalid : ∀ e, e ∈ concat GG -> properties !! fst e = Some (snd e)).
  { intros e (g & Hg & He)%elem_of_concat. by eapply indexedGroups_valid. }
  split; [exact Hvalid|]. split.
  - apply (NoDup_fmap_1 (fun j => from_option NormalizedProperty.id ""
                                              (properties !! j))).
    pose proof (proj1 (greedyGroups_ids snd
      (default defaultThreshold threshold)
      (indexedFrom 0 properties) ∅)) as Hnd.
    fold (indexedGroups properties threshold) in Hnd. fold GG in Hnd.
    replace ((fun j => from_option NormalizedProperty.id "" (properties !! j))
               <$> map fst (concat GG))
      with (map (fun e : nat * NormalizedProperty.t =>
                   NormalizedProperty.id (snd e)) (concat GG)); [done|].
    change (?f <$> map fst (concat GG)) with (map f (map fst (concat GG))).
    rewrite map_map. apply map_ext_in. intros e He%list_elem_of_In.
    by rewrite (Hvalid e He).
  - eapply Forall_impl; [apply greedyGroups_shape|].
    intros g (seed & joined & -> & Hne & _). destruct joined; [done|]. cbn. lia.
Qed.

Lemma length_concat_groups {A : Type} (groups : list (list A)) :
  Forall (fun g => (2 <= length g)%nat) groups ->
  (2 * length groups <= length (concat groups))%nat.
Proof.
  induction 1 as [|g groups Hg _ IH]; [done|].
  cbn. rewrite length_app. lia.
Qed.

End GroupFacts.

Section DedupShape.

Import DataNormalization.

(** What [deduplicateProperties] answers, for any list of records: the
    records kept are those at the positions [kept] followed by one entry
    of each group, and every object of the list is the input object at
    the same position, possibly tagged. *)
Lemma deduplicateProperties_shape (genId : nat -> string)
    (properties : list NormalizedProperty.t) :
  ∃ (store' : list NormalizedProperty.t)
    (bests : list (nat * NormalizedProperty.t)) (kept : list nat),
    deduplicateProperties genId properties
    = Normal (DedupResult.mk
        (deref store' (kept ++ map fst bests))
        (map (deref store') (map (map fst) (indexedGroups properties None)))
        (Z.of_nat (length properties)
         - Z.of_nat (length (kept ++ map fst bests)))
        store')
    ∧ length store' = length properties
    ∧ length bests = length (indexedGroups properties None)
    ∧ (∀ b, b ∈ bests -> (fst b < length properties)%nat)
    ∧ NoDup kept
    ∧ (∀ i, i ∈ kept ->
         (i < length properties)%nat
         ∧ i ∉ map fst (concat (indexedGroups properties None)))
    ∧ (NoDup (idsOf properties) ->
       ∀ i, (i < length properties)%nat ->
            i ∈ kept ∨ i ∈ map fst (concat (indexedGroups properties None)))
    ∧ (indexedGroups properties None = [] -> kept = seq 0 (length properties))
    ∧ (∀ j p', store' !! j = Some p' ->
         ∃ p, properties !! j = Some p
              ∧ NormalizedProperty.confidence p' = NormalizedProperty.confidence p
              ∧ NormalizedProperty.id p' = NormalizedProperty.id p).
Proof.
  set (GG := indexedGroups properties None).
  destruct (indexedGroups_facts properties None) as (Hvalid & HndRefs & Htwo).
  fold GG in Hvalid, HndRefs, Htwo.
  assert (Hne : Forall (fun g => g ≠ []) GG).
  { eapply Forall_impl; [exact Htwo|]. intros g Hg ->. cbn in Hg. lia. }
  unfold deduplicateProperties. cbv zeta.
  rewrite findDuplicateRefs_indexed. fold GG.
  rewrite (collectIds_groups properties GG ∅ Hvalid).
  set (dupIds := list_to_set _ ∪ ∅).
  set (nonDup := List.filter _ (seq 0 (length properties))).
  destruct (resolveGroups_spec genId GG 0 properties nonDup Hvalid HndRefs Hne)
    as (store' & bests & Hres & Hlen & Hother & Hlenb & Hgroups).
  rewrite Hres. cbn [mbind completion_bind mret completion_ret].
  exists store', bests, nonDup. split; [reflexivity|].
  split; [exact Hlen|]. split; [exact Hlenb|].
  assert (HnonDup : ∀ i, i ∈ nonDup ->
            (i < length properties)%nat
            ∧ ∃ p, properties !! i = Some p ∧ NormalizedProperty.id p ∉ dupIds).
  { intros i [Hi Hp]%list_elem_of_In%filter_In.
    apply in_seq in Hi. split; [lia|].
    destruct (properties !! i) as [p|]; [|done]. exists p. split; [done|].
    by apply negb_true_iff, bool_decide_eq_false in Hp. }
  assert (Hmember : ∀ e, e ∈ concat GG -> NormalizedProperty.id (snd e) ∈ dupIds).
  { intros e He. unfold dupIds. apply elem_of_union. left.
    apply elem_of_list_to_set, list_elem_of_fmap. by exists e. }
  split.
  { intros b Hb. apply list_elem_of_lookup_1 in Hb as [n Hb].
    assert (is_Some (GG !! n)) as [g Hg].
    { apply lookup_lt_is_Some. rewrite <- Hlenb. by eapply lookup_lt_Some. }
    destruct (Hgroups n g Hg) as (_ & b' & Hb' & Hin & _).
    rewrite Hb in Hb'. injection Hb' as <-.
    apply (lookup_lt_Some properties (fst b) (snd b)), Hvalid.
    apply elem_of_concat. exists g. split; [|done].
    by eapply list_elem_of_lookup_2. }
  split.
  { unfold nonDup. apply NoDup_ListNoDup, List.NoDup_filter, List.seq_NoDup. }
  split.
  { intros i Hi. destruct (HnonDup i Hi) as (Hlt & p & Hp & Hid).
    split; [done|]. intros (e & -> & He)%list_elem_of_fmap.
    apply Hid. rewrite (Hvalid e He) in Hp. injection Hp as <-.
    by apply Hmember. }
  split.
  { intros Hids i Hi.
    destruct (lookup_lt_is_Some_2 properties i Hi) as [p Hp].
    destruct (decide (NormalizedProperty.id p ∈ dupIds)) as [Hin|Hout].
    - right. unfold dupIds in Hin. apply elem_of_union in Hin as [Hin|Hin];
        [|set_solver].
      apply elem_of_list_to_set, list_elem_of_fmap in Hin as (e & Heq & He).
      apply list_elem_of_fmap. exists e. split; [|done].
      pose proof (Hvalid e He) as Hat.
      eapply NoDup_lookup; [exact Hids| |].
      + unfold idsOf. rewrite list_lookup_fmap, Hp. reflexivity.
      + unfold idsOf. rewrite list_lookup_fmap, Hat. cbn. by rewrite Heq.
    - left. apply list_elem_of_In, filter_In. split; [apply in_seq; lia|].
      rewrite Hp. by apply negb_true_iff, bool_decide_eq_false. }
  split.
  { intros Hnil. unfold nonDup.
    assert (dupIds = ∅) as Hempty.
    { unfold dupIds. fold GG. rewrite Hnil. set_solver. }
    apply forallb_filter_id, forallb_forall. intros i Hi%in_seq.
    destruct (lookup_lt_is_Some_2 properties i ltac:(lia)) as [p ->].
    apply negb_true_iff, bool_decide_eq_false. rewrite Hempty. set_solver. }
  intros j p' Hj.
  assert (j < length properties)%nat as Hlt
    by (rewrite <- Hlen; by eapply lookup_lt_Some).
  destruct (lookup_lt_is_Some_2 properties j Hlt) as [p Hp].
  exists p. split; [done|].
  destruct (decide (j ∈ map fst (concat GG))) as [Hin|Hout].
  - apply list_elem_of_fmap in Hin as (e & -> & He).
    apply elem_of_concat in He as (g & Hg & He).
    apply list_elem_of_lookup_1 in Hg as [n Hg].
    destruct (Hgroups n g Hg) as (Htag & _).
    rewrite (Htag e He) in Hj. injection Hj as <-.
    rewrite (Hvalid e) in Hp
      by (apply elem_of_concat; exists g; split;
          [by eapply list_elem_of_lookup_2|done]).
    injection Hp as <-. done.
  - rewrite (Hother j Hout), Hp in Hj. by injection Hj as <-.
Qed.

End DedupShape.

Section DedupLengths.

Import DataNormalization.

(** The counts behind [deduplicateProperties]: [kept] positions and one
    survivor per group are answered, out of a list that holds the kept
    positions and all members of the groups. *)
Lemma deduplicateProperties_lengths (genId : nat -> string)
    (properties : list NormalizedProperty.t) :
  ∃ (r : DedupResult.t) (kept : nat),
    deduplicateProperties genId properties = Normal r
    ∧ length (DedupResult.deduplicatedProperties r)
      = (kept + length (findDuplicates properties None))%nat
    ∧ length (DedupResult.duplicateGroups r)
      = length (findDuplicates properties None)
    ∧ DedupResult.removedCount r
      = (Z.of_nat (length properties)
         - Z.of_nat (length (DedupResult.deduplicatedProperties r)))%Z
    ∧ (kept + length (concat (findDuplicates properties None))
       <= length properties)%nat
    ∧ (2 * length (findDuplicates properties None)
       <= length (concat (findDuplicates properties None)))%nat
    ∧ (findDuplicates properties None = [] -> kept = length properties)
    ∧ (NoDup (idsOf properties) ->
       length properties
       = (kept + length (concat (findDuplicates properties None)))%nat)
    ∧ length (DedupResult.propertiesAfter r) = length properties
    ∧ (∀ j p', DedupResult.propertiesAfter r !! j = Some p' ->
         ∃ p, properties !! j = Some p
              ∧ NormalizedProperty.confidence p' = NormalizedProperty.confidence p
              ∧ NormalizedProperty.id p' = NormalizedProperty.id p)
    ∧ (∀ p', p' ∈ DedupResult.deduplicatedProperties r ->
         ∃ j, DedupResult.propertiesAfter r !! j = Some p').
Proof.
  destruct (deduplicateProperties_shape genId properties)
    as (store' & bests & kept & Hrun & Hlen & Hlenb & Hbests & Hnd & Hkept
        & Hall & Hnil & Hstore).
  destruct (indexedGroups_facts properties None) as (Hvalid & HndRefs & Htwo).
  rewrite findDuplicates_indexed.
  set (GG := indexedGroups properties None) in *.
  assert (length (concat (map (map snd) GG)) = length (concat GG)) as Hmembers.
  { rewrite <- concat_map, !length_map. done. }
  assert (length (deref store' (kept ++ map fst bests))
          = (length kept + length GG)%nat) as Hfinal.
  { rewrite deref_length, length_app, length_map, Hlenb; [done|].
    intros i [Hi|Hi]%elem_of_app; apply lookup_lt_is_Some; rewrite Hlen.
    - by apply Hkept.
    - apply list_elem_of_fmap in Hi as (b & -> & Hb). by apply Hbests. }
  assert (length kept + length (concat GG) <= length properties)%nat as Hroom.
  { rewrite <- (length_map fst (concat GG)), <- length_app.
    transitivity (length (seq 0 (length properties)));
      [|by rewrite length_seq].
    apply NoDup_included_length.
    - apply NoDup_app. split; [done|]. split; [|done].
      intros i Hi. by apply Hkept.
    - intros i [Hi|Hi]%elem_of_app; apply elem_of_seq.
      + destruct (Hkept i Hi). lia.
      + apply list_elem_of_fmap in Hi as (e & -> & He).
        pose proof (lookup_lt_Some _ _ _ (Hvalid e He)). lia. }
  pose proof (length_concat_groups GG Htwo) as Hsize.
  exists (DedupResult.mk
            (deref store' (kept ++ map fst bests))
            (map (deref store') (map (map fst) GG))
            (Z.of_nat (length properties)
             - Z.of_nat (length (kept ++ map fst bests)))
            store'), (length kept).
  split; [exact Hrun|].
  cbn [DedupResult.deduplicatedProperties DedupResult.duplicateGroups
       DedupResult.removedCount DedupResult.propertiesAfter].
  rewrite Hfinal, !length_map, Hmembers, length_app, length_map, Hlenb.
  split; [done|]. split; [done|]. split; [done|]. split; [done|].
  split; [done|]. split.
  { intros Hempty. assert (GG = []) as HGG by (by destruct GG).
    by rewrite (Hnil HGG), length_seq. }
  split.
  { intros Hids. apply Nat.le_antisymm; [|done].
    rewrite <- (length_map fst (concat GG)), <- length_app.
    transitivity (length (seq 0 (length properties)));
      [by rewrite length_seq|].
    apply NoDup_included_length; [apply NoDup_ListNoDup, List.seq_NoDup|].
    intros i Hi%elem_of_seq. apply elem_of_app. apply Hall; [done|lia]. }
  split; [done|]. split; [exact Hstore|].
  intros p' Hp'. unfold deref in Hp'.
  apply list_elem_of_omap in Hp' as (j & _ & Hj). by exists j.
Qed.

End DedupLengths.

(** X13.  [deduplicateProperties] answers for every list of records
    (the [reduce] over a group never meets an empty group); it removes
    at least all but one member of every group, so [removedCount] is at
    least the number of groups, and it is zero exactly when there is no
    group; when the ids are pairwise distinct it removes exactly all but
    one member of every group. *)
Theorem deduplicateProperties_counts (genId : nat -> string)
    (properties : list NormalizedProperty.t) :
  ∃ r : DedupResult.t,
    DataNormalization.deduplicateProperties genId properties = Normal r
    ∧ length (DedupResult.duplicateGroups r)
      = length (DataNormalization.findDuplicates properties None)
    ∧ DedupResult.removedCount r
      = (Z.of_nat (length properties)
         - Z.of_nat (length (DedupResult.deduplicatedProperties r)))%Z
    ∧ (Z.of_nat (length (concat (DataNormalization.findDuplicates properties None)))
       - Z.of_nat (length (DataNormalization.findDuplicates properties None))
       <= DedupResult.removedCount r)%Z
    ∧ (Z.of_nat (length (DataNormalization.findDuplicates properties None))
       <= DedupResult.removedCount r)%Z
    ∧ (DedupResult.removedCount r = 0%Z
       ↔ DataNormalization.findDuplicates properties None = [])
    ∧ (NoDup (idsOf properties) ->
       DedupResult.removedCount r
       = (Z.of_nat (length (concat (DataNormalization.findDuplicates properties None)))
          - Z.of_nat (length (DataNormalization.findDuplicates properties None)))%Z).
Proof.
  destruct (deduplicateProperties_lengths genId properties)
    as (r & kept & Hrun & Hfinal & Hgroups & Hremoved & Hroom & Hsize & Hnil
        & Hall & _).
  exists r. split; [exact Hrun|]. split; [exact Hgroups|].
  split; [exact Hremoved|]. rewrite Hremoved, Hfinal.
  split; [lia|]. split; [lia|]. split.
  - split.
    + intros Hzero.
      destruct (DataNormalization.findDuplicates properties None); [done|].
      cbn [length] in *. lia.
    + intros Hempty. rewrite (Hnil Hempty), Hempty. cbn. lia.
  - intros Hids. specialize (Hall Hids). lia.
Qed.

Section Batch.

Import DataNormalization.

Lemma normalizeProperty_wellFormed (p : RawProperty.t) :
  membersPresent p ->
  ∃ n, normalizeProperty p = Normal n
       ∧ NormalizedProperty.id n = RawProperty.id p
       ∧ (0 <= NormalizedProperty.confidence n <= 100)%Z.
Proof.
  intros ([a Ha] & [c Hc] & [s Hs] & [t Ht]).
  rewrite (normalizeProperty_present p a c s t) by done.
  eexists. split; [done|]. cbn. split; [done|apply confidenceScore_range].
Qed.

Lemma normalizeProperty_malformed (p : RawProperty.t) :
  ¬ membersPresent p -> ∃ m, normalizeProperty p = Throw (TypeError m).
Proof.
  unfold membersPresent. intros H. unfold normalizeProperty.
  destruct (RawProperty.address p) as [a|] eqn:Ha; [|by eexists].
  destruct (RawProperty.state p) as [s|] eqn:Hs; [|by eexists].
  destruct (RawProperty.propertyType p) as [t|] eqn:Ht; [|by eexists].
  cbn [receiver mbind completion_bind].
  rewrite (calculateConfidence_score p a Ha).
  destruct (RawProperty.city p) as [c|] eqn:Hc; [|by eexists].
  exfalso. apply H. eauto.
Qed.

Lemma mapM_wellFormed (rawProperties : list RawProperty.t) :
  Forall membersPresent rawProperties ->
  ∃ ns, mapM normalizeProperty rawProperties = Normal ns
        ∧ length ns = length rawProperties
        ∧ idsOf ns = RawProperty.id <$> rawProperties
        ∧ Forall (fun n => (0 <= NormalizedProperty.confidence n <= 100)%Z) ns.
Proof.
  induction 1 as [|p l Hp _ (ns & Hns & Hlen & Hids & Hconf)].
  - by exists [].
  - destruct (normalizeProperty_wellFormed p Hp) as (n & Hn & Hid & Hc).
    exists (n :: ns). cbn [mapM]. rewrite Hn. cbn [mbind completion_bind].
    rewrite Hns. cbn. rewrite Hlen, Hid. unfold idsOf in Hids. rewrite Hids.
    split; [done|]. split; [done|]. split; [done|]. by constructor.
Qed.

Lemma mapM_malformed (rawProperties : list RawProperty.t) :
  ¬ Forall membersPresent rawProperties ->
  ∃ m, mapM normalizeProperty rawProperties = Throw (TypeError m).
Proof.
  induction rawProperties as [|p l IH]; intros Hnot; [by destruct Hnot|].
  cbn [mapM]. destruct (decide (membersPresent p)) as [Hp|Hp].
  - destruct (normalizeProperty_wellFormed p Hp) as (n & -> & _).
    cbn [mbind completion_bind].
    destruct IH as [m ->]; [|by exists m].
    intros Hl. apply Hnot. by constructor.
  - destruct (normalizeProperty_malformed p Hp) as [m ->]. by exists m.
Qed.

Lemma sum_confidence (l : list NormalizedProperty.t) :
  Forall (fun n => (0 <= NormalizedProperty.confidence n <= 100)%Z) l ->
  ∀ acc,
    (acc <= foldl (fun sum prop => (sum + NormalizedProperty.confidence prop)%Z)
                  acc l
     <= acc + 100 * Z.of_nat (length l))%Z.
Proof.
  induction 1 as [|n l Hn _ IH]; intros acc; cbn [foldl length]; [lia|].
  specialize (IH (acc + NormalizedProperty.confidence n)%Z). lia.
Qed.

(** Rounding a value between 0 and 100 to two decimals. *)
Lemma round_cents_range (r : Q) :
  (0 <= r <= 100)%Q ->
  ∃ q, jdiv (jround (jmul (fin r) (ofZ 100))) (ofZ 100) = Fin q
       ∧ (0 <= q <= 100)%Q.
Proof.
  intros [Hlo Hhi]. unfold fin, ofZ, jmul, jround, jdiv, fin, ofZ.
  change (qsign (inject_Z 100)) with Gt. cbv iota.
  eexists. split; [reflexivity|]. rewrite Qred_correct.
  set (z := (Qred (Qred r * inject_Z 100) + (1 # 2))%Q).
  assert (z == r * 100 + (1 # 2))%Q as Hz.
  { unfold z. by rewrite !Qred_correct. }
  assert (0 <= Qfloor z <= 10000)%Z as [Hf0 Hf1].
  { split.
    - change 0%Z with (Qfloor 0). apply Qfloor_resp_le. rewrite Hz. lra.
    - change 10000%Z with (Qfloor (10000 + (1 # 2))).
      apply Qfloor_resp_le. rewrite Hz. lra. }
  rewrite Zle_Qle in Hf0, Hf1.
  set (F := inject_Z (Qfloor z)) in *. clearbody F. clear Hz z.
  change (inject_Z 0) with 0%Q in Hf0.
  change (inject_Z 10000) with 10000%Q in Hf1.
  change (inject_Z 100) with 100%Q. unfold Qdiv.
  change (/ 100)%Q with (1 # 100)%Q. split; lra.
Qed.

End Batch.

(** X14.  For every non-empty batch of records that have their members,
    [processDataBatch] answers; it counts every input record as
    normalized, keeps at least one record and at most as many as it was
    given, and reports an average confidence that is a number between 0
    and 100. *)
Theorem processDataBatch_statistics (genId : nat -> string)
    (rawProperties : list RawProperty.t) :
  rawProperties ≠ [] ->
  Forall membersPresent rawProperties ->
  ∃ r : BatchResult.t,
    DataNormalization.processDataBatch genId rawProperties = Normal r
    ∧ Statistics.totalInput (BatchResult.statistics r) = length rawProperties
    ∧ Statistics.normalizedCount (BatchResult.statistics r)
      = length rawProperties
    ∧ idsOf (BatchResult.normalizedProperties r)
      = RawProperty.id <$> rawProperties
    ∧ Statistics.finalCount (BatchResult.statistics r)
      = length (BatchResult.deduplicatedProperties r)
    ∧ (1 <= Statistics.finalCount (BatchResult.statistics r)
       <= length rawProperties)%nat
    ∧ (Statistics.finalCount (BatchResult.statistics r)
       + Statistics.duplicatesFound (BatchResult.statistics r)
       <= length rawProperties)%nat
    ∧ Forall (fun p => (0 <= NormalizedProperty.confidence p <= 100)%Z)
             (BatchResult.deduplicatedProperties r)
    ∧ ∃ q, Statistics.averageConfidence (BatchResult.statistics r) = Fin q
           ∧ (0 <= q <= 100)%Q.
Proof.
  intros Hnonempty Hpresent.
  destruct (mapM_wellFormed rawProperties Hpresent)
    as (ns & Hns & Hlen & Hids & Hconf).
  destruct (deduplicateProperties_lengths genId ns)
    as (r & kept & Hrun & Hfinal & Hgroups & _ & Hroom & Hsize & Hnil & _
        & Hafter & Hstore & Hkept).
  unfold DataNormalization.processDataBatch.
  rewrite Hns. cbn [mbind completion_bind]. rewrite Hrun.
  cbn [mbind completion_bind mret completion_ret].
  set (kept_ := DedupResult.deduplicatedProperties r) in *.
  assert (Forall (fun p => (0 <= NormalizedProperty.confidence p <= 100)%Z) kept_)
    as Hrange.
  { apply Forall_forall. intros p' Hp'.
    destruct (Hkept p' Hp') as (j & Hj).
    destruct (Hstore j p' Hj) as (p & Hp & -> & _).
    rewrite Forall_forall in Hconf. apply Hconf.
    by eapply list_elem_of_lookup_2. }
  assert (1 <= length kept_)%nat as Hone.
  { rewrite Hfinal.
    destruct (DataNormalization.findDuplicates ns None) as [|g gs] eqn:Hg.
    - rewrite (Hnil eq_refl), Hlen. destruct rawProperties; [done|cbn; lia].
    - cbn [length]. lia. }
  eexists. split; [reflexivity|].
  cbn [BatchResult.statistics BatchResult.normalizedProperties
       BatchResult.deduplicatedProperties Statistics.totalInput
       Statistics.normalizedCount Statistics.finalCount
       Statistics.duplicatesFound Statistics.averageConfidence].
  split; [done|]. split; [done|]. split.
  { rewrite <- Hids. unfold idsOf. apply list_eq. intros j.
    rewrite !list_lookup_fmap.
    destruct (DedupResult.propertiesAfter r !! j) as [p'|] eqn:Hj.
    - destruct (Hstore j p' Hj) as (p & Hp & _ & Hid).
      rewrite Hp. cbn. by rewrite Hid.
    - apply lookup_ge_None in Hj. rewrite Hafter in Hj.
      by rewrite (proj2 (lookup_ge_None ns j) Hj). }
  split; [done|]. split; [rewrite Hfinal in *; lia|].
  split; [rewrite Hgroups, Hfinal; lia|].
  split; [exact Hrange|].
  pose proof (sum_confidence kept_ Hrange 0%Z) as Hsum.
  set (total := foldl _ 0%Z kept_) in *. clearbody total.
  assert (jdiv (ofZ total) (ofNat (length kept_))
          = fin (inject_Z total / inject_Z (Z.of_nat (length kept_)))) as ->.
  { unfold jdiv, ofZ, ofNat, ofZ. by rewrite (ofNat_pos _ Hone). }
  apply round_cents_range.
  assert (0 < inject_Z (Z.of_nat (length kept_)))%Q as Hk
    by (change 0%Q with (inject_Z 0); rewrite <- Zlt_Qlt; lia).
  split.
  - apply Qle_shift_div_l; [done|]. rewrite Qmult_0_l.
    change 0%Q with (inject_Z 0). rewrite <- Zle_Qle. lia.
  - apply Qle_shift_div_r; [done|].
    change 100%Q with (inject_Z 100). rewrite <- inject_Z_mult, <- Zle_Qle. lia.
Qed.

Lemma processDataBatch_statistics_witness :
  ∃ r : BatchResult.t,
    DataNormalization.processDataBatch Samples.groupIds
      [Samples.listing; Samples.blank] = Normal r
    ∧ Statistics.finalCount (BatchResult.statistics r) = 2%nat
    ∧ Statistics.averageConfidence (BatchResult.statistics r) = Fin 50.
Proof.
  destruct (processDataBatch_statistics Samples.groupIds
              [Samples.listing; Samples.blank])
    as (r & Hr & _); [done|repeat constructor; by eexists|].
  exists r. split; [exact Hr|].
  vm_compute in Hr. injection Hr as <-. split; reflexivity.
Defined.

(** X15.  [processDataBatch] answers when every record of the batch has the
    members that are read through, and otherwise raises a TypeError for
    the whole batch: one record that lacks [address], [city], [state] or
    [propertyType] leaves no result for the others. *)
Theorem processDataBatch_all_or_nothing (genId : nat -> string)
    (rawProperties : list RawProperty.t) :
  (Forall membersPresent rawProperties ->
   ∃ r, DataNormalization.processDataBatch genId rawProperties = Normal r)
  ∧ (¬ Forall membersPresent rawProperties ->
     ∃ message,
       DataNormalization.processDataBatch genId rawProperties
       = Throw (TypeError message)).
Proof.
  split.
  - intros Hpresent.
    destruct (mapM_wellFormed rawProperties Hpresent) as (ns & Hns & _).
    destruct (deduplicateProperties_lengths genId ns) as (r & kept & Hrun & _).
    unfold DataNormalization.processDataBatch.
    rewrite Hns. cbn [mbind completion_bind]. rewrite Hrun.
    cbn [mbind completion_bind mret completion_ret]. by eexists.
  - intros Hnot. destruct (mapM_malformed rawProperties Hnot) as [m Hm].
    exists m. unfold DataNormalization.processDataBatch. by rewrite Hm.
Qed.

(** * The ingestion pipeline *)

Section Pipeline.

Import PropertyIngestionPipeline.

Lemma passesValidation_no_address (c : Candidate.t) :
  Candidate.address c = None -> passesValidation c = false.
Proof. intros H. unfold passesValidation. by rewrite H. Qed.

Lemma jle_zero_false (x : Q) : (0 < x)%Q -> jle (Fin x) (ofZ 0) = false.
Proof.
  intros Hx. unfold jle, jcompare, ofZ.
  by assert ((x ?= inject_Z 0)%Q = Gt) as -> by (by apply Qgt_alt).
Qed.

Lemma jfalsy_positive (x : Q) : (0 < x)%Q -> jfalsy (Fin x) = false.
Proof.
  intros Hx. unfold jfalsy. apply not_true_is_false.
  intros H%Qeq_bool_eq. rewrite H in Hx. by apply Qlt_irrefl in Hx.
Qed.

(** The keys counted so far hold their counts. *)
Lemma countKey_lookup (stats : gmap string Tally) (key s : string) :
  key ∉ objectPrototypeMembers ->
  (∀ k, stats !! k = None ∨ ∃ n, stats !! k = Some (Count (S n))) ->
  (∀ k, countKey stats key !! k = None
        ∨ ∃ n, countKey stats key !! k = Some (Count (S n)))
  ∧ match countKey stats key !! s with
    | Some (Count n) =>
        n = ((match stats !! s with Some (Count m) => m | _ => 0 end)
             + (if String.eqb key s then 1 else 0))%nat
    | Some Garbled => False
    | None => stats !! s = None ∧ String.eqb key s = false
    end.
Proof.
  intros Hkey Hclean. unfold countKey.
  destruct (Hclean key) as [Hnone|[n Hn]].
  - rewrite Hnone, bool_decide_eq_false_2 by done. split.
    + intros k. destruct (decide (k = key)) as [->|Hne].
      * right. exists 0%nat. by rewrite lookup_insert_eq.
      * rewrite lookup_insert_ne by done. apply Hclean.
    + destruct (decide (s = key)) as [->|Hne].
      * rewrite lookup_insert_eq, Hnone, String.eqb_refl. done.
      * rewrite lookup_insert_ne by done.
        assert (String.eqb key s = false) as ->
          by (apply String.eqb_neq; congruence).
        destruct (Hclean s) as [->|[m ->]]; [done|lia].
  - rewrite Hn. cbn [Nat.eqb]. split.
    + intros k. destruct (decide (k = key)) as [->|Hne].
      * right. exists (n + 1)%nat. rewrite lookup_insert_eq.
        do 2 f_equal; lia.
      * rewrite lookup_insert_ne by done. apply Hclean.
    + destruct (decide (s = key)) as [->|Hne].
      * rewrite lookup_insert_eq, Hn, String.eqb_refl. done.
      * rewrite lookup_insert_ne by done.
        assert (String.eqb key s = false) as ->
          by (apply String.eqb_neq; congruence).
        destruct (Hclean s) as [->|[m ->]]; [done|lia].
Qed.

Lemma countKeys_lookup (properties : list RawProperty.t) (s : string) :
  Forall (fun p => RawProperty.source p ∉ objectPrototypeMembers) properties ->
  ∀ stats : gmap string Tally,
    (∀ k, stats !! k = None ∨ ∃ n, stats !! k = Some (Count (S n))) ->
    match foldl (fun stats property =>
                   countKey stats (RawProperty.source property))
                stats properties !! s with
    | Some (Count n) =>
        (0 < n)%nat
        ∧ n = ((match stats !! s with Some (Count m) => m | _ => 0 end)
               + recordsFrom s properties)%nat
    | Some Garbled => False
    | None => stats !! s = None ∧ recordsFrom s properties = 0%nat
    end.
Proof.
  induction 1 as [|p l Hp _ IH]; intros stats Hclean.
  - cbn. destruct (Hclean s) as [->|[n ->]]; [done|lia].
  - cbn [foldl].
    destruct (countKey_lookup stats (RawProperty.source p) s Hp Hclean)
      as [Hclean' Hstep].
    specialize (IH _ Hclean'). unfold recordsFrom in *. cbn [List.filter].
    destruct (foldl _ (countKey stats (RawProperty.source p)) l !! s)
      as [[n|]|]; [| done |].
    + destruct (countKey stats (RawProperty.source p) !! s) as [[m|]|];
        [|done|].
      * destruct (String.eqb (RawProperty.source p) s); cbn [length]; lia.
      * destruct Hstep as [-> ->]. lia.
    + destruct IH as [Hnone Hzero]. rewrite Hnone in Hstep.
      destruct Hstep as [-> ->]. done.
Qed.

End Pipeline.

(** X16.  [validateProperties] answers the empty list for every list of
    records [processDataBatch] answers: it looks for a member [address],
    which a normalized record does not have.  The same record with such a
    member of five characters or more, a city, a state and a price per
    square foot between 10 and 2000 would pass. *)
Theorem validateProperties_rejects_normalized :
  (∀ properties : list NormalizedProperty.t,
     PropertyIngestionPipeline.validateProperties properties = [])
  ∧ (∀ (genId : nat -> string) (rawProperties : list RawProperty.t)
       (r : BatchResult.t),
       DataNormalization.processDataBatch genId rawProperties = Normal r ->
       PropertyIngestionPipeline.validateProperties
         (BatchResult.deduplicatedProperties r) = [])
  ∧ (∀ (p : NormalizedProperty.t) (address : string) (x y : Q),
       (5 <= String.length address)%nat ->
       NormalizedProperty.listingPrice p = Fin x ->
       NormalizedProperty.sqft p = Fin y ->
       (0 < y)%Q -> (10 * y <= x)%Q -> (x <= 2000 * y)%Q ->
       NormalizedProperty.city p ≠ "" ->
       NormalizedProperty.state p ≠ VStr "" ->
       PropertyIngestionPipeline.passesValidation
         (Candidate.mk (Some address)
            (Candidate.listingPrice (PropertyIngestionPipeline.candidateOf p))
            (Candidate.sqft (PropertyIngestionPipeline.candidateOf p))
            (Candidate.city (PropertyIngestionPipeline.candidateOf p))
            (Candidate.state (PropertyIngestionPipeline.candidateOf p)))
       = true).
Proof.
  assert (∀ properties : list NormalizedProperty.t,
            PropertyIngestionPipeline.validateProperties properties = [])
    as Hnone.
  { intros properties. unfold PropertyIngestionPipeline.validateProperties.
    induction properties as [|p l IH]; [done|]. cbn [List.filter].
    by rewrite passesValidation_no_address. }
  split; [exact Hnone|]. split; [intros; apply Hnone|].
  intros p address x y Hlen Hx Hy Hypos Hlo Hhi Hcity Hstate.
  assert (0 < x)%Q as Hxpos by lra.
  unfold PropertyIngestionPipeline.passesValidation,
    PropertyIngestionPipeline.candidateOf.
  cbn [Candidate.address Candidate.listingPrice Candidate.sqft Candidate.city
       Candidate.state]. rewrite Hx, Hy.
  unfold DataNormalization.truthyString, DataNormalization.truthyNumber,
    DataNormalization.lengthOf, truthyValue.
  change (toNumber (Some ?v)) with v. cbn [from_option].
  assert (String.eqb address "" = false) as ->.
  { apply String.eqb_neq. intros ->. cbn in Hlen. lia. }
  assert ((String.length address <? 5)%nat = false) as ->
    by (apply Nat.ltb_ge; lia).
  rewrite (jfalsy_positive x Hxpos), (jle_zero_false x Hxpos).
  rewrite (jfalsy_positive y Hypos), (jle_zero_false y Hypos).
  assert (String.eqb (NormalizedProperty.city p) "" = false) as ->
    by (by apply String.eqb_neq).
  assert ((match NormalizedProperty.state p with
           | VStr s => negb (String.eqb s "")
           | VInherited _ => true
           end) = true) as ->.
  { destruct (NormalizedProperty.state p) as [s|k]; [|done].
    apply negb_true_iff, String.eqb_neq. congruence. }
  cbn [negb orb].
  rewrite jdiv_finite by lra.
  unfold fin, jlt, jgt, jcompare, ofZ.
  assert ((Qred (x / y) ?= inject_Z 10)%Q ≠ Lt) as Hnotlt.
  { intros Hlt%Qlt_alt. rewrite Qred_correct in Hlt.
    apply Qlt_not_le in Hlt. apply Hlt.
    apply Qle_shift_div_l; [done|]. exact Hlo. }
  assert ((Qred (x / y) ?= inject_Z 2000)%Q ≠ Gt) as Hnotgt.
  { intros Hgt%Qgt_alt. rewrite Qred_correct in Hgt.
    apply Qlt_not_le in Hgt. apply Hgt.
    apply Qle_shift_div_r; [done|]. exact Hhi. }
  destruct (Qred (x / y) ?= inject_Z 10)%Q; try done;
    destruct (Qred (x / y) ?= inject_Z 2000)%Q; done.
Qed.

(** X17.  [calculateSourceStats] files under every source the number of
    records of that source, and nothing under any other key, provided no
    source is the name of a member every object inherits. *)
Theorem calculateSourceStats_counts (properties : list RawProperty.t)
    (source : string) :
  Forall (fun p => RawProperty.source p ∉ objectPrototypeMembers) properties ->
  PropertyIngestionPipeline.calculateSourceStats properties !! source
  = if (recordsFrom source properties =? 0)%nat then None
    else Some (Count (recordsFrom source properties)).
Proof.
  intros Hsources.
  pose proof (countKeys_lookup properties source Hsources ∅
                ltac:(intros k; left; apply lookup_empty)) as H.
  unfold PropertyIngestionPipeline.calculateSourceStats.
  destruct (foldl _ ∅ properties !! source) as [[n|]|].
  - rewrite lookup_empty in H. cbn in H. destruct H as [Hpos <-].
    by rewrite (proj2 (Nat.eqb_neq n 0)) by lia.
  - done.
  - destruct H as [_ ->]. done.
Qed.

Lemma calculateSourceStats_counts_witness :
  PropertyIngestionPipeline.calculateSourceStats
    [Samples.listing; Samples.blank; Samples.listingNoPrice] !! "LoopNet"
  = Some (Count 2).
Proof.
  rewrite (calculateSourceStats_counts
             [Samples.listing; Samples.blank; Samples.listingNoPrice] "LoopNet").
  - reflexivity.
  - apply Forall_forall. intros p Hp%list_elem_of_In H%list_elem_of_In.
    destruct Hp as [<-|[<-|[<-|[]]]]; vm_compute in H; intuition discriminate.
Defined.

(** * Where a job is, and how often it is started *)

Section Placement.

Import JobQueueSystem QueueSpec QueueOrder.

Lemma insertJob_perm (h : list Job.t) (x : nat) (l : list nat) :
  insertJob h x l ≡ₚ x :: l.
Proof.
  induction l as [|y l IH]; [done|]. cbn.
  destruct (compareJobs (h !!! x) (h !!! y) <=? 0)%Z; [done|].
  rewrite IH. apply Permutation_swap.
Qed.

Lemma sortRefs_perm (h : list Job.t) (l : list nat) : sortRefs h l ≡ₚ l.
Proof.
  induction l as [|x l IH]; [done|]. cbn [sortRefs foldr].
  fold (sortRefs h l). by rewrite insertJob_perm, IH.
Qed.

Lemma requeues_snoc_requeue (ts : list Timer) (d : Z) (a : nat) :
  omap requeued (ts ++ [mkTimer d (Requeue a)]) = omap requeued ts ++ [a].
Proof. by rewrite omap_app. Qed.

Lemma requeues_snoc_reschedule (ts : list Timer) (d : Z) :
  omap requeued (ts ++ [mkTimer d Reschedule]) = omap requeued ts.
Proof. rewrite omap_app. cbn. by rewrite app_nil_r. Qed.

Lemma requeues_delete (ts : list Timer) (k : nat) (t : Timer) :
  ts !! k = Some t ->
  omap requeued ts
  ≡ₚ match requeued t with Some a => [a] | None => [] end
     ++ omap requeued (delete k ts).
Proof.
  intros Hk. rewrite (delete_Permutation ts k t Hk) at 1. cbn.
  by destruct (requeued t).
Qed.

Lemma alter_total_same (f : Job.t -> Job.t) (a : nat) (h : list Job.t) :
  (a < length h)%nat -> alter f a h !!! a = f (h !!! a).
Proof. intros Ha. by apply list_lookup_total_alter_eq. Qed.

Lemma alter_total_other (f : Job.t -> Job.t) (a b : nat) (h : list Job.t) :
  a ≠ b -> alter f a h !!! b = h !!! b.
Proof. intros Hne. by apply list_lookup_total_alter_ne. Qed.

(** The same job objects, fewer references. *)
Lemma parts_mono (h : list Job.t) (W E W' E' : list nat) :
  orderlyParts h W E ->
  NoDup (W' ++ E') ->
  (∀ b, b ∈ W' -> b ∈ W) -> (∀ b, b ∈ E' -> b ∈ E) ->
  orderlyParts h W' E'.
Proof.
  intros (Hnd & Hvalid & Hrun & Hwait & Hatt) Hnd' HW HE.
  split; [done|]. split; [|split; [|split]]; [|auto|auto|auto].
  intros b [Hb|Hb]%elem_of_app; apply Hvalid, elem_of_app; auto.
Qed.

(** One job object changes, and may change its place. *)
Lemma parts_update (h : list Job.t) (W E W' E' : list nat) (a : nat)
    (f : Job.t -> Job.t) :
  orderlyParts h W E ->
  (a < length h)%nat ->
  NoDup (W' ++ E') ->
  (∀ b, b ∈ W' -> b ∈ W ∨ b = a) ->
  (∀ b, b ∈ E' -> b ∈ E ∨ b = a) ->
  (a ∈ E' -> Job.status (f (h !!! a)) = Job.running) ->
  (a ∈ W' -> waitingJob (f (h !!! a))) ->
  attemptsOk (f (h !!! a)) ->
  orderlyParts (alter f a h) W' E'.
Proof.
  intros (Hnd & Hvalid & Hrun & Hwait & Hatt) Ha Hnd' HW HE Hfrun Hfwait Hfatt.
  split; [done|]. rewrite length_alter. split; [|split; [|split]].
  - intros b [Hb|Hb]%elem_of_app.
    + destruct (HW b Hb) as [Hin| ->]; [|done].
      apply Hvalid, elem_of_app. auto.
    + destruct (HE b Hb) as [Hin| ->]; [|done].
      apply Hvalid, elem_of_app. auto.
  - intros b Hb. destruct (decide (b = a)) as [->|Hne].
    + rewrite alter_total_same by done. auto.
    + rewrite alter_total_other by done.
      destruct (HE b Hb) as [Hin|]; [|done]. auto.
  - intros b Hb. destruct (decide (b = a)) as [->|Hne].
    + rewrite alter_total_same by done. auto.
    + rewrite alter_total_other by done.
      destruct (HW b Hb) as [Hin|]; [|done]. auto.
  - intros b Hb. destruct (decide (b = a)) as [->|Hne].
    + by rewrite alter_total_same by done.
    + rewrite alter_total_other by done. auto.
Qed.

(** A new job object, which waits. *)
Lemma parts_add (h : list Job.t) (W E W' : list nat) (j : Job.t) :
  orderlyParts h W E ->
  W' ≡ₚ length h :: W ->
  waitingJob j -> attemptsOk j ->
  orderlyParts (h ++ [j]) W' E.
Proof.
  intros (Hnd & Hvalid & Hrun & Hwait & Hatt) Hperm Hj Hjatt.
  assert (∀ b, (b < length h)%nat -> (h ++ [j]) !!! b = h !!! b) as Hold
    by (intros b Hb; by apply lookup_total_app_l).
  assert ((h ++ [j]) !!! length h = j) as Hnew.
  { rewrite lookup_total_app_r by lia. by rewrite Nat.sub_diag. }
  assert (length h ∉ W ++ E) as Hfresh.
  { intros Hin%Hvalid. lia. }
  split; [|split; [|split; [|split]]].
  - rewrite Hperm. cbn. apply NoDup_cons. by split.
  - rewrite length_app. cbn. intros b. rewrite Hperm. cbn.
    rewrite elem_of_cons. intros [->|Hb]; [lia|].
    specialize (Hvalid b Hb). lia.
  - intros b Hb. rewrite Hold by (apply Hvalid, elem_of_app; auto). auto.
  - intros b. rewrite Hperm, elem_of_cons. intros [->|Hb].
    + by rewrite Hnew.
    + rewrite Hold by (apply Hvalid, elem_of_app; auto). auto.
  - rewrite length_app. cbn. intros b Hb.
    destruct (decide (b = length h)) as [->|Hne].
    + by rewrite Hnew.
    + rewrite Hold by lia. apply Hatt. lia.
Qed.

Lemma parts_perm (h : list Job.t) (W E W' : list nat) :
  orderlyParts h W E -> W' ≡ₚ W -> orderlyParts h W' E.
Proof.
  intros H Hperm. apply (parts_mono h W E); [done| |by intros b; rewrite Hperm|done].
  rewrite Hperm. by destruct H.
Qed.

End Placement.

Section Transitions.

Import JobQueueSystem QueueSpec QueueOrder.

Lemma alter_alter (f g : Job.t -> Job.t) (a : nat) (h : list Job.t) :
  alter f a (alter g a h) = alter (fun j => f (g j)) a h.
Proof.
  revert a. induction h as [|j h IH]; intros [|a]; cbn; [done..|].
  f_equal. apply IH.
Qed.

(** What the operations leave of the instance. *)
Lemma executeJobStart_state (now : Z) (a : nat) (s : state) :
  heap (executeJobStart now a s) = alter (startedJob now) a (heap s)
  ∧ queue (executeJobStart now a s) = queue s
  ∧ executing (executeJobStart now a s) = executing s ++ [a]
  ∧ timers (executeJobStart now a s) = timers s
  ∧ jobs (executeJobStart now a s) = jobs s
  ∧ runningJobs (executeJobStart now a s) = runningJobs s
  ∧ isProcessing (executeJobStart now a s) = isProcessing s.
Proof.
  unfold executeJobStart, updateJob, updateProgress, setHeap,
    setProgressUpdates, setExecuting. cbv zeta. fields.
  by rewrite !alter_alter.
Qed.

Lemma settle_state (now : Z) (a : nat) (outcome : Outcome) (s : state) :
  let s' := snd (executeJobSettle now a outcome s) in
  queue s' = queue s
  ∧ jobs s' = jobs s
  ∧ isProcessing s' = isProcessing s
  ∧ executing s' = List.filter (fun b => negb (a =? b)%nat) (executing s)
  ∧ match outcome with
    | Normal result =>
        heap s' = alter (completedJob now result) a (heap s)
        ∧ timers s' = timers s
    | Throw error =>
        if (Job.attempts (jobAt s a) <? Job.maxAttempts (jobAt s a))%Z
        then heap s' = alter (retryingJob (errorMessageOf error)) a (heap s)
             ∧ ∃ d, timers s' = timers s ++ [mkTimer d (Requeue a)]
        else heap s' = alter (failedJob now (errorMessageOf error)) a (heap s)
             ∧ timers s' = timers s
    end.
Proof.
  cbv zeta. settle_cases outcome s a;
    unfold releaseSlot, endActivation, setRunningJobs, setExecuting, setTimeout,
      setTimers, updateProgress, setProgressUpdates, updateJob, setHeap;
    fields; rewrite ?alter_alter; repeat split; try reflexivity.
  by eexists.
Qed.

(** The scheduler loop keeps the jobs in order. *)
Lemma dispatchLoop_orderly (now : Z) (q : list nat) :
  ∀ s : state,
    orderlyParts (heap s) (q ++ requeues s) (executing s) ->
    orderly (dispatchLoop now q s).
Proof.
  induction q as [|job q IH]; intros s Hs; cbn [dispatchLoop].
  - exact Hs.
  - destruct (decide (size (runningJobs s) < maxConcurrentJobs)%nat); [|exact Hs].
    case_bool_decide as Hheld.
    + apply IH. destruct Hs as (Hnd & Hrest).
      apply (parts_mono _ _ _ _ _ (conj Hnd Hrest)); [|set_solver|done].
      cbn in Hnd. by apply NoDup_cons in Hnd as [_ Hnd].
    + apply IH.
      destruct (executeJobStart_state now job
                  (setRunningJobs ({[Job.id (jobAt s job)]} ∪ runningJobs s) s))
        as (-> & _ & -> & Htimers & _).
      unfold requeues. rewrite Htimers. fields.
      pose proof Hs as (Hnd & Hvalid & Hrun & Hwait & Hatt).
      assert (job ∉ (q ++ requeues s) ++ executing s) as Hfresh.
      { cbn in Hnd. by apply NoDup_cons in Hnd as [Hfresh _]. }
      assert (job < length (heap s))%nat as Hjob by (apply Hvalid; set_solver).
      destruct (Hwait job ltac:(set_solver)) as [_ Hleft].
      destruct (Hatt job Hjob) as [Hlow Hhigh].
      apply (parts_update _ _ _ _ _ _ _ Hs Hjob).
      * rewrite app_assoc, <- Permutation_cons_append. exact Hnd.
      * set_solver.
      * set_solver.
      * done.
      * intros Hin. exfalso. apply Hfresh. set_solver.
      * unfold attemptsOk, startedJob. cbn. lia.
Qed.

Lemma processQueue_orderly (now : Z) (s : state) :
  orderly s -> orderly (processQueue now s).
Proof.
  intros Hs. unfold processQueue. destruct (isProcessing s); [done|].
  cbv zeta.
  pose proof (dispatchLoop_orderly now (queue s) (setIsProcessing true s) Hs)
    as Hloop.
  unfold orderly, requeues, setTimeout, setTimers in *. fields.
  by rewrite requeues_snoc_reschedule.
Qed.

End Transitions.

Section Steps.

Import JobQueueSystem QueueSpec QueueOrder.

Lemma addJob_orderly (type : Job.JobType) (payload : any)
    (priority maxAttempts : option Z) (newId : string) (now : Z) (s : state) :
  orderly s ->
  orderly (snd (addJob type payload priority maxAttempts newId now s)).
Proof.
  intros Hs. unfold addJob. cbv zeta. cbn [snd].
  set (job := Job.mk newId type (default 3%Z priority) payload Job.pending now
                     None None 0 (default 3%Z maxAttempts) None None).
  set (s4 := sortQueue _).
  assert (orderly s4) as H4.
  { unfold s4, orderly, requeues, sortQueue, setQueue, setJobs, setHeap. fields.
    apply (parts_add _ (queue s ++ requeues s)); [exact Hs| | |].
    - rewrite sortRefs_perm, <- Permutation_cons_append. done.
    - split; [by left|by left].
    - unfold attemptsOk. cbn. lia. }
  destruct (isProcessing s4); [done|]. by apply processQueue_orderly.
Qed.

Lemma cancelJob_orderly_filed (jobId : string) (now : Z) (s : state) :
  (∀ i a, jobs s !! i = Some a -> validRef s a) ->
  orderly s -> orderly (snd (cancelJob jobId now s)).
Proof.
  intros Hj Hs. unfold cancelJob.
  destruct (jobs s !! jobId) as [a|] eqn:Hjob; [|done].
  case_bool_decide as Hguard; [done|]. cbv zeta. cbn [snd].
  assert (validRef s a) as Hva by (by apply (Hj jobId)).
  assert (a ∉ executing s) as Hidle.
  { intros Hin. destruct Hs as (_ & _ & Hrun & _). apply Hguard. left.
    by apply Hrun. }
  set (q' := match findIndex jobId s with
             | Some queueIndex => delete queueIndex (queue s)
             | None => queue s
             end).
  assert (q' `sublist_of` queue s) as Hsub.
  { unfold q'. destruct (findIndex jobId s); [apply sublist_delete|done]. }
  assert (heap (updateJob (Job.setCompletedAt now) a
                 (updateJob (Job.setErrorMessage "Job cancelled by user") a
                    (updateJob (Job.setStatus Job.failed) a
                       match findIndex jobId s with
                       | Some queueIndex =>
                           setQueue (delete queueIndex (queue s)) s
                       | None => s
                       end)))
          = alter (cancelledJob now) a (heap s)) as Hheap.
  { unfold updateJob, setHeap, setQueue. fields.
    destruct (findIndex jobId s); fields; by rewrite !alter_alter. }
  unfold orderly, requeues. rewrite Hheap.
  replace (queue _) with q'
    by (unfold q', updateJob, setHeap, setQueue; by destruct (findIndex jobId s)).
  replace (timers _) with (timers s)
    by (unfold updateJob, setHeap, setQueue; by destruct (findIndex jobId s)).
  replace (executing _) with (executing s)
    by (unfold updateJob, setHeap, setQueue; by destruct (findIndex jobId s)).
  pose proof Hs as (Hnd & Hvalid & Hrun & Hwait & Hatt).
  apply (parts_update _ _ _ _ _ _ _ Hs Hva).
  - eapply sublist_NoDup; [exact Hnd|]. by repeat apply sublist_app.
  - intros b [Hb|Hb]%elem_of_app; left; apply elem_of_app; [left|by right].
    by eapply elem_of_sublist.
  - auto.
  - intros Hin. by destruct (Hidle Hin).
  - intros Hin. assert (a ∈ queue s ++ requeues s) as Hin'.
    { apply elem_of_app in Hin as [Hin|Hin]; apply elem_of_app; [left|by right].
      by eapply elem_of_sublist. }
    destruct (Hwait a Hin') as [_ Hleft]. split; [by right; right|exact Hleft].
  - exact (Hatt a Hva).
Qed.

Lemma cancelJob_orderly (jobId : string) (now : Z) (s : state) :
  consistent s -> orderly s -> orderly (snd (cancelJob jobId now s)).
Proof.
  intros Hc. apply cancelJob_orderly_filed. intros i a Ha.
  destruct Hc as [(( _ & _ & Hj) & _) _]. by apply (Hj i).
Qed.

End Steps.

Section MoreSteps.

Import JobQueueSystem QueueSpec QueueOrder.

Lemma fireTimer_orderly (k : nat) (now : Z) (s : state) :
  orderly s -> orderly (fireTimer k now s).
Proof.
  intros Hs. unfold fireTimer.
  destruct (timers s !! k) as [t|] eqn:Hk; [|done].
  pose proof (requeues_delete (timers s) k t Hk) as Hperm.
  unfold runTimer. destruct (action t) as [|job] eqn:Hact.
  - assert (requeued t = None) as Hreq by (unfold requeued; by rewrite Hact).
    rewrite Hreq in Hperm. cbn [app] in Hperm.
    assert (orderly (setIsProcessing false (setTimers (delete k (timers s)) s)))
      as H0.
    { unfold orderly, requeues, setIsProcessing, setTimers. fields.
      apply (parts_perm _ _ _ _ Hs). unfold requeues.
      apply Permutation_app_head. exact (Permutation_sym Hperm). }
    cbv zeta. destruct (0 <? length _)%nat; [|exact H0].
    by apply processQueue_orderly.
  - assert (requeued t = Some job) as Hreq
      by (unfold requeued; by rewrite Hact).
    rewrite Hreq in Hperm.
    unfold orderly, requeues, sortQueue, setQueue, setTimers. fields.
    apply (parts_perm _ _ _ _ Hs). unfold requeues.
    rewrite sortRefs_perm. cbn [app].
    rewrite Permutation_middle. apply Permutation_app_head.
    exact (Permutation_sym Hperm).
Qed.

Lemma filter_others_sublist (a : nat) (E : list nat) :
  List.filter (fun b => negb (a =? b)%nat) E `sublist_of` E.
Proof.
  induction E as [|b E IH]; [constructor|]. cbn [List.filter].
  destruct (negb (a =? b)%nat); [apply sublist_skip, IH|apply sublist_cons, IH].
Qed.

Lemma filter_others_NoDup (a : nat) (W E : list nat) :
  NoDup (W ++ E) ->
  NoDup (W ++ List.filter (fun b => negb (a =? b)%nat) E).
Proof.
  intros Hnd. eapply sublist_NoDup; [exact Hnd|].
  apply sublist_app; [done|]. apply filter_others_sublist.
Qed.

Lemma elem_of_filter_others (a b : nat) (E : list nat) :
  b ∈ List.filter (fun b => negb (a =? b)%nat) E ↔ b ∈ E ∧ b ≠ a.
Proof.
  rewrite list_elem_of_In, filter_In, <- list_elem_of_In, negb_true_iff,
    Nat.eqb_neq. naive_solver.
Qed.

Lemma settle_orderly (now : Z) (a : nat) (outcome : Outcome) (s : state) :
  orderly s -> a ∈ executing s ->
  orderly (snd (executeJobSettle now a outcome s)).
Proof.
  intros Hs Ha.
  pose proof (settle_state now a outcome s) as Hstate. cbv zeta in Hstate.
  destruct Hstate as (Hq & _ & _ & He & Hcase).
  pose proof Hs as (Hnd & Hvalid & Hrun & Hwait & Hatt).
  assert (a < length (heap s))%nat as Hva by (apply Hvalid; set_solver).
  assert (a ∉ queue s ++ requeues s) as Hnowhere.
  { intros Hin. apply NoDup_app in Hnd as (_ & Hdisj & _). by apply (Hdisj a). }
  unfold orderly, requeues. rewrite Hq, He.
  destruct outcome as [result|error].
  - destruct Hcase as [-> ->].
    apply (parts_update _ _ _ _ _ _ _ Hs Hva).
    + by apply filter_others_NoDup.
    + auto.
    + intros b Hb%elem_of_filter_others. left. tauto.
    + intros Hin%elem_of_filter_others. by destruct Hin.
    + intros Hin. by destruct (Hnowhere Hin).
    + exact (Hatt a Hva).
  - destruct (Job.attempts (jobAt s a) <? Job.maxAttempts (jobAt s a))%Z eqn:Hlt.
    + destruct Hcase as [-> [d ->]]. rewrite requeues_snoc_requeue.
      apply Z.ltb_lt in Hlt.
      apply (parts_update _ _ _ _ _ _ _ Hs Hva).
      * rewrite app_assoc, <- (app_assoc _ [a]).
        rewrite (Permutation_app_comm [a]), app_assoc.
        rewrite <- Permutation_cons_append. apply NoDup_cons. split.
        -- rewrite elem_of_app, elem_of_filter_others. unfold requeues in *.
           naive_solver.
        -- by apply filter_others_NoDup.
      * intros b. rewrite app_assoc, elem_of_app, list_elem_of_singleton.
        tauto.
      * intros b Hb%elem_of_filter_others. left. tauto.
      * intros Hin%elem_of_filter_others. by destruct Hin.
      * intros _. split; [by right; left|right; exact Hlt].
      * exact (Hatt a Hva).
    + destruct Hcase as [-> ->].
      apply (parts_update _ _ _ _ _ _ _ Hs Hva).
      * by apply filter_others_NoDup.
      * auto.
      * intros b Hb%elem_of_filter_others. left. tauto.
      * intros Hin%elem_of_filter_others. by destruct Hin.
      * intros Hin. by destruct (Hnowhere Hin).
      * exact (Hatt a Hva).
Qed.

Lemma initial_orderly : orderly initial.
Proof.
  split; [constructor|]. split; [by intros a Ha%elem_of_nil|].
  split; [by intros a Ha%elem_of_nil|]. split; [by intros a Ha%elem_of_nil|].
  cbn. lia.
Qed.

Lemma step_orderly (s : state) (e : Event) :
  consistent s -> orderly s -> orderly (step s e).
Proof.
  intros Hc Hs. destruct e as [type payload priority maxAttempts newId now
                              |jobId now|k now|job outcome now]; cbn [step].
  - by apply addJob_orderly.
  - by apply cancelJob_orderly.
  - by apply fireTimer_orderly.
  - case_bool_decide; [by apply settle_orderly|done].
Qed.

Lemma reachable_orderly (s : state) : reachable s -> orderly s.
Proof.
  induction 1 as [|s e Hs IH]; [apply initial_orderly|].
  apply step_orderly; [by apply reachable_consistent|done].
Qed.

End MoreSteps.

(** * Further properties of the job queue *)

Section Untouched.

Import JobQueueSystem QueueSpec QueueOrder.

Lemma dispatchLoop_untouched (now : Z) (a : nat) (q : list nat) :
  ∀ s : state,
    a ∉ q ->
    jobAt (dispatchLoop now q s) a = jobAt s a
    ∧ length (heap (dispatchLoop now q s)) = length (heap s).
Proof.
  induction q as [|job q IH]; intros s Ha; cbn [dispatchLoop]; [done|].
  destruct (decide (size (runningJobs s) < maxConcurrentJobs)%nat); [|done].
  apply not_elem_of_cons in Ha as [Hne Ha].
  case_bool_decide; [by apply IH|].
  set (s1 := setRunningJobs ({[Job.id (jobAt s job)]} ∪ runningJobs s) s).
  destruct (IH (executeJobStart now job s1) Ha) as [-> ->].
  destruct (executeJobStart_state now job s1) as (Hheap & _).
  unfold jobAt at 1 2. rewrite Hheap. unfold s1. fields.
  rewrite alter_total_other by done. by rewrite length_alter.
Qed.

Lemma processQueue_untouched (now : Z) (a : nat) (s : state) :
  a ∉ queue s ->
  jobAt (processQueue now s) a = jobAt s a
  ∧ length (heap (processQueue now s)) = length (heap s).
Proof.
  intros Ha. unfold processQueue. destruct (isProcessing s); [done|].
  cbv zeta. exact (dispatchLoop_untouched now a (queue s) (setIsProcessing true s) Ha).
Qed.

(** A job that is in no place is left alone by whatever happens. *)
Lemma step_untouched (s : state) (e : Event) (a : nat) :
  (a < length (heap s))%nat ->
  a ∉ queue s -> a ∉ executing s ->
  (∀ jobId now, e = CancelJob jobId now -> jobs s !! jobId = Some a ->
                Job.status (jobAt s a) = Job.completed) ->
  jobAt (step s e) a = jobAt s a
  ∧ (length (heap s) <= length (heap (step s e)))%nat.
Proof.
  intros Hva Hq Hexec Hcancel.
  destruct e as [type payload priority maxAttempts newId now
                |jobId now|k now|job outcome now]; cbn [step].
  - unfold addJob. cbv zeta. cbn [snd].
    set (s4 := sortQueue _).
    assert (jobAt s4 a = jobAt s a ∧ length (heap s4) = S (length (heap s))
            ∧ a ∉ queue s4) as (H4 & Hlen & Hq4).
    { unfold s4, sortQueue, setQueue, setJobs, setHeap, jobAt. fields.
      split; [by apply lookup_total_app_l|].
      split; [rewrite length_app; cbn; lia|].
      rewrite elem_of_sortRefs, elem_of_app, list_elem_of_singleton.
      intros [? | ->]; [done|lia]. }
    destruct (isProcessing s4); [rewrite H4, Hlen; split; [done|lia]|].
    destruct (processQueue_untouched now a s4 Hq4) as [-> ->].
    rewrite H4, Hlen. split; [done|lia].
  - unfold cancelJob. destruct (jobs s !! jobId) as [a'|] eqn:Hjob; [|done].
    case_bool_decide as Hguard; [done|]. cbv zeta. cbn [snd].
    assert (a' ≠ a) as Hne.
    { intros ->. apply Hguard. right. by apply (Hcancel jobId now). }
    unfold updateJob, setHeap, setQueue, jobAt.
    destruct (findIndex jobId s); fields; rewrite !alter_alter,
      alter_total_other, length_alter by done; done.
  - unfold fireTimer. destruct (timers s !! k) as [t|] eqn:Hk; [|done].
    unfold runTimer. destruct (action t) as [|job].
    + cbv zeta. destruct (0 <? length _)%nat; [|done].
      destruct (processQueue_untouched now a
                  (setIsProcessing false (setTimers (delete k (timers s)) s)) Hq)
        as [-> ->]. done.
    + done.
  - case_bool_decide as Hin; [|done].
    assert (job ≠ a) as Hne by congruence.
    pose proof (settle_state now job outcome s) as Hstate. cbv zeta in Hstate.
    destruct Hstate as (_ & _ & _ & _ & Hcase). unfold jobAt in *.
    destruct outcome as [result|error].
    + destruct Hcase as [-> _]. by rewrite alter_total_other, length_alter.
    + destruct (Job.attempts (heap s !!! job) <? Job.maxAttempts (heap s !!! job))%Z;
        destruct Hcase as [-> _]; by rewrite alter_total_other, length_alter.
Qed.

(** A completed job is in no place. *)
Lemma completed_nowhere (s : state) (a : nat) :
  orderly s -> Job.status (jobAt s a) = Job.completed ->
  a ∉ queue s ∧ a ∉ executing s.
Proof.
  intros (_ & _ & Hrun & Hwait & _) Hdone. split.
  - intros Ha. destruct (Hwait a) as [Hst _]; [set_solver|].
    unfold jobAt in Hdone. rewrite Hdone in Hst.
    by destruct Hst as [?|[?|?]].
  - intros Ha. specialize (Hrun a Ha). unfold jobAt in Hdone. congruence.
Qed.

Lemma completed_step (s : state) (e : Event) (a : nat) :
  reachable s -> (a < length (heap s))%nat ->
  Job.status (jobAt s a) = Job.completed ->
  jobAt (step s e) a = jobAt s a
  ∧ (a < length (heap (step s e)))%nat.
Proof.
  intros Hs Hva Hdone.
  destruct (completed_nowhere s a (reachable_orderly s Hs) Hdone) as [Hq He].
  destruct (step_untouched s e a Hva Hq He) as [Heq Hlen]; [done|].
  split; [done|lia].
Qed.

Lemma completed_run (events : list Event) :
  ∀ (s : state) (a : nat),
    reachable s -> (a < length (heap s))%nat ->
    Job.status (jobAt s a) = Job.completed ->
    jobAt (run s events) a = jobAt s a.
Proof.
  induction events as [|e events IH]; intros s a Hs Hva Hdone; [done|].
  cbn [run foldl]. destruct (completed_step s e a Hs Hva Hdone) as [Heq Hva'].
  fold (run (step s e) events).
  rewrite IH; [done|by constructor|done|by rewrite Heq].
Qed.

End Untouched.

Section Places.

Import JobQueueSystem QueueSpec QueueOrder.


(** X19.  No job is started more often than its [maxAttempts] allows, or
    once if [maxAttempts] is less than one: in every reachable state the
    counter [attempts] of every job is between 0 and
    [max 1 maxAttempts], and a job that waits in the pool or for its retry
    has not been started yet or has an attempt left. *)
Theorem attempts_bounded (s : state) (a : nat) :
  reachable s -> (a < length (heap s))%nat ->
  (0 <= Job.attempts (jobAt s a) <= Z.max 1 (Job.maxAttempts (jobAt s a)))%Z
  ∧ (a ∈ queue s ++ requeues s ->
     Job.attempts (jobAt s a) = 0%Z
     ∨ (Job.attempts (jobAt s a) < Job.maxAttempts (jobAt s a))%Z).
Proof.
  intros Hs Ha.
  destruct (reachable_orderly s Hs) as (_ & _ & _ & Hwait & Hatt).
  split; [exact (Hatt a Ha)|]. intros Hin. by destruct (Hwait a Hin).
Qed.

Lemma attempts_bounded_witness :
  Job.attempts (jobAt (run initial Samples.failForGood) 0) = 1%Z
  ∧ (0 <= Job.attempts (jobAt (run initial Samples.failForGood) 0)
     <= Z.max 1 (Job.maxAttempts (jobAt (run initial Samples.failForGood) 0)))%Z.
Proof.
  split; [vm_compute; reflexivity|].
  refine (proj1 (attempts_bounded _ 0
                   (reachable_run _ Samples.failForGood reachable_initial) _)).
  vm_compute. lia.
Defined.

(** X20.  A completed job is final: once a job object has the status
    [completed], no call of [addJob] or [cancelJob], no timer and no
    settling executor changes any of its fields again. *)
Theorem completed_job_final (s : state) (a : nat) (events : list Event) :
  reachable s -> (a < length (heap s))%nat ->
  Job.status (jobAt s a) = Job.completed ->
  jobAt (run s events) a = jobAt s a.
Proof. intros Hs Ha Hdone. by apply completed_run. Qed.

Lemma completed_job_final_witness :
  jobAt (run (run initial MoreSamples.completedThenMore)
             MoreSamples.afterCompletion) 0
  = jobAt (run initial MoreSamples.completedThenMore) 0.
Proof.
  apply completed_job_final.
  - apply reachable_run, reachable_initial.
  - vm_compute. lia.
  - vm_compute. reflexivity.
Defined.

End Places.

Section Stalls.

Import JobQueueSystem QueueSpec QueueOrder QueueIdle.

Lemma alter_not_running (f : Job.t -> Job.t) (h : list Job.t) :
  (∀ j, Job.status (f j) ≠ Job.running) ->
  ∀ a b : nat,
    Job.status (alter f a h !!! b) = Job.running ->
    Job.status (h !!! b) = Job.running.
Proof.
  intros Hf. induction h as [|j h IH]; intros [|a] [|b]; cbn; try done.
  - intros H. by destruct (Hf j).
  - apply IH.
Qed.

Lemma cancelJob_state (jobId : string) (now : Z) (s : state) (a : nat) :
  jobs s !! jobId = Some a ->
  Job.status (jobAt s a) ≠ Job.running ->
  Job.status (jobAt s a) ≠ Job.completed ->
  fst (cancelJob jobId now s) = true
  ∧ heap (snd (cancelJob jobId now s)) = alter (cancelledJob now) a (heap s)
  ∧ timers (snd (cancelJob jobId now s)) = timers s
  ∧ isProcessing (snd (cancelJob jobId now s)) = isProcessing s
  ∧ executing (snd (cancelJob jobId now s)) = executing s
  ∧ progressUpdates (snd (cancelJob jobId now s)) = progressUpdates s
  ∧ sublist (queue (snd (cancelJob jobId now s))) (queue s).
Proof.
  intros Hjob Hrun Hdone. unfold cancelJob. rewrite Hjob.
  rewrite bool_decide_eq_false_2 by (by intros [?|?]).
  cbv zeta. cbn [fst snd]. unfold updateJob, setHeap, setQueue.
  destruct (findIndex jobId s) as [i|]; fields; rewrite !alter_alter;
    repeat split; try done.
  apply sublist_delete.
Qed.

(** X21.  Cancelling a job that waits for its retry does not stop the
    retry: [cancelJob] returns true and marks the job [failed], but the
    retry timer stays armed, and when it fires the cancelled job is put
    back into the pending pool, from where the scheduler starts it like
    any other job. *)
Theorem cancelJob_leaves_retry_armed (s : state) (jobId : string)
    (a k : nat) (d now later : Z) :
  reachable s ->
  jobs s !! jobId = Some a ->
  timers s !! k = Some (mkTimer d (Requeue a)) ->
  fst (cancelJob jobId now s) = true
  ∧ Job.status (jobAt (step s (CancelJob jobId now)) a) = Job.failed
  ∧ timers (step s (CancelJob jobId now)) = timers s
  ∧ a ∈ queue (step (step s (CancelJob jobId now)) (TimerFires k later)).
Proof.
  intros Hs Hjob Hk. cbn [step].
  destruct (reachable_orderly s Hs) as (_ & Hv & _ & Hwait & _).
  assert (a ∈ requeues s) as Hreq.
  { apply list_elem_of_omap. exists (mkTimer d (Requeue a)).
    split; [by eapply list_elem_of_lookup_2|done]. }
  destruct (Hwait a) as [Hst _]; [set_solver|].
  destruct (cancelJob_state jobId now s a Hjob) as (Hret & Hheap & Htm & _).
  { intros Hrun. unfold jobAt in Hrun. rewrite Hrun in Hst.
    by destruct Hst as [?|[?|?]]. }
  { intros Hrun. unfold jobAt in Hrun. rewrite Hrun in Hst.
    by destruct Hst as [?|[?|?]]. }
  split; [done|]. split.
  - unfold jobAt. rewrite Hheap, alter_total_same; [done|].
    apply Hv. set_solver.
  - split; [done|].
    rewrite (fireTimer_requeue k later d a) by (by rewrite Htm).
    unfold sortQueue, setQueue, setTimers. fields.
    apply elem_of_sortRefs. set_solver.
Qed.

Lemma cancelJob_leaves_retry_armed_witness :
  getJobStatus "job_r" (run initial MoreSamples.cancelledRetry)
  = Some Job.failed
  ∧ getJobStatus "job_r" (run initial MoreSamples.cancelledRetryRuns)
    = Some Job.completed
  ∧ 0%nat ∈ queue (step (step (run initial Samples.failOnce)
                            (CancelJob "job_r" 5000))
                      (TimerFires 0 9500)).
Proof.
  split; [vm_compute; reflexivity|]. split; [vm_compute; reflexivity|].
  refine (proj2 (proj2 (proj2
    (cancelJob_leaves_retry_armed (run initial Samples.failOnce) "job_r"
       0 0 5000 5000 9500 _ _ _)))).
  - apply reachable_run, reachable_initial.
  - vm_compute. reflexivity.
  - vm_compute. reflexivity.
Defined.

Lemma idle_step (s : state) (e : Event) :
  idle s -> notAddJob e ->
  idle (step s e)
  ∧ (∀ a, Job.status (jobAt (step s e) a) = Job.running ->
          Job.status (jobAt s a) = Job.running)
  ∧ dispatchOrder (step s e) = dispatchOrder s.
Proof.
  intros [Hflag Htimers] He.
  destruct e as [type payload priority maxAttempts newId now
                |jobId now|k now|job outcome now]; cbn [step]; [done|..].
  - destruct (jobs s !! jobId) as [a|] eqn:Hjob;
      [|unfold cancelJob; by rewrite Hjob].
    destruct (decide (Job.status (jobAt s a) = Job.running
                      ∨ Job.status (jobAt s a) = Job.completed)) as [Hg|Hg].
    { unfold cancelJob. rewrite Hjob, bool_decide_eq_true_2 by done. done. }
    destruct (cancelJob_state jobId now s a Hjob)
      as (_ & Hheap & Htm & Hfl & _ & Hprog & _); [tauto..|].
    split; [split; [congruence|by rewrite Htm]|]. split.
    + intros b. unfold jobAt. rewrite Hheap. by apply alter_not_running.
    + unfold dispatchOrder. by rewrite Hprog.
  - unfold fireTimer. destruct (timers s !! k) as [t|] eqn:Hk; [|done].
    unfold runTimer. destruct (action t) as [|job] eqn:Hact.
    + exfalso. eapply Forall_lookup_1 in Htimers; [|exact Hk]. done.
    + split; [|done]. split; [done|].
      unfold sortQueue, setQueue, setTimers. fields.
      eapply Forall_sublist; [apply sublist_delete|exact Htimers].
  - case_bool_decide as Hin; [|done].
    pose proof (settle_state now job outcome s) as Hstate. cbv zeta in Hstate.
    destruct Hstate as (_ & _ & Hfl & _ & Hcase).
    assert (idle (snd (executeJobSettle now job outcome s))
            ∧ ∃ f, (∀ j, Job.status (f j) ≠ Job.running)
                   ∧ heap (snd (executeJobSettle now job outcome s))
                     = alter f job (heap s)) as [Hidle (f & Hf & Hheap)].
    { destruct outcome as [result|error].
      - destruct Hcase as [Hh Ht]. split; [split; [congruence|by rewrite Ht]|].
        by exists (completedJob now result).
      - destruct (Job.attempts (jobAt s job) <? Job.maxAttempts (jobAt s job))%Z.
        + destruct Hcase as [Hh [d Ht]]. split.
          * split; [congruence|]. rewrite Ht. apply Forall_app. split; [done|].
            by repeat constructor.
          * by exists (retryingJob (errorMessageOf error)).
        + destruct Hcase as [Hh Ht]. split; [split; [congruence|by rewrite Ht]|].
          by exists (failedJob now (errorMessageOf error)). }
    split; [done|]. split.
    + intros b. unfold jobAt. rewrite Hheap. by apply alter_not_running.
    + unfold dispatchOrder. f_equal.
      settle_cases outcome s job;
        unfold releaseSlot, endActivation, setRunningJobs, setExecuting,
          setTimeout, setTimers, updateProgress, setProgressUpdates,
          updateJob, setHeap; fields; try done;
        rewrite List.filter_app; cbn [List.filter JobProgress.message];
        by rewrite ?app_nil_r.
Qed.

(** X22.  Once the scheduler is idle (no pass under way and none
    scheduled) only a call of [addJob] wakes it up: whatever timers fire,
    executors settle or jobs are cancelled, the scheduler stays idle, no
    job is started and no job becomes [running].  In particular a job that
    a retry timer puts back into the pool of an idle scheduler waits there
    until the next [addJob]. *)
Theorem idle_scheduler_starts_nothing (s : state) (events : list Event) :
  idle s -> Forall notAddJob events ->
  idle (run s events)
  ∧ (∀ a, Job.status (jobAt (run s events) a) = Job.running ->
          Job.status (jobAt s a) = Job.running)
  ∧ dispatchOrder (run s events) = dispatchOrder s.
Proof.
  revert s. induction events as [|e events IH]; intros s Hidle Hev; [done|].
  apply Forall_cons in Hev as [He Hev]. cbn [run foldl].
  fold (run (step s e) events).
  destruct (idle_step s e Hidle He) as (Hidle' & Hrun & Hord).
  destruct (IH (step s e) Hidle' Hev) as (Hidle'' & Hrun' & Hord').
  split; [done|]. split; [|congruence]. intros a Ha. by apply Hrun, Hrun'.
Qed.

Lemma idle_scheduler_starts_nothing_witness :
  queue (run initial Samples.failOnceRequeued) = [0%nat]
  ∧ executing (run initial Samples.failOnceRequeued) = []
  ∧ dispatchOrder (run (run initial Samples.failOnceRequeued)
                       [TimerFires 0 60000; CancelJob "job_x" 61000])
    = dispatchOrder (run initial Samples.failOnceRequeued).
Proof.
  split; [vm_compute; reflexivity|]. split; [vm_compute; reflexivity|].
  refine (proj2 (proj2 (idle_scheduler_starts_nothing
            (run initial Samples.failOnceRequeued)
            [TimerFires 0 60000; CancelJob "job_x" 61000] _ _))).
  - split; [vm_compute; reflexivity|]. vm_compute. constructor.
  - repeat constructor.
Defined.

End Stalls.

(** * The job map and the read-only methods *)

Section Registry.

Import JobQueueSystem QueueSpec QueueOrder JobQueueQueries.

Lemma ids_alter (f : Job.t -> Job.t) (a : nat) (h : list Job.t) :
  (∀ j, Job.id (f j) = Job.id j) ->
  Job.id <$> alter f a h = Job.id <$> h.
Proof.
  intros Hf. revert a. induction h as [|j h IH]; intros [|a]; csimpl; [done..| |].
  - by rewrite Hf.
  - by rewrite IH.
Qed.

Lemma dispatchLoop_registry (now : Z) (q : list nat) :
  ∀ s : state,
    Job.id <$> heap (dispatchLoop now q s) = Job.id <$> heap s
    ∧ jobs (dispatchLoop now q s) = jobs s.
Proof.
  induction q as [|job q IH]; intros s; cbn [dispatchLoop]; [done|].
  destruct (decide (size (runningJobs s) < maxConcurrentJobs)%nat); [|done].
  case_bool_decide; [apply IH|].
  set (s1 := setRunningJobs ({[Job.id (jobAt s job)]} ∪ runningJobs s) s).
  destruct (IH (executeJobStart now job s1)) as [-> ->].
  destruct (executeJobStart_state now job s1) as (-> & _ & _ & _ & -> & _).
  unfold s1, setRunningJobs. fields. split; [by apply ids_alter|done].
Qed.

Lemma processQueue_registry (now : Z) (s : state) :
  Job.id <$> heap (processQueue now s) = Job.id <$> heap s
  ∧ jobs (processQueue now s) = jobs s.
Proof.
  unfold processQueue. destruct (isProcessing s); [done|]. cbv zeta.
  unfold setTimeout, setTimers. fields.
  exact (dispatchLoop_registry now _ (setIsProcessing true s)).
Qed.

(** Only [addJob] files a job, and nothing removes one. *)
Lemma step_registry (s : state) (e : Event) :
  match e with
  | AddJob _ _ _ _ newId _ =>
      Job.id <$> heap (step s e) = (Job.id <$> heap s) ++ [newId]
      ∧ jobs (step s e) = <[newId := length (heap s)]> (jobs s)
  | _ =>
      Job.id <$> heap (step s e) = Job.id <$> heap s
      ∧ jobs (step s e) = jobs s
  end.
Proof.
  destruct e as [type payload priority maxAttempts newId now
                |jobId now|k now|job outcome now]; cbn [step].
  - unfold addJob. cbv zeta. cbn [snd]. set (s4 := sortQueue _).
    assert (Job.id <$> heap s4 = (Job.id <$> heap s) ++ [newId]
            ∧ jobs s4 = <[newId := length (heap s)]> (jobs s)) as [H1 H2].
    { unfold s4, sortQueue, setQueue, setJobs, setHeap. fields.
      by rewrite fmap_app. }
    destruct (isProcessing s4); [done|].
    destruct (processQueue_registry now s4) as [-> ->]. done.
  - unfold cancelJob. destruct (jobs s !! jobId) as [a|]; [|done].
    case_bool_decide; [done|]. cbv zeta. cbn [snd].
    unfold updateJob, setHeap, setQueue.
    destruct (findIndex jobId s); fields; rewrite !alter_alter;
      (split; [by apply ids_alter|done]).
  - unfold fireTimer. destruct (timers s !! k) as [t|]; [|done].
    unfold runTimer. destruct (action t); [|done]. cbv zeta.
    destruct (0 <? _)%nat; [|done].
    exact (processQueue_registry now
             (setIsProcessing false (setTimers (delete k (timers s)) s))).
  - case_bool_decide; [|done].
    pose proof (settle_state now job outcome s) as Hstate. cbv zeta in Hstate.
    destruct Hstate as (_ & -> & _ & _ & Hcase). split; [|done].
    destruct outcome as [result|error].
    + destruct Hcase as [-> _]. by apply ids_alter.
    + destruct (Job.attempts (jobAt s job) <? Job.maxAttempts (jobAt s job))%Z;
        destruct Hcase as [-> _]; by apply ids_alter.
Qed.

Lemma reachable_filed (s : state) :
  reachable s -> ∀ i, i ∈ Job.id <$> heap s -> is_Some (jobs s !! i).
Proof.
  induction 1 as [|s e Hs IH]; intros i Hi.
  - by apply elem_of_nil in Hi.
  - pose proof (step_registry s e) as Hreg.
    destruct e as [type payload priority maxAttempts newId now| | |];
      destruct Hreg as [Hids Hjobs]; rewrite Hids in Hi; rewrite Hjobs;
      try by apply IH.
    apply lookup_insert_is_Some.
    apply elem_of_app in Hi as [Hi|Hi%list_elem_of_singleton]; [|by left].
    destruct (decide (newId = i)); [by left|right]. split; [done|by apply IH].
Qed.

Lemma firstAppearances_spec (l : list string) :
  ∀ seen : gset string,
    NoDup (firstAppearances seen l)
    ∧ ∀ x, x ∈ firstAppearances seen l ↔ x ∈ l ∧ x ∉ seen.
Proof.
  induction l as [|i l IH]; intros seen; cbn [firstAppearances].
  - split; [constructor|]. intros x. split; [by intros ?%elem_of_nil|].
    by intros [?%elem_of_nil _].
  - case_bool_decide as Hseen.
    + destruct (IH seen) as [Hnd Hin]. split; [done|]. intros x.
      rewrite Hin, elem_of_cons. split; [tauto|].
      intros [[->|Hx] Hn]; [done|tauto].
    + destruct (IH ({[i]} ∪ seen)) as [Hnd Hin]. split.
      * apply NoDup_cons. split; [|done]. rewrite Hin. set_solver.
      * intros x. rewrite !elem_of_cons, Hin.
        destruct (decide (x = i)) as [->|Hne]; [tauto|]. set_solver.
Qed.

Lemma reachable_registered (s : state) :
  reachable s -> SubscribedSpec.registered s.
Proof.
  intros Hs. split; [by apply reachable_filed|].
  by destruct (reachable_consistent s Hs) as [((_ & _ & Hvj) & _) _].
Qed.

Lemma keys_registered (s : state) :
  SubscribedSpec.registered s ->
  NoDup (keys s) ∧ ∀ i, i ∈ keys s ↔ is_Some (jobs s !! i).
Proof.
  intros [Hfiled Hvj]. unfold keys.
  destruct (firstAppearances_spec (Job.id <$> heap s) ∅) as [Hnd Hin].
  split; [done|]. intros i. rewrite Hin. split.
  - intros [Hi _]. by apply Hfiled.
  - intros [a Ha]. split; [|set_solver].
    destruct (Hvj i a Ha) as [Hva <-]. apply list_elem_of_fmap.
    exists (jobAt s a). split; [done|]. by apply list_elem_of_lookup_total_2.
Qed.

Lemma keys_spec (s : state) :
  reachable s ->
  NoDup (keys s) ∧ ∀ i, i ∈ keys s ↔ is_Some (jobs s !! i).
Proof. intros Hs. by apply keys_registered, reachable_registered. Qed.

Lemma omap_fmap_inner {A B C : Type} (f : B -> C) (g : A -> option B)
    (l : list A) :
  omap (fun x => f <$> g x) l = f <$> omap g l.
Proof.
  induction l as [|x l IH]; csimpl; [done|].
  destruct (g x); csimpl; by rewrite IH.
Qed.

Lemma getAllJobs_refs (s : state) :
  getAllJobs s = jobAt s <$> omap (fun i => jobs s !! i) (keys s).
Proof. unfold getAllJobs, getJob. apply omap_fmap_inner. Qed.

(** The job objects the map holds, in the order of its keys. *)
Lemma refs_registered (s : state) :
  SubscribedSpec.registered s ->
  idOf s <$> omap (fun i => jobs s !! i) (keys s) = keys s
  ∧ Forall (validRef s) (omap (fun i => jobs s !! i) (keys s)).
Proof.
  intros Hs. destruct (keys_registered s Hs) as [_ Hin].
  destruct Hs as [_ Hvj].
  assert (∀ l : list string,
            (∀ i, i ∈ l -> is_Some (jobs s !! i)) ->
            idOf s <$> omap (fun i => jobs s !! i) l = l
            ∧ Forall (validRef s) (omap (fun i => jobs s !! i) l)) as Hgen.
  { induction l as [|i l IH]; intros Hl; csimpl; [done|].
    destruct (Hl i) as [a Ha]; [set_solver|]. rewrite Ha. csimpl.
    destruct (Hvj i a Ha) as [Hva Hid].
    destruct IH as [IH1 IH2]; [intros j Hj; apply Hl; set_solver|].
    split; [by rewrite Hid, IH1|by constructor]. }
  apply Hgen. intros i Hi. by apply Hin.
Qed.

Lemma refs_spec (s : state) :
  reachable s ->
  idOf s <$> omap (fun i => jobs s !! i) (keys s) = keys s
  ∧ Forall (validRef s) (omap (fun i => jobs s !! i) (keys s)).
Proof. intros Hs. by apply refs_registered, reachable_registered. Qed.

Lemma length_keys_registered (s : state) :
  SubscribedSpec.registered s -> length (keys s) = size (jobs s).
Proof.
  intros Hs. destruct (keys_registered s Hs) as [Hnd Hin].
  rewrite <- size_dom. unfold size at 1, set_size. cbn.
  apply Permutation_length, NoDup_Permutation; [done|apply NoDup_elements|].
  intros i. by rewrite Hin, elem_of_elements, elem_of_dom.
Qed.

Lemma length_keys (s : state) :
  reachable s -> length (keys s) = size (jobs s).
Proof. intros Hs. by apply length_keys_registered, reachable_registered. Qed.

Lemma length_getAllJobs_registered (s : state) :
  SubscribedSpec.registered s -> length (getAllJobs s) = size (jobs s).
Proof.
  intros Hs. rewrite <- (length_keys_registered s Hs).
  destruct (refs_registered s Hs) as [Hids _].
  rewrite getAllJobs_refs, length_fmap. rewrite <- Hids at 2.
  by rewrite length_fmap.
Qed.

Lemma length_getAllJobs (s : state) :
  reachable s -> length (getAllJobs s) = size (jobs s).
Proof. intros Hs. by apply length_getAllJobs_registered, reachable_registered. Qed.

Lemma ids_getAllJobs (s : state) :
  reachable s -> Job.id <$> getAllJobs s = keys s.
Proof.
  intros Hs. destruct (refs_spec s Hs) as [Hids _].
  by rewrite getAllJobs_refs, <- list_fmap_compose.
Qed.

Lemma getJob_id (s : state) (jobId : string) (j : Job.t) :
  reachable s -> getJob jobId s = Some j -> Job.id j = jobId.
Proof.
  intros Hs Hj. unfold getJob in Hj.
  destruct (jobs s !! jobId) as [a|] eqn:Ha; [|done].
  destruct (reachable_consistent s Hs) as [((_ & _ & Hvj) & _) _].
  destruct (Hvj jobId a Ha) as [_ Hid]. cbn in Hj. by injection Hj as <-.
Qed.

(** X23.  In every reachable state [getAllJobs] lists each job of the map
    exactly once: it has as many entries as the map has keys, no two
    entries have the same id, a job is listed precisely when [getJob]
    finds it under its own id, and what [getJob] and [getJobStatus] answer
    for an id is the job with that id and its status. *)
Theorem getAllJobs_lists_each_job_once (s : state) :
  reachable s ->
  length (getAllJobs s) = size (jobs s)
  ∧ NoDup (Job.id <$> getAllJobs s)
  ∧ (∀ j, j ∈ getAllJobs s ↔ getJob (Job.id j) s = Some j)
  ∧ (∀ jobId j, getJob jobId s = Some j ->
                Job.id j = jobId
                ∧ getJobStatus jobId s = Some (Job.status j)).
Proof.
  intros Hs. split; [by apply length_getAllJobs|].
  destruct (keys_spec s Hs) as [Hnd Hin].
  split; [by rewrite ids_getAllJobs|]. split.
  - intros j. unfold getAllJobs. rewrite list_elem_of_omap. split.
    + intros (i & _ & Hj). by rewrite (getJob_id s i j Hs Hj).
    + intros Hj. exists (Job.id j). split; [|done]. apply Hin.
      unfold getJob in Hj. destruct (jobs s !! Job.id j); [done|discriminate].
  - intros jobId j Hj. split; [by eapply getJob_id|].
    unfold getJob in Hj. unfold getJobStatus.
    destruct (jobs s !! jobId) as [a|]; [|done]. cbn in *. congruence.
Qed.

Lemma getAllJobs_lists_each_job_once_witness :
  length (getAllJobs (run initial MoreSamples.crowded)) = 5%nat
  ∧ NoDup (Job.id <$> getAllJobs (run initial MoreSamples.crowded)).
Proof.
  split; [vm_compute; reflexivity|].
  exact (proj1 (proj2 (getAllJobs_lists_each_job_once _
           (reachable_run _ MoreSamples.crowded reachable_initial)))).
Defined.

End Registry.

Section RoundTrip.

Import JobQueueSystem QueueSpec QueueOrder JobQueueQueries.

(** The scheduler loop starts a job at most once. *)
Lemma dispatchLoop_job (now : Z) (a : nat) (q : list nat) :
  ∀ s : state,
    NoDup q ->
    jobAt (dispatchLoop now q s) a = jobAt s a
    ∨ jobAt (dispatchLoop now q s) a = startedJob now (jobAt s a).
Proof.
  induction q as [|job q IH]; intros s Hnd; cbn [dispatchLoop]; [by left|].
  apply NoDup_cons in Hnd as [Hjob Hnd].
  destruct (decide (size (runningJobs s) < maxConcurrentJobs)%nat); [|by left].
  case_bool_decide; [by apply IH|].
  set (s1 := setRunningJobs ({[Job.id (jobAt s job)]} ∪ runningJobs s) s).
  destruct (executeJobStart_state now job s1) as (Hheap & _).
  destruct (decide (job = a)) as [->|Hne].
  - destruct (dispatchLoop_untouched now a q (executeJobStart now a s1) Hjob)
      as [-> _].
    unfold jobAt at 1 3. rewrite Hheap. unfold s1, setRunningJobs. fields.
    destruct (decide (a < length (heap s))%nat) as [Hlt|Hge].
    + right. by rewrite alter_total_same.
    + left. unfold jobAt.
      by rewrite !list_lookup_total_alt, list_lookup_alter_eq,
        lookup_ge_None_2 by lia.
  - destruct (IH (executeJobStart now job s1) Hnd) as [->| ->];
      [left|right]; unfold jobAt at 1 2; rewrite Hheap;
      unfold s1, setRunningJobs; fields; by rewrite alter_total_other.
Qed.

(** X24.  The id [addJob] returns finds the job just added: in every
    reachable state, right after [addJob] the method [getJob] answers for
    the new id the job object with the given type and payload, the given
    priority and number of attempts or 3 where none is given, created at
    the time of the call; it is [pending] and untouched, or the scheduler
    has started it within the call, once. *)
Theorem addJob_then_getJob (s : state) (type : Job.JobType) (payload : any)
    (priority maxAttempts : option Z) (newId : string) (now : Z) :
  reachable s ->
  let job := Job.mk newId type (default 3%Z priority) payload Job.pending now
                    None None 0 (default 3%Z maxAttempts) None None in
  let s' := step s (AddJob type payload priority maxAttempts newId now) in
  fst (addJob type payload priority maxAttempts newId now s) = newId
  ∧ (getJob newId s' = Some job
     ∨ getJob newId s' = Some (startedJob now job)).
Proof.
  intros Hs job s'. split; [done|].
  pose proof (step_registry s (AddJob type payload priority maxAttempts newId now))
    as [_ Hjobs]. fold s' in Hjobs.
  unfold getJob. rewrite Hjobs, lookup_insert_eq. cbn [fmap option_fmap option_map].
  unfold s'. cbn [step]. unfold addJob. cbv zeta. cbn [snd].
  fold job. set (s4 := sortQueue _).
  assert (jobAt s4 (length (heap s)) = job) as H4.
  { unfold s4, sortQueue, setQueue, setJobs, setHeap, jobAt. fields.
    by apply list_lookup_total_middle. }
  destruct (isProcessing s4) eqn:Hflag; [left; by rewrite H4|].
  unfold processQueue. rewrite Hflag. cbv zeta.
  rewrite jobAt_setTimeout.
  assert (NoDup (queue s4)) as Hnd.
  { unfold s4, sortQueue, setQueue, setJobs, setHeap. fields.
    destruct (reachable_orderly s Hs) as (Hnd & Hv & _).
    rewrite (sortRefs_perm _ _). apply NoDup_app. split; [|split].
    - rewrite <- !(assoc_L (++)) in Hnd. by apply NoDup_app in Hnd as [Hnd _].
    - intros b Hb ->%list_elem_of_singleton.
      assert (length (heap s) < length (heap s))%nat; [|lia].
      apply Hv. set_solver.
    - apply NoDup_singleton. }
  destruct (dispatchLoop_job now (length (heap s)) (queue s4)
              (setIsProcessing true s4) Hnd) as [Heq|Heq];
    change (jobAt (setIsProcessing true s4) (length (heap s)))
      with (jobAt s4 (length (heap s))) in Heq; rewrite H4 in Heq;
    [left|right]; exact (f_equal Some Heq).
Qed.

Lemma addJob_then_getJob_witness :
  getJobStatus "job_5" (run initial MoreSamples.crowded) = Some Job.pending
  ∧ (getJob "job_n"
       (step (run initial MoreSamples.cancelledRetry)
             (AddJob Job.scraping "{}" None None "job_n" 12000))
     = Some (Job.mk "job_n" Job.scraping 3 "{}" Job.pending 12000
                    None None 0 3 None None)
     ∨ getJob "job_n"
         (step (run initial MoreSamples.cancelledRetry)
               (AddJob Job.scraping "{}" None None "job_n" 12000))
       = Some (startedJob 12000
                 (Job.mk "job_n" Job.scraping 3 "{}" Job.pending 12000
                         None None 0 3 None None))).
Proof.
  split; [vm_compute; reflexivity|].
  exact (proj2 (addJob_then_getJob (run initial MoreSamples.cancelledRetry)
                  Job.scraping "{}" None None "job_n" 12000
                  (reachable_run _ MoreSamples.cancelledRetry reachable_initial))).
Defined.

End RoundTrip.

Section Statistics.

Import JobQueueSystem QueueSpec QueueOrder JobQueueQueries.

Lemma status_partition (l : list Job.t) :
  (length (List.filter (fun j => bool_decide (Job.status j = Job.pending)) l)
   + length (List.filter (fun j => bool_decide (Job.status j = Job.running)) l)
   + length (List.filter (fun j => bool_decide (Job.status j = Job.completed)) l)
   + length (List.filter (fun j => bool_decide (Job.status j = Job.failed)) l)
   + length (List.filter (fun j => bool_decide (Job.status j = Job.retrying)) l)
   = length l)%nat.
Proof.
  induction l as [|j l IH]; [done|]. cbn [List.filter length].
  destruct (Job.status j); repeat case_bool_decide; try congruence;
    cbn [length]; lia.
Qed.

Lemma filter_fmap {A B : Type} (f : A -> B) (p : B -> bool) (l : list A) :
  List.filter p (f <$> l) = f <$> List.filter (fun x => p (f x)) l.
Proof.
  induction l as [|x l IH]; csimpl; [done|].
  destruct (p (f x)); csimpl; by rewrite IH.
Qed.


Lemma step_keeps_jobs (s : state) (e : Event) (jobId : string) :
  is_Some (jobs s !! jobId) -> is_Some (jobs (step s e) !! jobId).
Proof.
  intros Hin. pose proof (step_registry s e) as Hreg.
  destruct e; destruct Hreg as [_ ->]; try done.
  apply lookup_insert_is_Some. destruct (decide (newId = jobId)); tauto.
Qed.

Lemma run_keeps_jobs (events : list Event) :
  ∀ (s : state) (jobId : string),
    is_Some (jobs s !! jobId) -> is_Some (jobs (run s events) !! jobId).
Proof.
  induction events as [|e events IH]; intros s jobId Hin; [done|].
  cbn [run foldl]. fold (run (step s e) events). by apply IH, step_keeps_jobs.
Qed.

(** X26.  The queue never forgets a job: no method removes an entry of
    the job map, so an id that [getJob] finds is found after whatever
    happens next, with a job of that id, and [totalJobs] never
    decreases. *)
Theorem jobs_never_removed (s : state) (events : list Event) :
  reachable s ->
  (∀ jobId, is_Some (getJob jobId s) ->
            ∃ j, getJob jobId (run s events) = Some j ∧ Job.id j = jobId)
  ∧ (QueueStats.totalJobs (getQueueStats s)
     <= QueueStats.totalJobs (getQueueStats (run s events)))%nat.
Proof.
  intros Hs. pose proof (reachable_run s events Hs) as Hs'. split.
  - intros jobId Hin.
    assert (is_Some (jobs (run s events) !! jobId)) as [a Ha].
    { apply run_keeps_jobs. unfold getJob in Hin.
      destruct (jobs s !! jobId); [done|]. by destruct Hin. }
    exists (jobAt (run s events) a).
    assert (getJob jobId (run s events) = Some (jobAt (run s events) a)) as Hj
      by (unfold getJob; by rewrite Ha).
    split; [done|]. by eapply getJob_id.
  - unfold getQueueStats. cbv zeta. cbn [QueueStats.totalJobs].
    rewrite !length_getAllJobs by done. rewrite <- !size_dom.
    apply subseteq_size. intros i Hi%elem_of_dom.
    by apply elem_of_dom, run_keeps_jobs.
Qed.

Lemma jobs_never_removed_witness :
  (QueueStats.totalJobs (getQueueStats (run initial MoreSamples.completedThenMore))
   <= QueueStats.totalJobs
        (getQueueStats (run (run initial MoreSamples.completedThenMore)
                            MoreSamples.afterCompletion)))%nat.
Proof.
  exact (proj2 (jobs_never_removed _ MoreSamples.afterCompletion
                  (reachable_run _ MoreSamples.completedThenMore
                     reachable_initial))).
Defined.

End Statistics.

(** * No unfinished job is lost *)

Section Unfinished.

Import JobQueueSystem QueueSpec QueueOrder.

Lemma unique_id (h : list Job.t) (a b : nat) :
  NoDup (Job.id <$> h) ->
  (a < length h)%nat -> (b < length h)%nat ->
  Job.id (h !!! a) = Job.id (h !!! b) -> a = b.
Proof.
  intros Hnd Ha Hb Hid.
  apply (NoDup_lookup (Job.id <$> h) a b (Job.id (h !!! a))); [done|..];
    rewrite list_lookup_fmap.
  - by rewrite (list_lookup_lookup_total_lt h a Ha).
  - rewrite (list_lookup_lookup_total_lt h b Hb). cbn. by rewrite Hid.
Qed.

Lemma elem_of_delete_other {A : Type} (l : list A) (i : nat) (c x : A) :
  l !! i = Some c -> x ∈ l -> x ≠ c -> x ∈ delete i l.
Proof.
  intros Hi Hx Hne. rewrite (delete_Permutation l i c Hi) in Hx.
  apply elem_of_cons in Hx as [?|?]; done.
Qed.

(** What an instance must offer for the scheduler loop to lose no job. *)
Lemma orderly_disjoint (s : state) :
  orderly s ->
  NoDup (queue s)
  ∧ (∀ a, a ∈ queue s -> a ∉ executing s ∧ (a < length (heap s))%nat)
  ∧ (∀ b, b ∈ executing s -> (b < length (heap s))%nat).
Proof.
  intros (Hnd & Hv & _). rewrite <- (assoc_L (++)) in Hnd.
  apply NoDup_app in Hnd as (Hq & Hdis & _). split; [done|]. split.
  - intros a Ha. split; [|apply Hv; set_solver].
    intros He. apply (Hdis a Ha). set_solver.
  - intros b Hb. apply Hv. set_solver.
Qed.

Lemma dispatchLoop_placed (now : Z) (q : list nat) :
  ∀ s : state,
    NoDup (Job.id <$> heap s) ->
    NoDup q ->
    (∀ a, a ∈ q -> a ∉ executing s ∧ (a < length (heap s))%nat) ->
    (∀ b, b ∈ executing s -> (b < length (heap s))%nat) ->
    slotsOwned s ->
    unfinishedPlaced (setQueue q s) ->
    unfinishedPlaced (dispatchLoop now q s) ∧ slotsOwned (dispatchLoop now q s).
Proof.
  induction q as [|job q IH]; intros s Hu Hnd Hq He Hown Hpl;
    cbn [dispatchLoop]; [by split|].
  destruct (decide (size (runningJobs s) < maxConcurrentJobs)%nat); [|by split].
  apply NoDup_cons in Hnd as [Hjob Hnd].
  destruct (Hq job) as [Hjob_e Hjob_v]; [by left|].
  case_bool_decide as Hheld.
  { exfalso. destruct (Hown _ Hheld) as (b & Hb & Hid).
    assert (b = job) as -> by (apply (unique_id (heap s)); auto).
    done. }
  set (s1 := setRunningJobs ({[Job.id (jobAt s job)]} ∪ runningJobs s) s).
  destruct (executeJobStart_state now job s1)
    as (Hh & _ & Hex & Htm & _ & Hrj & _).
  assert (heap s1 = heap s) as Hh1 by done.
  assert (executing s1 = executing s) as He1 by done.
  assert (timers s1 = timers s) as Ht1 by done.
  assert (runningJobs s1 = {[Job.id (jobAt s job)]} ∪ runningJobs s)
    as Hr1 by done.
  rewrite Hh1 in Hh. rewrite He1 in Hex. rewrite Ht1 in Htm. rewrite Hr1 in Hrj.
  clearbody s1.
  assert (∀ b, Job.id (jobAt (executeJobStart now job s1) b)
               = Job.id (jobAt s b)) as Hids.
  { intros b. unfold jobAt. rewrite Hh. by apply alter_static. }
  apply IH.
  - rewrite Hh. by rewrite ids_alter.
  - done.
  - intros a Ha. rewrite Hex, Hh, length_alter.
    destruct (Hq a) as [Hae Hav]; [by right|]. split; [|done].
    rewrite elem_of_app, list_elem_of_singleton. intros [?| ->]; done.
  - intros b. rewrite Hex, Hh, length_alter, elem_of_app, list_elem_of_singleton.
    intros [?| ->]; [by apply He|done].
  - intros i. rewrite Hrj, elem_of_union, elem_of_singleton. intros [->|Hi].
    + exists job. rewrite Hex, Hids. split; [set_solver|done].
    + destruct (Hown i Hi) as (b & Hb & Hid). exists b.
      rewrite Hex, Hids. split; [set_solver|done].
  - intros a. unfold jobAt, requeues, setQueue. fields. rewrite Hh, Htm, length_alter.
    intros Ha. destruct (decide (job = a)) as [->|Hne].
    + rewrite alter_total_same by done. by split.
    + rewrite alter_total_other by done.
      destruct (Hpl a Ha) as [Hp Hr]. unfold jobAt, requeues, setQueue in Hp, Hr.
      fields. split.
      * intros Hst. specialize (Hp Hst). set_solver.
      * intros Hst. specialize (Hr Hst). set_solver.
Qed.

Lemma processQueue_placed (now : Z) (s : state) :
  NoDup (Job.id <$> heap s) ->
  NoDup (queue s) ->
  (∀ a, a ∈ queue s -> a ∉ executing s ∧ (a < length (heap s))%nat) ->
  (∀ b, b ∈ executing s -> (b < length (heap s))%nat) ->
  slotsOwned s -> unfinishedPlaced s ->
  unfinishedPlaced (processQueue now s) ∧ slotsOwned (processQueue now s).
Proof.
  intros Hu Hnd Hq He Hown Hpl. unfold processQueue.
  destruct (isProcessing s); [by split|]. cbv zeta.
  destruct (dispatchLoop_placed now (queue s) (setIsProcessing true s))
    as [Hpl' Hown']; try done.
  split; [|exact Hown'].
  intros a Ha. specialize (Hpl' a Ha). unfold requeues, setTimeout, setTimers in *.
  fields. by rewrite requeues_snoc_reschedule.
Qed.

Lemma settle_runningJobs (now : Z) (a : nat) (outcome : Outcome) (s : state) :
  runningJobs (snd (executeJobSettle now a outcome s))
  = runningJobs s ∖ {[Job.id (jobAt s a)]}.
Proof.
  settle_cases outcome s a;
    unfold releaseSlot, endActivation, setRunningJobs, setExecuting, setTimeout,
      setTimers, updateProgress, setProgressUpdates, updateJob, setHeap, jobAt;
    fields; rewrite ?alter_alter; do 2 f_equal; by apply alter_static.
Qed.

Lemma step_placed (s : state) (e : Event) :
  reachable s ->
  NoDup (Job.id <$> heap (step s e)) ->
  unfinishedPlaced s -> slotsOwned s ->
  unfinishedPlaced (step s e) ∧ slotsOwned (step s e).
Proof.
  intros Hs Hu Hpl Hown.
  pose proof (reachable_orderly s Hs) as Hord.
  destruct (orderly_disjoint s Hord) as (Hnd & Hq & He).
  destruct (reachable_consistent s Hs) as [((_ & _ & Hvj) & _) _].
  pose proof (step_registry s e) as Hreg.
  destruct e as [type payload priority maxAttempts newId now
                |jobId now|k now|job outcome now].
  - (* addJob *)
    destruct Hreg as [Hids _]. rewrite Hids in Hu. revert Hu. clear Hids.
    cbn [step]. unfold addJob. cbv zeta. cbn [snd].
    set (job := Job.mk newId type _ payload Job.pending now None None 0 _ None None).
    set (s4 := sortQueue _). intros Hu.
    assert (heap s4 = heap s ++ [job]) as Hh4 by done.
    assert (queue s4 = sortRefs (heap s ++ [job]) (queue s ++ [length (heap s)]))
      as Hq4 by done.
    assert (executing s4 = executing s) as He4 by done.
    assert (timers s4 = timers s) as Ht4 by done.
    assert (runningJobs s4 = runningJobs s) as Hr4 by done.
    clearbody s4.
    assert (∀ a, a ∈ queue s4 ↔ a ∈ queue s ∨ a = length (heap s)) as Hin4.
    { intros a. by rewrite Hq4, elem_of_sortRefs, elem_of_app,
        list_elem_of_singleton. }
    assert (unfinishedPlaced s4) as Hpl4.
    { intros a. unfold jobAt, requeues. rewrite Hh4, Ht4, length_app. cbn.
      intros Ha. rewrite elem_of_app, !Hin4.
      destruct (decide (a = length (heap s))) as [->|Hne]; [tauto|].
      rewrite lookup_total_app_l by lia.
      destruct (Hpl a) as [Hp Hr]; [lia|]. unfold jobAt, requeues in Hp, Hr.
      split; [tauto|]. intros Hst. specialize (Hr Hst). set_solver. }
    assert (slotsOwned s4) as Hown4.
    { intros i. rewrite Hr4. intros Hi. destruct (Hown i Hi) as (b & Hb & Hid).
      exists b. rewrite He4. split; [done|]. unfold jobAt. rewrite Hh4.
      rewrite lookup_total_app_l by (by apply He). done. }
    destruct (isProcessing s4); [by split|].
    apply processQueue_placed; try done.
    + rewrite Hh4, fmap_app. exact Hu.
    + rewrite Hq4, sortRefs_perm. apply NoDup_app. split; [done|]. split.
      * intros a Ha ->%list_elem_of_singleton. destruct (Hq _ Ha). lia.
      * apply NoDup_singleton.
    + intros a. rewrite Hin4, He4, Hh4, length_app. cbn. intros [Ha| ->].
      * destruct (Hq a Ha). split; [done|lia].
      * split; [|lia]. intros Hin. specialize (He _ Hin). lia.
    + intros b. rewrite He4, Hh4, length_app. intros Hb%He. lia.
  - (* cancelJob *)
    destruct Hreg as [Hids _]. rewrite Hids in Hu. clear Hids. cbn [step].
    destruct (jobs s !! jobId) as [a'|] eqn:Hjob;
      [|unfold cancelJob; rewrite Hjob; by split].
    destruct (decide (Job.status (jobAt s a') = Job.running
                      ∨ Job.status (jobAt s a') = Job.completed)) as [Hg|Hg].
    { unfold cancelJob. rewrite Hjob, bool_decide_eq_true_2 by done. by split. }
    destruct (Hvj jobId a' Hjob) as [Hva' Hid'].
    assert (∀ x, x ∈ queue s -> x ≠ a' ->
                 x ∈ queue (snd (cancelJob jobId now s))) as Hkeep.
    { intros x Hx Hne. unfold cancelJob.
      rewrite Hjob, bool_decide_eq_false_2 by done. cbv zeta. cbn [snd].
      unfold updateJob, setHeap, setQueue.
      destruct (findIndex jobId s) as [idx|] eqn:Hfind; fields; [|done].
      unfold findIndex in Hfind. apply fmap_Some in Hfind as ([idx' c] & Hfind & ->).
      apply list_find_Some in Hfind as (Hidx & Hc & _). cbn [fst].
      apply (elem_of_delete_other _ _ c); [done..|].
      intros ->. apply Hne. apply (unique_id (heap s)); [done| |done|].
      - apply Hq. by eapply list_elem_of_lookup_2.
      - exact (eq_trans Hc (eq_sym Hid')). }
    destruct (cancelJob_state jobId now s a' Hjob)
      as (_ & Hheap & Htm & _ & Hex & _ & _); [tauto..|].
    assert (runningJobs (snd (cancelJob jobId now s)) = runningJobs s) as Hrj.
    { unfold cancelJob. rewrite Hjob, bool_decide_eq_false_2 by done.
      cbv zeta. cbn [snd]. unfold updateJob, setHeap, setQueue.
      by destruct (findIndex jobId s). }
    split.
    + intros a. unfold jobAt, requeues. rewrite Hheap, Htm, length_alter.
      intros Ha. destruct (decide (a' = a)) as [->|Hne].
      * rewrite alter_total_same by done. by split.
      * rewrite alter_total_other by done.
        destruct (Hpl a Ha) as [Hp Hr]. unfold jobAt, requeues in Hp, Hr.
        split.
        -- intros Hst. apply Hkeep; [by apply Hp|done].
        -- intros Hst. specialize (Hr Hst).
           apply elem_of_app in Hr as [Hr|Hr]; apply elem_of_app;
             [left; by apply Hkeep|by right].
    + intros i. rewrite Hrj, Hex. intros Hi.
      destruct (Hown i Hi) as (b & Hb & Hid). exists b. split; [done|].
      unfold jobAt. rewrite Hheap. rewrite <- Hid. by apply alter_static.
  - (* a timer fires *)
    destruct Hreg as [Hids _]. rewrite Hids in Hu. clear Hids. cbn [step].
    unfold fireTimer. destruct (timers s !! k) as [t|] eqn:Hk; [|by split].
    pose proof (requeues_delete (timers s) k t Hk) as Hperm.
    unfold runTimer, requeued in *. destruct (action t) as [|job].
    + cbv zeta.
      set (s1 := setIsProcessing false (setTimers (delete k (timers s)) s)).
      assert (unfinishedPlaced s1 ∧ slotsOwned s1) as [Hpl1 Hown1].
      { split; [|exact Hown]. intros a Ha. destruct (Hpl a Ha) as [Hp Hr].
        split; [exact Hp|]. intros Hst. specialize (Hr Hst).
        unfold requeues in *. unfold s1, setIsProcessing, setTimers. fields.
        by rewrite <- Hperm. }
      destruct (0 <? length (queue s1))%nat; [|by split].
      by apply processQueue_placed.
    + split; [|exact Hown]. intros a Ha. destruct (Hpl a Ha) as [Hp Hr].
      unfold jobAt, requeues, sortQueue, setQueue, setTimers in *. fields.
      split.
      * intros Hst. apply elem_of_sortRefs. right. by apply Hp.
      * intros Hst. specialize (Hr Hst). rewrite Hperm in Hr.
        rewrite elem_of_app, elem_of_sortRefs. set_solver.
  - (* an executor settles *)
    destruct Hreg as [Hids _]. rewrite Hids in Hu. clear Hids. cbn [step].
    case_bool_decide as Hin; [|by split].
    pose proof (settle_state now job outcome s) as Hstate. cbv zeta in Hstate.
    destruct Hstate as (Hqs & _ & _ & Hex & Hcase).
    pose proof (settle_runningJobs now job outcome s) as Hrj.
    set (s' := snd (executeJobSettle now job outcome s)) in *. clearbody s'.
    assert (∃ f, heap s' = alter f job (heap s)
                 ∧ (∀ j, Job.id (f j) = Job.id j)
                 ∧ (∀ j, Job.status (f j) ≠ Job.pending)
                 ∧ (∀ j, Job.status (f j) = Job.retrying -> job ∈ requeues s')
                 ∧ ∀ x, x ∈ requeues s -> x ∈ requeues s')
      as (f & Hheap & Hfid & Hfp & Hfr & Hreq).
    { destruct outcome as [result|error].
      - destruct Hcase as [Hh Ht]. exists (completedJob now result).
        unfold requeues. rewrite Ht. by repeat split.
      - destruct (Job.attempts (jobAt s job) <? Job.maxAttempts (jobAt s job))%Z.
        + destruct Hcase as [Hh [d Ht]].
          exists (retryingJob (errorMessageOf error)).
          unfold requeues. rewrite Ht, requeues_snoc_requeue.
          repeat split; try done; set_solver.
        + destruct Hcase as [Hh Ht].
          exists (failedJob now (errorMessageOf error)).
          unfold requeues. rewrite Ht. by repeat split. }
    split.
    + intros a. unfold jobAt. rewrite Hheap, length_alter, Hqs. intros Ha.
      destruct (decide (job = a)) as [->|Hne].
      * rewrite alter_total_same by done. split; [by intros ?%Hfp|].
        intros Hst%Hfr. set_solver.
      * rewrite alter_total_other by done.
        destruct (Hpl a Ha) as [Hp Hr]. unfold jobAt in Hp, Hr.
        split; [exact Hp|]. intros Hst. specialize (Hr Hst). set_solver.
    + intros i. rewrite Hrj, Hex. intros [Hi Hne]%elem_of_difference.
      destruct (Hown i Hi) as (b & Hb & Hid). exists b. split.
      * apply list_elem_of_In, filter_In. split; [by apply list_elem_of_In|].
        apply negb_true_iff, Nat.eqb_neq. intros ->. set_solver.
      * unfold jobAt. rewrite Hheap, <- Hid. by apply alter_static.
Qed.

Lemma reachable_placed (s : state) :
  reachable s -> NoDup (Job.id <$> heap s) ->
  unfinishedPlaced s ∧ slotsOwned s.
Proof.
  induction 1 as [|s e Hs IH]; intros Hu.
  - split; [intros a Ha; cbn in Ha; lia|]. intros i Hi. set_solver.
  - assert (NoDup (Job.id <$> heap s)) as Hu0.
    { pose proof (step_registry s e) as Hreg.
      destruct e; destruct Hreg as [Hids _]; rewrite Hids in Hu; try done.
      by apply NoDup_app in Hu as [? _]. }
    destruct (IH Hu0). by apply step_placed.
Qed.

(** X27.  No unfinished job is lost, as long as no two jobs were given the
    same id: in every reachable state a [pending] job is in the pending
    pool, and a job whose status is [retrying] is in the pool or behind
    its retry timer.  (Without that condition the scheduler loop drops a
    job whose id is the id of a running job.) *)
Theorem unfinished_jobs_never_lost (s : state) (a : nat) :
  reachable s ->
  NoDup (Job.id <$> heap s) ->
  (a < length (heap s))%nat ->
  (Job.status (jobAt s a) = Job.pending -> a ∈ queue s)
  ∧ (Job.status (jobAt s a) = Job.retrying -> a ∈ queue s ++ requeues s).
Proof.
  intros Hs Hu Ha. destruct (reachable_placed s Hs Hu) as [Hpl _].
  by apply Hpl.
Qed.

Lemma unfinished_jobs_never_lost_witness :
  (Job.status (jobAt (run initial MoreSamples.crowded) 4) = Job.pending
   ∧ 4%nat ∈ queue (run initial MoreSamples.crowded))
  ∧ (Job.status (jobAt (run initial MoreSamples.sameIdTwice) 1) = Job.pending
     ∧ queue (run initial MoreSamples.sameIdTwice) = []).
Proof.
  split; [|split; vm_compute; reflexivity].
  assert (Job.status (jobAt (run initial MoreSamples.crowded) 4) = Job.pending)
    as Hst by (vm_compute; reflexivity).
  split; [exact Hst|].
  refine (proj1 (unfinished_jobs_never_lost (run initial MoreSamples.crowded) 4
                   (reachable_run _ MoreSamples.crowded reachable_initial)
                   _ _) Hst).
  - apply (bool_decide_unpack _). vm_compute. reflexivity.
  - vm_compute. lia.
Defined.

End Unfinished.

(** * Comparative pricing *)

Section Pricing.

Import HistoricalPricingService.

Lemma orElse_finite (x : option jsnum) (d : Q) :
  (∀ v, x = Some v -> ∃ q, v = Fin q) ->
  ∃ q, orElse x (Fin d) = Fin q ∧ (¬ (d == 0)%Q -> ¬ (q == 0)%Q).
Proof.
  intros Hx. destruct x as [v|]; cbn [orElse]; [|by exists d].
  destruct (Hx v eq_refl) as [q ->]. cbn [jfalsy].
  destruct (Qeq_bool q 0) eqn:Hq; [by exists d|]. exists q. split; [done|].
  intros _. by apply Qeq_bool_neq.
Qed.

Lemma price_finite (p : ListedProperty.t) :
  finiteRow p -> ∃ q, pricePerSqftOf p = Fin q.
Proof.
  intros [Hprice Harea]. unfold pricePerSqftOf, ofZ.
  destruct (orElse_finite _ (inject_Z 0) Hprice) as (a & -> & _).
  destruct (orElse_finite _ (inject_Z 1) Harea) as (b & -> & Hb).
  assert (¬ (b == 0)%Q) as Hb' by (by apply Hb).
  cbn [jdiv]. unfold qsign. destruct (Qcompare_spec b 0) as [?|?|?];
    [done|by eexists..].
Qed.

Lemma prices_finite (l : list ListedProperty.t) :
  Forall finiteRow l -> ∃ qs, pricePerSqftOf <$> l = Fin <$> qs.
Proof.
  induction 1 as [|p l Hp _ [qs IH]]; [by exists []|].
  destruct (price_finite p Hp) as [q Hq]. exists (q :: qs). csimpl.
  by rewrite Hq, IH.
Qed.

Lemma jle_difference (a b : Q) :
  jle (jsub (Fin a) (Fin b)) (ofZ 0) = true ↔ (a <= b)%Q.
Proof.
  unfold jsub, jneg, jadd, fin, jle, jcompare, ofZ.
  change (inject_Z 0) with 0%Q.
  destruct (Qcompare_spec (Qred (a + Qred (- b))) 0) as [H|H|H];
    rewrite !Qred_correct in H; split; try done; try (intros _; lra).
  intros ?. lra.
Qed.

Lemma jle_finite (a b : Q) : jle (Fin a) (Fin b) = true ↔ (a <= b)%Q.
Proof.
  unfold jle, jcompare. destruct (Qcompare_spec a b) as [H|H|H];
    split; try done; try (intros _; lra). intros ?. lra.
Qed.

Lemma jgt_finite (a b : Q) : jgt (Fin a) (Fin b) = true ↔ (b < a)%Q.
Proof.
  unfold jgt, jcompare. destruct (Qcompare_spec a b) as [H|H|H];
    split; try done; intros ?; lra.
Qed.

Lemma jlt_finite (a b : Q) : jlt (Fin a) (Fin b) = true ↔ (a < b)%Q.
Proof.
  unfold jlt, jcompare. destruct (Qcompare_spec a b) as [H|H|H];
    split; try done; intros ?; lra.
Qed.

Lemma insertNumber_finite (x : Q) (l : list Q) :
  ∃ l', insertNumber (Fin x) (Fin <$> l) = Fin <$> l'
        ∧ l' ≡ₚ x :: l
        ∧ (StronglySorted Qle l -> StronglySorted Qle l').
Proof.
  induction l as [|y l (l' & Heq & Hperm & Hsorted)];
    cbn [insertNumber fmap list_fmap].
  - exists [x]. split; [done|]. split; [reflexivity|]. intros _.
    by repeat constructor.
  - destruct (jle (jsub (Fin x) (Fin y)) (ofZ 0)) eqn:Hle.
    + exists (x :: y :: l). split; [done|]. split; [reflexivity|]. intros Hs.
      apply jle_difference in Hle. constructor; [done|].
      constructor; [done|]. apply StronglySorted_inv in Hs as [_ Hall].
      eapply Forall_impl; [exact Hall|]. intros z Hz. cbn in Hz. lra.
    + exists (y :: l'). split; [by rewrite Heq|].
      split; [rewrite Hperm; apply Permutation_swap|]. intros Hs.
      apply StronglySorted_inv in Hs as [Hs Hall].
      constructor; [by apply Hsorted|]. rewrite Hperm. constructor; [|done].
      destruct (Qlt_le_dec y x) as [?|Hxy]; [lra|].
      apply jle_difference in Hxy. congruence.
Qed.

Lemma sortNumbers_finite (l : list Q) :
  ∃ l', sortNumbers (Fin <$> l) = Fin <$> l'
        ∧ l' ≡ₚ l ∧ StronglySorted Qle l'.
Proof.
  induction l as [|x l (l' & Heq & Hperm & Hsorted)].
  - exists []. split; [done|]. split; [reflexivity|constructor].
  - cbn [fmap list_fmap sortNumbers foldr]. fold (sortNumbers (Fin <$> l)).
    rewrite Heq.
    destruct (insertNumber_finite x l') as (l'' & Heq' & Hperm' & Hsorted').
    exists l''. split; [done|]. split; [by rewrite Hperm', Hperm|by apply Hsorted'].
Qed.

Lemma filter_length_perm {A : Type} (p : A -> bool) (l l' : list A) :
  l ≡ₚ l' -> length (List.filter p l) = length (List.filter p l').
Proof.
  induction 1 as [|x l l' _ IH|x y l|l1 l2 l3 _ IH1 _ IH2]; cbn [List.filter];
    [done| | |congruence].
  - destruct (p x); cbn; by rewrite IH.
  - by destruct (p x), (p y).
Qed.

(** In a sorted list the first price above the target comes after all the
    prices that are not above it. *)
Lemma findIndexAbove_sorted (t : Q) (l : list Q) :
  StronglySorted Qle l ->
  match findIndexAbove (Fin t) (Fin <$> l) with
  | Some i =>
      i = length (List.filter (fun x => jle (Fin x) (Fin t)) l)
      ∧ (i < length l)%nat
  | None => length (List.filter (fun x => jle (Fin x) (Fin t)) l) = length l
  end.
Proof.
  unfold findIndexAbove. induction l as [|a l IH]; intros Hs; [done|].
  apply StronglySorted_inv in Hs as [Hs Hall]. specialize (IH Hs).
  cbn [fmap list_fmap list_find List.filter]. case_decide as Ha.
  - cbn [fmap option_fmap option_map fst length]. apply jgt_finite in Ha as Hlt.
    assert (jle (Fin a) (Fin t) = false) as ->.
    { apply not_true_is_false. rewrite jle_finite. lra. }
    split; [|lia].
    assert (List.filter (fun x => jle (Fin x) (Fin t)) l = []) as ->; [|done].
    clear IH Hs. induction Hall as [|b l Hb _ IH]; [done|]. cbn [List.filter].
    assert (jle (Fin b) (Fin t) = false) as ->; [|done].
    apply not_true_is_false. rewrite jle_finite. lra.
  - assert (jle (Fin a) (Fin t) = true) as ->.
    { apply jle_finite. destruct (Qlt_le_dec t a) as [Hlt|?]; [|done].
      apply jgt_finite in Hlt. done. }
    cbn [length]. rewrite <- option_fmap_compose.
    destruct (list_find _ (Fin <$> l)) as [[i x]|]; cbn in *; [|by rewrite IH].
    destruct IH as [-> ?]. split; [done|lia].
Qed.

Lemma Qfloor_quotient (a b : Z) :
  (0 < b)%Z -> Qfloor (inject_Z a / inject_Z b) = (a / b)%Z.
Proof.
  intros Hb. rewrite <- (Z2Pos.id b Hb) at 1. rewrite <- Qmake_Qdiv.
  cbn [Qfloor]. by rewrite Z2Pos.id.
Qed.

(** The percentile is the share of the prices that are not above the
    target price. *)
Lemma percentileAmong_share (t : Q) (prices : list Q) :
  prices ≠ [] ->
  let n := length prices in
  let k := length (List.filter (fun q => jle (Fin q) (Fin t)) prices) in
  percentileAmong (Fin t) (Fin <$> prices)
  = fin (100 * inject_Z (Z.of_nat k) / inject_Z (Z.of_nat n))
  ∧ (k <= n)%nat ∧ (0 < n)%nat.
Proof.
  intros Hne n k.
  assert (0 < n)%nat as Hn by (unfold n; destruct prices; [done|cbn; lia]).
  destruct (sortNumbers_finite prices) as (qs' & Hsort & Hperm & Hsorted).
  assert (k = length (List.filter (fun x => jle (Fin x) (Fin t)) qs')) as Hk
    by (by apply filter_length_perm).
  assert (k <= n)%nat as Hkn.
  { rewrite Hk. unfold n. rewrite <- (Permutation_length Hperm).
    apply List.filter_length_le. }
  assert (0 < inject_Z (Z.of_nat n))%Q as Hpos.
  { change 0%Q with (inject_Z 0). rewrite <- Zlt_Qlt. lia. }
  split; [|by split].
  unfold percentileAmong. cbv zeta. rewrite Hsort, length_fmap.
  pose proof (findIndexAbove_sorted t qs' Hsorted) as Hfind.
  rewrite (Permutation_length Hperm) in *. fold n in Hfind |- *.
  destruct (findIndexAbove (Fin t) (Fin <$> qs')) as [i|].
  - destruct Hfind as [-> _]. rewrite <- Hk. unfold ofNat, ofZ.
    cbn [jdiv]. rewrite ofNat_pos by done. cbn [jmul]. apply fin_proper.
    rewrite Qred_correct. change (inject_Z 100) with 100%Q. field. lra.
  - rewrite <- Hk in Hfind. rewrite Hfind. unfold ofZ, fin.
    f_equal. change (inject_Z 100) with (Qred 100). apply Qred_complete.
    field. lra.
Qed.

Lemma percentileOf_share (target : ListedProperty.t)
    (comparables : list ListedProperty.t) :
  finiteRow target -> Forall finiteRow comparables -> comparables ≠ [] ->
  let n := length comparables in
  let k := length (List.filter
                     (fun p => jle (pricePerSqftOf p) (pricePerSqftOf target))
                     comparables) in
  percentileOf target comparables
  = fin (100 * inject_Z (Z.of_nat k) / inject_Z (Z.of_nat n))
  ∧ (k <= n)%nat ∧ (0 < n)%nat.
Proof.
  intros Htarget Hrows Hne n k.
  destruct (price_finite target Htarget) as [t Ht].
  destruct (prices_finite comparables Hrows) as [qs Hqs].
  assert (length qs = n) as Hlen.
  { unfold n. by rewrite <- (length_fmap pricePerSqftOf), Hqs, length_fmap. }
  assert (k = length (List.filter (fun x => jle (Fin x) (Fin t)) qs)) as Hk.
  { unfold k. rewrite Ht.
    by rewrite <- (length_fmap pricePerSqftOf), <- (filter_fmap pricePerSqftOf
      (fun x => jle x (Fin t))), Hqs, filter_fmap, length_fmap. }
  assert (qs ≠ []) as Hqne by (intros ->; destruct comparables; done).
  destruct (percentileAmong_share t qs Hqne) as (Hp & Hkn & Hn).
  unfold percentileOf. rewrite Ht, Hqs, Hp, <- Hk, Hlen. split; [done|].
  rewrite <- Hk, Hlen in Hkn. rewrite Hlen in Hn. by split.
Qed.

(** X28.  The answer of [getComparativePricing] depends on the prices per
    square foot only through their rank: with [n] comparable prices (the
    query asks for at most 20) of which [k] are not above the target
    price, the position is [above] when 4 k > 3 n, [below] when 4 k < n
    and [average] otherwise, and the summary shows 100 k / n rounded half
    up, always followed by "th". *)
Theorem getComparativePricing_rank (t : Q) (prices : list Q) :
  prices ≠ [] -> (length prices <= 20)%nat ->
  let n := length prices in
  let k := length (List.filter (fun q => jle (Fin q) (Fin t)) prices) in
  positionFor (percentileAmong (Fin t) (Fin <$> prices))
  = (if decide (3 * n < 4 * k)%nat then above
     else if decide (4 * k < n)%nat then below
     else average)
  ∧ summaryFor (percentileAmong (Fin t) (Fin <$> prices))
    = pretty ((200 * Z.of_nat k + Z.of_nat n) / (2 * Z.of_nat n))%Z
      +:+ "th percentile of comparable properties".
Proof.
  intros Hne _ n k.
  destruct (percentileAmong_share t prices Hne) as (Hp & Hkn & Hn).
  fold n k in Hp, Hkn, Hn. rewrite Hp. clear Hp.
  set (K := Z.of_nat k). set (N := Z.of_nat n).
  assert (0 < N)%Z as HN by lia.
  assert (0 < inject_Z N)%Q as HNq
    by (change 0%Q with (inject_Z 0); by rewrite <- Zlt_Qlt).
  assert (∀ c : Z, (inject_Z c < 100 * inject_Z K / inject_Z N)%Q
                   ↔ (c * N < 100 * K)%Z) as Habove.
  { intros c. split.
    - intros H. apply (Qmult_lt_compat_r _ _ (inject_Z N)) in H; [|done].
      assert (100 * inject_Z K / inject_Z N * inject_Z N == 100 * inject_Z K)%Q
        as Heq by (field; lra).
      rewrite Heq in H. change 100%Q with (inject_Z 100) in H.
      rewrite <- !inject_Z_mult, <- Zlt_Qlt in H. done.
    - intros H. apply Qlt_shift_div_l; [done|].
      change 100%Q with (inject_Z 100).
      rewrite <- !inject_Z_mult, <- Zlt_Qlt. done. }
  assert (∀ c : Z, (100 * inject_Z K / inject_Z N < inject_Z c)%Q
                   ↔ (100 * K < c * N)%Z) as Hbelow.
  { intros c. split.
    - intros H. apply (Qmult_lt_compat_r _ _ (inject_Z N)) in H; [|done].
      assert (100 * inject_Z K / inject_Z N * inject_Z N == 100 * inject_Z K)%Q
        as Heq by (field; lra).
      rewrite Heq in H. change 100%Q with (inject_Z 100) in H.
      rewrite <- !inject_Z_mult, <- Zlt_Qlt in H. done.
    - intros H. apply Qlt_shift_div_r; [done|].
      change 100%Q with (inject_Z 100).
      rewrite <- !inject_Z_mult, <- Zlt_Qlt. done. }
  split.
  - unfold positionFor, fin, ofZ.
    set (q := (100 * inject_Z K / inject_Z N)%Q) in *.
    destruct (decide (3 * n < 4 * k)%nat) as [Hhi|Hhi].
    { assert (jgt (Fin (Qred q)) (Fin (inject_Z 75)) = true) as ->; [|done].
      apply jgt_finite. rewrite Qred_correct. apply Habove. lia. }
    assert (jgt (Fin (Qred q)) (Fin (inject_Z 75)) = false) as ->.
    { apply not_true_is_false. intros H%jgt_finite.
      rewrite Qred_correct in H. apply Habove in H. lia. }
    destruct (decide (4 * k < n)%nat) as [Hlo|Hlo].
    { assert (jlt (Fin (Qred q)) (Fin (inject_Z 25)) = true) as ->; [|done].
      apply jlt_finite. rewrite Qred_correct. apply Hbelow. lia. }
    assert (jlt (Fin (Qred q)) (Fin (inject_Z 25)) = false) as ->; [|done].
    apply not_true_is_false. intros H%jlt_finite.
    rewrite Qred_correct in H. apply Hbelow in H. lia.
  - unfold summaryFor. f_equal.
    unfold fin, jround, ofZ, integerText. rewrite Qfloor_Z.
    f_equal. rewrite <- (Qfloor_quotient _ _) by lia. apply Qfloor_comp.
    rewrite Qred_correct, !inject_Z_plus, !inject_Z_mult.
    change (inject_Z 200) with 200%Q. change (inject_Z 2) with 2%Q.
    fold K N. field. lra.
Qed.

Lemma getComparativePricing_rank_witness :
  (percentileSummary
     <$> getComparativePricing (Some PricingSamples.target)
           PricingSamples.comparables)
  = Some "67th percentile of comparable properties"
  ∧ summaryFor (percentileAmong (Fin 150) (Fin <$> [200; 100; 150]%Q))
    = "67th percentile of comparable properties".
Proof.
  split; [vm_compute; reflexivity|].
  assert ([200; 100; 150]%Q ≠ []) as H1 by discriminate.
  assert (length [200; 100; 150]%Q <= 20)%nat as H2 by (cbn; lia).
  rewrite (proj2 (getComparativePricing_rank 150 [200; 100; 150]%Q H1 H2)).
  vm_compute. reflexivity.
Defined.

Lemma filter_length_mono {A : Type} (p q : A -> bool) (l : list A) :
  Forall (fun x => p x = true -> q x = true) l ->
  (length (List.filter p l) <= length (List.filter q l))%nat.
Proof.
  induction 1 as [|x l Hx _ IH]; cbn [List.filter]; [done|].
  destruct (p x) eqn:Hp.
  - rewrite Hx by done. cbn. lia.
  - destruct (q x); cbn; lia.
Qed.

Lemma jle_fin (a b : Q) : jle (fin a) (fin b) = true ↔ (a <= b)%Q.
Proof. unfold fin. by rewrite jle_finite, !Qred_correct. Qed.

(** X29.  The percentile of [getComparativePricing] is between 0 and 100
    and follows the price: against the same comparable rows, a target
    whose price per square foot is not lower than another's has a
    percentile that is not lower (rows with finite or null price and
    area, at least one comparable row). *)
Theorem percentileOf_monotone (target target' : ListedProperty.t)
    (comparables : list ListedProperty.t) :
  finiteRow target -> finiteRow target' ->
  Forall finiteRow comparables -> comparables ≠ [] ->
  jle (pricePerSqftOf target) (pricePerSqftOf target') = true ->
  jle (ofZ 0) (percentileOf target comparables) = true
  ∧ jle (percentileOf target comparables) (percentileOf target' comparables)
    = true
  ∧ jle (percentileOf target' comparables) (ofZ 100) = true.
Proof.
  intros Ht Ht' Hrows Hne Hle.
  destruct (percentileOf_share target comparables Ht Hrows Hne)
    as (-> & Hkn & Hn).
  destruct (percentileOf_share target' comparables Ht' Hrows Hne)
    as (-> & Hkn' & _).
  set (n := length comparables) in *.
  set (k := length (List.filter _ comparables)) in *.
  set (k' := length (List.filter _ comparables)) in Hkn' |- *.
  assert (k <= k')%nat as Hkk.
  { apply filter_length_mono. eapply Forall_impl; [exact Hrows|].
    intros c Hc Hin. cbv beta in *.
    destruct (price_finite c Hc) as [qc Hqc].
    destruct (price_finite target Ht) as [q Hq].
    destruct (price_finite target' Ht') as [q' Hq'].
    rewrite Hqc, Hq, Hq' in *. rewrite jle_finite in *. lra. }
  clearbody n k k'.
  assert (0 < inject_Z (Z.of_nat n))%Q as Hpos.
  { change 0%Q with (inject_Z 0). rewrite <- Zlt_Qlt. lia. }
  assert (0 <= inject_Z (Z.of_nat k))%Q as H0.
  { change 0%Q with (inject_Z 0). rewrite <- Zle_Qle. lia. }
  assert (inject_Z (Z.of_nat k) <= inject_Z (Z.of_nat k'))%Q as H1.
  { rewrite <- Zle_Qle. lia. }
  assert (inject_Z (Z.of_nat k') <= inject_Z (Z.of_nat n))%Q as H2.
  { rewrite <- Zle_Qle. lia. }
  set (K := inject_Z (Z.of_nat k)) in *. set (K' := inject_Z (Z.of_nat k')) in *.
  set (N := inject_Z (Z.of_nat n)) in *. clearbody K K' N.
  change (ofZ 0) with (fin 0). change (ofZ 100) with (fin 100).
  rewrite !jle_fin. repeat split.
  - apply Qle_shift_div_l; [done|]. lra.
  - apply Qle_shift_div_l; [done|].
    assert (100 * K / N * N == 100 * K)%Q as Heq by (field; lra).
    rewrite Heq. lra.
  - apply Qle_shift_div_r; [done|]. lra.
Qed.

Lemma percentileOf_monotone_witness :
  jle (percentileOf PricingSamples.noArea PricingSamples.comparables)
      (percentileOf PricingSamples.target PricingSamples.comparables)
  = true.
Proof.
  assert (finiteRow PricingSamples.noArea) as H1
    by (split; intros x [= <-]; by eexists).
  assert (finiteRow PricingSamples.target) as H2
    by (split; intros x [= <-]; by eexists).
  assert (Forall finiteRow PricingSamples.comparables) as H3
    by (repeat constructor; intros x [= <-]; by eexists).
  assert (PricingSamples.comparables ≠ []) as H4 by discriminate.
  refine (proj1 (proj2 (percentileOf_monotone _ _ _ H1 H2 H3 H4 _))).
  vm_compute. reflexivity.
Defined.

End Pricing.

(** * The job queue with subscribers that may throw *)

Section QuietSubscribers.

Import JobQueueSystem.

(** Without a subscriber that throws, the queue with subscribers does
    what [JobQueueSystem] does. *)
Lemma updateProgress_quiet (jobId : string) (progress : Z) (message : string)
    (x : SubscribedQueue.instance) :
  map_Forall (fun _ => SubscribedQueue.quiet) (SubscribedQueue.progressCallbacks x) ->
  SubscribedQueue.updateProgress jobId progress message x
  = (Normal (),
     SubscribedQueue.onMembers (updateProgress jobId progress message) x).
Proof.
  intros Hquiet. unfold SubscribedQueue.updateProgress. cbv zeta.
  cbn [SubscribedQueue.progressCallbacks SubscribedQueue.onMembers].
  destruct (SubscribedQueue.progressCallbacks x !! jobId) as [callback|] eqn:Hcb;
    [|done].
  by rewrite (Hquiet jobId callback Hcb).
Qed.

Lemma executeJobStart_quiet (now : Z) (a : nat) (x : SubscribedQueue.instance) :
  map_Forall (fun _ => SubscribedQueue.quiet) (SubscribedQueue.progressCallbacks x) ->
  SubscribedQueue.executeJobStart now a x
  = SubscribedQueue.onMembers (executeJobStart now a) x.
Proof.
  intros Hquiet. unfold SubscribedQueue.executeJobStart. cbv zeta.
  by rewrite updateProgress_quiet.
Qed.

Lemma dispatchLoop_quiet (now : Z) (q : list nat) :
  ∀ x : SubscribedQueue.instance,
    map_Forall (fun _ => SubscribedQueue.quiet)
               (SubscribedQueue.progressCallbacks x) ->
    SubscribedQueue.dispatchLoop now q x
    = SubscribedQueue.onMembers (dispatchLoop now q) x.
Proof.
  induction q as [|job q IH]; intros [s callbacks rej] Hquiet;
    cbn [SubscribedQueue.dispatchLoop dispatchLoop]; [done|].
  unfold SubscribedQueue.onMembers at 3.
  cbn [SubscribedQueue.members SubscribedQueue.progressCallbacks
       SubscribedQueue.rejected] in *.
  destruct (decide (size (runningJobs s) < maxConcurrentJobs)%nat); [|done].
  case_bool_decide; [by apply IH|].
  rewrite executeJobStart_quiet by done. by rewrite IH.
Qed.

Lemma processQueue_quiet (now : Z) (x : SubscribedQueue.instance) :
  map_Forall (fun _ => SubscribedQueue.quiet) (SubscribedQueue.progressCallbacks x) ->
  SubscribedQueue.processQueue now x
  = SubscribedQueue.onMembers (processQueue now) x.
Proof.
  destruct x as [s callbacks rej]. intros Hquiet.
  unfold SubscribedQueue.processQueue, processQueue, SubscribedQueue.onMembers.
  cbn [SubscribedQueue.members SubscribedQueue.progressCallbacks
       SubscribedQueue.rejected] in *.
  destruct (isProcessing s); [done|].
  cbv zeta. by rewrite dispatchLoop_quiet.
Qed.

Lemma executeJobSettle_quiet (now : Z) (a : nat) (outcome : Outcome)
    (x : SubscribedQueue.instance) :
  map_Forall (fun _ => SubscribedQueue.quiet) (SubscribedQueue.progressCallbacks x) ->
  SubscribedQueue.executeJobSettle now a outcome x
  = (fst (executeJobSettle now a outcome (SubscribedQueue.members x)),
     SubscribedQueue.mkInstance
       (snd (executeJobSettle now a outcome (SubscribedQueue.members x)))
       (SubscribedQueue.progressCallbacks x) (SubscribedQueue.rejected x)).
Proof.
  destruct x as [s callbacks rej]. intros Hquiet.
  unfold SubscribedQueue.executeJobSettle, SubscribedQueue.tryBlock,
    SubscribedQueue.catchBlock, executeJobSettle, tryBlock, catchBlock.
  destruct outcome as [result|error]; cbv beta iota zeta.
  - rewrite updateProgress_quiet by done. reflexivity.
  - cbn [SubscribedQueue.members SubscribedQueue.progressCallbacks
         SubscribedQueue.rejected].
    destruct (Job.attempts (jobAt s a) <? Job.maxAttempts (jobAt s a))%Z;
      [reflexivity|].
    rewrite updateProgress_quiet by done. reflexivity.
Qed.

Lemma step_quiet (x : SubscribedQueue.instance) (e : Event) :
  map_Forall (fun _ => SubscribedQueue.quiet) (SubscribedQueue.progressCallbacks x) ->
  SubscribedQueue.step x (SubscribedQueue.Queue e)
  = SubscribedQueue.onMembers (fun s => step s e) x.
Proof.
  destruct x as [s callbacks rej]. intros Hquiet.
  destruct e as [type payload priority maxAttempts newId now
                |jobId now|k now|job outcome now];
    cbn [SubscribedQueue.step step].
  - unfold SubscribedQueue.addJob, addJob. cbv zeta. cbn [snd].
    unfold SubscribedQueue.onMembers.
    cbn [SubscribedQueue.members SubscribedQueue.progressCallbacks
         SubscribedQueue.rejected].
    destruct (isProcessing _); [done|].
    by rewrite processQueue_quiet.
  - done.
  - unfold SubscribedQueue.fireTimer, fireTimer, SubscribedQueue.onMembers.
    cbn [SubscribedQueue.members SubscribedQueue.progressCallbacks
         SubscribedQueue.rejected].
    destruct (timers s !! k) as [t|]; [|done].
    unfold SubscribedQueue.runTimer, runTimer, SubscribedQueue.onMembers.
    destruct (action t); [|done].
    cbv zeta. cbn [SubscribedQueue.members SubscribedQueue.progressCallbacks
                   SubscribedQueue.rejected].
    destruct (0 <? _)%nat; [|done]. by rewrite processQueue_quiet.
  - unfold SubscribedQueue.onMembers.
    cbn [SubscribedQueue.members SubscribedQueue.progressCallbacks
         SubscribedQueue.rejected].
    destruct (bool_decide (job ∈ executing s)); [|done].
    by rewrite executeJobSettle_quiet.
Qed.

Lemma run_quiet (calls : list SubscribedQueue.Call) :
  ∀ x : SubscribedQueue.instance,
    Forall SubscribedQueue.quietCall calls ->
    map_Forall (fun _ => SubscribedQueue.quiet)
               (SubscribedQueue.progressCallbacks x) ->
    SubscribedQueue.rejected x = [] ->
    SubscribedQueue.members (SubscribedQueue.run x calls)
    = run (SubscribedQueue.members x) (omap SubscribedQueue.queueEvent calls).
Proof.
  induction calls as [|c calls IH]; intros x Hcalls Hquiet Hrej; [done|].
  apply Forall_cons in Hcalls as [Hc Hcalls].
  cbn [SubscribedQueue.run foldl]. fold (SubscribedQueue.run).
  change (foldl SubscribedQueue.step (SubscribedQueue.step x c) calls)
    with (SubscribedQueue.run (SubscribedQueue.step x c) calls).
  destruct c as [e|jobId callback|jobId|].
  - rewrite step_quiet by done. rewrite IH; [done..|]. done.
  - rewrite IH; [done|done| |done].
    cbn. by apply map_Forall_insert_2.
  - rewrite IH; [done|done| |done].
    cbn. by apply map_Forall_delete.
  - rewrite IH; [|done|done|done].
    cbn [SubscribedQueue.step SubscribedQueue.runFinally SubscribedQueue.members
         omap]. by rewrite Hrej.
Qed.

(** As long as no subscriber throws, at most [maxConcurrentJobs] jobs have
    the status [running]. *)
Lemma running_bounded_while_quiet (calls : list SubscribedQueue.Call) :
  Forall SubscribedQueue.quietCall calls ->
  (runningCount
     (SubscribedQueue.members (SubscribedQueue.run SubscribedQueue.initial calls))
   <= maxConcurrentJobs)%nat.
Proof.
  intros Hcalls. rewrite run_quiet; [|done|apply map_Forall_empty|done].
  destruct (consistent_running_bound
              (run initial (omap SubscribedQueue.queueEvent calls)))
    as (H1 & H2 & H3); [|cbn in *; lia].
  apply reachable_consistent, reachable_run, reachable_initial.
Qed.

End QuietSubscribers.

Section RunningSet.

Import JobQueueSystem.

(** Whatever subscribers do, the running set never holds more than
    [maxConcurrentJobs] ids: the loop adds an id only below that size. *)
Lemma executeJobStart_runningJobs (now : Z) (a : nat)
    (x : SubscribedQueue.instance) :
  runningJobs (SubscribedQueue.members (SubscribedQueue.executeJobStart now a x))
  = runningJobs (SubscribedQueue.members x).
Proof.
  unfold SubscribedQueue.executeJobStart, SubscribedQueue.updateProgress.
  cbv zeta. cbn [SubscribedQueue.progressCallbacks SubscribedQueue.onMembers].
  destruct (SubscribedQueue.progressCallbacks x !! _) as [callback|];
    [destruct (callback _)|]; done.
Qed.

Lemma dispatchLoop_runningJobs (now : Z) (q : list nat) :
  ∀ x : SubscribedQueue.instance,
    (size (runningJobs (SubscribedQueue.members x)) <= maxConcurrentJobs)%nat ->
    (size (runningJobs
             (SubscribedQueue.members (SubscribedQueue.dispatchLoop now q x)))
     <= maxConcurrentJobs)%nat.
Proof.
  induction q as [|job q IH]; intros x Hx;
    cbn [SubscribedQueue.dispatchLoop]; [done|].
  destruct (decide (size (runningJobs (SubscribedQueue.members x))
                    < maxConcurrentJobs)%nat) as [Hfree|]; [|done].
  case_bool_decide as Hheld; [by apply IH|].
  apply IH. rewrite executeJobStart_runningJobs.
  cbn [SubscribedQueue.members SubscribedQueue.onMembers].
  unfold setRunningJobs. cbn [runningJobs].
  rewrite size_union by set_solver. rewrite size_singleton. lia.
Qed.

Lemma processQueue_runningJobs (now : Z) (x : SubscribedQueue.instance) :
  (size (runningJobs (SubscribedQueue.members x)) <= maxConcurrentJobs)%nat ->
  (size (runningJobs
           (SubscribedQueue.members (SubscribedQueue.processQueue now x)))
   <= maxConcurrentJobs)%nat.
Proof.
  intros Hx. unfold SubscribedQueue.processQueue.
  destruct (isProcessing (SubscribedQueue.members x)); [done|]. cbv zeta.
  cbn [SubscribedQueue.members SubscribedQueue.onMembers].
  unfold setTimeout, setTimers. cbn [runningJobs].
  by apply dispatchLoop_runningJobs.
Qed.

Lemma releaseSlots_runningJobs (l : list nat) :
  ∀ s : state,
    runningJobs (foldl (fun s a => releaseSlot a s) s l) ⊆ runningJobs s.
Proof.
  induction l as [|a l IH]; intros s; cbn [foldl]; [done|].
  etransitivity; [apply IH|]. unfold releaseSlot, setRunningJobs.
  cbn [runningJobs]. set_solver.
Qed.

Lemma step_runningJobs (x : SubscribedQueue.instance) (c : SubscribedQueue.Call) :
  (size (runningJobs (SubscribedQueue.members x)) <= maxConcurrentJobs)%nat ->
  (size (runningJobs (SubscribedQueue.members (SubscribedQueue.step x c)))
   <= maxConcurrentJobs)%nat.
Proof.
  intros Hx. destruct c as [e|jobId callback|jobId|]; [|done|done|].
  - destruct e as [type payload priority maxAttempts newId now
                  |jobId now|k now|job outcome now];
      cbn [SubscribedQueue.step].
    + unfold SubscribedQueue.addJob. cbv zeta. cbn [snd].
      destruct (isProcessing _); [done|]. by apply processQueue_runningJobs.
    + cbn. unfold cancelJob.
      destruct (jobs (SubscribedQueue.members x) !! jobId); [|done].
      case_bool_decide; [done|]. cbv zeta. cbn [snd].
      by destruct (findIndex jobId (SubscribedQueue.members x)).
    + unfold SubscribedQueue.fireTimer.
      destruct (timers (SubscribedQueue.members x) !! k) as [t|]; [|done].
      unfold SubscribedQueue.runTimer. destruct (action t); [|done].
      cbv zeta. destruct (0 <? _)%nat; [|done].
      by apply processQueue_runningJobs.
    + case_bool_decide; [|done].
      etransitivity; [|exact Hx]. apply subseteq_size.
      unfold SubscribedQueue.executeJobSettle, SubscribedQueue.tryBlock,
        SubscribedQueue.catchBlock, SubscribedQueue.updateProgress.
      destruct outcome as [result|error]; cbv beta iota zeta;
        cbn [SubscribedQueue.progressCallbacks SubscribedQueue.onMembers
             SubscribedQueue.members];
        repeat match goal with
               | |- context [SubscribedQueue.progressCallbacks x !! ?i] =>
                   destruct (SubscribedQueue.progressCallbacks x !! i)
                     as [?callback|]
               | |- context [match ?callback ?p with _ => _ end] =>
                   destruct (callback p)
               | |- context [(?a <? ?b)%Z] => destruct (a <? b)%Z
               end;
        cbn [snd SubscribedQueue.progressCallbacks SubscribedQueue.onMembers
             SubscribedQueue.members];
        unfold releaseSlot, setRunningJobs; cbn [runningJobs]; set_solver.
  - cbn [SubscribedQueue.step SubscribedQueue.runFinally SubscribedQueue.members].
    etransitivity; [|exact Hx]. apply subseteq_size, releaseSlots_runningJobs.
Qed.

Lemma run_runningJobs (calls : list SubscribedQueue.Call) :
  ∀ x : SubscribedQueue.instance,
    (size (runningJobs (SubscribedQueue.members x)) <= maxConcurrentJobs)%nat ->
    (size (runningJobs (SubscribedQueue.members (SubscribedQueue.run x calls)))
     <= maxConcurrentJobs)%nat.
Proof.
  induction calls as [|c calls IH]; intros x Hx; [done|].
  cbn [SubscribedQueue.run foldl]. apply IH. by apply step_runningJobs.
Qed.

Lemma running_set_bounded (calls : list SubscribedQueue.Call) :
  (size (runningJobs
           (SubscribedQueue.members
              (SubscribedQueue.run SubscribedQueue.initial calls)))
   <= maxConcurrentJobs)%nat.
Proof. apply run_runningJobs. cbn. rewrite size_empty. lia. Qed.

End RunningSet.

Section StrandedJob.

Import JobQueueSystem.

(** C4.  A subscriber that throws when it is told that its job starts
    strands the job.  [executeJob] sets the status [running] and counts
    the attempt, then calls [updateProgress] on line 483, before the [try]
    block: the callback throws, the promise is rejected, no executor is
    called, and the [finally] callback frees the slot, while the status
    stays [running].  In the sample run five jobs are added and the
    subscriber of the second throws; after two passes of the scheduler
    four jobs have the status [running], one more than
    [maxConcurrentJobs], and [getQueueStats] counts four.  Three of them are being executed and hold the
    three slots; the second job is not executed, is not in the pool and
    has no retry timer, and [cancelJob] refuses it. *)
Theorem throwing_subscriber_strands_running_job :
  Job.status
    <$> heap (SubscribedQueue.members
                (SubscribedQueue.run SubscribedQueue.initial
                   MoreSamples.strandedJob))
  = [Job.running; Job.running; Job.running; Job.running; Job.pending]
  ∧ runningCount
      (SubscribedQueue.members
         (SubscribedQueue.run SubscribedQueue.initial MoreSamples.strandedJob))
    = 4%nat
  ∧ ¬ (runningCount
         (SubscribedQueue.members
            (SubscribedQueue.run SubscribedQueue.initial MoreSamples.strandedJob))
       <= maxConcurrentJobs)%nat
  ∧ QueueStats.running
      (JobQueueQueries.getQueueStats
         (SubscribedQueue.members
            (SubscribedQueue.run SubscribedQueue.initial MoreSamples.strandedJob)))
    = 4%nat
  ∧ executing
      (SubscribedQueue.members
         (SubscribedQueue.run SubscribedQueue.initial MoreSamples.strandedJob))
    = [0; 2; 3]%nat
  ∧ size (runningJobs
            (SubscribedQueue.members
               (SubscribedQueue.run SubscribedQueue.initial
                  MoreSamples.strandedJob)))
    = 3%nat
  ∧ queue
      (SubscribedQueue.members
         (SubscribedQueue.run SubscribedQueue.initial MoreSamples.strandedJob))
    = [4%nat]
  ∧ Forall (fun t => action t = Reschedule)
      (timers
         (SubscribedQueue.members
            (SubscribedQueue.run SubscribedQueue.initial
               MoreSamples.strandedJob)))
  ∧ fst (SubscribedQueue.cancelJob "job_2" 4000
           (SubscribedQueue.run SubscribedQueue.initial MoreSamples.strandedJob))
    = false.
Proof.
  split; [vm_compute; reflexivity|].
  split; [vm_compute; reflexivity|].
  split; [vm_compute; lia|].
  split; [vm_compute; reflexivity|].
  split; [vm_compute; reflexivity|].
  split; [vm_compute; reflexivity|].
  split; [vm_compute; reflexivity|].
  split; [vm_compute; by repeat constructor|].
  vm_compute. reflexivity.
Qed.

End StrandedJob.
(** * The queue with subscribers: what holds whatever they do *)

Section SubscribedRegistry.

Import JobQueueSystem QueueSpec QueueOrder SubscribedSpec.

(** The same ids in the heap and the same map. *)
Lemma registered_ids (s s' : state) :
  registered s ->
  Job.id <$> heap s' = Job.id <$> heap s -> jobs s' = jobs s ->
  registered s'.
Proof.
  intros [Hfiled Hvj] Hids Hjobs.
  assert (length (heap s') = length (heap s)) as Hlen
    by (by rewrite <- (length_fmap Job.id), Hids, length_fmap).
  split.
  - intros i. rewrite Hids, Hjobs. apply Hfiled.
  - intros i a. rewrite Hjobs. intros Ha. destruct (Hvj i a Ha) as [Hva Hid].
    unfold validRef, idOf, jobAt in *. split; [lia|].
    rewrite <- Hid.
    rewrite <- (list_lookup_total_fmap Job.id (heap s') a) by lia.
    rewrite <- (list_lookup_total_fmap Job.id (heap s) a) by lia.
    by rewrite Hids.
Qed.

(** One more job object, filed under its id. *)
Lemma registered_add (s s' : state) (newId : string) :
  registered s ->
  Job.id <$> heap s' = (Job.id <$> heap s) ++ [newId] ->
  jobs s' = <[newId := length (heap s)]> (jobs s) ->
  registered s'.
Proof.
  intros [Hfiled Hvj] Hids Hjobs.
  assert (length (heap s') = S (length (heap s))) as Hlen.
  { rewrite <- (length_fmap Job.id), Hids, length_app, length_fmap. cbn. lia. }
  split.
  - intros i. rewrite Hids, Hjobs.
    intros [Hi|Hi%list_elem_of_singleton]%elem_of_app.
    + apply lookup_insert_is_Some.
      destruct (decide (newId = i)); [by left|right]. split; [done|by apply Hfiled].
    + subst. apply lookup_insert_is_Some. by left.
  - intros i a. rewrite Hjobs. intros Ha.
    unfold validRef, idOf, jobAt in *.
    apply lookup_insert_Some in Ha as [[<- <-]|[Hne Ha]].
    + split; [lia|].
      rewrite <- (list_lookup_total_fmap Job.id (heap s') (length (heap s)))
        by lia.
      rewrite Hids.
      rewrite lookup_total_app_r by (rewrite length_fmap; lia).
      by rewrite length_fmap, Nat.sub_diag.
    + destruct (Hvj i a Ha) as [Hva Hid]. split; [lia|].
      rewrite <- Hid.
      rewrite <- (list_lookup_total_fmap Job.id (heap s') a) by lia.
      rewrite <- (list_lookup_total_fmap Job.id (heap s) a) by lia.
      rewrite Hids.
      by rewrite lookup_total_app_l by (rewrite length_fmap; lia).
Qed.

Lemma releaseSlots_members (l : list nat) :
  ∀ s : state,
    heap (foldl (fun s a => releaseSlot a s) s l) = heap s
    ∧ jobs (foldl (fun s a => releaseSlot a s) s l) = jobs s
    ∧ queue (foldl (fun s a => releaseSlot a s) s l) = queue s
    ∧ timers (foldl (fun s a => releaseSlot a s) s l) = timers s
    ∧ executing (foldl (fun s a => releaseSlot a s) s l) = executing s.
Proof.
  induction l as [|a l IH]; intros s; cbn [foldl]; [done|].
  destruct (IH (releaseSlot a s)) as (-> & -> & -> & -> & ->). done.
Qed.

End SubscribedRegistry.

Section SubscribedSteps.

Import JobQueueSystem QueueSpec QueueOrder SubscribedSpec.

(** [executeJob] up to its executor: the job object is started whatever
    the subscriber does, and it is being executed unless the subscriber
    threw. *)
Lemma executeJobStart_members (now : Z) (a : nat) (x : SubscribedQueue.instance) :
  heap (SubscribedQueue.members (SubscribedQueue.executeJobStart now a x))
  = alter (startedJob now) a (heap (SubscribedQueue.members x))
  ∧ queue (SubscribedQueue.members (SubscribedQueue.executeJobStart now a x))
    = queue (SubscribedQueue.members x)
  ∧ timers (SubscribedQueue.members (SubscribedQueue.executeJobStart now a x))
    = timers (SubscribedQueue.members x)
  ∧ jobs (SubscribedQueue.members (SubscribedQueue.executeJobStart now a x))
    = jobs (SubscribedQueue.members x)
  ∧ (executing (SubscribedQueue.members (SubscribedQueue.executeJobStart now a x))
     = executing (SubscribedQueue.members x) ++ [a]
     ∨ executing (SubscribedQueue.members (SubscribedQueue.executeJobStart now a x))
       = executing (SubscribedQueue.members x)).
Proof.
  unfold SubscribedQueue.executeJobStart, SubscribedQueue.updateProgress.
  cbv zeta. cbn [SubscribedQueue.progressCallbacks SubscribedQueue.onMembers].
  destruct (SubscribedQueue.progressCallbacks x !! _) as [callback|];
    [destruct (callback _)|];
    cbn [SubscribedQueue.members SubscribedQueue.onMembers];
    unfold updateJob, updateProgress, setHeap, setProgressUpdates, setExecuting;
    fields; rewrite !alter_alter;
    (split; [reflexivity|]); (split; [reflexivity|]); (split; [reflexivity|]);
    (split; [reflexivity|]); first [by left|by right].
Qed.

(** [executeJob] from the point where its executor settles: the job
    object changes, keeping its id and its counters; it is no longer
    being executed; and it is behind a new retry timer only with the
    status [retrying] and an attempt left. *)
Lemma executeJobSettle_members (now : Z) (a : nat) (outcome : Outcome)
    (x : SubscribedQueue.instance) :
  (a < length (heap (SubscribedQueue.members x)))%nat ->
  let s := SubscribedQueue.members x in
  let s' :=
    SubscribedQueue.members
      (snd (SubscribedQueue.executeJobSettle now a outcome x)) in
  queue s' = queue s
  ∧ jobs s' = jobs s
  ∧ executing s' = List.filter (fun b => negb (a =? b)%nat) (executing s)
  ∧ ∃ f : Job.t -> Job.t,
      heap s' = alter f a (heap s)
      ∧ (∀ j, Job.id (f j) = Job.id j
              ∧ Job.attempts (f j) = Job.attempts j
              ∧ Job.maxAttempts (f j) = Job.maxAttempts j)
      ∧ (timers s' = timers s
         ∨ (∃ d, timers s' = timers s ++ [mkTimer d (Requeue a)])
           ∧ (∀ j, Job.status (f j) = Job.retrying)
           ∧ (Job.attempts (jobAt s a) < Job.maxAttempts (jobAt s a))%Z).
Proof.
  intros Ha. cbv zeta. destruct x as [[h js q rs p ts ex us] cb rej].
  cbn [SubscribedQueue.members] in *.
  unfold SubscribedQueue.executeJobSettle, SubscribedQueue.tryBlock,
    SubscribedQueue.catchBlock, SubscribedQueue.updateProgress.
  destruct outcome as [result|error]; cbv beta iota zeta;
    repeat first
      [ progress cbn [snd fst SubscribedQueue.progressCallbacks
                      SubscribedQueue.onMembers SubscribedQueue.members
                      SubscribedQueue.rejected]
      | match goal with
        | |- context [cb !! ?i] => destruct (cb !! i) as [?callback|]
        | |- context [(?u <? ?v)%Z] => destruct (u <? v)%Z eqn:?Hlt
        | |- context [match ?c (JobProgress.mk ?i ?p ?m) with _ => _ end] =>
            destruct (c (JobProgress.mk i p m))
        end ];
    cbv beta iota zeta
        delta [releaseSlot endActivation setRunningJobs setExecuting setTimeout
               setTimers updateProgress setProgressUpdates updateJob setHeap
               jobAt heap jobs queue runningJobs isProcessing timers executing
               progressUpdates] in *;
    rewrite ?alter_alter in *;
    (split; [reflexivity|]); (split; [reflexivity|]); (split; [reflexivity|]);
    eexists; (split; [reflexivity|]); (split; [by intros j|]);
    first
      [ by left
      | right; split; [by eexists|]; split; [by intros j|];
        rewrite ?alter_total_same in * by done;
        apply Z.ltb_lt; assumption ].
Qed.

(** The scheduler loop. *)
Lemma dispatchLoop_sound (now : Z) (q : list nat) :
  ∀ x : SubscribedQueue.instance,
    orderlyParts (heap (SubscribedQueue.members x))
                 (q ++ requeues (SubscribedQueue.members x))
                 (executing (SubscribedQueue.members x)) ->
    registered (SubscribedQueue.members x) ->
    sound (SubscribedQueue.dispatchLoop now q x).
Proof.
  induction q as [|job q IH]; intros x Hs Hreg;
    cbn [SubscribedQueue.dispatchLoop].
  - split; [exact Hs|exact Hreg].
  - destruct (decide (size (runningJobs (SubscribedQueue.members x))
                      < maxConcurrentJobs)%nat);
      [|split; [exact Hs|exact Hreg]].
    case_bool_decide as Hheld.
    + apply IH; [|done]. destruct Hs as (Hnd & Hrest).
      apply (parts_mono _ _ _ _ _ (conj Hnd Hrest)); [|set_solver|done].
      cbn in Hnd. by apply NoDup_cons in Hnd as [_ Hnd].
    + set (x1 := SubscribedQueue.onMembers _ x).
      destruct (executeJobStart_members now job x1)
        as (Hheap & _ & Htimers & Hjobs & Hexec).
      pose proof Hs as (Hnd & Hvalid & Hrun & Hwait & Hatt).
      assert (job ∉ (q ++ requeues (SubscribedQueue.members x))
                    ++ executing (SubscribedQueue.members x)) as Hfresh.
      { cbn in Hnd. by apply NoDup_cons in Hnd as [Hfresh _]. }
      assert (job < length (heap (SubscribedQueue.members x)))%nat as Hjob
        by (apply Hvalid; set_solver).
      destruct (Hwait job ltac:(set_solver)) as [_ Hleft].
      destruct (Hatt job Hjob) as [Hlow Hhigh].
      apply IH.
      * unfold requeues. rewrite Hheap, Htimers.
        destruct Hexec as [-> | ->]; unfold x1;
          cbn [SubscribedQueue.members SubscribedQueue.onMembers];
          unfold setRunningJobs; fields;
          apply (parts_update _ _ _ _ _ _ _ Hs Hjob).
        -- rewrite app_assoc, <- Permutation_cons_append. exact Hnd.
        -- set_solver.
        -- set_solver.
        -- done.
        -- intros Hin. exfalso. apply Hfresh. set_solver.
        -- unfold attemptsOk, startedJob. cbn. lia.
        -- cbn in Hnd. by apply NoDup_cons in Hnd as [_ Hnd].
        -- set_solver.
        -- set_solver.
        -- done.
        -- intros Hin. exfalso. apply Hfresh. set_solver.
        -- unfold attemptsOk, startedJob. cbn. lia.
      * apply (registered_ids (SubscribedQueue.members x)); [done| |].
        -- rewrite Hheap. unfold x1.
           cbn [SubscribedQueue.members SubscribedQueue.onMembers].
           unfold setRunningJobs. fields. by apply ids_alter.
        -- by rewrite Hjobs.
Qed.

Lemma processQueue_sound (now : Z) (x : SubscribedQueue.instance) :
  sound x -> sound (SubscribedQueue.processQueue now x).
Proof.
  intros [Hs Hreg]. unfold SubscribedQueue.processQueue.
  destruct (isProcessing (SubscribedQueue.members x)); [done|]. cbv zeta.
  destruct (dispatchLoop_sound now
              (queue (SubscribedQueue.members
                        (SubscribedQueue.onMembers (setIsProcessing true) x)))
              (SubscribedQueue.onMembers (setIsProcessing true) x))
    as [Ho Hr]; [exact Hs|exact Hreg|].
  split.
  - unfold orderly, requeues in *.
    cbn [SubscribedQueue.members SubscribedQueue.onMembers].
    unfold setTimeout, setTimers. fields.
    by rewrite requeues_snoc_reschedule.
  - by apply (registered_ids _ _ Hr).
Qed.

Lemma addJob_sound (type : Job.JobType) (payload : any)
    (priority maxAttempts : option Z) (newId : string) (now : Z)
    (x : SubscribedQueue.instance) :
  sound x ->
  sound (snd (SubscribedQueue.addJob type payload priority maxAttempts
                newId now x)).
Proof.
  intros [Hs Hreg]. unfold SubscribedQueue.addJob. cbv zeta. cbn [snd].
  set (job := Job.mk newId type (default 3%Z priority) payload Job.pending now
                     None None 0 (default 3%Z maxAttempts) None None).
  set (x4 := SubscribedQueue.onMembers sortQueue _).
  assert (sound x4) as H4.
  { split.
    - unfold x4, orderly, requeues.
      cbn [SubscribedQueue.members SubscribedQueue.onMembers].
      unfold sortQueue, setQueue, setJobs, setHeap. fields.
      apply (parts_add _ (queue (SubscribedQueue.members x)
                          ++ requeues (SubscribedQueue.members x)));
        [exact Hs| | |].
      + rewrite sortRefs_perm, <- Permutation_cons_append. done.
      + split; [by left|by left].
      + unfold attemptsOk. cbn. lia.
    - apply (registered_add (SubscribedQueue.members x) _ newId Hreg);
        unfold x4; cbn [SubscribedQueue.members SubscribedQueue.onMembers];
        unfold sortQueue, setQueue, setJobs, setHeap; fields;
        [by rewrite fmap_app|done]. }
  destruct (isProcessing (SubscribedQueue.members x4)); [done|].
  by apply processQueue_sound.
Qed.

Lemma cancelJob_sound (jobId : string) (now : Z) (x : SubscribedQueue.instance) :
  sound x -> sound (snd (SubscribedQueue.cancelJob jobId now x)).
Proof.
  intros [Hs Hreg]. unfold SubscribedQueue.cancelJob. cbn [snd].
  split; cbn [SubscribedQueue.members SubscribedQueue.onMembers].
  - apply cancelJob_orderly_filed; [|done]. intros i a Ha.
    by destruct (proj2 Hreg i a Ha).
  - destruct (step_registry (SubscribedQueue.members x) (CancelJob jobId now))
      as [Hids Hjobs].
    by apply (registered_ids (SubscribedQueue.members x)).
Qed.

Lemma fireTimer_sound (k : nat) (now : Z) (x : SubscribedQueue.instance) :
  sound x -> sound (SubscribedQueue.fireTimer k now x).
Proof.
  intros [Hs Hreg]. unfold SubscribedQueue.fireTimer.
  destruct (timers (SubscribedQueue.members x) !! k) as [t|] eqn:Hk; [|done].
  pose proof (requeues_delete (timers (SubscribedQueue.members x)) k t Hk)
    as Hperm.
  unfold SubscribedQueue.runTimer. destruct (action t) as [|job] eqn:Hact.
  - assert (requeued t = None) as Hreq by (unfold requeued; by rewrite Hact).
    rewrite Hreq in Hperm. cbn [app] in Hperm.
    set (x0 := SubscribedQueue.onMembers (setIsProcessing false) _).
    assert (sound x0) as H0.
    { split; [|exact Hreg].
      unfold x0, orderly, requeues.
      cbn [SubscribedQueue.members SubscribedQueue.onMembers].
      unfold setIsProcessing, setTimers. fields.
      apply (parts_perm _ _ _ _ Hs). unfold requeues.
      apply Permutation_app_head. exact (Permutation_sym Hperm). }
    cbv zeta. destruct (0 <? length _)%nat; [|exact H0].
    by apply processQueue_sound.
  - assert (requeued t = Some job) as Hreq
      by (unfold requeued; by rewrite Hact).
    rewrite Hreq in Hperm. split; [|exact Hreg].
    unfold orderly, requeues.
    cbn [SubscribedQueue.members SubscribedQueue.onMembers].
    unfold sortQueue, setQueue, setTimers. fields.
    apply (parts_perm _ _ _ _ Hs). unfold requeues.
    rewrite sortRefs_perm. cbn [app].
    rewrite Permutation_middle. apply Permutation_app_head.
    exact (Permutation_sym Hperm).
Qed.

Lemma settle_sound (now : Z) (a : nat) (outcome : Outcome)
    (x : SubscribedQueue.instance) :
  sound x -> a ∈ executing (SubscribedQueue.members x) ->
  sound (snd (SubscribedQueue.executeJobSettle now a outcome x)).
Proof.
  intros [Hs Hreg] Ha.
  pose proof Hs as (Hnd & Hvalid & Hrun & Hwait & Hatt).
  assert (a < length (heap (SubscribedQueue.members x)))%nat as Hva
    by (apply Hvalid; set_solver).
  pose proof (executeJobSettle_members now a outcome x Hva) as Hstate.
  cbv zeta in Hstate.
  destruct Hstate as (Hq & Hjobs & He & f & Hheap & Hf & Htimers).
  assert (a ∉ queue (SubscribedQueue.members x)
              ++ requeues (SubscribedQueue.members x)) as Hnowhere.
  { intros Hin. apply NoDup_app in Hnd as (_ & Hdisj & _). by apply (Hdisj a). }
  assert (attemptsOk (f (heap (SubscribedQueue.members x) !!! a))) as Hfatt.
  { unfold attemptsOk. destruct (Hf (heap (SubscribedQueue.members x) !!! a))
      as (_ & -> & ->). exact (Hatt a Hva). }
  split.
  - unfold orderly, requeues. rewrite Hq, He, Hheap.
    destruct Htimers as [-> | ([d ->] & Hretry & Hlt)].
    + apply (parts_update _ _ _ _ _ _ _ Hs Hva).
      * by apply filter_others_NoDup.
      * auto.
      * intros b Hb%elem_of_filter_others. left. tauto.
      * intros Hin%elem_of_filter_others. by destruct Hin.
      * intros Hin. by destruct (Hnowhere Hin).
      * exact Hfatt.
    + rewrite requeues_snoc_requeue.
      apply (parts_update _ _ _ _ _ _ _ Hs Hva).
      * rewrite app_assoc, <- (app_assoc _ [a]).
        rewrite (Permutation_app_comm [a]), app_assoc.
        rewrite <- Permutation_cons_append. apply NoDup_cons. split.
        -- rewrite elem_of_app, elem_of_filter_others. unfold requeues in *.
           naive_solver.
        -- by apply filter_others_NoDup.
      * intros b. rewrite app_assoc, elem_of_app, list_elem_of_singleton.
        tauto.
      * intros b Hb%elem_of_filter_others. left. tauto.
      * intros Hin%elem_of_filter_others. by destruct Hin.
      * intros _. split; [right; left; apply Hretry|right].
        destruct (Hf (heap (SubscribedQueue.members x) !!! a)) as (_ & -> & ->).
        exact Hlt.
      * exact Hfatt.
  - apply (registered_ids (SubscribedQueue.members x)); [done| |done].
    rewrite Hheap. apply ids_alter. intros j. apply Hf.
Qed.

Lemma initial_sound : sound SubscribedQueue.initial.
Proof.
  split; [apply initial_orderly|]. split.
  - by intros i Hi%elem_of_nil.
  - intros i a Ha. cbn in Ha. by rewrite lookup_empty in Ha.
Qed.

Lemma step_sound (x : SubscribedQueue.instance) (c : SubscribedQueue.Call) :
  sound x -> sound (SubscribedQueue.step x c).
Proof.
  intros Hx. destruct c as [e|jobId callback|jobId|];
    [|exact Hx|exact Hx|].
  - destruct e as [type payload priority maxAttempts newId now
                  |jobId now|k now|job outcome now];
      cbn [SubscribedQueue.step].
    + by apply addJob_sound.
    + by apply cancelJob_sound.
    + by apply fireTimer_sound.
    + case_bool_decide; [by apply settle_sound|done].
  - destruct Hx as [Hs Hreg].
    cbn [SubscribedQueue.step SubscribedQueue.runFinally].
    destruct (releaseSlots_members (SubscribedQueue.rejected x)
                (SubscribedQueue.members x)) as (H1 & H2 & H3 & H4 & H5).
    split.
    + unfold orderly, requeues, SubscribedQueue.runFinally in *.
      cbn [SubscribedQueue.members]. by rewrite H1, H3, H4, H5.
    + apply (registered_ids (SubscribedQueue.members x)); [done| |done].
      unfold SubscribedQueue.runFinally. cbn [SubscribedQueue.members].
      by rewrite H1.
Qed.

Lemma run_sound (calls : list SubscribedQueue.Call) :
  ∀ x : SubscribedQueue.instance,
    sound x -> sound (SubscribedQueue.run x calls).
Proof.
  induction calls as [|c calls IH]; intros x Hx; [done|].
  cbn [SubscribedQueue.run foldl]. by apply IH, step_sound.
Qed.

End SubscribedSteps.

Section WhateverSubscribersDo.

Import JobQueueSystem QueueSpec QueueOrder JobQueueQueries SubscribedSpec.

(** X18.  In every state the queue reaches, whether its progress
    subscribers return or throw, a job object is in at most one place: the
    pending pool, behind a retry timer, or among the activations of
    [executeJob] in flight, and in none of them twice.  A job that is
    being executed has the status [running], and a job that waits in the
    pool or for its retry is [pending], [retrying] or [failed], never
    [running] or [completed]. *)
Theorem job_in_one_place (calls : list SubscribedQueue.Call) :
  let s :=
    SubscribedQueue.members
      (SubscribedQueue.run SubscribedQueue.initial calls) in
  NoDup (queue s ++ requeues s ++ executing s)
  ∧ (∀ a, a ∈ executing s ->
          (a < length (heap s))%nat
          ∧ Job.status (jobAt s a) = Job.running)
  ∧ (∀ a, a ∈ queue s ++ requeues s ->
          (a < length (heap s))%nat
          ∧ (Job.status (jobAt s a) = Job.pending
             ∨ Job.status (jobAt s a) = Job.retrying
             ∨ Job.status (jobAt s a) = Job.failed)).
Proof.
  intros s.
  destruct (run_sound calls SubscribedQueue.initial initial_sound)
    as [(Hnd & Hv & Hrun & Hwait & _) _].
  fold s in Hnd, Hv, Hrun, Hwait.
  split; [by rewrite (assoc_L (++))|]. split.
  - intros a Ha. split; [apply Hv; set_solver|by apply Hrun].
  - intros a Ha. split; [apply Hv; set_solver|]. by destruct (Hwait a Ha).
Qed.

(** X25.  The statistics of [getQueueStats] in every state the queue
    reaches, whether its progress subscribers return or throw: the four
    status counts leave out the jobs whose status is [retrying]; together
    with those they add up to [totalJobs], which is the number of keys of
    the job map, and [queueLength] is the length of the pending pool. *)
Theorem getQueueStats_accounting (calls : list SubscribedQueue.Call) :
  let s :=
    SubscribedQueue.members
      (SubscribedQueue.run SubscribedQueue.initial calls) in
  (QueueStats.pending (getQueueStats s)
   + QueueStats.running (getQueueStats s)
   + QueueStats.completed (getQueueStats s)
   + QueueStats.failed (getQueueStats s)
   + length (getJobsByStatus Job.retrying s)
   = QueueStats.totalJobs (getQueueStats s))%nat
  ∧ QueueStats.totalJobs (getQueueStats s) = size (jobs s)
  ∧ QueueStats.queueLength (getQueueStats s) = length (queue s).
Proof.
  intros s.
  destruct (run_sound calls SubscribedQueue.initial initial_sound)
    as [_ Hreg].
  fold s in Hreg. unfold getQueueStats. cbv zeta.
  cbn [QueueStats.running QueueStats.pending QueueStats.completed
       QueueStats.failed QueueStats.totalJobs QueueStats.queueLength].
  split; [apply status_partition|].
  split; [by apply length_getAllJobs_registered|done].
Qed.

End WhateverSubscribersDo.
